(** * AI video generation app: the generation lifecycle, its proxy route,
      API client and history store

    A shallow embedding of
      - [src/app/api/generate-video/route.ts]  (the proxy endpoint),
      - [lib/video-api]                        (API client, request validator,
                                                history store; its text is
                                                in [TODO.md]),
      - [src/hooks/use-video-generation.ts]    (the lifecycle tracker hook),
      - the page / [VideoGenerator] / [GenerationQueue] components
        (the component path that the page actually mounts),
      - [src/components/GenerationHistory.tsx], [PromptInput.tsx] and
        [VideoPreview.tsx] (the list shown, the suggestions and their
        keyboard, the time label).

    Conventions of the embedding.
      - A JS [number] is a rational ([Q]); [Math.random()] and the clock are
        inputs of the functions that read them.  Part V, where the text of
        a number matters, takes it as the double it is.
      - A JS [string] is a [string]; [trim] strips ASCII white space.
      - An optional property ([videoUrl?: string]) is an [option].
      - A value that may be thrown is a [Completion]: [Return] or [Throw].
      - React state updaters are applied once, in the order the handlers
        register them; a pending continuation ([await], [setTimeout]) is an
        entry of the tracker state that a later event resumes. *)

From Stdlib Require Import String Ascii List Bool Arith NArith ZArith.
From Stdlib Require Import QArith Qminmax Qround Lia Lqa.
From Stdlib Require Import Permutation Sorted.
From Stdlib Require Import DecimalString DecimalN.
Import ListNotations.

Local Open Scope list_scope.
Local Open Scope string_scope.

(* ================================================================= *)
(** * Part I: the program *)
(* ================================================================= *)

(** ** JavaScript values used by the sources *)

Module JS.

(** [String.prototype.trim] over ASCII white space
    (TAB, LF, VT, FF, CR, SPACE). *)
Definition is_whitespace (c : ascii) : bool :=
  let n := nat_of_ascii c in
  (n =? 32)%nat || ((9 <=? n)%nat && (n <=? 13)%nat).

Fixpoint trimStart (s : string) : string :=
  match s with
  | EmptyString => EmptyString
  | String c s' => if is_whitespace c then trimStart s' else s
  end.

Fixpoint trimEnd (s : string) : string :=
  match s with
  | EmptyString => EmptyString
  | String c s' =>
      match trimEnd s' with
      | EmptyString =>
          if is_whitespace c then EmptyString else String c EmptyString
      | t => String c t
      end
  end.

Definition trim (s : string) : string := trimEnd (trimStart s).

(** Truthiness of a string: only the empty string is falsy. *)
Definition truthy (s : string) : bool :=
  match s with EmptyString => false | _ => true end.

(** [a || b] on optional strings, as in [response.error || 'Generation failed']. *)
Definition or_else (a : option string) (b : string) : string :=
  match a with
  | Some s => if truthy s then s else b
  | None => b
  end.

(** [s.includes(sub)]. *)
Definition includes (s sub : string) : bool :=
  match index 0 sub s with Some _ => true | None => false end.

(** [s.toLowerCase()] on ASCII letters. *)
Definition lower_char (c : ascii) : ascii :=
  let n := nat_of_ascii c in
  if ((65 <=? n)%nat && (n <=? 90)%nat) then ascii_of_nat (n + 32) else c.

Fixpoint toLowerCase (s : string) : string :=
  match s with
  | EmptyString => EmptyString
  | String c s' => String (lower_char c) (toLowerCase s')
  end.

(** Template-literal rendering of a non-negative integer
    ([Date.now()], an HTTP status). *)
Definition decimal (n : N) : string := NilEmpty.string_of_uint (N.to_uint n).

(** [xs.includes(x)] on numbers. *)
Definition includes_number (xs : list Q) (x : Q) : bool :=
  existsb (fun y => Qeq_bool y x) xs.

(** [xs.includes(x)] on strings. *)
Definition includes_string (xs : list string) (x : string) : bool :=
  existsb (fun y => String.eqb y x) xs.

(** [a < b] on numbers. *)
Definition lt (a b : Q) : bool := negb (Qle_bool b a).

(** What a [throw] can carry: an [Error] with its message, or any
    other value ([error instanceof Error] is false for it). *)
Inductive Thrown : Type :=
| ErrorObject (message : string)
| OtherValue.

(** [error instanceof Error ? error.message : fallback]. *)
Definition message_or (e : Thrown) (fallback : string) : string :=
  match e with
  | ErrorObject m => m
  | OtherValue => fallback
  end.

(** The outcome of evaluating an expression or awaiting a promise. *)
Inductive Completion (A : Type) : Type :=
| Return (a : A)
| Throw (e : Thrown).

Arguments Return {A} a.
Arguments Throw {A} e.

Definition bind {A B} (c : Completion A) (k : A -> Completion B) : Completion B :=
  match c with
  | Return a => k a
  | Throw e => Throw e
  end.

(** [try { c } catch (error) { handler error }]. *)
Definition try_catch {A} (c : Completion A) (handler : Thrown -> Completion A)
  : Completion A :=
  match c with
  | Return a => Return a
  | Throw e => handler e
  end.

End JS.

Notation "x <- c ;; k" := (JS.bind c (fun x => k))
  (at level 61, c at next level, right associativity).

(** ** JSON values and the built-in [JSON] object *)

(** A value that [JSON.parse] can return (what the sources type as [any]). *)
Local Unset Elimination Schemes.
Inductive json : Type :=
| JNull
| JBool (b : bool)
| JNumber (x : Q)
| JString (s : string)
| JArray (items : list json)
| JObject (members : list (string * json)).
Local Set Elimination Schemes.

(** The built-in [JSON] object, as far as the sources use it.  It is part
    of the platform, not of the repository: the store is verified against
    this interface, whose laws say that a text written by
    [JSON.stringify] is read back by [JSON.parse] as the value written,
    and that [JSON.parse] rejects the empty text. *)
Class JSON : Type := {
  (** [JSON.stringify(v)] *)
  stringify : json -> string;
  (** [JSON.stringify(v, null, 2)] *)
  stringify_indented : json -> string;
  (** [JSON.parse(text)]; a [SyntaxError] is a [Throw] *)
  parse : string -> JS.Completion json;
  parse_stringify : forall v, parse (stringify v) = JS.Return v;
  parse_stringify_indented : forall v, parse (stringify_indented v) = JS.Return v;
  parse_empty : forall v, parse "" <> JS.Return v
}.

(** [Array.isArray(v)]. *)
Definition isArray (v : json) : bool :=
  match v with JArray _ => true | _ => false end.

(** [[...v.slice(0, 49)]]: an array keeps its first 49 items, a string
    its first 49 characters (spread one by one); any other parsed value
    has no [slice] method and the call throws a [TypeError]. *)
Definition spread_slice_0_49 (v : json) : JS.Completion (list json) :=
  match v with
  | JArray items => JS.Return (firstn 49 items)
  | JString s =>
      JS.Return (map (fun c => JString (String c EmptyString))
                     (list_ascii_of_string (substring 0 49 s)))
  | _ => JS.Throw (JS.ErrorObject "history.slice is not a function")
  end.

(** ** Data model (the interfaces shared by the sources) *)

Inductive Status : Type := processing | completed | failed.

Definition Status_eqb (a b : Status) : bool :=
  match a, b with
  | processing, processing | completed, completed | failed, failed => true
  | _, _ => false
  end.

(** [interface VideoGenerationRequest].  The body reaches the route as
    parsed JSON, so [prompt] may be missing; the literal union of
    [aspectRatio] is not enforced at run time and is a string here. *)
Record VideoGenerationRequest : Type := {
  prompt : option string;
  duration : Q;
  aspectRatio : string;
  style : string;
  quality : string
}.

(** [interface VideoGenerationResponse]. *)
Record VideoGenerationResponse : Type := {
  success : bool;
  videoUrl : option string;
  error : option string;
  taskId : option string;
  status : option Status;
  estimatedTime : option Q
}.

(** [{ success: false, error: msg }] and [{ success: false, error: msg, status: 'failed' }]. *)
Definition failure (msg : string) (st : option Status) : VideoGenerationResponse :=
  {| success := false; videoUrl := None; error := Some msg;
     taskId := None; status := st; estimatedTime := None |}.

(** ** lib/video-api: validator, API client and history store *)

Module VideoApi.

(** *** [validateVideoRequest] *)

Definition validateVideoRequest (request : VideoGenerationRequest) : option string :=
  match prompt request with
  | None => Some "Prompt is required"
  | Some p =>
      if negb (JS.truthy p) || (String.length (JS.trim p) =? 0)%nat
      then Some "Prompt is required"
      else if (1000 <? String.length p)%nat
      then Some "Prompt must be less than 1000 characters"
      else
        let validDurations := [5; 10; 15; 30]%Q in
        if negb (JS.includes_number validDurations (duration request))
        then Some "Duration must be 5, 10, 15, or 30 seconds"
        else
          let validAspectRatios := ["16:9"; "9:16"; "1:1"] in
          if negb (JS.includes_string validAspectRatios (aspectRatio request))
          then Some "Invalid aspect ratio"
          else None
  end.

(** *** [class VideoGenerationAPI] *)

(** The request handed to [fetch]: the URL, the method, and the object
    that [JSON.stringify] turns into the body (none for a GET). *)
Record FetchRequest : Type := {
  fetch_url : string;
  fetch_method : string;
  fetch_body : option VideoGenerationRequest
}.

(** The [Response] a resolved [fetch] gives: its status code and what
    [await response.json()] comes to. *)
Record FetchResponse : Type := {
  res_status : N;
  res_json : JS.Completion VideoGenerationResponse
}.

(** [response.ok]: the status is in the range 200-299. *)
Definition res_ok (response : FetchResponse) : bool :=
  ((200 <=? res_status response) && (res_status response <=? 299))%N.

Section Client.

(** The transport: a rejected promise is a [Throw]. *)
Variable fetch : FetchRequest -> JS.Completion FetchResponse.
(** [this.baseUrl], ['/api'] by default. *)
Variable baseUrl : string.

Definition generateVideo (request : VideoGenerationRequest)
  : JS.Completion VideoGenerationResponse :=
  JS.try_catch
    (response <- fetch {| fetch_url := baseUrl ++ "/generate-video";
                          fetch_method := "POST";
                          fetch_body := Some request |} ;;
     if negb (res_ok response)
     then JS.Throw (JS.ErrorObject
                      ("HTTP error! status: " ++ JS.decimal (res_status response)))
     else
       result <- res_json response ;;
       JS.Return result)
    (fun error =>
       JS.Return (failure (JS.message_or error "Unknown error occurred") (Some failed))).

Definition checkStatus (task : string) : JS.Completion VideoGenerationResponse :=
  JS.try_catch
    (response <- fetch {| fetch_url := baseUrl ++ "/generate-video/status?taskId=" ++ task;
                          fetch_method := "GET";
                          fetch_body := None |} ;;
     if negb (res_ok response)
     then JS.Throw (JS.ErrorObject
                      ("HTTP error! status: " ++ JS.decimal (res_status response)))
     else
       result <- res_json response ;;
       JS.Return result)
    (fun error =>
       JS.Return (failure (JS.message_or error "Unknown error occurred") (Some failed))).

End Client.

(** *** Storage helpers for the generation history *)

(** The item of [localStorage] under the key ['video-generation-history']:
    [None] when the key is absent. *)
Definition Storage : Type := option string.

Section Store.

Context {codec : JSON}.

Definition getGenerationHistory (st : Storage) : json :=
  let attempt : JS.Completion json :=
    match st with
    | Some history =>
        if JS.truthy history then parse history else JS.Return (JArray [])
    | None => JS.Return (JArray [])
    end in
  match attempt with
  | JS.Return v => v
  | JS.Throw _ => JArray []
  end.

(** [quota_ok] tells whether [localStorage.setItem] succeeds; when it
    throws (quota exceeded) the [catch] logs and the item stays as it was. *)
Definition saveGenerationToHistory (generation : json) (st : Storage)
    (quota_ok : bool) : Storage :=
  let history := getGenerationHistory st in
  match spread_slice_0_49 history with
  | JS.Throw _ => st
  | JS.Return kept =>
      let updatedHistory := JArray (generation :: kept) in
      if quota_ok then Some (stringify updatedHistory) else st
  end.

Definition clearGenerationHistory (st : Storage) : Storage := None.

Definition exportGenerationHistory (st : Storage) : string :=
  let history := getGenerationHistory st in
  stringify_indented history.

(** The returned boolean and the item afterwards. *)
Definition importGenerationHistory (data : string) (st : Storage)
    (quota_ok : bool) : bool * Storage :=
  match parse data with
  | JS.Return parsed =>
      if isArray parsed
      then if quota_ok then (true, Some data) else (false, st)
      else (false, st)
  | JS.Throw _ => (false, st)
  end.

End Store.

End VideoApi.

(** ** src/app/api/generate-video/route.ts: the proxy endpoint *)

Module Route.

(** [NextResponse.json(body, { status })]; the status defaults to 200. *)
Record NextResponse : Type := {
  http_status : N;
  json_body : VideoGenerationResponse
}.

(** The one outgoing request of the handler: the [fetch] of the
    provider's chat-completions endpoint, with the model name and the
    single user message it posts. *)
Record ProviderCall : Type := {
  url : string;
  model : string;
  content : string
}.

(** What the provider call can come to. *)
Inductive ProviderOutcome : Type :=
| FetchRejects (e : JS.Thrown)
    (* the promise of [fetch] rejects *)
| NotOk (code : N) (statusText : string)
    (* [response.ok] is false *)
| BodyRejects (e : JS.Thrown)
    (* [response.json()] rejects *)
| NoMessage
    (* JSON without [choices[0].message] *)
| Message (text : string).
    (* [choices[0].message.content] *)

Section Handler.

(** Template-literal rendering of a number, [`${duration}`]. *)
Variable Number_toString : Q -> string.
(** [content.match(/https?:\/\/[^\s]+\.mp4/)], the matched text if any. *)
Variable match_mp4 : string -> option string.

Definition createEnhancedPrompt (request : VideoGenerationRequest) (p : string) : string :=
  let enhancedPrompt := "Generate a " ++ Number_toString (duration request) ++ "-second video" in
  let enhancedPrompt :=
    enhancedPrompt ++
    (if String.eqb (aspectRatio request) "16:9" then " in widescreen format (16:9)"
     else if String.eqb (aspectRatio request) "9:16" then " in portrait format (9:16)"
     else " in square format (1:1)") in
  let enhancedPrompt :=
    if String.eqb (quality request) "high"
    then enhancedPrompt ++ ", high quality, 4K resolution"
    else enhancedPrompt in
  let enhancedPrompt :=
    if JS.truthy (style request) && negb (String.eqb (style request) "default")
    then enhancedPrompt ++ ", " ++ JS.toLowerCase (style request) ++ " style"
    else enhancedPrompt in
  let enhancedPrompt := enhancedPrompt ++ ": " ++ p in
  enhancedPrompt ++ ". Ensure smooth motion, clear visuals, and professional quality.".

Definition estimateProcessingTime (d : Q) (q : string) : Q :=
  let baseTime := (d * 10)%Q in
  let baseTime := if String.eqb q "high" then (baseTime * 1.5)%Q else baseTime in
  Qmax baseTime 30.

Definition generateTaskId (now : N) (rnd : string) : string :=
  "task_" ++ JS.decimal now ++ "_" ++ rnd.

Definition provider_call (body : VideoGenerationRequest) (p : string) : ProviderCall :=
  {| url := "https://oi-server.onrender.com/chat/completions";
     model := "replicate/google/veo-3";
     content := createEnhancedPrompt body p |}.

Definition respond (code : N) (b : VideoGenerationResponse) : NextResponse :=
  {| http_status := code; json_body := b |}.

(** The part of [POST] after validation: one provider call and the
    reshaping of its outcome. *)
Definition forward (body : VideoGenerationRequest) (p : string)
    (provider : ProviderCall -> ProviderOutcome) (now : N) (rnd : string)
  : list ProviderCall * JS.Completion NextResponse :=
  let call := provider_call body p in
  ([call],
   match provider call with
   | FetchRejects e => JS.Throw e
   | NotOk code statusText =>
       JS.Return (respond 500
         (failure ("Failed to generate video: " ++ JS.decimal code ++ " " ++ statusText)
                  (Some failed)))
   | BodyRejects e => JS.Throw e
   | NoMessage =>
       JS.Return (respond 500
         (failure "Invalid response from video generation service" (Some failed)))
   | Message text =>
       match match_mp4 text with
       | Some found =>
           JS.Return (respond 200
             {| success := true; videoUrl := Some found; error := None;
                taskId := None; status := Some completed; estimatedTime := None |})
       | None =>
           if JS.includes text "processing" || JS.includes text "generating"
           then
             JS.Return (respond 200
               {| success := true; videoUrl := None; error := None;
                  taskId := Some (generateTaskId now rnd);
                  status := Some processing;
                  estimatedTime :=
                    Some (estimateProcessingTime (duration body) (quality body)) |})
           else
             JS.Return (respond 200
               {| success := true; videoUrl := Some (JS.trim text); error := None;
                  taskId := None; status := Some completed; estimatedTime := None |})
       end
   end).

(** [export async function POST(request)].  [request_json] is the outcome
    of [await request.json()]; [provider] answers the outgoing call; [now]
    and [rnd] feed [generateTaskId].  The result is the list of provider
    calls made and the response sent. *)
Definition POST (request_json : JS.Completion VideoGenerationRequest)
    (provider : ProviderCall -> ProviderOutcome) (now : N) (rnd : string)
  : list ProviderCall * NextResponse :=
  let attempt : list ProviderCall * JS.Completion NextResponse :=
    match request_json with
    | JS.Throw e => ([], JS.Throw e)
    | JS.Return body =>
        match prompt body with
        | None => ([], JS.Return (respond 400 (failure "Prompt is required" None)))
        | Some p =>
            if negb (JS.truthy p) || (String.length (JS.trim p) =? 0)%nat
            then ([], JS.Return (respond 400 (failure "Prompt is required" None)))
            else if (1000 <? String.length p)%nat
            then ([], JS.Return (respond 400
                        (failure "Prompt must be less than 1000 characters" None)))
            else
              let validDurations := [5; 10; 15; 30]%Q in
              if negb (JS.includes_number validDurations (duration body))
              then ([], JS.Return (respond 400
                          (failure "Duration must be 5, 10, 15, or 30 seconds" None)))
              else
                let validAspectRatios := ["16:9"; "9:16"; "1:1"] in
                if negb (JS.includes_string validAspectRatios (aspectRatio body))
                then ([], JS.Return (respond 400 (failure "Invalid aspect ratio" None)))
                else forward body p provider now rnd
        end
    end in
  (fst attempt,
   match snd attempt with
   | JS.Return r => r
   | JS.Throw e =>
       respond 500 (failure (JS.message_or e "Internal server error") (Some failed))
   end).

End Handler.

End Route.

(** ** The generation record *)

(** A clock reading in milliseconds ([Date.now()]); [new Date().toISOString()]
    is kept as the reading it renders. *)
Definition Timestamp : Type := N.

(** [interface GenerationConfig]. *)
Record GenerationConfig : Type := {
  cfg_duration : Q;
  cfg_aspectRatio : string;
  cfg_style : string;
  cfg_quality : string
}.

(** [interface Generation]. *)
Record Generation : Type := {
  gen_id : string;
  gen_prompt : string;
  gen_config : GenerationConfig;
  gen_status : Status;
  gen_createdAt : Timestamp;
  gen_completedAt : option Timestamp;
  gen_videoUrl : option string;
  gen_error : option string;
  gen_progress : Q;
  gen_taskId : option string
}.

(** [g.id !== id] and [g.id === id]. *)
Definition id_differs (id : string) (g : Generation) : bool :=
  negb (String.eqb (gen_id g) id).

Definition id_is (id : string) (g : Generation) : bool :=
  String.eqb (gen_id g) id.

(** ** src/hooks/use-video-generation.ts: the lifecycle tracker *)

Module Hook.

(** A call of the storage helpers, recorded in the order made
    (most recent first). *)
Inductive StoreCall : Type :=
| SaveGenerationToHistory (g : Generation)
| RemoveItem.

(** The three [useState] cells, the log of storage calls, and the two
    kinds of pending continuation: a [generateVideo] suspended at its
    [await] (it holds the [generation] it built), and a [setTimeout]
    callback of [pollForCompletion] (it holds the [generationId]). *)
Record State : Type := {
  activeGenerations : list Generation;
  generationHistory : list Generation;
  isGenerating : bool;
  storeCalls : list StoreCall;
  awaiting : list Generation;
  timers : list string
}.

(** The state after the mount effect loaded [history]. *)
Definition mounted (history : list Generation) : State :=
  {| activeGenerations := []; generationHistory := history;
     isGenerating := false; storeCalls := [];
     awaiting := []; timers := [] |}.

Definition generateUniqueId (now : N) (rnd : string) : string :=
  "gen_" ++ JS.decimal now ++ "_" ++ rnd.

(** *** The progress ticker ([setInterval], every 3000 ms) *)

(** One element of the [map]; [r] is the value of [Math.random()]. *)
Definition tick_generation (r : Q) (gen : Generation) : Generation :=
  match gen_status gen with
  | processing =>
      if JS.lt (gen_progress gen) 90
      then
        let increment := (r * 8 + 2)%Q in
        let newProgress := Qmin (gen_progress gen + increment) 90 in
        {| gen_id := gen_id gen; gen_prompt := gen_prompt gen;
           gen_config := gen_config gen; gen_status := gen_status gen;
           gen_createdAt := gen_createdAt gen;
           gen_completedAt := gen_completedAt gen;
           gen_videoUrl := gen_videoUrl gen; gen_error := gen_error gen;
           gen_progress := newProgress; gen_taskId := gen_taskId gen |}
      else gen
  | _ => gen
  end.

(** [prev.map(gen => ...)]; the element at position [i] draws [random i]. *)
Fixpoint tick_from (random : nat -> Q) (i : nat) (prev : list Generation)
  : list Generation :=
  match prev with
  | [] => []
  | gen :: rest => tick_generation (random i) gen :: tick_from random (S i) rest
  end.

Definition tick (random : nat -> Q) (s : State) : State :=
  {| activeGenerations := tick_from random 0 (activeGenerations s);
     generationHistory := generationHistory s;
     isGenerating := isGenerating s;
     storeCalls := storeCalls s;
     awaiting := awaiting s;
     timers := timers s |}.

(** *** [generateVideo], up to its [await] *)

Definition new_generation (p : string) (config : GenerationConfig)
    (now : N) (rnd : string) : Generation :=
  {| gen_id := generateUniqueId now rnd;
     gen_prompt := JS.trim p;
     gen_config := config;
     gen_status := processing;
     gen_createdAt := now;
     gen_completedAt := None;
     gen_videoUrl := None;
     gen_error := None;
     gen_progress := 0;
     gen_taskId := None |}.

Definition generateVideo_call (p : string) (config : GenerationConfig)
    (now : N) (rnd : string) (s : State) : State :=
  let generation := new_generation p config now rnd in
  {| activeGenerations := activeGenerations s ++ [generation];
     generationHistory := generationHistory s;
     isGenerating := true;
     storeCalls := storeCalls s;
     awaiting := awaiting s ++ [generation];
     timers := timers s |}.

(** [retryGeneration]: a new call with the prompt and the configuration
    of [generation]. *)
Definition retryGeneration (generation : Generation) (now : N) (rnd : string)
    (s : State) : State :=
  generateVideo_call (gen_prompt generation) (gen_config generation) now rnd s.

(** The request that the suspended call has handed to [videoAPI.generateVideo]. *)
Definition api_request (p : string) (config : GenerationConfig)
  : VideoGenerationRequest :=
  {| prompt := Some (JS.trim p);
     duration := cfg_duration config;
     aspectRatio := cfg_aspectRatio config;
     style := cfg_style config;
     quality := cfg_quality config |}.

(** *** [generateVideo], from its [await] on *)

(** [{ ...generation, status: 'completed', videoUrl, completedAt, progress: 100 }]. *)
Definition completed_from (generation : Generation) (link : string) (now : N)
  : Generation :=
  {| gen_id := gen_id generation; gen_prompt := gen_prompt generation;
     gen_config := gen_config generation; gen_status := completed;
     gen_createdAt := gen_createdAt generation;
     gen_completedAt := Some now;
     gen_videoUrl := Some link; gen_error := gen_error generation;
     gen_progress := 100; gen_taskId := gen_taskId generation |}.

(** [{ ...generation, status: 'failed', error, completedAt, progress: 0 }]. *)
Definition failed_from (generation : Generation) (msg : string) (now : N)
  : Generation :=
  {| gen_id := gen_id generation; gen_prompt := gen_prompt generation;
     gen_config := gen_config generation; gen_status := failed;
     gen_createdAt := gen_createdAt generation;
     gen_completedAt := Some now;
     gen_videoUrl := gen_videoUrl generation; gen_error := Some msg;
     gen_progress := 0; gen_taskId := gen_taskId generation |}.

(** [{ ...generation, status: 'failed', error: 'Cancelled by user', completedAt }]. *)
Definition cancelled_from (generation : Generation) (now : N) : Generation :=
  {| gen_id := gen_id generation; gen_prompt := gen_prompt generation;
     gen_config := gen_config generation; gen_status := failed;
     gen_createdAt := gen_createdAt generation;
     gen_completedAt := Some now;
     gen_videoUrl := gen_videoUrl generation;
     gen_error := Some "Cancelled by user";
     gen_progress := gen_progress generation;
     gen_taskId := gen_taskId generation |}.

(** [{ ...g, taskId: response.taskId, progress: 5 }]. *)
Definition with_task (g : Generation) (task : option string) : Generation :=
  {| gen_id := gen_id g; gen_prompt := gen_prompt g;
     gen_config := gen_config g; gen_status := gen_status g;
     gen_createdAt := gen_createdAt g;
     gen_completedAt := gen_completedAt g;
     gen_videoUrl := gen_videoUrl g; gen_error := gen_error g;
     gen_progress := 5; gen_taskId := task |}.

(** Move a terminal record from the active list to the history:
    [setActiveGenerations(prev => prev.filter(g => g.id !== id))],
    [setGenerationHistory(prev => [record, ...prev])],
    [saveGenerationToHistory(record)]. *)
Definition move_to_history (record : Generation) (s : State) : State :=
  {| activeGenerations := filter (id_differs (gen_id record)) (activeGenerations s);
     generationHistory := record :: generationHistory s;
     isGenerating := isGenerating s;
     storeCalls := SaveGenerationToHistory record :: storeCalls s;
     awaiting := awaiting s;
     timers := timers s |}.

(** The [try] block after the [await]: [JS.Return b] is the value
    returned, with the state it leaves; a [JS.Throw] goes to the [catch]. *)
Definition after_await (generation : Generation)
    (response : VideoGenerationResponse) (now : N) (s : State)
  : JS.Completion (bool * State) :=
  let rejected : JS.Completion (bool * State) :=
    JS.Throw (JS.ErrorObject (JS.or_else (error response) "Generation failed")) in
  if success response then
    match status response, videoUrl response with
    | Some completed, Some link =>
        if JS.truthy link
        then
          let completedGeneration := completed_from generation link now in
          JS.Return (true, move_to_history completedGeneration s)
        else rejected
    | Some processing, _ =>
        JS.Return (true,
          {| activeGenerations :=
               map (fun g => if id_is (gen_id generation) g
                             then with_task g (taskId response) else g)
                   (activeGenerations s);
             generationHistory := generationHistory s;
             isGenerating := isGenerating s;
             storeCalls := storeCalls s;
             awaiting := awaiting s;
             (* pollForCompletion(generation.id, response.taskId) *)
             timers := timers s ++ [gen_id generation] |})
    | _, _ => rejected
    end
  else rejected.

Definition set_isGenerating (b : bool) (s : State) : State :=
  {| activeGenerations := activeGenerations s;
     generationHistory := generationHistory s;
     isGenerating := b;
     storeCalls := storeCalls s;
     awaiting := awaiting s;
     timers := timers s |}.

(** The continuation of [generateVideo]: [awaited] is what
    [await videoAPI.generateVideo(...)] comes to.  The result is the
    boolean the promise resolves to and the state after [finally]. *)
Definition generateVideo_continue (generation : Generation)
    (awaited : JS.Completion VideoGenerationResponse) (now : N) (s : State)
  : bool * State :=
  let tried := response <- awaited ;; after_await generation response now s in
  let caught :=
    match tried with
    | JS.Return r => r
    | JS.Throw e =>
        let failedGeneration :=
          failed_from generation (JS.message_or e "Unknown error") now in
        (false, move_to_history failedGeneration s)
    end in
  (fst caught, set_isGenerating false (snd caught)).

(** *** [pollForCompletion]: the [setTimeout] callback *)

Definition placeholder_video : string :=
  "https://storage.googleapis.com/workspace-0f70711f-8b4e-4d94-86f1-2a93ccde5887/image/eb71a242-4475-492a-b448-b8cb1f9c56af.png".

Definition pollForCompletion_callback (generationId : string) (now : N)
    (s : State) : State :=
  match find (id_is generationId) (activeGenerations s) with
  | None => s
  | Some generation =>
      let completedGeneration := completed_from generation placeholder_video now in
      move_to_history completedGeneration s
  end.

(** *** [cancelGeneration] *)

Definition cancelGeneration (id : string) (now : N) (s : State) : State :=
  match find (id_is id) (activeGenerations s) with
  | None => s
  | Some generation =>
      let cancelledGeneration := cancelled_from generation now in
      move_to_history cancelledGeneration s
  end.

(** *** [clearHistory] *)

Definition clearHistory (s : State) : State :=
  {| activeGenerations := activeGenerations s;
     generationHistory := [];
     isGenerating := isGenerating s;
     storeCalls := RemoveItem :: storeCalls s;
     awaiting := awaiting s;
     timers := timers s |}.

(** *** Helpers *)

Definition getGenerationById (id : string) (s : State) : option Generation :=
  find (id_is id) (activeGenerations s ++ generationHistory s).

Definition getActiveCount (s : State) : nat := length (activeGenerations s).

Definition getCompletedCount (s : State) : nat :=
  length (filter (fun g => Status_eqb (gen_status g) completed) (generationHistory s)).

Definition getFailedCount (s : State) : nat :=
  length (filter (fun g => Status_eqb (gen_status g) failed) (generationHistory s)).

(** *** The event loop *)

Fixpoint remove_nth {A} (k : nat) (l : list A) : list A :=
  match k, l with
  | _, [] => []
  | O, _ :: rest => rest
  | S k', x :: rest => x :: remove_nth k' rest
  end.

Definition drop_awaiting (k : nat) (s : State) : State :=
  {| activeGenerations := activeGenerations s;
     generationHistory := generationHistory s;
     isGenerating := isGenerating s;
     storeCalls := storeCalls s;
     awaiting := remove_nth k (awaiting s);
     timers := timers s |}.

Definition drop_timer (k : nat) (s : State) : State :=
  {| activeGenerations := activeGenerations s;
     generationHistory := generationHistory s;
     isGenerating := isGenerating s;
     storeCalls := storeCalls s;
     awaiting := awaiting s;
     timers := remove_nth k (timers s) |}.

(** What the single thread can run next. *)
Inductive Event : Type :=
| CallGenerateVideo (p : string) (config : GenerationConfig) (now : N) (rnd : string)
| RetryGeneration (generation : Generation) (now : N) (rnd : string)
| ResumeGenerateVideo (k : nat) (awaited : JS.Completion VideoGenerationResponse)
                      (now : N)
| TimerFires (k : nat) (now : N)
| CallCancelGeneration (id : string) (now : N)
| IntervalFires (random : nat -> Q)
| CallClearHistory.

Definition step (s : State) (e : Event) : State :=
  match e with
  | CallGenerateVideo p config now rnd => generateVideo_call p config now rnd s
  | RetryGeneration generation now rnd => retryGeneration generation now rnd s
  | ResumeGenerateVideo k awaited now =>
      match nth_error (awaiting s) k with
      | Some generation =>
          snd (generateVideo_continue generation awaited now (drop_awaiting k s))
      | None => s
      end
  | TimerFires k now =>
      match nth_error (timers s) k with
      | Some generationId =>
          pollForCompletion_callback generationId now (drop_timer k s)
      | None => s
      end
  | CallCancelGeneration id now => cancelGeneration id now s
  | IntervalFires random => tick random s
  | CallClearHistory => clearHistory s
  end.

Definition run (s : State) (events : list Event) : State :=
  fold_left step events s.

(** The states the hook can be in: mounted with some loaded history,
    then any sequence of events. *)
Inductive reachable : State -> Prop :=
| reachable_mounted : forall history, reachable (mounted history)
| reachable_step : forall s e, reachable s -> reachable (step s e).

End Hook.

(** ** The component path: the page, [VideoGenerator] and [GenerationQueue] *)

Module Page.

(** A [setTimeout] callback of [VideoGenerator.pollForCompletion] that
    has not fired yet: the [generationId] it was given, and the form
    state ([prompt], [config]) its closure captured. *)
Record PendingCompletion : Type := {
  pending_id : string;
  pending_prompt : string;
  pending_config : GenerationConfig
}.

(** The two [useState] cells of [HomePage]; [localGenerations] of
    [GenerationQueue], which an effect resets to the [generations] prop
    whenever the page replaces its active list; and the pending
    completion callbacks. *)
Record State : Type := {
  activeGenerations : list Generation;
  generationHistory : list Generation;
  localGenerations : list Generation;
  timers : list PendingCompletion
}.

Definition mounted : State :=
  {| activeGenerations := []; generationHistory := [];
     localGenerations := []; timers := [] |}.

(** [HomePage.handleNewGeneration]. *)
Definition handleNewGeneration (generation : Generation) (s : State) : State :=
  let next := (activeGenerations s ++ [generation])%list in
  {| activeGenerations := next;
     generationHistory := generationHistory s;
     localGenerations := next;
     timers := timers s |}.

(** [HomePage.handleGenerationComplete]. *)
Definition handleGenerationComplete (completedGeneration : Generation) (s : State)
  : State :=
  let next := filter (id_differs (gen_id completedGeneration)) (activeGenerations s) in
  {| activeGenerations := next;
     generationHistory := completedGeneration :: generationHistory s;
     localGenerations := next;
     timers := timers s |}.

(** [HomePage.handleGenerationError]. *)
Definition handleGenerationError (failedGeneration : Generation) (s : State) : State :=
  let next := filter (id_differs (gen_id failedGeneration)) (activeGenerations s) in
  {| activeGenerations := next;
     generationHistory := generationHistory s;
     localGenerations := next;
     timers := timers s |}.

Definition placeholder_video : string :=
  "https://storage.googleapis.com/workspace-0f70711f-8b4e-4d94-86f1-2a93ccde5887/image/89456a6b-66dd-4b55-8ed2-54af18d10554.png".

(** The record that [VideoGenerator.handleGenerate] builds. *)
Definition new_generation (p : string) (config : GenerationConfig)
    (now : N) (rnd : string) : Generation :=
  {| gen_id := "gen_" ++ JS.decimal now ++ "_" ++ rnd;
     gen_prompt := JS.trim p;
     gen_config := config;
     gen_status := processing;
     gen_createdAt := now;
     gen_completedAt := None;
     gen_videoUrl := None;
     gen_error := None;
     gen_progress := 0;
     gen_taskId := None |}.

(** [VideoGenerator.handleGenerate], up to its [await]: the two checks,
    then the new record handed to the page.  [None] is the early
    [return] after the error toast. *)
Definition handleGenerate_call (p : string) (config : GenerationConfig)
    (now : N) (rnd : string) (s : State) : option State :=
  if negb (JS.truthy (JS.trim p)) then None
  else if (1000 <? String.length p)%nat then None
  else Some (handleNewGeneration (new_generation p config now rnd) s).

(** [VideoGenerator.handleGenerate], from its [await] on.  [awaited] is
    what [await response.json()] comes to (a [Throw] when the fetch or
    the parsing rejects); [p] and [config] are the form state. *)
Definition handleGenerate_continue (generation : Generation) (p : string)
    (config : GenerationConfig) (awaited : JS.Completion VideoGenerationResponse)
    (now : N) (s : State) : State :=
  let tried : JS.Completion State :=
    result <- awaited ;;
    if success result then
      match status result, videoUrl result with
      | Some completed, Some link =>
          if JS.truthy link
          then JS.Return (handleGenerationComplete
                            (Hook.completed_from generation link now) s)
          else JS.Return s
      | Some processing, _ =>
          (* pollForCompletion(generation.id, result.taskId) *)
          JS.Return
            {| activeGenerations := activeGenerations s;
               generationHistory := generationHistory s;
               localGenerations := localGenerations s;
               timers := timers s ++ [ {| pending_id := gen_id generation;
                                          pending_prompt := p;
                                          pending_config := config |} ] |}
      | _, _ => JS.Return s
      end
    else JS.Throw (JS.ErrorObject (JS.or_else (error result) "Failed to generate video")) in
  match tried with
  | JS.Return s' => s'
  | JS.Throw e =>
      let errorGeneration :=
        {| gen_id := gen_id generation; gen_prompt := gen_prompt generation;
           gen_config := gen_config generation; gen_status := failed;
           gen_createdAt := gen_createdAt generation;
           gen_completedAt := Some now;
           gen_videoUrl := gen_videoUrl generation;
           gen_error := Some (JS.message_or e "Unknown error");
           gen_progress := gen_progress generation;
           gen_taskId := gen_taskId generation |} in
      handleGenerationError errorGeneration s
  end.

(** The [setTimeout] callback of [VideoGenerator.pollForCompletion]
    (5000 ms). *)
Definition pollForCompletion_callback (generationId : string) (p : string)
    (config : GenerationConfig) (now : N) (s : State) : State :=
  let completedGeneration :=
    {| gen_id := generationId;
       gen_prompt := JS.trim p;
       gen_config := config;
       gen_status := completed;
       gen_createdAt := now;
       gen_completedAt := Some now;
       gen_videoUrl := Some placeholder_video;
       gen_error := None;
       gen_progress := 100;
       gen_taskId := None |} in
  handleGenerationComplete completedGeneration s.

(** The [k]-th pending callback fires. *)
Definition timer_fires (k : nat) (now : N) (s : State) : State :=
  match nth_error (timers s) k with
  | Some pending =>
      pollForCompletion_callback (pending_id pending) (pending_prompt pending)
        (pending_config pending) now
        {| activeGenerations := activeGenerations s;
           generationHistory := generationHistory s;
           localGenerations := localGenerations s;
           timers := Hook.remove_nth k (timers s) |}
  | None => s
  end.

(** [GenerationQueue.handleCancelGeneration]. *)
Definition handleCancelGeneration (generationId : string) (now : N) (s : State)
  : State :=
  match find (id_is generationId) (localGenerations s) with
  | Some generation =>
      let cancelledGeneration := Hook.cancelled_from generation now in
      handleGenerationError cancelledGeneration s
  | None => s
  end.

End Page.

(* ================================================================= *)
(** * Part II: properties of the program *)
(* ================================================================= *)

(** ** JavaScript helpers *)

Lemma length_zero_empty (s : string) : (String.length s =? 0)%nat = true <-> s = "".
Proof.
  destruct s; simpl; split; intro H; try reflexivity; discriminate.
Qed.

Lemma prompt_check_spec (p : string) :
  negb (JS.truthy p) || (String.length (JS.trim p) =? 0)%nat = true <-> JS.trim p = "".
Proof.
  rewrite orb_true_iff, length_zero_empty. split.
  - intros [H | H]; [| exact H]. destruct p; [reflexivity | discriminate].
  - intro H. now right.
Qed.

Lemma includes_number_spec (xs : list Q) (x : Q) :
  JS.includes_number xs x = true <-> exists y, In y xs /\ y == x.
Proof.
  unfold JS.includes_number. rewrite existsb_exists.
  split; intros [y [Hin Hy]]; exists y; split; auto; now apply Qeq_bool_iff.
Qed.

Lemma includes_string_spec (xs : list string) (x : string) :
  JS.includes_string xs x = true <-> In x xs.
Proof.
  unfold JS.includes_string. rewrite existsb_exists. split.
  - intros [y [Hin Hy]]. apply String.eqb_eq in Hy. now subst.
  - intro Hin. exists x. split; [exact Hin | apply String.eqb_refl].
Qed.

(** ** The request validator and the route *)

(** What [validateVideoRequest] decides, rule by rule. *)
Lemma validateVideoRequest_None (request : VideoGenerationRequest) :
  VideoApi.validateVideoRequest request = None <->
  exists p, prompt request = Some p /\ JS.trim p <> "" /\
            (String.length p <= 1000)%nat /\
            (exists d, In d [5; 10; 15; 30]%Q /\ d == duration request) /\
            In (aspectRatio request) ["16:9"; "9:16"; "1:1"].
Proof.
  unfold VideoApi.validateVideoRequest.
  destruct (prompt request) as [p |].
  2:{ split; [discriminate | intros (p & H & _); discriminate]. }
  destruct (negb (JS.truthy p) || (String.length (JS.trim p) =? 0)%nat) eqn:Hp.
  { apply prompt_check_spec in Hp. split; [discriminate |].
    intros (q & Hq & Hne & _). injection Hq as <-. contradiction. }
  destruct (1000 <? String.length p)%nat eqn:Hlen.
  { apply Nat.ltb_lt in Hlen. split; [discriminate |].
    intros (q & Hq & _ & Hle & _). injection Hq as <-. lia. }
  cbv zeta.
  destruct (JS.includes_number [5; 10; 15; 30]%Q (duration request)) eqn:Hd;
    cbn [negb].
  2:{ split; [discriminate |].
      intros (q & _ & _ & _ & Hex & _).
      apply (proj2 (includes_number_spec _ _)) in Hex. congruence. }
  destruct (JS.includes_string ["16:9"; "9:16"; "1:1"] (aspectRatio request)) eqn:Ha;
    cbn [negb].
  2:{ split; [discriminate |].
      intros (q & _ & _ & _ & _ & Hin).
      apply (proj2 (includes_string_spec _ _)) in Hin. congruence. }
  split; [intros _ | reflexivity].
  exists p. split; [reflexivity |]. split.
  - intro He. apply prompt_check_spec in He. congruence.
  - split; [apply Nat.ltb_ge in Hlen; exact Hlen |].
    split; [now apply includes_number_spec | now apply includes_string_spec].
Qed.

(** The route runs the checks of [validateVideoRequest], in the same
    order and with the same messages, before it calls the provider. *)
Lemma POST_validation (Number_toString : Q -> string)
    (match_mp4 : string -> option string) (request : VideoGenerationRequest)
    (provider : Route.ProviderCall -> Route.ProviderOutcome) (now : N) (rnd : string) :
  match VideoApi.validateVideoRequest request with
  | Some msg =>
      Route.POST Number_toString match_mp4 (JS.Return request) provider now rnd
      = ([], Route.respond 400 (failure msg None))
  | None =>
      exists p, prompt request = Some p /\
        fst (Route.POST Number_toString match_mp4 (JS.Return request) provider now rnd)
        = [Route.provider_call Number_toString request p] /\
        Route.http_status
          (snd (Route.POST Number_toString match_mp4 (JS.Return request) provider now rnd))
        <> 400%N
  end.
Proof.
  unfold VideoApi.validateVideoRequest, Route.POST.
  destruct (prompt request) as [p |]; [| reflexivity].
  destruct (negb (JS.truthy p) || (String.length (JS.trim p) =? 0)%nat); [reflexivity |].
  destruct (1000 <? String.length p)%nat; [reflexivity |].
  cbv zeta.
  destruct (negb (JS.includes_number [5; 10; 15; 30]%Q (duration request)));
    [reflexivity |].
  destruct (negb (JS.includes_string ["16:9"; "9:16"; "1:1"] (aspectRatio request)));
    [reflexivity |].
  exists p. split; [reflexivity |]. split; [reflexivity |].
  unfold Route.forward. cbn [snd fst].
  destruct (provider _); cbn; try discriminate.
  destruct (match_mp4 text); cbn; [discriminate |].
  destruct (JS.includes text "processing" || JS.includes text "generating");
    cbn; discriminate.
Qed.

(** The rules of the submission interface, as a request can break them:
    no prompt (or only white space), a prompt longer than 1000
    characters, a duration outside {5, 10, 15, 30}, an aspect ratio
    outside {16:9, 9:16, 1:1}. *)
Definition breaks_submission_rules (body : VideoGenerationRequest) : Prop :=
  prompt body = None \/
  (exists p, prompt body = Some p /\
             (JS.trim p = "" \/ (1000 < String.length p)%nat)) \/
  ~ (exists d, In d [5; 10; 15; 30]%Q /\ d == duration body) \/
  ~ In (aspectRatio body) ["16:9"; "9:16"; "1:1"].

(** C9.  Whatever the provider would answer, a request that breaks one of
    the submission rules is answered by the route with status 400 and
    [success: false], and the list of provider calls made is empty. *)
Theorem POST_rejects_before_provider_call
    (Number_toString : Q -> string) (match_mp4 : string -> option string)
    (body : VideoGenerationRequest)
    (provider : Route.ProviderCall -> Route.ProviderOutcome)
    (now : N) (rnd : string) :
  breaks_submission_rules body ->
  let result :=
    Route.POST Number_toString match_mp4 (JS.Return body) provider now rnd in
  fst result = [] /\
  Route.http_status (snd result) = 400%N /\
  success (Route.json_body (snd result)) = false /\
  exists msg, error (Route.json_body (snd result)) = Some msg.
Proof.
  intros Hbad result. subst result.
  pose proof (POST_validation Number_toString match_mp4 body provider now rnd) as HP.
  destruct (VideoApi.validateVideoRequest body) as [msg |] eqn:Hv.
  - rewrite HP. cbn. repeat split. now exists msg.
  - exfalso. apply validateVideoRequest_None in Hv.
    destruct Hv as (p & Hp & Hne & Hlen & Hd & Ha).
    destruct Hbad as [H | [(q & Hq & [H | H]) | [H | H]]].
    + congruence.
    + rewrite Hp in Hq. injection Hq as <-. contradiction.
    + rewrite Hp in Hq. injection Hq as <-. lia.
    + exact (H Hd).
    + exact (H Ha).
Qed.

(** Sample inputs: the scenario requests of the specification. *)
Definition sunset_config : GenerationConfig :=
  {| cfg_duration := 10; cfg_aspectRatio := "16:9";
     cfg_style := "cinematic"; cfg_quality := "standard" |}.

Definition request_of (p : option string) (d : Q) : VideoGenerationRequest :=
  {| prompt := p; duration := d; aspectRatio := "16:9";
     style := "cinematic"; quality := "standard" |}.

Definition prompt_1001 : string := string_of_list_ascii (repeat "a"%char 1001).

Definition provider_processing (c : Route.ProviderCall) : Route.ProviderOutcome :=
  Route.Message "Your video is processing".

Definition render_integer (q : Q) : string :=
  JS.decimal (Z.to_N (Qnum q / Zpos (Qden q))).

Definition no_mp4 (text : string) : option string := None.

(** The scenario of the specification: a prompt of 1001 characters. *)
Lemma POST_rejects_1001_characters :
  let result :=
    Route.POST render_integer no_mp4
      (JS.Return (request_of (Some prompt_1001) 10)) provider_processing 0 "k3" in
  fst result = [] /\
  Route.http_status (snd result) = 400%N /\
  success (Route.json_body (snd result)) = false /\
  exists msg, error (Route.json_body (snd result)) = Some msg.
Proof.
  apply (POST_rejects_before_provider_call render_integer no_mp4
           (request_of (Some prompt_1001) 10) provider_processing 0 "k3").
  right; left. exists prompt_1001. split; [reflexivity |].
  right. apply Nat.ltb_lt. vm_compute. reflexivity.
Defined.

Example POST_rejects_duration_7 :
  Route.POST render_integer no_mp4
    (JS.Return (request_of (Some "A sunset") 7)) provider_processing 0 "k3"
  = ([], Route.respond 400 (failure "Duration must be 5, 10, 15, or 30 seconds" None)).
Proof. vm_compute. reflexivity. Qed.

Example POST_forwards_a_valid_request :
  Route.POST render_integer no_mp4
    (JS.Return (request_of (Some "A sunset") 10)) provider_processing 1700000000000 "k3"
  = ([ {| Route.url := "https://oi-server.onrender.com/chat/completions";
          Route.model := "replicate/google/veo-3";
          Route.content :=
            "Generate a 10-second video in widescreen format (16:9), cinematic style: A sunset. Ensure smooth motion, clear visuals, and professional quality." |} ],
     Route.respond 200
       {| success := true; videoUrl := None; error := None;
          taskId := Some "task_1700000000000_k3";
          status := Some processing;
          estimatedTime := Some (Route.estimateProcessingTime 10 "standard") |}).
Proof. vm_compute. reflexivity. Qed.

(** C10.  The client-side validator and the validation of the route
    agree on every request: the validator returns [null] exactly when the
    route goes on to call the provider, and it returns a message exactly
    when the route answers 400 with that same message, so both reject by
    the same rule. *)
Theorem validateVideoRequest_agrees_with_POST
    (Number_toString : Q -> string) (match_mp4 : string -> option string)
    (request : VideoGenerationRequest)
    (provider : Route.ProviderCall -> Route.ProviderOutcome)
    (now : N) (rnd : string) :
  (VideoApi.validateVideoRequest request = None <->
   fst (Route.POST Number_toString match_mp4 (JS.Return request) provider now rnd)
   <> []) /\
  (forall msg,
     VideoApi.validateVideoRequest request = Some msg <->
     Route.POST Number_toString match_mp4 (JS.Return request) provider now rnd
     = ([], Route.respond 400 (failure msg None))).
Proof.
  pose proof (POST_validation Number_toString match_mp4 request provider now rnd) as HP.
  destruct (VideoApi.validateVideoRequest request) as [msg0 |].
  - rewrite HP. split.
    + split; [discriminate | intro H; now contradiction H].
    + intro msg. split.
      * intro H. injection H as <-. reflexivity.
      * intro H. injection H as H. now rewrite H.
  - destruct HP as (p & Hp & Hcalls & Hstatus). split.
    + split; [intros _ | reflexivity]. rewrite Hcalls. discriminate.
    + intro msg. split; [discriminate |].
      intro H. rewrite H in Hcalls. discriminate.
Qed.

(** ** The API client *)

(** A transport outcome that is not a success: the promise of [fetch]
    rejects, or the response has a status outside 200-299. *)
Definition transport_failed (o : JS.Completion VideoApi.FetchResponse) : Prop :=
  match o with
  | JS.Throw _ => True
  | JS.Return response => VideoApi.res_ok response = false
  end.

(** The message the client reports for a failed transport outcome. *)
Definition transport_message (o : JS.Completion VideoApi.FetchResponse) : string :=
  match o with
  | JS.Throw e => JS.message_or e "Unknown error occurred"
  | JS.Return response =>
      "HTTP error! status: " ++ JS.decimal (VideoApi.res_status response)
  end.

Lemma client_call_shape (o : JS.Completion VideoApi.FetchResponse) :
  let call :=
    JS.try_catch
      (response <- o ;;
       if negb (VideoApi.res_ok response)
       then JS.Throw (JS.ErrorObject
                        ("HTTP error! status: " ++ JS.decimal (VideoApi.res_status response)))
       else
         result <- VideoApi.res_json response ;;
         JS.Return result)
      (fun error =>
         JS.Return (failure (JS.message_or error "Unknown error occurred") (Some failed))) in
  exists r, call = JS.Return r /\
    (transport_failed o -> r = failure (transport_message o) (Some failed)).
Proof.
  destruct o as [response | e]; cbn.
  - destruct (VideoApi.res_ok response) eqn:Hok; cbn.
    + destruct (VideoApi.res_json response) as [result | e]; cbn;
        eexists; (split; [reflexivity | intro H; discriminate]).
    + eexists. split; [reflexivity | intros _; reflexivity].
  - eexists. split; [reflexivity | intros _; reflexivity].
Qed.

(** C8.  For every request, task identifier and behaviour of the
    transport, [generateVideo] and [checkStatus] complete with a returned
    result, never with a throw; and when the transport rejects or answers
    with a status outside 200-299, the result has [success: false] and
    carries the message of the failure. *)
Theorem api_client_never_throws
    (fetch : VideoApi.FetchRequest -> JS.Completion VideoApi.FetchResponse)
    (baseUrl : string) (request : VideoGenerationRequest) (task : string) :
  let submit_outcome :=
    fetch {| VideoApi.fetch_url := baseUrl ++ "/generate-video";
             VideoApi.fetch_method := "POST";
             VideoApi.fetch_body := Some request |} in
  let status_outcome :=
    fetch {| VideoApi.fetch_url := baseUrl ++ "/generate-video/status?taskId=" ++ task;
             VideoApi.fetch_method := "GET";
             VideoApi.fetch_body := None |} in
  (exists r, VideoApi.generateVideo fetch baseUrl request = JS.Return r /\
     (transport_failed submit_outcome ->
      success r = false /\ error r = Some (transport_message submit_outcome))) /\
  (exists r, VideoApi.checkStatus fetch baseUrl task = JS.Return r /\
     (transport_failed status_outcome ->
      success r = false /\ error r = Some (transport_message status_outcome))).
Proof.
  cbv zeta. unfold VideoApi.generateVideo, VideoApi.checkStatus. split.
  - destruct (client_call_shape
                (fetch {| VideoApi.fetch_url := baseUrl ++ "/generate-video";
                          VideoApi.fetch_method := "POST";
                          VideoApi.fetch_body := Some request |}))
      as (r & Hr & Hfail).
    exists r. split; [exact Hr |].
    intro H. rewrite (Hfail H). split; reflexivity.
  - destruct (client_call_shape
                (fetch {| VideoApi.fetch_url :=
                            baseUrl ++ "/generate-video/status?taskId=" ++ task;
                          VideoApi.fetch_method := "GET";
                          VideoApi.fetch_body := None |}))
      as (r & Hr & Hfail).
    exists r. split; [exact Hr |].
    intro H. rewrite (Hfail H). split; reflexivity.
Qed.

(** Three transports: the network is down, the proxy answers 400, the
    proxy answers 200 with a body that is not JSON. *)
Definition fetch_offline (r : VideoApi.FetchRequest)
  : JS.Completion VideoApi.FetchResponse :=
  JS.Throw (JS.ErrorObject "Failed to fetch").

Definition fetch_status (code : N) (r : VideoApi.FetchRequest)
  : JS.Completion VideoApi.FetchResponse :=
  JS.Return {| VideoApi.res_status := code;
               VideoApi.res_json := JS.Throw (JS.ErrorObject "Unexpected token < in JSON") |}.

Example generateVideo_offline :
  VideoApi.generateVideo fetch_offline "/api" (request_of (Some "A sunset") 10)
  = JS.Return (failure "Failed to fetch" (Some failed)).
Proof. reflexivity. Qed.

Example generateVideo_http_400 :
  VideoApi.generateVideo (fetch_status 400) "/api" (request_of (Some "A sunset") 7)
  = JS.Return (failure "HTTP error! status: 400" (Some failed)).
Proof. reflexivity. Qed.

Example checkStatus_http_404 :
  VideoApi.checkStatus (fetch_status 404) "/api" "task_1_k3"
  = JS.Return (failure "HTTP error! status: 404" (Some failed)).
Proof. reflexivity. Qed.

Example generateVideo_body_not_json :
  VideoApi.generateVideo (fetch_status 200) "/api" (request_of (Some "A sunset") 10)
  = JS.Return (failure "Unexpected token < in JSON" (Some failed)).
Proof. reflexivity. Qed.

(** The client while the network is down. *)
Lemma api_client_offline_result :
  exists r, VideoApi.generateVideo fetch_offline "/api" (request_of (Some "A sunset") 10)
            = JS.Return r /\
            success r = false /\ error r = Some "Failed to fetch".
Proof.
  destruct (api_client_never_throws fetch_offline "/api"
              (request_of (Some "A sunset") 10) "task_1_k3") as [(r & Hr & Hfail) _].
  exists r. split; [exact Hr |]. apply Hfail. exact I.
Defined.

(** ** The lifecycle tracker: invariants *)

Module HookFacts.

Import Hook.

(** A generation that has no outcome yet: it is [processing], carries
    neither a video URL nor an error, and its progress is at most 90. *)
Definition in_flight (g : Generation) : Prop :=
  gen_status g = processing /\ gen_videoUrl g = None /\ gen_error g = None /\
  gen_progress g <= 90.

(** The invariant of the hook: the active generations and the
    generations held by suspended [generateVideo] calls are in flight,
    and a suspended call holds the record as it was built (progress 0). *)
Definition invariant (s : State) : Prop :=
  Forall in_flight (activeGenerations s) /\
  Forall (fun g => in_flight g /\ gen_progress g == 0) (awaiting s).

Lemma lt_spec (a b : Q) : JS.lt a b = true <-> a < b.
Proof.
  unfold JS.lt. rewrite negb_true_iff. split.
  - intro H. apply Qnot_le_lt. intro Hle. apply Qle_bool_iff in Hle. congruence.
  - intro H. destruct (Qle_bool b a) eqn:E; [| reflexivity].
    apply Qle_bool_iff in E. exfalso. apply (Qlt_not_le _ _ H E).
Qed.

Lemma new_generation_in_flight p config now rnd :
  in_flight (new_generation p config now rnd).
Proof. repeat split; cbn. discriminate. Qed.

Lemma tick_generation_in_flight r g : in_flight g -> in_flight (tick_generation r g).
Proof.
  intros (Hs & Hv & He & Hp). unfold tick_generation. rewrite Hs.
  destruct (JS.lt (gen_progress g) 90); [| repeat split; assumption].
  repeat split; cbn; try assumption. apply Q.le_min_r.
Qed.

Lemma tick_from_in_flight random l :
  Forall in_flight l -> forall i, Forall in_flight (tick_from random i l).
Proof.
  induction 1 as [| g l Hg Hl IH]; intro i; cbn; constructor.
  - now apply tick_generation_in_flight.
  - apply IH.
Qed.



Lemma with_task_in_flight g task : in_flight g -> in_flight (with_task g task).
Proof.
  intros (Hs & Hv & He & Hp). repeat split; cbn; try assumption. discriminate.
Qed.

Lemma Forall_filter {A} (P : A -> Prop) f l : Forall P l -> Forall P (filter f l).
Proof.
  induction 1 as [| x l Hx Hl IH]; cbn; [constructor |].
  destruct (f x); [constructor |]; assumption.
Qed.

Lemma Forall_remove_nth {A} (P : A -> Prop) l :
  Forall P l -> forall k, Forall P (remove_nth k l).
Proof.
  induction 1 as [| x l Hx Hl IH]; intro k; destruct k; cbn;
    try constructor; auto.
Qed.

Lemma Forall_nth_error {A} (P : A -> Prop) l k x :
  Forall P l -> nth_error l k = Some x -> P x.
Proof.
  intros HF Hn. apply nth_error_In in Hn.
  rewrite Forall_forall in HF. now apply HF.
Qed.

Lemma move_to_history_invariant record s :
  invariant s -> invariant (move_to_history record s).
Proof.
  intros [Ha Hw]. split; cbn; [now apply Forall_filter | exact Hw].
Qed.

Lemma set_isGenerating_invariant b s : invariant s -> invariant (set_isGenerating b s).
Proof. intros [Ha Hw]. split; assumption. Qed.

Lemma after_await_invariant generation response now s r :
  invariant s ->
  after_await generation response now s = JS.Return r -> invariant (snd r).
Proof.
  intros Hinv. unfold after_await.
  destruct (success response); [| discriminate].
  destruct (status response) as [[| |] |]; try discriminate.
  - intro H. injection H as <-. cbn. destruct Hinv as [Ha Hw]. split; cbn; [| exact Hw].
    apply Forall_forall. intros g Hin. apply in_map_iff in Hin.
    destruct Hin as (g0 & <- & Hin0).
    rewrite Forall_forall in Ha. specialize (Ha g0 Hin0).
    destruct (id_is (gen_id generation) g0); [now apply with_task_in_flight | exact Ha].
  - destruct (videoUrl response) as [link |]; [| discriminate].
    destruct (JS.truthy link); [| discriminate].
    intro H. injection H as <-. cbn [snd]. now apply move_to_history_invariant.
Qed.

Lemma generateVideo_continue_invariant generation awaited now s :
  invariant s -> invariant (snd (generateVideo_continue generation awaited now s)).
Proof.
  intro Hinv. unfold generateVideo_continue. cbn [snd].
  apply set_isGenerating_invariant.
  destruct awaited as [response | e]; cbn [JS.bind].
  - destruct (after_await generation response now s) as [r | e] eqn:E.
    + now apply (after_await_invariant generation response now s).
    + cbn [snd]. now apply move_to_history_invariant.
  - cbn [snd]. now apply move_to_history_invariant.
Qed.

Lemma step_invariant s e : invariant s -> invariant (step s e).
Proof.
  intros Hinv. pose proof Hinv as [Ha Hw].
  destruct e as [p config now rnd | generation now rnd | k awaited now
                | k now | id now | random |]; cbn [step].
  - split; cbn.
    + apply Forall_app. split; [exact Ha |].
      constructor; [apply new_generation_in_flight | constructor].
    + apply Forall_app. split; [exact Hw |].
      constructor; [| constructor].
      split; [apply new_generation_in_flight | reflexivity].
  - split; cbn.
    + apply Forall_app. split; [exact Ha |].
      constructor; [apply new_generation_in_flight | constructor].
    + apply Forall_app. split; [exact Hw |].
      constructor; [| constructor].
      split; [apply new_generation_in_flight | reflexivity].
  - destruct (nth_error (awaiting s) k); [| exact Hinv].
    apply generateVideo_continue_invariant.
    split; cbn; [exact Ha | now apply Forall_remove_nth].
  - destruct (nth_error (timers s) k); [| exact Hinv].
    unfold pollForCompletion_callback. cbn [activeGenerations drop_timer].
    destruct (find _ _); [apply move_to_history_invariant |]; split; assumption.
  - unfold cancelGeneration.
    destruct (find _ _); [apply move_to_history_invariant |]; exact Hinv.
  - split; cbn; [now apply tick_from_in_flight | exact Hw].
  - split; assumption.
Qed.

Lemma reachable_invariant s : reachable s -> invariant s.
Proof.
  induction 1 as [history | s e Hr IH].
  - split; constructor.
  - now apply step_invariant.
Qed.

End HookFacts.

(** ** The lifecycle tracker: terminal transitions *)



Lemma filter_id_differs_excludes (id : string) (l : list Generation) :
  forall g, In g (filter (id_differs id) l) -> gen_id g <> id.
Proof.
  intros g Hin. apply filter_In in Hin. destruct Hin as [_ Hd].
  unfold id_differs in Hd. apply negb_true_iff in Hd.
  now apply String.eqb_neq in Hd.
Qed.








(** The scenario of the specification: "A sunset", 10 s, 16:9,
    cinematic, standard; the call is made at clock reading 1700000000000
    and draws the suffix k3x9. *)
Definition sunset_call : Hook.Event :=
  Hook.CallGenerateVideo "A sunset" sunset_config 1700000000000 "k3x9".

Definition sunset_id : string := "gen_1700000000000_k3x9".

Definition sunset_started : Hook.State := Hook.step (Hook.mounted []) sunset_call.

Definition processing_response : VideoGenerationResponse :=
  {| success := true; videoUrl := None; error := None;
     taskId := Some "task_1700000003000_p0q1"; status := Some processing;
     estimatedTime := Some 100 |}.


Example sunset_scenario_completes :
  let s :=
    Hook.run (Hook.mounted [])
      [ sunset_call;
        Hook.ResumeGenerateVideo 0 (JS.Return processing_response) 1700000003000;
        Hook.TimerFires 0 1700000009000 ] in
  Hook.activeGenerations s = [] /\
  Hook.generationHistory s =
    [ {| gen_id := sunset_id; gen_prompt := "A sunset"; gen_config := sunset_config;
         gen_status := completed; gen_createdAt := 1700000000000%N;
         gen_completedAt := Some 1700000009000%N;
         gen_videoUrl := Some Hook.placeholder_video; gen_error := None;
         gen_progress := 100; gen_taskId := Some "task_1700000003000_p0q1" |} ].
Proof. vm_compute. split; reflexivity. Qed.

Example sunset_scenario_fails :
  let s :=
    Hook.run (Hook.mounted [])
      [ sunset_call;
        Hook.ResumeGenerateVideo 0
          (JS.Return (failure "HTTP error! status: 500" (Some failed))) 1700000003000 ] in
  Hook.activeGenerations s = [] /\
  map gen_status (Hook.generationHistory s) = [failed] /\
  map gen_error (Hook.generationHistory s) = [Some "HTTP error! status: 500"] /\
  map gen_videoUrl (Hook.generationHistory s) = [None].
Proof. vm_compute. repeat split; reflexivity. Qed.

(** The hook on top of the API client: when the transport fails, the
    client returns a failure result, the [try] block of the hook throws
    an [Error] with its message, and the [catch] ends the generation as
    [failed] with that message (or "Generation failed" when the message
    is empty). *)
Lemma transport_failure_ends_failed
    (fetch : VideoApi.FetchRequest -> JS.Completion VideoApi.FetchResponse)
    (p : string) (config : GenerationConfig) (generation : Generation)
    (now : N) (s : Hook.State) :
  let outcome :=
    fetch {| VideoApi.fetch_url := "/api" ++ "/generate-video";
             VideoApi.fetch_method := "POST";
             VideoApi.fetch_body := Some (Hook.api_request p config) |} in
  transport_failed outcome ->
  Hook.generateVideo_continue generation
    (VideoApi.generateVideo fetch "/api" (Hook.api_request p config)) now s
  = (false,
     Hook.set_isGenerating false
       (Hook.move_to_history
          (Hook.failed_from generation
             (JS.or_else (Some (transport_message outcome)) "Generation failed") now)
          s)).
Proof.
  cbv zeta. intro Hfail. unfold VideoApi.generateVideo.
  destruct (client_call_shape
              (fetch {| VideoApi.fetch_url := "/api" ++ "/generate-video";
                        VideoApi.fetch_method := "POST";
                        VideoApi.fetch_body := Some (Hook.api_request p config) |}))
    as (r & Hr & Hshape).
  cbv zeta in Hr. rewrite Hr, (Hshape Hfail). reflexivity.
Qed.

(** The sunset request while the network is down. *)
Lemma sunset_offline_ends_failed :
  Hook.generateVideo_continue
    (Hook.new_generation "A sunset" sunset_config 1700000000000 "k3x9")
    (VideoApi.generateVideo fetch_offline "/api"
       (Hook.api_request "A sunset" sunset_config))
    1700000001000 sunset_started
  = (false,
     Hook.set_isGenerating false
       (Hook.move_to_history
          (Hook.failed_from
             (Hook.new_generation "A sunset" sunset_config 1700000000000 "k3x9")
             "Failed to fetch" 1700000001000)
          sunset_started)).
Proof.
  apply (transport_failure_ends_failed fetch_offline "A sunset" sunset_config
           (Hook.new_generation "A sunset" sunset_config 1700000000000 "k3x9")
           1700000001000 sunset_started).
  exact I.
Defined.

(** ** [cancelGeneration] *)

Lemma find_id_is_some (id : string) (l : list Generation) (g : Generation) :
  find (id_is id) l = Some g -> In g l /\ gen_id g = id.
Proof.
  intro H. apply find_some in H. destruct H as [Hin Hid].
  split; [exact Hin |]. now apply String.eqb_eq in Hid.
Qed.

Lemma find_id_is_none (id : string) (l : list Generation) :
  find (id_is id) l = None <-> forall g, In g l -> gen_id g <> id.
Proof.
  split.
  - intros H g Hin. apply (find_none _ _ H) in Hin.
    now apply String.eqb_neq in Hin.
  - intro H. destruct (find (id_is id) l) as [g |] eqn:Hf; [| reflexivity].
    apply find_id_is_some in Hf. destruct Hf as [Hin Hid].
    exfalso. exact (H g Hin Hid).
Qed.

(** C3.  [cancelGeneration id] on an identifier borne by a [processing]
    generation of the active list makes a [failed] record with the error
    "Cancelled by user", puts it at the head of the history (and saves
    it), and removes the identifier from the active list; on an
    identifier that no active generation bears, it leaves the whole state
    as it was. *)
Theorem cancelGeneration_cancels_or_ignores (s : Hook.State) (id : string) (now : N) :
  ((exists g, In g (Hook.activeGenerations s) /\ gen_id g = id /\
              gen_status g = processing) ->
   exists g record,
     find (id_is id) (Hook.activeGenerations s) = Some g /\
     record = Hook.cancelled_from g now /\
     gen_id record = id /\
     gen_status record = failed /\
     gen_error record = Some "Cancelled by user" /\
     Hook.generationHistory (Hook.cancelGeneration id now s)
       = record :: Hook.generationHistory s /\
     Hook.storeCalls (Hook.cancelGeneration id now s)
       = Hook.SaveGenerationToHistory record :: Hook.storeCalls s /\
     Hook.activeGenerations (Hook.cancelGeneration id now s)
       = filter (id_differs id) (Hook.activeGenerations s) /\
     (forall g', In g' (Hook.activeGenerations (Hook.cancelGeneration id now s)) ->
                 gen_id g' <> id)) /\
  ((forall g, In g (Hook.activeGenerations s) -> gen_id g <> id) ->
   Hook.cancelGeneration id now s = s).
Proof.
  unfold Hook.cancelGeneration. split.
  - intros (g0 & Hin & Hid & _).
    destruct (find (id_is id) (Hook.activeGenerations s)) as [g |] eqn:Hf.
    2:{ exfalso. exact (proj1 (find_id_is_none _ _) Hf g0 Hin Hid). }
    destruct (find_id_is_some _ _ _ Hf) as [_ Hg].
    exists g, (Hook.cancelled_from g now). cbn.
    rewrite Hg. repeat split. apply filter_id_differs_excludes.
  - intro Hnone. apply find_id_is_none in Hnone. now rewrite Hnone.
Qed.

(** Cancelling the started sunset generation, and cancelling an
    identifier that was never issued. *)
Lemma cancelGeneration_on_the_sunset_scenario :
  (exists g record,
     find (id_is sunset_id) (Hook.activeGenerations sunset_started) = Some g /\
     record = Hook.cancelled_from g 1700000002000 /\
     gen_id record = sunset_id /\
     gen_status record = failed /\
     gen_error record = Some "Cancelled by user" /\
     Hook.generationHistory (Hook.cancelGeneration sunset_id 1700000002000 sunset_started)
       = record :: Hook.generationHistory sunset_started /\
     Hook.storeCalls (Hook.cancelGeneration sunset_id 1700000002000 sunset_started)
       = Hook.SaveGenerationToHistory record :: Hook.storeCalls sunset_started /\
     Hook.activeGenerations (Hook.cancelGeneration sunset_id 1700000002000 sunset_started)
       = filter (id_differs sunset_id) (Hook.activeGenerations sunset_started) /\
     (forall g',
        In g' (Hook.activeGenerations
                 (Hook.cancelGeneration sunset_id 1700000002000 sunset_started)) ->
        gen_id g' <> sunset_id)) /\
  Hook.cancelGeneration "gen_0_none" 1700000002000 sunset_started = sunset_started.
Proof.
  destruct (cancelGeneration_cancels_or_ignores sunset_started sunset_id 1700000002000)
    as [Hcancel _].
  destruct (cancelGeneration_cancels_or_ignores sunset_started "gen_0_none" 1700000002000)
    as [_ Hignore].
  split.
  - apply Hcancel.
    exists (Hook.new_generation "A sunset" sunset_config 1700000000000 "k3x9").
    split; [left; reflexivity | split; reflexivity].
  - apply Hignore. intros g [<- | []]. vm_compute. discriminate.
Defined.

Example cancel_twice_is_cancel_once :
  let once := Hook.cancelGeneration sunset_id 1700000002000 sunset_started in
  Hook.cancelGeneration sunset_id 1700000002500 once = once /\
  Hook.activeGenerations once = [] /\
  map gen_error (Hook.generationHistory once) = [Some "Cancelled by user"].
Proof. vm_compute. repeat split; reflexivity. Qed.

(** ** Late completion callbacks *)

(** In the hook, the [setTimeout] callback of [pollForCompletion] looks
    its identifier up in the active list first: fired for an identifier
    that no active generation bears, it changes neither the active list
    nor the history nor the store. *)
Lemma hook_late_callback_is_noop (s : Hook.State) (id : string) (now : N) :
  (forall g, In g (Hook.activeGenerations s) -> gen_id g <> id) ->
  Hook.pollForCompletion_callback id now s = s.
Proof.
  intro Hnone. unfold Hook.pollForCompletion_callback.
  apply find_id_is_none in Hnone. now rewrite Hnone.
Qed.

(** When the [setTimeout] callback of [pollForCompletion] fires for an
    identifier that no active generation bears (it was cancelled, or has
    ended already), the active list, the history and the storage calls
    stay as they are. *)
Lemma hook_late_timer_changes_nothing (s : Hook.State) (k : nat) (id : string) (now : N) :
  nth_error (Hook.timers s) k = Some id ->
  (forall g, In g (Hook.activeGenerations s) -> gen_id g <> id) ->
  let s' := Hook.step s (Hook.TimerFires k now) in
  Hook.activeGenerations s' = Hook.activeGenerations s /\
  Hook.generationHistory s' = Hook.generationHistory s /\
  Hook.storeCalls s' = Hook.storeCalls s.
Proof.
  intros Hk Hnone. cbn [Hook.step]. rewrite Hk.
  rewrite hook_late_callback_is_noop by exact Hnone.
  repeat split.
Qed.

Example hook_cancel_then_timer :
  let s :=
    Hook.run (Hook.mounted [])
      [ sunset_call;
        Hook.ResumeGenerateVideo 0 (JS.Return processing_response) 1700000003000;
        Hook.CallCancelGeneration sunset_id 1700000004000 ] in
  let s' := Hook.step s (Hook.TimerFires 0 1700000009000) in
  Hook.timers s = [sunset_id] /\
  Hook.activeGenerations s' = [] /\
  Hook.generationHistory s' = Hook.generationHistory s /\
  map gen_status (Hook.generationHistory s') = [failed].
Proof. vm_compute. repeat split; reflexivity. Qed.

(** The sunset generation is answered [processing], then cancelled;
    its timer fires afterwards. *)
Lemma hook_late_timer_after_cancel :
  let s :=
    Hook.run (Hook.mounted [])
      [ sunset_call;
        Hook.ResumeGenerateVideo 0 (JS.Return processing_response) 1700000003000;
        Hook.CallCancelGeneration sunset_id 1700000004000 ] in
  let s' := Hook.step s (Hook.TimerFires 0 1700000009000) in
  Hook.activeGenerations s' = Hook.activeGenerations s /\
  Hook.generationHistory s' = Hook.generationHistory s /\
  Hook.storeCalls s' = Hook.storeCalls s.
Proof.
  apply (hook_late_timer_changes_nothing _ 0%nat sunset_id 1700000009000).
  - vm_compute. reflexivity.
  - intros g Hin. vm_compute in Hin. contradiction.
Defined.

(** The component path does not look: the callback of
    [VideoGenerator.pollForCompletion] always hands a [completed] record
    to [handleGenerationComplete], which always puts it at the head of
    the history. *)
Lemma page_callback_always_writes (id p : string) (config : GenerationConfig)
    (now : N) (s : Page.State) :
  exists record,
    gen_id record = id /\ gen_status record = completed /\
    Page.generationHistory (Page.pollForCompletion_callback id p config now s)
    = record :: Page.generationHistory s.
Proof.
  unfold Page.pollForCompletion_callback, Page.handleGenerationComplete.
  eexists. split; [| split]; [| | cbn; reflexivity]; reflexivity.
Qed.

(** C4, on the component path.  On the page, a generation is started,
    the proxy answers [processing] (which schedules the completion
    callback for its identifier), and the user cancels it from the queue:
    the active list and the history are then empty.  When the callback
    fires afterwards, the history gains a [completed] record for the
    cancelled generation. *)
Theorem page_late_callback_resurrects_cancelled :
  exists started,
    Page.handleGenerate_call "A sunset" sunset_config 1700000000000 "k3x9" Page.mounted
    = Some started /\
    let generation :=
      Page.new_generation "A sunset" sunset_config 1700000000000 "k3x9" in
    let answered :=
      Page.handleGenerate_continue generation "A sunset" sunset_config
        (JS.Return processing_response) 1700000001000 started in
    let cancelled := Page.handleCancelGeneration sunset_id 1700000002000 answered in
    let fired := Page.timer_fires 0 1700000006000 cancelled in
    map gen_id (Page.activeGenerations answered) = [sunset_id] /\
    map Page.pending_id (Page.timers answered) = [sunset_id] /\
    Page.activeGenerations cancelled = [] /\
    Page.generationHistory cancelled = [] /\
    Page.activeGenerations fired = [] /\
    Page.generationHistory fired =
      [ {| gen_id := sunset_id; gen_prompt := "A sunset"; gen_config := sunset_config;
           gen_status := completed; gen_createdAt := 1700000006000%N;
           gen_completedAt := Some 1700000006000%N;
           gen_videoUrl := Some Page.placeholder_video; gen_error := None;
           gen_progress := 100; gen_taskId := None |} ].
Proof. eexists. split; [vm_compute; reflexivity |]. vm_compute. repeat split. Qed.

(** ** Progress *)

(** The ticker touches only [processing] generations below 90. *)
Lemma tick_generation_untouched (r : Q) (g : Generation) :
  gen_status g <> processing \/ ~ gen_progress g < 90 ->
  Hook.tick_generation r g = g.
Proof.
  intros H. unfold Hook.tick_generation.
  destruct (gen_status g) eqn:Hs; try reflexivity.
  destruct (JS.lt (gen_progress g) 90) eqn:Hlt; [| reflexivity].
  apply HookFacts.lt_spec in Hlt. destruct H as [H | H]; [congruence | contradiction].
Qed.

(** With a draw of [Math.random()] in [0, 1), a tick never lowers the
    progress, and a generation below 90 stays at most at 90. *)
Lemma tick_generation_progress (r : Q) (g : Generation) :
  0 <= r ->
  gen_progress g <= gen_progress (Hook.tick_generation r g) /\
  (gen_progress g < 90 -> gen_progress (Hook.tick_generation r g) <= 90) /\
  gen_status (Hook.tick_generation r g) = gen_status g.
Proof.
  intro Hr. unfold Hook.tick_generation.
  destruct (gen_status g) eqn:Hs;
    try (split; [apply Qle_refl | split; [apply Qlt_le_weak | congruence]]).
  destruct (JS.lt (gen_progress g) 90) eqn:Hlt;
    [| split; [apply Qle_refl | split; [apply Qlt_le_weak | congruence]]].
  apply HookFacts.lt_spec in Hlt. cbn [gen_progress gen_status].
  split; [| split].
  - apply Q.min_glb; [lra | now apply Qlt_le_weak].
  - intros _. apply Q.le_min_r.
  - congruence.
Qed.

(** A tick with the draw 3/4 on a generation at progress 0. *)
Lemma tick_of_a_new_generation :
  let g := Hook.new_generation "A sunset" sunset_config 1700000000000 "k3x9" in
  gen_progress g <= gen_progress (Hook.tick_generation (3 # 4) g) /\
  (gen_progress g < 90 -> gen_progress (Hook.tick_generation (3 # 4) g) <= 90) /\
  gen_status (Hook.tick_generation (3 # 4) g) = gen_status g.
Proof.
  apply (tick_generation_progress (3 # 4)
           (Hook.new_generation "A sunset" sunset_config 1700000000000 "k3x9")).
  discriminate.
Defined.

(** A record made [completed] has progress 100, and nothing else has:
    active generations stay at or below 90, a [failed] record carries 0
    or the progress it had when cancelled. *)
Lemma completed_progress_is_100 (generation : Generation) (link : string) (now : N) :
  gen_progress (Hook.completed_from generation link now) = 100.
Proof. reflexivity. Qed.

Lemma active_progress_below_100 (s : Hook.State) (g : Generation) :
  Hook.reachable s -> In g (Hook.activeGenerations s) ->
  gen_status g = processing /\ gen_progress g <= 90.
Proof.
  intros Hr Hin. destruct (HookFacts.reachable_invariant s Hr) as [Ha _].
  rewrite Forall_forall in Ha. destruct (Ha g Hin) as (Hs & _ & _ & Hp). now split.
Qed.

(** C5, the update on a [processing] answer.  The call is made, the
    ticker fires once with the draw 3/4 (an increment of 8), and then the
    proxy answers [processing]: the generation is [processing]
    throughout, its progress is 8 after the tick and 5 after the answer. *)
Theorem processing_answer_lowers_progress :
  let ticked := Hook.step sunset_started (Hook.IntervalFires (fun _ => 3 # 4)) in
  let answered :=
    Hook.step ticked
      (Hook.ResumeGenerateVideo 0 (JS.Return processing_response) 1700000003500) in
  exists before after,
    Hook.activeGenerations ticked = [before] /\
    Hook.activeGenerations answered = [after] /\
    gen_id before = sunset_id /\ gen_id after = sunset_id /\
    gen_status before = processing /\ gen_status after = processing /\
    gen_progress before == 8 /\ gen_progress after == 5 /\
    gen_progress after < gen_progress before.
Proof.
  cbv zeta. eexists. eexists.
  split; [vm_compute; reflexivity |].
  split; [vm_compute; reflexivity |].
  cbn. repeat split; reflexivity.
Qed.

(** ** [generateVideo]: the new generation and its identifier *)

Lemma string_of_uint_no_underscore (d : Decimal.uint) (c : ascii) :
  In c (list_ascii_of_string (NilEmpty.string_of_uint d)) -> c <> "_"%char.
Proof.
  induction d; cbn; intros H; try contradiction;
    (destruct H as [<- | H]; [discriminate | now apply IHd]).
Qed.

Lemma split_at_underscore (a b r1 r2 : string) :
  (forall c, In c (list_ascii_of_string a) -> c <> "_"%char) ->
  (forall c, In c (list_ascii_of_string b) -> c <> "_"%char) ->
  a ++ "_" ++ r1 = b ++ "_" ++ r2 -> a = b /\ r1 = r2.
Proof.
  revert b. induction a as [| x a IH]; intros [| y b] Ha Hb; cbn; intro H.
  - injection H as ->. now split.
  - injection H as Hy _. exfalso. apply (Hb y); [now left | now symmetry].
  - injection H as Hx _. exfalso. apply (Ha x); [now left | exact Hx].
  - injection H as -> H.
    destruct (IH b) as [-> ->]; auto.
    + intros c Hc. apply Ha. now right.
    + intros c Hc. apply Hb. now right.
Qed.

Lemma decimal_injective (n m : N) : JS.decimal n = JS.decimal m -> n = m.
Proof.
  unfold JS.decimal. intro H.
  apply (f_equal NilEmpty.uint_of_string) in H.
  rewrite !NilEmpty.usu in H. injection H as H.
  now apply Unsigned.to_uint_inj.
Qed.

(** Two identifiers are equal only when both the clock reading and the
    random suffix are. *)
Lemma generateUniqueId_injective (now now' : N) (rnd rnd' : string) :
  Hook.generateUniqueId now rnd = Hook.generateUniqueId now' rnd' ->
  now = now' /\ rnd = rnd'.
Proof.
  unfold Hook.generateUniqueId. cbn. intro H. injection H as H.
  apply split_at_underscore in H;
    try (intro c; apply string_of_uint_no_underscore).
  destruct H as [Hd Hr]. split; [now apply decimal_injective | exact Hr].
Qed.

(** C2, as amended.  For a request whose trimmed prompt is not empty,
    the call at once appends exactly one new generation to the active
    list, with the trimmed prompt, the status [processing], progress 0
    and the identifier built from the clock reading and the random
    suffix; the history is untouched.  The identifier differs from every
    identifier built from another clock reading or another suffix: that
    is all its freshness, no list is consulted. *)
Theorem generateVideo_call_adds_one_generation (s : Hook.State) (p : string)
    (config : GenerationConfig) (now : N) (rnd : string) :
  JS.trim p <> "" ->
  let s' := Hook.generateVideo_call p config now rnd s in
  exists g,
    Hook.activeGenerations s' = (Hook.activeGenerations s ++ [g])%list /\
    Hook.generationHistory s' = Hook.generationHistory s /\
    gen_status g = processing /\
    gen_progress g = 0 /\
    gen_prompt g = JS.trim p /\
    gen_config g = config /\
    gen_videoUrl g = None /\ gen_error g = None /\
    gen_id g = Hook.generateUniqueId now rnd /\
    (forall now' rnd',
       (now', rnd') <> (now, rnd) -> Hook.generateUniqueId now' rnd' <> gen_id g).
Proof.
  intros _. exists (Hook.new_generation p config now rnd). cbn.
  repeat split. intros now' rnd' Hne Heq.
  apply generateUniqueId_injective in Heq. destruct Heq as [-> ->].
  now apply Hne.
Qed.

(** The sunset request, made while a generation is active. *)
Lemma generateVideo_call_on_the_sunset_request :
  exists g,
    Hook.activeGenerations
      (Hook.generateVideo_call "  A sunset " sunset_config 1700000005000 "r7t2"
         sunset_started)
    = (Hook.activeGenerations sunset_started ++ [g])%list /\
    Hook.generationHistory
      (Hook.generateVideo_call "  A sunset " sunset_config 1700000005000 "r7t2"
         sunset_started)
    = Hook.generationHistory sunset_started /\
    gen_status g = processing /\
    gen_progress g = 0 /\
    gen_prompt g = JS.trim "  A sunset " /\
    gen_config g = sunset_config /\
    gen_videoUrl g = None /\ gen_error g = None /\
    gen_id g = Hook.generateUniqueId 1700000005000 "r7t2" /\
    (forall now' rnd',
       (now', rnd') <> (1700000005000%N, "r7t2") ->
       Hook.generateUniqueId now' rnd' <> gen_id g).
Proof.
  apply (generateVideo_call_adds_one_generation sunset_started "  A sunset "
           sunset_config 1700000005000 "r7t2").
  vm_compute. discriminate.
Defined.

(** C2 as stated fails twice.  A blank prompt is not rejected: the call
    appends a generation whose prompt is empty (the form and the
    validator do reject it; the hook misses the check).  And a valid
    request can get an identifier that is already in the session or in
    the loaded history: the same clock reading and the same suffix give
    the same identifier, and nothing compares identifiers. *)
Lemma generateVideo_accepts_blank_and_repeats_identifier :
  (JS.trim "   " = "" /\
   map gen_prompt
     (Hook.activeGenerations
        (Hook.generateVideo_call "   " sunset_config 1700000000000 "k3x9"
           (Hook.mounted [])))
   = [""]) /\
  (JS.trim "A sunset" <> "" /\
   Hook.reachable sunset_started /\
   map gen_id (Hook.activeGenerations sunset_started) = [sunset_id] /\
   map gen_id (Hook.activeGenerations (Hook.step sunset_started sunset_call))
   = [sunset_id; sunset_id]) /\
  (let loaded := Hook.cancelled_from
                   (Hook.new_generation "A sunset" sunset_config 1700000000000 "k3x9")
                   1700000002000 in
   let s := Hook.step (Hook.mounted [loaded]) sunset_call in
   map gen_id (Hook.generationHistory s) = [sunset_id] /\
   map gen_id (Hook.activeGenerations s) = [sunset_id]).
Proof.
  split; [| split].
  - split; vm_compute; reflexivity.
  - split; [vm_compute; discriminate |].
    split; [apply Hook.reachable_step, Hook.reachable_mounted |].
    split; vm_compute; reflexivity.
  - split; vm_compute; reflexivity.
Qed.

(** The component path does check: [VideoGenerator.handleGenerate]
    returns early on a blank prompt and on one of 1001 characters, and
    the page state is not touched. *)
Example handleGenerate_rejects_blank_prompt :
  Page.handleGenerate_call "   " sunset_config 1700000000000 "k3x9" Page.mounted = None.
Proof. reflexivity. Qed.

Example handleGenerate_rejects_1001_characters :
  Page.handleGenerate_call prompt_1001 sunset_config 1700000000000 "k3x9" Page.mounted
  = None.
Proof. vm_compute. reflexivity. Qed.

(** ** The history store *)

Section StoreFacts.

Context {codec : JSON}.

Lemma stringify_truthy (v : json) : JS.truthy (stringify v) = true.
Proof.
  destruct (stringify v) eqn:E; [| reflexivity].
  exfalso. apply (parse_empty v). rewrite <- E. apply parse_stringify.
Qed.

Lemma stringify_indented_truthy (v : json) : JS.truthy (stringify_indented v) = true.
Proof.
  destruct (stringify_indented v) eqn:E; [| reflexivity].
  exfalso. apply (parse_empty v). rewrite <- E. apply parse_stringify_indented.
Qed.

(** Reading back what [setItem] stored. *)
Lemma getGenerationHistory_stringify (v : json) :
  VideoApi.getGenerationHistory (Some (stringify v)) = v.
Proof.
  unfold VideoApi.getGenerationHistory.
  now rewrite stringify_truthy, parse_stringify.
Qed.

Lemma getGenerationHistory_stringify_indented (v : json) :
  VideoApi.getGenerationHistory (Some (stringify_indented v)) = v.
Proof.
  unfold VideoApi.getGenerationHistory.
  now rewrite stringify_indented_truthy, parse_stringify_indented.
Qed.

(** An absent or unreadable item loads as the empty list. *)
Lemma getGenerationHistory_absent : VideoApi.getGenerationHistory None = JArray [].
Proof. reflexivity. Qed.

Lemma getGenerationHistory_corrupt (text : string) (e : JS.Thrown) :
  parse text = JS.Throw e -> VideoApi.getGenerationHistory (Some text) = JArray [].
Proof.
  intro H. unfold VideoApi.getGenerationHistory.
  destruct (JS.truthy text); [now rewrite H | reflexivity].
Qed.

(** A failed write leaves the item as it was. *)
Lemma saveGenerationToHistory_quota_exceeded (generation : json) (st : VideoApi.Storage) :
  VideoApi.saveGenerationToHistory generation st false = st.
Proof.
  unfold VideoApi.saveGenerationToHistory.
  now destruct (spread_slice_0_49 (VideoApi.getGenerationHistory st)).
Qed.

End StoreFacts.

Lemma firstn_49_of_50 {A} (l : list A) :
  length l = 50%nat -> firstn 49 l = removelast l.
Proof.
  intro H. destruct (exists_last (l := l)) as (l' & x & ->).
  { intro E. subst l. discriminate. }
  rewrite removelast_last.
  rewrite length_app in H. cbn in H.
  rewrite firstn_app. replace (49 - length l')%nat with 0%nat by lia.
  rewrite firstn_all2 by lia. cbn. apply app_nil_r.
Qed.

(** C6.  When the stored history is a list, a save that the storage
    accepts stores the list led by the new generation and followed by
    the first 49 entries of the old list, in their order.  The stored
    list has at most 50 entries; a list shorter than 50 is kept whole;
    and when the old list has 50 entries, so that the new one is the
    51st, exactly its last (oldest) entry is dropped. *)
Theorem saveGenerationToHistory_prepends_and_caps {codec : JSON}
    (st : VideoApi.Storage) (history : list json) (generation : json) :
  VideoApi.getGenerationHistory st = JArray history ->
  let saved :=
    VideoApi.getGenerationHistory (VideoApi.saveGenerationToHistory generation st true) in
  saved = JArray (generation :: firstn 49 history) /\
  (length (generation :: firstn 49 history) <= 50)%nat /\
  ((length history < 50)%nat -> saved = JArray (generation :: history)) /\
  (length history = 50%nat ->
   saved = JArray (generation :: removelast history) /\
   length (generation :: removelast history) = 50%nat).
Proof.
  intros Hload saved. subst saved.
  unfold VideoApi.saveGenerationToHistory. rewrite Hload. cbn [spread_slice_0_49].
  rewrite getGenerationHistory_stringify.
  split; [reflexivity |]. split; [| split].
  - cbn [length]. pose proof (firstn_le_length 49 history). 
    pose proof (length_firstn 49 history). lia.
  - intro Hlt. now rewrite firstn_all2 by lia.
  - intro H50. rewrite <- firstn_49_of_50 by exact H50. split; [reflexivity |].
    cbn [length]. rewrite length_firstn. lia.
Qed.

(* ================================================================= *)
(** * Part III: an implementation of the [JSON] interface *)
(* ================================================================= *)

(** The store is verified against the interface [JSON].  This part
    gives one implementation of it, which shows that the interface can be
    met and lets the store run on concrete inputs: a writer that lays
    JSON text out either compactly or indented by two spaces, and a
    reader that accepts both.  A number is written as an integer, or as
    a fraction when its denominator is not 1. *)

Module ReferenceJSON.

Definition quote : ascii := ascii_of_nat 34.
Definition backslash : ascii := ascii_of_nat 92.
Definition newline : ascii := ascii_of_nat 10.

Definition is_digit (c : ascii) : bool :=
  let n := nat_of_ascii c in (48 <=? n)%nat && (n <=? 57)%nat.

(** White space between the tokens: [line d] before an item at depth
    [d], [gap] after a colon. *)
Record Layout : Type := {
  line : nat -> string;
  gap : string
}.

Definition compact : Layout := {| line := fun _ => ""; gap := "" |}.

Fixpoint spaces (n : nat) : string :=
  match n with O => "" | S n' => String " " (spaces n') end.

Definition indented : Layout :=
  {| line := fun d => String newline (spaces (2 * d)); gap := " " |}.

Fixpoint escape (s : string) : string :=
  match s with
  | EmptyString => EmptyString
  | String c s' =>
      if Ascii.eqb c quote || Ascii.eqb c backslash
      then String backslash (String c (escape s'))
      else String c (escape s')
  end.

Definition write_string (s : string) : string :=
  String quote (escape s ++ String quote EmptyString).

Definition write_number (q : Q) : string :=
  (if (Qnum q <? 0)%Z
   then String "-" (JS.decimal (Z.to_N (- Qnum q)))
   else JS.decimal (Z.to_N (Qnum q)))
  ++ (if (Qden q =? 1)%positive then "" else String "/" (JS.decimal (Npos (Qden q)))).

Fixpoint write (L : Layout) (depth : nat) (v : json) : string :=
  match v with
  | JNull => "null"
  | JBool true => "true"
  | JBool false => "false"
  | JNumber q => write_number q
  | JString s => write_string s
  | JArray items =>
      match items with
      | [] => "[]"
      | _ =>
          "[" ++ line L (S depth)
          ++ String.concat ("," ++ line L (S depth)) (map (write L (S depth)) items)
          ++ line L depth ++ "]"
      end
  | JObject members =>
      match members with
      | [] => "{}"
      | _ =>
          "{" ++ line L (S depth)
          ++ String.concat ("," ++ line L (S depth))
               (map (fun m => write_string (fst m) ++ ":" ++ gap L
                              ++ write L (S depth) (snd m)) members)
          ++ line L depth ++ "}"
      end
  end.

Fixpoint read_string (s : string) : option (string * string) :=
  match s with
  | EmptyString => None
  | String c rest =>
      if Ascii.eqb c quote then Some (EmptyString, rest)
      else if Ascii.eqb c backslash then
        match rest with
        | EmptyString => None
        | String c' rest' =>
            match read_string rest' with
            | Some (t, r) => Some (String c' t, r)
            | None => None
            end
        end
      else
        match read_string rest with
        | Some (t, r) => Some (String c t, r)
        | None => None
        end
  end.

Fixpoint span_digits (s : string) : string * string :=
  match s with
  | EmptyString => (EmptyString, EmptyString)
  | String c rest =>
      if is_digit c
      then let (ds, r) := span_digits rest in (String c ds, r)
      else (EmptyString, s)
  end.

Definition read_natural (s : string) : option (N * string) :=
  let (ds, rest) := span_digits s in
  match ds with
  | EmptyString => None
  | _ =>
      match NilEmpty.uint_of_string ds with
      | Some d => Some (N.of_uint d, rest)
      | None => None
      end
  end.

Definition read_number (s : string) : option (Q * string) :=
  let (negative, digits) :=
    match s with
    | String c rest => if Ascii.eqb c "-" then (true, rest) else (false, s)
    | EmptyString => (false, s)
    end in
  match read_natural digits with
  | None => None
  | Some (n, rest) =>
      let numerator := if negative then (- Z.of_N n)%Z else Z.of_N n in
      match rest with
      | String c rest' =>
          if Ascii.eqb c "/" then
            match read_natural rest' with
            | Some (Npos d, rest'') => Some (numerator # d, rest'')
            | _ => None
            end
          else Some (numerator # 1, rest)
      | EmptyString => Some (numerator # 1, rest)
      end
  end.

Fixpoint strip (p s : string) : option string :=
  match p, s with
  | EmptyString, _ => Some s
  | String a p', String b s' => if Ascii.eqb a b then strip p' s' else None
  | String _ _, EmptyString => None
  end.

Fixpoint read_value (fuel : nat) (s : string) : option (json * string) :=
  match fuel with
  | O => None
  | S fuel' =>
      match JS.trimStart s with
      | EmptyString => None
      | String c rest =>
          if Ascii.eqb c quote then
            match read_string rest with
            | Some (t, r) => Some (JString t, r)
            | None => None
            end
          else if Ascii.eqb c "[" then
            match JS.trimStart rest with
            | String c' rest' =>
                if Ascii.eqb c' "]" then Some (JArray [], rest')
                else
                  match read_items fuel' rest with
                  | Some (items, r) => Some (JArray items, r)
                  | None => None
                  end
            | EmptyString => None
            end
          else if Ascii.eqb c "{" then
            match JS.trimStart rest with
            | String c' rest' =>
                if Ascii.eqb c' "}" then Some (JObject [], rest')
                else
                  match read_members fuel' rest with
                  | Some (members, r) => Some (JObject members, r)
                  | None => None
                  end
            | EmptyString => None
            end
          else if Ascii.eqb c "n" then
            match strip "ull" rest with
            | Some r => Some (JNull, r)
            | None => None
            end
          else if Ascii.eqb c "t" then
            match strip "rue" rest with
            | Some r => Some (JBool true, r)
            | None => None
            end
          else if Ascii.eqb c "f" then
            match strip "alse" rest with
            | Some r => Some (JBool false, r)
            | None => None
            end
          else
            match read_number (String c rest) with
            | Some (q, r) => Some (JNumber q, r)
            | None => None
            end
      end
  end
with read_items (fuel : nat) (s : string) : option (list json * string) :=
  match fuel with
  | O => None
  | S fuel' =>
      match read_value fuel' s with
      | None => None
      | Some (v, rest) =>
          match JS.trimStart rest with
          | String c rest' =>
              if Ascii.eqb c "," then
                match read_items fuel' rest' with
                | Some (vs, r) => Some (v :: vs, r)
                | None => None
                end
              else if Ascii.eqb c "]" then Some ([v], rest')
              else None
          | EmptyString => None
          end
      end
  end
with read_members (fuel : nat) (s : string) : option (list (string * json) * string) :=
  match fuel with
  | O => None
  | S fuel' =>
      match JS.trimStart s with
      | EmptyString => None
      | String c rest =>
          if Ascii.eqb c quote then
            match read_string rest with
            | None => None
            | Some (k, rest1) =>
                match JS.trimStart rest1 with
                | EmptyString => None
                | String c1 rest2 =>
                    if Ascii.eqb c1 ":" then
                      match read_value fuel' rest2 with
                      | None => None
                      | Some (v, rest3) =>
                          match JS.trimStart rest3 with
                          | EmptyString => None
                          | String c3 rest4 =>
                              if Ascii.eqb c3 "," then
                                match read_members fuel' rest4 with
                                | Some (ms, r) => Some ((k, v) :: ms, r)
                                | None => None
                                end
                              else if Ascii.eqb c3 "}" then Some ([(k, v)], rest4)
                              else None
                          end
                      end
                    else None
                end
            end
          else None
      end
  end.

Definition read (text : string) : JS.Completion json :=
  match read_value (String.length text) text with
  | Some (v, rest) =>
      match JS.trimStart rest with
      | EmptyString => JS.Return v
      | _ => JS.Throw (JS.ErrorObject "Unexpected non-whitespace character after JSON")
      end
  | None => JS.Throw (JS.ErrorObject "Unexpected token in JSON")
  end.


(** *** Facts about strings *)

Lemma append_assoc (a b c : string) : (a ++ b) ++ c = a ++ (b ++ c).
Proof. induction a as [| x a IH]; cbn; [reflexivity | now rewrite IH]. Qed.

Lemma append_empty_r (a : string) : a ++ "" = a.
Proof. induction a as [| x a IH]; cbn; [reflexivity | now rewrite IH]. Qed.

Lemma length_append (a b : string) :
  String.length (a ++ b) = (String.length a + String.length b)%nat.
Proof. induction a as [| x a IH]; cbn; [reflexivity | now rewrite IH]. Qed.

Fixpoint blank (s : string) : bool :=
  match s with
  | EmptyString => true
  | String c r => JS.is_whitespace c && blank r
  end.

Lemma trimStart_blank (ws s : string) :
  blank ws = true -> JS.trimStart (ws ++ s) = JS.trimStart s.
Proof.
  induction ws as [| c ws IH]; cbn [blank append]; intro H; [reflexivity |].
  apply andb_true_iff in H. destruct H as [Hc Hws].
  cbn [JS.trimStart]. rewrite Hc. now apply IH.
Qed.

Lemma trimStart_solid (c : ascii) (r : string) :
  JS.is_whitespace c = false -> JS.trimStart (String c r) = String c r.
Proof. intro H. cbn [JS.trimStart]. now rewrite H. Qed.

Definition layout_ok (L : Layout) : Prop :=
  (forall d, blank (line L d) = true) /\ blank (gap L) = true.

Lemma blank_spaces (n : nat) : blank (spaces n) = true.
Proof. induction n; cbn; [reflexivity | exact IHn]. Qed.

Lemma compact_ok : layout_ok compact.
Proof. split; reflexivity. Qed.

Lemma indented_ok : layout_ok indented.
Proof. split; [intro d; cbn; apply blank_spaces | reflexivity]. Qed.

(** *** Character classes *)

Ltac by_cases_on c :=
  destruct c as [[] [] [] [] [] [] [] []]; try discriminate; try reflexivity;
  repeat split; try reflexivity; try discriminate.

Lemma whitespace_class (c : ascii) :
  JS.is_whitespace c = true -> is_digit c = false /\ Ascii.eqb c "/" = false.
Proof. by_cases_on c. Qed.

Lemma digit_class (c : ascii) :
  is_digit c = true ->
  JS.is_whitespace c = false /\ Ascii.eqb c "-" = false /\
  Ascii.eqb c quote = false /\ Ascii.eqb c "[" = false /\ Ascii.eqb c "{" = false /\
  Ascii.eqb c "n" = false /\ Ascii.eqb c "t" = false /\ Ascii.eqb c "f" = false /\
  Ascii.eqb c "]" = false /\ Ascii.eqb c "/" = false.
Proof. by_cases_on c. Qed.

(** The text that may follow a number: not a digit, not a slash. *)
Definition delimited (rest : string) : Prop :=
  match rest with
  | EmptyString => True
  | String c _ => is_digit c = false /\ Ascii.eqb c "/" = false
  end.

Lemma delimited_after_blank (ws : string) (c : ascii) (r : string) :
  blank ws = true -> is_digit c = false -> Ascii.eqb c "/" = false ->
  delimited (ws ++ String c r).
Proof.
  destruct ws as [| w ws]; cbn; intros Hws Hd Hs; [now split |].
  apply andb_true_iff in Hws. destruct Hws as [Hw _].
  now apply whitespace_class.
Qed.

(** *** Strings *)

Lemma read_string_escape (s rest : string) :
  read_string (escape s ++ String quote rest) = Some (s, rest).
Proof.
  induction s as [| c s IH]; [reflexivity |].
  cbn [escape]. destruct (Ascii.eqb c quote || Ascii.eqb c backslash) eqn:E.
  - cbn [append read_string].
    change (Ascii.eqb backslash quote) with false.
    change (Ascii.eqb backslash backslash) with true.
    cbv iota. now rewrite IH.
  - apply orb_false_iff in E. destruct E as [Eq Eb].
    cbn [append read_string]. now rewrite Eq, Eb, IH.
Qed.

(** *** Numbers *)

Lemma uint_digits (d : Decimal.uint) (c : ascii) :
  In c (list_ascii_of_string (NilEmpty.string_of_uint d)) -> is_digit c = true.
Proof.
  induction d; cbn; intros H; try contradiction;
    (destruct H as [<- | H]; [reflexivity | now apply IHd]).
Qed.

Lemma span_digits_app (ds rest : string) :
  (forall c, In c (list_ascii_of_string ds) -> is_digit c = true) ->
  match rest with EmptyString => True | String c _ => is_digit c = false end ->
  span_digits (ds ++ rest) = (ds, rest).
Proof.
  induction ds as [| c ds IH]; cbn; intros Hds Hrest.
  - destruct rest as [| c r]; [reflexivity |]. cbn. now rewrite Hrest.
  - rewrite (Hds c) by now left. rewrite IH; auto.
Qed.

Lemma decimal_nonempty (n : N) : JS.decimal n <> "".
Proof.
  unfold JS.decimal. intro H.
  pose proof (NilEmpty.usu (N.to_uint n)) as Hu. rewrite H in Hu. cbn in Hu.
  injection Hu as Hu.
  pose proof (Unsigned.of_to n) as Ho. rewrite <- Hu in Ho. cbn in Ho. subst n.
  discriminate.
Qed.

Lemma decimal_head (n : N) :
  exists c r, JS.decimal n = String c r /\ is_digit c = true.
Proof.
  pose proof (decimal_nonempty n) as Hne.
  pose proof (uint_digits (N.to_uint n)) as Hd. fold (JS.decimal n) in Hd.
  destruct (JS.decimal n) as [| c r]; [contradiction |].
  exists c, r. split; [reflexivity |]. apply Hd. now left.
Qed.

Lemma read_natural_decimal (n : N) (rest : string) :
  match rest with EmptyString => True | String c _ => is_digit c = false end ->
  read_natural (JS.decimal n ++ rest) = Some (n, rest).
Proof.
  intro Hrest. unfold read_natural.
  rewrite span_digits_app; [| apply uint_digits | exact Hrest].
  pose proof (decimal_nonempty n) as Hne.
  destruct (JS.decimal n) as [| c r] eqn:E; [contradiction |].
  rewrite <- E. unfold JS.decimal. rewrite NilEmpty.usu.
  now rewrite Unsigned.of_to.
Qed.

Lemma read_number_write (q : Q) (rest : string) :
  delimited rest -> read_number (write_number q ++ rest) = Some (q, rest).
Proof.
  intro Hrest. destruct q as [n d]. unfold write_number. cbn [Qnum Qden].
  rewrite append_assoc.
  set (tail := (if (d =? 1)%positive then "" else String "/" (JS.decimal (N.pos d))) ++ rest).
  assert (Htail_digit : match tail with
                        | EmptyString => True
                        | String c _ => is_digit c = false
                        end).
  { subst tail. destruct (d =? 1)%positive; cbn; [| reflexivity].
    destruct rest; [exact I | now destruct Hrest]. }
  assert (Hden : forall numerator,
             match tail with
             | String c rest' =>
                 if Ascii.eqb c "/" then
                   match read_natural rest' with
                   | Some (Npos d', rest'') => Some (numerator # d', rest'')
                   | _ => None
                   end
                 else Some (numerator # 1, tail)
             | EmptyString => Some (numerator # 1, tail)
             end = Some (numerator # d, rest)).
  { intro numerator. subst tail. destruct (d =? 1)%positive eqn:Ed.
    - apply Pos.eqb_eq in Ed. subst d. cbn [append].
      destruct rest as [| c r]; [reflexivity |].
      destruct Hrest as [_ Hs]. now rewrite Hs.
    - cbn [append]. rewrite Ascii.eqb_refl.
      rewrite read_natural_decimal; [reflexivity |].
      destruct rest; [exact I | now destruct Hrest]. }
  destruct (n <? 0)%Z eqn:En.
  - unfold read_number. cbn [append]. rewrite Ascii.eqb_refl.
    rewrite read_natural_decimal by exact Htail_digit.
    rewrite Hden. apply Z.ltb_lt in En.
    now rewrite Z2N.id, Z.opp_involutive by lia.
  - destruct (decimal_head (Z.to_N n)) as (c & r & Hc & Hdig).
    unfold read_number. rewrite Hc. cbn [append].
    destruct (digit_class c Hdig) as (_ & Hminus & _). rewrite Hminus.
    change (String c (r ++ tail)) with (String c r ++ tail). rewrite <- Hc.
    rewrite read_natural_decimal by exact Htail_digit.
    rewrite Hden. apply Z.ltb_ge in En. now rewrite Z2N.id by lia.
Qed.

Lemma write_number_head (q : Q) :
  exists c r, write_number q = String c r /\
              (is_digit c = true \/ c = "-"%char).
Proof.
  unfold write_number. destruct (Qnum q <? 0)%Z.
  - eexists. eexists. split; [reflexivity | now right].
  - destruct (decimal_head (Z.to_N (Qnum q))) as (c & r & Hc & Hd).
    rewrite Hc. eexists. eexists. split; [reflexivity | now left].
Qed.

(** *** Induction over JSON values *)

Section Induction.

Variable P : json -> Prop.
Hypothesis P_null : P JNull.
Hypothesis P_bool : forall b, P (JBool b).
Hypothesis P_number : forall x, P (JNumber x).
Hypothesis P_string : forall s, P (JString s).
Hypothesis P_array : forall items, Forall P items -> P (JArray items).
Hypothesis P_object :
  forall members, Forall (fun m => P (snd m)) members -> P (JObject members).

Fixpoint json_induction (v : json) : P v :=
  match v with
  | JNull => P_null
  | JBool b => P_bool b
  | JNumber x => P_number x
  | JString s => P_string s
  | JArray items =>
      P_array items
        ((fix all (l : list json) : Forall P l :=
            match l with
            | [] => Forall_nil P
            | x :: l' => Forall_cons x (json_induction x) (all l')
            end) items)
  | JObject members =>
      P_object members
        ((fix all (l : list (string * json)) : Forall (fun m => P (snd m)) l :=
            match l with
            | [] => Forall_nil _
            | m :: l' =>
                Forall_cons m
                  (match m as m0 return P (snd m0) with
                   | (k, x) => json_induction x
                   end)
                  (all l')
            end) members)
  end.

End Induction.

(** The fuel [read_value] needs for a value. *)
Fixpoint cost (v : json) : nat :=
  match v with
  | JArray items => S (list_sum (map (fun x => S (cost x)) items))
  | JObject members => S (list_sum (map (fun m => S (cost (snd m))) members))
  | _ => 1
  end.

(** The first character of a written value. *)
Definition opens_value (c : ascii) : Prop :=
  JS.is_whitespace c = false /\ Ascii.eqb c "]" = false.

Lemma write_head (L : Layout) (d : nat) (v : json) :
  exists c r, write L d v = String c r /\ opens_value c.
Proof.
  destruct v as [| [|] | q | s | [| x items] | [| m members]];
    try (eexists; eexists; split; [reflexivity | split; reflexivity]).
  destruct (write_number_head q) as (c & r & Hc & Hclass).
  exists c, r. split; [exact Hc |].
  destruct Hclass as [Hd | ->]; [| split; reflexivity].
  destruct (digit_class c Hd) as (Hw & _ & _ & _ & _ & _ & _ & _ & Hb & _).
  now split.
Qed.

Lemma trimStart_before_value (L : Layout) (d : nat) (v : json) (ws rest : string) :
  blank ws = true ->
  exists c r, JS.trimStart (ws ++ write L d v ++ rest) = String c r /\
              write L d v ++ rest = String c r /\ opens_value c.
Proof.
  intro Hws. destruct (write_head L d v) as (c & r & Hc & Hopen).
  exists c, (r ++ rest). rewrite trimStart_blank by exact Hws.
  rewrite Hc. cbn [append]. split; [| split; [reflexivity | exact Hopen]].
  apply trimStart_solid. apply Hopen.
Qed.

(** What the round trip says of one value. *)
Definition reads_back (v : json) : Prop :=
  forall (L : Layout) (d : nat) (ws rest : string) (fuel : nat),
    layout_ok L -> blank ws = true -> delimited rest -> (cost v <= fuel)%nat ->
    read_value fuel (ws ++ write L d v ++ rest) = Some (v, rest).

Lemma read_items_written (L : Layout) (d : nat) (rest : string) :
  layout_ok L ->
  forall items, Forall reads_back items ->
  forall x fuel,
    reads_back x ->
    (list_sum (map (fun y => S (cost y)) (x :: items)) <= fuel)%nat ->
    read_items fuel
      (line L (S d)
       ++ String.concat ("," ++ line L (S d)) (map (write L (S d)) (x :: items))
       ++ line L d ++ "]" ++ rest)
    = Some (x :: items, rest).
Proof.
  intros HL items Hitems.
  induction Hitems as [| y items Hy Hitems IH]; intros x fuel Hx Hfuel.
  - cbn in Hfuel. destruct fuel as [| fuel]; [lia |].
    cbn [map String.concat read_items].
    rewrite Hx; [| exact HL | apply HL | | lia].
    2:{ apply delimited_after_blank; [apply HL | reflexivity | reflexivity]. }
    rewrite trimStart_blank by apply HL. reflexivity.
  - cbn [map list_sum fold_right] in Hfuel. destruct fuel as [| fuel]; [lia |].
    change (String.concat ("," ++ line L (S d)) (map (write L (S d)) (x :: y :: items)))
      with (write L (S d) x ++ ("," ++ line L (S d))
            ++ String.concat ("," ++ line L (S d)) (map (write L (S d)) (y :: items))).
    rewrite !append_assoc. cbn [read_items].
    rewrite Hx; [| exact HL | apply HL | | lia].
    2:{ cbn. split; reflexivity. }
    cbn [append JS.trimStart]. cbv iota.
    change (JS.is_whitespace ",") with false. cbv iota.
    change (Ascii.eqb "," ",") with true. cbv iota.
    rewrite <- !append_assoc. rewrite (append_assoc _ (line L d)).
    rewrite !append_assoc.
    assert (Hrec := IH y fuel Hy).
    cbn [append] in Hrec. rewrite Hrec; [reflexivity |].
    cbn [map list_sum fold_right]. lia.
Qed.

Lemma read_members_written (L : Layout) (d : nat) (rest : string) :
  layout_ok L ->
  forall members, Forall (fun m => reads_back (snd m)) members ->
  forall m fuel,
    reads_back (snd m) ->
    (list_sum (map (fun m' => S (cost (snd m'))) (m :: members)) <= fuel)%nat ->
    read_members fuel
      (line L (S d)
       ++ String.concat ("," ++ line L (S d))
            (map (fun m' => write_string (fst m') ++ ":" ++ gap L
                            ++ write L (S d) (snd m')) (m :: members))
       ++ line L d ++ "}" ++ rest)
    = Some (m :: members, rest).
Proof.
  intros HL members Hmembers.
  assert (Hkey : forall k tail,
             JS.trimStart (line L (S d) ++ write_string k ++ tail)
             = String quote (escape k ++ String quote tail)).
  { intros k tail. rewrite trimStart_blank by apply HL.
    unfold write_string. cbn [append]. rewrite append_assoc. reflexivity. }
  induction Hmembers as [| m' members Hm' Hmembers IH];
    intros [k v] fuel Hv Hfuel; cbn [fst snd] in *.
  - cbn in Hfuel. destruct fuel as [| fuel]; [lia |].
    cbn [map String.concat fst snd read_members].
    rewrite !append_assoc, Hkey. rewrite Ascii.eqb_refl, read_string_escape.
    cbn [append JS.trimStart]. change (JS.is_whitespace ":") with false. cbv iota.
    rewrite Ascii.eqb_refl.
    rewrite Hv; [| exact HL | apply HL | | lia].
    2:{ apply delimited_after_blank; [apply HL | reflexivity | reflexivity]. }
    rewrite trimStart_blank by apply HL. reflexivity.
  - cbn [map list_sum fold_right fst snd] in Hfuel.
    destruct fuel as [| fuel]; [lia |].
    cbn [map]. cbn [fst snd].
    set (sep := "," ++ line L (S d)) in *.
    set (others := map (fun m0 => write_string (fst m0) ++ ":" ++ gap L
                                  ++ write L (S d) (snd m0)) members) in *.
    change (String.concat sep
              ((write_string k ++ ":" ++ gap L ++ write L (S d) v)
               :: (write_string (fst m') ++ ":" ++ gap L ++ write L (S d) (snd m'))
               :: others))
      with ((write_string k ++ ":" ++ gap L ++ write L (S d) v) ++ sep
            ++ String.concat sep
                 ((write_string (fst m') ++ ":" ++ gap L ++ write L (S d) (snd m'))
                  :: others)).
    rewrite !append_assoc. cbn [read_members]. rewrite Hkey.
    rewrite Ascii.eqb_refl, read_string_escape.
    cbn [append JS.trimStart]. change (JS.is_whitespace ":") with false. cbv iota.
    rewrite Ascii.eqb_refl.
    rewrite Hv; [| exact HL | apply HL | | lia].
    2:{ subst sep. cbn. split; reflexivity. }
    subst sep. cbn [append JS.trimStart].
    change (JS.is_whitespace ",") with false. cbv iota.
    rewrite Ascii.eqb_refl.
    subst others.
    match goal with
    | |- match ?X with _ => _ end = _ =>
        replace X with (Some (m' :: members, rest)); [reflexivity |]
    end.
    symmetry. apply (IH m' fuel Hm'). cbn [map list_sum fold_right]. lia.
Qed.

Lemma concat_head (sep tail : string) (w : json -> string) (x : json) (items : list json) :
  exists t,
    String.concat sep (map w (x :: items)) ++ tail = w x ++ t.
Proof.
  destruct items as [| y items]; cbn [map String.concat].
  - now exists tail.
  - rewrite append_assoc. eexists. reflexivity.
Qed.

Theorem read_value_write (v : json) : reads_back v.
Proof.
  induction v as [| b | q | s | items IH | members IH] using json_induction;
    intros L d ws rest fuel HL Hws Hrest Hfuel;
    (destruct fuel as [| fuel]; [cbn in Hfuel; lia |]).
  - cbn [read_value]. rewrite trimStart_blank by exact Hws. reflexivity.
  - cbn [read_value]. rewrite trimStart_blank by exact Hws. now destruct b.
  - cbn [read_value].
    destruct (trimStart_before_value L d (JNumber q) ws rest Hws)
      as (c & r & Htrim & Hcr & _).
    rewrite Htrim. cbn [write] in Hcr.
    assert (Hdispatch :
              Ascii.eqb c quote = false /\ Ascii.eqb c "[" = false /\
              Ascii.eqb c "{" = false /\ Ascii.eqb c "n" = false /\
              Ascii.eqb c "t" = false /\ Ascii.eqb c "f" = false).
    { destruct (write_number_head q) as (c' & r' & Hc' & Hclass).
      rewrite Hc' in Hcr. injection Hcr as <- _.
      destruct Hclass as [Hd | ->]; [| repeat split].
      destruct (digit_class c' Hd) as (_ & _ & H1 & H2 & H3 & H4 & H5 & H6 & _).
      repeat split; assumption. }
    destruct Hdispatch as (H1 & H2 & H3 & H4 & H5 & H6).
    rewrite H1, H2, H3, H4, H5, H6, <- Hcr.
    now rewrite read_number_write.
  - cbn [read_value]. rewrite trimStart_blank by exact Hws.
    cbn [write]. unfold write_string. cbn [append].
    rewrite trimStart_solid by reflexivity.
    rewrite Ascii.eqb_refl, append_assoc. cbn [append].
    now rewrite read_string_escape.
  - destruct items as [| x items].
    { cbn [read_value]. rewrite trimStart_blank by exact Hws. reflexivity. }
    cbn [write]. rewrite !append_assoc. cbn [append].
    cbn [read_value]. rewrite trimStart_blank by exact Hws.
    rewrite trimStart_solid by reflexivity.
    change (Ascii.eqb "[" quote) with false. cbv iota. rewrite Ascii.eqb_refl.
    set (tail := line L d ++ String "]" rest).
    destruct (concat_head (String "," (line L (S d))) tail (write L (S d)) x items)
      as (t & Ht).
    destruct (trimStart_before_value L (S d) x (line L (S d)) t (proj1 HL (S d)))
      as (c & r & Htrim & _ & _ & Hclose).
    rewrite <- Ht in Htrim. rewrite Htrim, Hclose.
    inversion IH as [| ? ? Hx Hitems]; subst.
    cbn [cost map list_sum fold_right] in Hfuel.
    assert (Hread := read_items_written L d rest HL items Hitems x fuel Hx).
    cbn [append] in Hread. subst tail. rewrite Hread; [reflexivity |].
    cbn [map list_sum fold_right]. lia.
  - destruct members as [| [k x] members].
    { cbn [read_value]. rewrite trimStart_blank by exact Hws. reflexivity. }
    cbn [write]. rewrite !append_assoc. cbn [append].
    cbn [read_value]. rewrite trimStart_blank by exact Hws.
    rewrite trimStart_solid by reflexivity.
    change (Ascii.eqb "{" quote) with false. cbv iota.
    change (Ascii.eqb "{" "[") with false. cbv iota. rewrite Ascii.eqb_refl.
    inversion IH as [| ? ? Hx Hmembers]; subst.
    cbn [cost map list_sum fold_right snd] in Hfuel.
    assert (Hread := read_members_written L d rest HL members Hmembers (k, x) fuel Hx).
    cbn [append] in Hread.
    match goal with
    | |- match JS.trimStart ?X with _ => _ end = _ =>
        assert (Hpeek : exists r, JS.trimStart X = String quote r)
    end.
    { rewrite trimStart_blank by apply HL.
      destruct members; cbn [map String.concat fst snd]; unfold write_string;
        cbn [append]; rewrite trimStart_solid by reflexivity; eexists; reflexivity. }
    destruct Hpeek as (r & Hpeek). rewrite Hpeek.
    change (Ascii.eqb quote "}") with false. cbv iota.
    rewrite Hread; [reflexivity |].
    cbn [map list_sum fold_right snd]. lia.
Qed.

(** *** The fuel that [read] gives is enough *)

Lemma concat_length_bound {A} (f : A -> nat) (g : A -> string) (sep : string)
    (l : list A) :
  (1 <= String.length sep)%nat ->
  Forall (fun a => (f a <= String.length (g a))%nat) l ->
  (list_sum (map (fun a => S (f a)) l) <= String.length (String.concat sep (map g l)) + 1)%nat.
Proof.
  intros Hsep Hl. induction Hl as [| a l Ha Hl IH]; [cbn; lia |].
  destruct l as [| b l].
  - cbn. lia.
  - change (String.concat sep (map g (a :: b :: l)))
      with (g a ++ sep ++ String.concat sep (map g (b :: l))).
    rewrite !length_append.
    change (list_sum (map (fun a0 => S (f a0)) (a :: b :: l)))
      with (S (f a) + list_sum (map (fun a0 => S (f a0)) (b :: l)))%nat.
    lia.
Qed.

Lemma cost_le_length (v : json) :
  forall (L : Layout) (d : nat), (cost v <= String.length (write L d v))%nat.
Proof.
  induction v as [| b | q | s | items IH | members IH] using json_induction;
    intros L d.
  - cbn. lia.
  - destruct b; cbn; lia.
  - destruct (write_number_head q) as (c & r & Hc & _).
    cbn [cost write]. rewrite Hc. cbn. lia.
  - cbn. lia.
  - destruct items as [| x items]; [cbn; lia |].
    cbn [cost write]. rewrite !length_append.
    pose proof (concat_length_bound cost (write L (S d)) ("," ++ line L (S d))
                  (x :: items)) as Hb.
    cbn [append String.length] in Hb |- *.
    assert (Hall : Forall (fun a => (cost a <= String.length (write L (S d) a))%nat)
                          (x :: items)).
    { eapply Forall_impl; [| exact IH]. intros a Ha. apply Ha. }
    specialize (Hb ltac:(lia) Hall). lia.
  - destruct members as [| m members]; [cbn; lia |].
    cbn [cost write]. rewrite !length_append.
    pose proof (concat_length_bound (fun m' => cost (snd m'))
                  (fun m' => write_string (fst m') ++ ":" ++ gap L
                             ++ write L (S d) (snd m'))
                  ("," ++ line L (S d)) (m :: members)) as Hb.
    cbn [append String.length] in Hb |- *.
    assert (Hall : Forall (fun a => (cost (snd a) <=
                                     String.length
                                       (write_string (fst a) ++ String ":" (gap L
                                        ++ write L (S d) (snd a))))%nat)
                          (m :: members)).
    { eapply Forall_impl; [| exact IH]. intros a Ha. cbn beta in Ha.
      rewrite length_append. cbn [String.length]. rewrite length_append.
      specialize (Ha L (S d)). lia. }
    specialize (Hb ltac:(lia) Hall). lia.
Qed.

Theorem read_write (L : Layout) (v : json) :
  layout_ok L -> read (write L 0 v) = JS.Return v.
Proof.
  intro HL. unfold read.
  pose proof (read_value_write v L 0%nat "" "" (String.length (write L 0 v))
                HL eq_refl I (cost_le_length v L 0%nat)) as H.
  cbn [append] in H. rewrite append_empty_r in H. now rewrite H.
Qed.

Lemma read_empty (v : json) : read "" <> JS.Return v.
Proof. discriminate. Qed.

End ReferenceJSON.

#[export] Instance reference_JSON : JSON := {|
  stringify := ReferenceJSON.write ReferenceJSON.compact 0;
  stringify_indented := ReferenceJSON.write ReferenceJSON.indented 0;
  parse := ReferenceJSON.read;
  parse_stringify := fun v =>
    ReferenceJSON.read_write ReferenceJSON.compact v ReferenceJSON.compact_ok;
  parse_stringify_indented := fun v =>
    ReferenceJSON.read_write ReferenceJSON.indented v ReferenceJSON.indented_ok;
  parse_empty := ReferenceJSON.read_empty
|}.

(** ** The store on concrete inputs *)

(** Fifty stored entries, the newest first: 50, 49, ..., 1. *)
Definition fifty_entries : list json :=
  map (fun n => JNumber (Z.of_nat n # 1)) (rev (seq 1 50)).

Definition full_store : VideoApi.Storage :=
  Some (stringify (JArray fifty_entries)).

(** Saving a 51st entry into a store of fifty. *)
Lemma save_the_51st_entry :
  let saved :=
    VideoApi.getGenerationHistory
      (VideoApi.saveGenerationToHistory (JNumber 51) full_store true) in
  saved = JArray (JNumber 51 :: firstn 49 fifty_entries) /\
  (length (JNumber 51 :: firstn 49 fifty_entries) <= 50)%nat /\
  ((length fifty_entries < 50)%nat -> saved = JArray (JNumber 51 :: fifty_entries)) /\
  (length fifty_entries = 50%nat ->
   saved = JArray (JNumber 51 :: removelast fifty_entries) /\
   length (JNumber 51 :: removelast fifty_entries) = 50%nat).
Proof.
  apply (saveGenerationToHistory_prepends_and_caps full_store fifty_entries (JNumber 51)).
  vm_compute. reflexivity.
Defined.

Example save_evicts_the_oldest :
  VideoApi.getGenerationHistory
    (VideoApi.saveGenerationToHistory (JNumber 51) full_store true)
  = JArray (map (fun n => JNumber (Z.of_nat n # 1)) (rev (seq 2 50))).
Proof. vm_compute. reflexivity. Qed.

Example export_of_two_entries :
  VideoApi.exportGenerationHistory
    (Some (stringify (JArray [JObject [("id", JString "gen_2_b")];
                              JObject [("id", JString "gen_1_a")]])))
  = ReferenceJSON.write ReferenceJSON.indented 0
      (JArray [JObject [("id", JString "gen_2_b")];
               JObject [("id", JString "gen_1_a")]]).
Proof. vm_compute. reflexivity. Qed.

Example import_rejects_a_non_list :
  VideoApi.importGenerationHistory "{}" full_store true = (false, full_store).
Proof. vm_compute. reflexivity. Qed.

Example import_rejects_bad_text :
  VideoApi.importGenerationHistory "[1,2" full_store true = (false, full_store).
Proof. vm_compute. reflexivity. Qed.

(* ================================================================= *)
(** * Part IV: the rest of the code *)
(* ================================================================= *)

(** ** The history store: imports, repeated saves, unusable items *)

(** Reading back a save that the storage accepted. *)
Lemma load_after_save {codec : JSON} (st : VideoApi.Storage) (items : list json)
    (generation : json) :
  VideoApi.getGenerationHistory st = JArray items ->
  VideoApi.getGenerationHistory (VideoApi.saveGenerationToHistory generation st true)
  = JArray (generation :: firstn 49 items).
Proof.
  intro Hload. unfold VideoApi.saveGenerationToHistory.
  rewrite Hload. cbn [spread_slice_0_49]. apply getGenerationHistory_stringify.
Qed.

(** Reading back an item that [JSON.parse] accepts. *)
Lemma load_of_parsed {codec : JSON} (data : string) (v : json) :
  parse data = JS.Return v -> VideoApi.getGenerationHistory (Some data) = v.
Proof.
  intro Hp. unfold VideoApi.getGenerationHistory.
  destruct data as [| c data]; cbn [JS.truthy].
  - exfalso. exact (parse_empty v Hp).
  - now rewrite Hp.
Qed.

(** [importGenerationHistory] returns [true] exactly when the text
    parses to a list and the storage accepts the write.  When it returns
    [false] the item is left as it was; when it returns [true] the next
    load gives the parsed list, whole, however long it is. *)
Theorem importGenerationHistory_accepts_exactly_lists {codec : JSON}
    (data : string) (st : VideoApi.Storage) (quota_ok : bool) :
  let result := VideoApi.importGenerationHistory data st quota_ok in
  (fst result = true <->
   (exists items, parse data = JS.Return (JArray items)) /\ quota_ok = true) /\
  (fst result = false -> snd result = st) /\
  (forall items,
     fst result = true -> parse data = JS.Return (JArray items) ->
     VideoApi.getGenerationHistory (snd result) = JArray items).
Proof.
  cbv zeta. unfold VideoApi.importGenerationHistory.
  destruct (parse data) as [parsed | e] eqn:Hp.
  2:{ cbn. repeat split; try discriminate.
      intros [(items & H) _]. discriminate. }
  destruct parsed as [| b | x | s | items | members]; cbn [isArray fst snd];
    try (repeat split; try discriminate;
         intros [(items & H) _]; discriminate).
  destruct quota_ok; cbn [fst snd].
  - repeat split; try discriminate.
    + now exists items.
    + intros items' _ H. injection H as <-. now apply load_of_parsed.
  - repeat split; try discriminate. now intros [_ H].
Qed.

Example import_keeps_51_entries :
  let data := stringify (JArray (JNumber 51 :: fifty_entries)) in
  let result := VideoApi.importGenerationHistory data None true in
  fst result = true /\
  VideoApi.getGenerationHistory (snd result) = JArray (JNumber 51 :: fifty_entries) /\
  length (JNumber 51 :: fifty_entries) = 51%nat.
Proof. vm_compute. repeat split; reflexivity. Qed.

(** Saving the elements of [generations] one after the other, each write
    accepted. *)
Definition save_each {codec : JSON} (generations : list json) (st : VideoApi.Storage)
  : VideoApi.Storage :=
  fold_left (fun item generation =>
               VideoApi.saveGenerationToHistory generation item true)
            generations st.

Lemma prepend_and_cap_many (generations items : list json) :
  generations <> [] ->
  fold_left (fun kept generation => generation :: firstn 49 kept) generations items
  = firstn 50 (rev generations ++ items)%list.
Proof.
  induction generations as [| g generations IH] using rev_ind; intro Hne;
    [contradiction |].
  rewrite fold_left_app, rev_app_distr. cbn [fold_left rev app].
  destruct generations as [| g0 generations]; [reflexivity |].
  rewrite IH by discriminate.
  rewrite firstn_firstn. reflexivity.
Qed.

Lemma load_after_save_each {codec : JSON} (generations : list json) :
  forall (st : VideoApi.Storage) (items : list json),
    VideoApi.getGenerationHistory st = JArray items ->
    VideoApi.getGenerationHistory (save_each generations st)
    = JArray (fold_left (fun kept generation => generation :: firstn 49 kept)
                        generations items).
Proof.
  induction generations as [| g generations IH]; intros st items Hload;
    [exact Hload |].
  cbn [save_each fold_left]. apply IH. now apply load_after_save.
Qed.

(** After one or more accepted saves onto a stored list, the store holds
    the saved generations, the last saved first, followed by the old
    entries, cut to 50. *)
Theorem saves_keep_the_newest_50 {codec : JSON} (st : VideoApi.Storage)
    (items generations : list json) :
  VideoApi.getGenerationHistory st = JArray items ->
  generations <> [] ->
  VideoApi.getGenerationHistory (save_each generations st)
  = JArray (firstn 50 (rev generations ++ items)%list).
Proof.
  intros Hload Hne.
  rewrite (load_after_save_each generations st items Hload).
  now rewrite prepend_and_cap_many.
Qed.

(** Two saves onto the store of fifty. *)
Lemma two_saves_onto_fifty :
  VideoApi.getGenerationHistory (save_each [JNumber 51; JNumber 52] full_store)
  = JArray (firstn 50 (rev [JNumber 51; JNumber 52] ++ fifty_entries)%list).
Proof.
  apply (saves_keep_the_newest_50 full_store fifty_entries [JNumber 51; JNumber 52]).
  - vm_compute. reflexivity.
  - discriminate.
Defined.

(** When the item holds JSON that is neither a list nor a string (null,
    a boolean, a number, an object), [history.slice] is not a function:
    the [catch] swallows the error and the save changes nothing, whether
    or not the storage would accept a write. *)
Theorem save_is_lost_on_a_non_list_item {codec : JSON} (st : VideoApi.Storage)
    (generation : json) (quota_ok : bool) :
  (forall items, VideoApi.getGenerationHistory st <> JArray items) ->
  (forall s, VideoApi.getGenerationHistory st <> JString s) ->
  VideoApi.saveGenerationToHistory generation st quota_ok = st.
Proof.
  intros Hlist Hstring. unfold VideoApi.saveGenerationToHistory.
  destruct (VideoApi.getGenerationHistory st) as [| b | x | s | items | members];
    cbn [spread_slice_0_49]; try reflexivity.
  - now contradiction (Hstring s).
  - now contradiction (Hlist items).
Qed.

(** A save onto an item that holds an object. *)
Lemma save_onto_an_object_item :
  VideoApi.saveGenerationToHistory (JNumber 51) (Some "{}") true = Some "{}".
Proof.
  apply (save_is_lost_on_a_non_list_item (Some "{}") (JNumber 51) true).
  - intros items. vm_compute. discriminate.
  - intros s. vm_compute. discriminate.
Defined.

(** When the item holds a string, the save spreads its characters into
    the list. *)
Example save_onto_a_string_item :
  VideoApi.getGenerationHistory
    (VideoApi.saveGenerationToHistory (JNumber 51) (Some (stringify (JString "ab"))) true)
  = JArray [JNumber 51; JString "a"; JString "b"].
Proof. vm_compute. reflexivity. Qed.

(** When the key is absent or its text is not JSON, an accepted save
    stores the one-entry list: whatever the unreadable text held is
    replaced. *)
Theorem save_replaces_an_unreadable_item {codec : JSON} (st : VideoApi.Storage)
    (generation : json) :
  (st = None \/ exists text e, st = Some text /\ parse text = JS.Throw e) ->
  VideoApi.saveGenerationToHistory generation st true
  = Some (stringify (JArray [generation])) /\
  VideoApi.getGenerationHistory (VideoApi.saveGenerationToHistory generation st true)
  = JArray [generation].
Proof.
  intro Hst.
  assert (Hload : VideoApi.getGenerationHistory st = JArray []).
  { destruct Hst as [-> | (text & e & -> & Hp)];
      [reflexivity | now apply (getGenerationHistory_corrupt text e)]. }
  split; [| now rewrite (load_after_save st [] generation Hload)].
  unfold VideoApi.saveGenerationToHistory. now rewrite Hload.
Qed.

(** A save onto text that is not JSON. *)
Lemma save_onto_unreadable_text :
  VideoApi.saveGenerationToHistory (JNumber 51) (Some "[1,2") true
  = Some (stringify (JArray [JNumber 51])) /\
  VideoApi.getGenerationHistory
    (VideoApi.saveGenerationToHistory (JNumber 51) (Some "[1,2") true)
  = JArray [JNumber 51].
Proof.
  apply (save_replaces_an_unreadable_item (Some "[1,2") (JNumber 51)).
  right. exists "[1,2", (JS.ErrorObject "Unexpected token in JSON").
  split; [reflexivity | vm_compute; reflexivity].
Defined.

(** ** The hook: what it persists, its counts, retry, lookup *)

(** What one event does to the history and to the storage calls: nothing,
    or one terminal record put in front of both, or the history emptied
    and the item removed. *)
Lemma step_history_and_store (s : Hook.State) (e : Hook.Event) :
  let s' := Hook.step s e in
  (Hook.generationHistory s' = Hook.generationHistory s /\
   Hook.storeCalls s' = Hook.storeCalls s) \/
  (exists record,
     gen_status record <> processing /\
     Hook.generationHistory s' = record :: Hook.generationHistory s /\
     Hook.storeCalls s' = Hook.SaveGenerationToHistory record :: Hook.storeCalls s) \/
  (Hook.generationHistory s' = [] /\
   Hook.storeCalls s' = Hook.RemoveItem :: Hook.storeCalls s).
Proof.
  cbv zeta.
  destruct e as [p config now rnd | generation now rnd | k awaited now
                | k now | id now | random |]; cbn [Hook.step].
  - left. split; reflexivity.
  - left. split; reflexivity.
  - destruct (nth_error (Hook.awaiting s) k) as [generation |];
      [| left; split; reflexivity].
    unfold Hook.generateVideo_continue. cbn [snd].
    assert (Hfail : forall msg,
               exists record,
                 gen_status record <> processing /\
                 Hook.generationHistory
                   (Hook.set_isGenerating false
                      (Hook.move_to_history (Hook.failed_from generation msg now)
                         (Hook.drop_awaiting k s)))
                 = record :: Hook.generationHistory s /\
                 Hook.storeCalls
                   (Hook.set_isGenerating false
                      (Hook.move_to_history (Hook.failed_from generation msg now)
                         (Hook.drop_awaiting k s)))
                 = Hook.SaveGenerationToHistory record :: Hook.storeCalls s).
    { intro msg. eexists. split; [| split; reflexivity]. discriminate. }
    destruct awaited as [response | e]; cbn [JS.bind];
      [| right; left; apply Hfail].
    unfold Hook.after_await.
    destruct (success response); [| right; left; apply Hfail].
    destruct (status response) as [[| |] |]; try (right; left; apply Hfail).
    + left. split; reflexivity.
    + destruct (videoUrl response) as [link |]; [| right; left; apply Hfail].
      destruct (JS.truthy link); [| right; left; apply Hfail].
      right; left. eexists. split; [| split; reflexivity]. discriminate.
  - destruct (nth_error (Hook.timers s) k) as [generationId |];
      [| left; split; reflexivity].
    unfold Hook.pollForCompletion_callback. cbn [Hook.activeGenerations Hook.drop_timer].
    destruct (find (id_is generationId) (Hook.activeGenerations s));
      [| left; split; reflexivity].
    right; left. eexists. split; [| split; reflexivity]. discriminate.
  - unfold Hook.cancelGeneration.
    destruct (find (id_is id) (Hook.activeGenerations s));
      [| left; split; reflexivity].
    right; left. eexists. split; [| split; reflexivity]. discriminate.
  - left. split; reflexivity.
  - right; right. split; reflexivity.
Qed.

(** A property that holds after mounting and is kept by every event holds
    after every run. *)
Lemma run_keeps (P : Hook.State -> Prop) (events : list Hook.Event) :
  (forall s e, P s -> P (Hook.step s e)) ->
  forall s, P s -> P (Hook.run s events).
Proof.
  intro Hstep. unfold Hook.run.
  induction events as [| e events IH]; intros s Hs; [exact Hs |].
  cbn [fold_left]. apply IH, Hstep, Hs.
Qed.

Section Persistence.

Context {codec : JSON}.

(** The JSON value of a generation object, as [JSON.stringify] sees it. *)
Variable toJSON : Generation -> json.

(** The item of [localStorage] after the storage calls of the hook, the
    oldest call first, every write accepted. *)
Definition replay (calls : list Hook.StoreCall) (st : VideoApi.Storage)
  : VideoApi.Storage :=
  fold_right
    (fun call item =>
       match call with
       | Hook.SaveGenerationToHistory g =>
           VideoApi.saveGenerationToHistory (toJSON g) item true
       | Hook.RemoveItem => None
       end)
    st calls.

(** The hook is mounted on a store whose list is the loaded history; it
    then runs any events, every write accepted.  What the store holds
    afterwards and the history in memory agree on their first 50
    entries: a reload shows the newest 50 of what the session showed. *)
Theorem persisted_history_is_the_newest_50 (st : VideoApi.Storage)
    (loaded : list Generation) (events : list Hook.Event) :
  VideoApi.getGenerationHistory st = JArray (map toJSON loaded) ->
  let s := Hook.run (Hook.mounted loaded) events in
  exists stored,
    VideoApi.getGenerationHistory (replay (Hook.storeCalls s) st) = JArray stored /\
    firstn 50 stored = firstn 50 (map toJSON (Hook.generationHistory s)).
Proof.
  intros Hload. cbv zeta.
  apply (run_keeps
           (fun s => exists stored,
                VideoApi.getGenerationHistory (replay (Hook.storeCalls s) st)
                = JArray stored /\
                firstn 50 stored
                = firstn 50 (map toJSON (Hook.generationHistory s)))).
  - intros s e (stored & Hstored & Hagree).
    destruct (step_history_and_store s e)
      as [[Hh Hc] | [(record & _ & Hh & Hc) | [Hh Hc]]];
      rewrite Hh, Hc.
    + now exists stored.
    + exists (toJSON record :: firstn 49 stored). cbn [replay fold_right].
      split; [now apply load_after_save |].
      cbn [map]. rewrite !firstn_cons. f_equal.
      rewrite firstn_firstn, Nat.min_id.
      apply (f_equal (firstn 49)) in Hagree.
      rewrite !firstn_firstn in Hagree.
      replace (Nat.min 49 50) with 49%nat in Hagree by reflexivity.
      exact Hagree.
    + exists []. split; reflexivity.
  - exists (map toJSON loaded). split; [exact Hload | reflexivity].
Qed.

End Persistence.

(** The JSON value of a generation, for running the store on the hook's
    records: its identifier, prompt and outcome. *)
Definition generation_json (g : Generation) : json :=
  JObject
    (("id", JString (gen_id g))
     :: ("prompt", JString (gen_prompt g))
     :: ("status", JString (match gen_status g with
                            | processing => "processing"
                            | completed => "completed"
                            | failed => "failed"
                            end))
     :: (match gen_videoUrl g with
         | Some link => [("videoUrl", JString link)]
         | None => []
         end
         ++ match gen_error g with
            | Some msg => [("error", JString msg)]
            | None => []
            end)%list).

(** The sunset generation is started, answered [processing], and then
    cancelled, on an empty store. *)
Lemma persisted_history_of_the_cancelled_sunset :
  let s :=
    Hook.run (Hook.mounted [])
      [ sunset_call;
        Hook.ResumeGenerateVideo 0 (JS.Return processing_response) 1700000003000;
        Hook.CallCancelGeneration sunset_id 1700000004000 ] in
  exists stored,
    VideoApi.getGenerationHistory (replay generation_json (Hook.storeCalls s) None)
    = JArray stored /\
    firstn 50 stored = firstn 50 (map generation_json (Hook.generationHistory s)).
Proof.
  apply (persisted_history_is_the_newest_50 generation_json None []
           [ sunset_call;
             Hook.ResumeGenerateVideo 0 (JS.Return processing_response) 1700000003000;
             Hook.CallCancelGeneration sunset_id 1700000004000 ]).
  reflexivity.
Defined.

Example persisted_text_of_the_cancelled_sunset :
  replay generation_json
    (Hook.storeCalls
       (Hook.run (Hook.mounted [])
          [ sunset_call; Hook.CallCancelGeneration sunset_id 1700000004000 ]))
    None
  = Some (stringify
            (JArray [JObject [("id", JString sunset_id);
                              ("prompt", JString "A sunset");
                              ("status", JString "failed");
                              ("error", JString "Cancelled by user")]])).
Proof. vm_compute. reflexivity. Qed.

(** *** The derived counts *)

Lemma terminal_counts (l : list Generation) :
  Forall (fun g => gen_status g <> processing) l ->
  (length (filter (fun g => Status_eqb (gen_status g) completed) l)
   + length (filter (fun g => Status_eqb (gen_status g) failed) l)
   = length l)%nat.
Proof.
  induction 1 as [| g l Hg Hl IH]; [reflexivity |].
  cbn [filter]. destruct (gen_status g); cbn [Status_eqb length];
    [contradiction | lia | lia].
Qed.

(** When the loaded history holds no [processing] record, then after any
    events the completed count and the failed count add up to the length
    of the history: every record the hook puts there is terminal. *)
Theorem completed_and_failed_counts_cover_the_history
    (loaded : list Generation) (events : list Hook.Event) :
  Forall (fun g => gen_status g <> processing) loaded ->
  let s := Hook.run (Hook.mounted loaded) events in
  (Hook.getCompletedCount s + Hook.getFailedCount s
   = length (Hook.generationHistory s))%nat.
Proof.
  intro Hloaded. cbv zeta.
  unfold Hook.getCompletedCount, Hook.getFailedCount. apply terminal_counts.
  apply (run_keeps
           (fun s => Forall (fun g => gen_status g <> processing)
                            (Hook.generationHistory s))).
  - intros s e Hs.
    destruct (step_history_and_store s e)
      as [[Hh _] | [(record & Hrec & Hh & _) | [Hh _]]]; rewrite Hh.
    + exact Hs.
    + now constructor.
    + constructor.
  - exact Hloaded.
Qed.

Lemma counts_of_the_sunset_session :
  let s :=
    Hook.run (Hook.mounted [])
      [ sunset_call;
        Hook.ResumeGenerateVideo 0 (JS.Return processing_response) 1700000003000;
        sunset_call;
        Hook.TimerFires 0 1700000009000;
        Hook.CallCancelGeneration sunset_id 1700000009500 ] in
  (Hook.getCompletedCount s + Hook.getFailedCount s
   = length (Hook.generationHistory s))%nat.
Proof.
  apply (completed_and_failed_counts_cover_the_history []
           [ sunset_call;
             Hook.ResumeGenerateVideo 0 (JS.Return processing_response) 1700000003000;
             sunset_call;
             Hook.TimerFires 0 1700000009000;
             Hook.CallCancelGeneration sunset_id 1700000009500 ]).
  constructor.
Defined.

(** *** [retryGeneration] *)

Lemma trimStart_idempotent (s : string) : JS.trimStart (JS.trimStart s) = JS.trimStart s.
Proof.
  induction s as [| c s IH]; [reflexivity |].
  cbn [JS.trimStart]. destruct (JS.is_whitespace c) eqn:Hc; [exact IH |].
  cbn [JS.trimStart]. now rewrite Hc.
Qed.

Lemma trimEnd_cons (c : ascii) (s : string) :
  JS.trimEnd (String c s)
  = match JS.trimEnd s with
    | EmptyString =>
        if JS.is_whitespace c then EmptyString else String c EmptyString
    | t => String c t
    end.
Proof. reflexivity. Qed.

Lemma trimEnd_idempotent (s : string) : JS.trimEnd (JS.trimEnd s) = JS.trimEnd s.
Proof.
  induction s as [| c s IH]; [reflexivity |].
  rewrite (trimEnd_cons c s).
  destruct (JS.trimEnd s) as [| d t] eqn:Ht.
  - destruct (JS.is_whitespace c) eqn:Hc; [reflexivity |].
    rewrite trimEnd_cons. cbn [JS.trimEnd]. now rewrite Hc.
  - rewrite trimEnd_cons, IH. reflexivity.
Qed.

Lemma trimStart_trimEnd (s : string) :
  JS.trimStart (JS.trimEnd s) = JS.trimEnd (JS.trimStart s).
Proof.
  induction s as [| c s IH]; [reflexivity |].
  rewrite (trimEnd_cons c s). cbn [JS.trimStart].
  destruct (JS.is_whitespace c) eqn:Hc.
  - rewrite <- IH.
    destruct (JS.trimEnd s) as [| d t]; [reflexivity |].
    cbn [JS.trimStart]. now rewrite Hc.
  - rewrite trimEnd_cons.
    destruct (JS.trimEnd s) as [| d t]; rewrite ?Hc; cbn [JS.trimStart]; now rewrite Hc.
Qed.

(** [trim] of a trimmed string is the string. *)
Lemma trim_idempotent (s : string) : JS.trim (JS.trim s) = JS.trim s.
Proof.
  unfold JS.trim.
  rewrite (trimStart_trimEnd (JS.trimStart s)), trimStart_idempotent.
  apply trimEnd_idempotent.
Qed.

(** The prompt of a generation is as [trim] leaves it. *)
Definition prompt_is_trimmed (g : Generation) : Prop :=
  JS.trim (gen_prompt g) = gen_prompt g.



(** Every generation the hook holds has a trimmed prompt, provided the
    loaded history has: in the active list, in the suspended calls and in
    the history, after any events. *)
Definition prompts_are_trimmed (s : Hook.State) : Prop :=
  Forall prompt_is_trimmed (Hook.activeGenerations s) /\
  Forall prompt_is_trimmed (Hook.awaiting s) /\
  Forall prompt_is_trimmed (Hook.generationHistory s).

Lemma move_to_history_trimmed (record : Generation) (s : Hook.State) :
  prompt_is_trimmed record -> prompts_are_trimmed s ->
  prompts_are_trimmed (Hook.move_to_history record s).
Proof.
  intros Hr (Ha & Hw & Hh). repeat split; cbn.
  - now apply HookFacts.Forall_filter.
  - exact Hw.
  - now constructor.
Qed.

Lemma generateVideo_call_trimmed (p : string) (config : GenerationConfig)
    (now : N) (rnd : string) (s : Hook.State) :
  prompts_are_trimmed s ->
  prompts_are_trimmed (Hook.generateVideo_call p config now rnd s).
Proof.
  intros (Ha & Hw & Hh).
  assert (Hnew : prompt_is_trimmed (Hook.new_generation p config now rnd))
    by apply trim_idempotent.
  repeat split; cbn; try assumption;
    (apply Forall_app; split; [assumption | now constructor]).
Qed.

Lemma step_keeps_prompts_trimmed (s : Hook.State) (e : Hook.Event) :
  prompts_are_trimmed s -> prompts_are_trimmed (Hook.step s e).
Proof.
  intros Hs. pose proof Hs as (Ha & Hw & Hh).
  destruct e as [p config now rnd | generation now rnd | k awaited now
                | k now | id now | random |]; cbn [Hook.step].
  - now apply generateVideo_call_trimmed.
  - now apply generateVideo_call_trimmed.
  - destruct (nth_error (Hook.awaiting s) k) as [generation |] eqn:Hk; [| exact Hs].
    pose proof (HookFacts.Forall_nth_error _ _ _ _ Hw Hk) as Hg.
    assert (Hdrop : prompts_are_trimmed (Hook.drop_awaiting k s)).
    { repeat split; cbn; try assumption. now apply HookFacts.Forall_remove_nth. }
    assert (Hfail : forall msg,
               prompts_are_trimmed
                 (Hook.set_isGenerating false
                    (Hook.move_to_history (Hook.failed_from generation msg now)
                       (Hook.drop_awaiting k s)))).
    { intro msg.
      destruct (move_to_history_trimmed (Hook.failed_from generation msg now)
                  (Hook.drop_awaiting k s) Hg Hdrop) as (H1 & H2 & H3).
      repeat split; assumption. }
    unfold Hook.generateVideo_continue. cbn [snd].
    destruct awaited as [response | e]; cbn [JS.bind]; [| apply Hfail].
    unfold Hook.after_await.
    destruct (success response); [| apply Hfail].
    destruct (status response) as [[| |] |]; try apply Hfail.
    + destruct Hdrop as (Hda & Hdw & Hdh). repeat split; cbn; try assumption.
      apply Forall_forall. intros g Hin. apply in_map_iff in Hin.
      destruct Hin as (g0 & <- & Hin0).
      rewrite Forall_forall in Hda. specialize (Hda g0 Hin0).
      destruct (id_is (gen_id generation) g0); exact Hda.
    + destruct (videoUrl response) as [link |]; [| apply Hfail].
      destruct (JS.truthy link); [| apply Hfail].
      destruct (move_to_history_trimmed (Hook.completed_from generation link now)
                  (Hook.drop_awaiting k s) Hg Hdrop) as (H1 & H2 & H3).
      repeat split; assumption.
  - destruct (nth_error (Hook.timers s) k) as [generationId |]; [| exact Hs].
    unfold Hook.pollForCompletion_callback. cbn [Hook.activeGenerations Hook.drop_timer].
    destruct (find (id_is generationId) (Hook.activeGenerations s)) as [g |] eqn:Hf.
    + apply find_some in Hf. destruct Hf as [Hin _].
      rewrite Forall_forall in Ha.
      apply move_to_history_trimmed; [exact (Ha g Hin) |].
      repeat split; cbn; try assumption. now apply Forall_forall.
    + repeat split; assumption.
  - unfold Hook.cancelGeneration.
    destruct (find (id_is id) (Hook.activeGenerations s)) as [g |] eqn:Hf; [| exact Hs].
    apply find_some in Hf. destruct Hf as [Hin _].
    rewrite Forall_forall in Ha.
    apply move_to_history_trimmed; [exact (Ha g Hin) | exact Hs].
  - repeat split; cbn; try assumption.
    clear Hs. generalize 0%nat.
    induction Ha as [| g l Hg Hl IH]; intro i; cbn; constructor.
    + unfold prompt_is_trimmed, Hook.tick_generation in *.
      destruct (gen_status g); try exact Hg.
      destruct (JS.lt (gen_progress g) 90); exact Hg.
    + apply IH.
  - repeat split; cbn; try assumption. constructor.
Qed.

(** When the loaded history has trimmed prompts, then after any events
    every generation the hook holds has a trimmed prompt: the active
    ones, the ones of suspended calls and the records of the history. *)
Theorem session_prompts_stay_trimmed (loaded : list Generation)
    (events : list Hook.Event) :
  Forall prompt_is_trimmed loaded ->
  prompts_are_trimmed (Hook.run (Hook.mounted loaded) events).
Proof.
  intro Hloaded. apply (run_keeps prompts_are_trimmed).
  - exact step_keeps_prompts_trimmed.
  - repeat split; cbn; try constructor. exact Hloaded.
Qed.

(** A call with a padded prompt, answered with a failure. *)
Lemma padded_prompt_is_stored_trimmed :
  prompts_are_trimmed
    (Hook.run (Hook.mounted [])
       [ Hook.CallGenerateVideo "  A sunset  " sunset_config 1700000000000 "k3x9";
         Hook.ResumeGenerateVideo 0
           (JS.Return (failure "HTTP error! status: 500" (Some failed))) 1700000003000 ]).
Proof.
  apply (session_prompts_stay_trimmed []
           [ Hook.CallGenerateVideo "  A sunset  " sunset_config 1700000000000 "k3x9";
             Hook.ResumeGenerateVideo 0
               (JS.Return (failure "HTTP error! status: 500" (Some failed)))
               1700000003000 ]).
  constructor.
Defined.

(** *** [getGenerationById] *)

Lemma find_in_app {A} (f : A -> bool) (l1 l2 : list A) :
  find f (l1 ++ l2)%list
  = match find f l1 with
    | Some x => Some x
    | None => find f l2
    end.
Proof.
  induction l1 as [| x l1 IH]; [reflexivity |].
  cbn [app find]. now destruct (f x).
Qed.

(** The lookup searches the active list before the history: an active
    generation hides a history record with the same identifier.  Right
    after [cancelGeneration id] it finds the cancelled record.  It finds
    nothing exactly when no generation of either list bears the
    identifier. *)
Theorem getGenerationById_looks_in_active_first (id : string) (now : N)
    (s : Hook.State) :
  (forall g, find (id_is id) (Hook.activeGenerations s) = Some g ->
             Hook.getGenerationById id s = Some g /\
             Hook.getGenerationById id (Hook.cancelGeneration id now s)
             = Some (Hook.cancelled_from g now)) /\
  (Hook.getGenerationById id s = None <->
   forall g, In g (Hook.activeGenerations s ++ Hook.generationHistory s)%list ->
             gen_id g <> id).
Proof.
  unfold Hook.getGenerationById. split.
  - intros g Hf. rewrite find_in_app, Hf. split; [reflexivity |].
    unfold Hook.cancelGeneration. rewrite Hf. cbn [Hook.activeGenerations
      Hook.generationHistory Hook.move_to_history].
    rewrite find_in_app.
    destruct (find_id_is_some _ _ _ Hf) as [_ Hid].
    assert (Hgone : find (id_is id)
                      (filter (id_differs (gen_id (Hook.cancelled_from g now)))
                              (Hook.activeGenerations s)) = None).
    { apply find_id_is_none. cbn [Hook.cancelled_from gen_id]. rewrite Hid.
      apply filter_id_differs_excludes. }
    rewrite Hgone. cbn [find]. unfold id_is at 1. cbn [Hook.cancelled_from gen_id].
    rewrite Hid, String.eqb_refl. reflexivity.
  - apply find_id_is_none.
Qed.

Example lookup_of_the_cancelled_sunset :
  Hook.getGenerationById sunset_id
    (Hook.cancelGeneration sunset_id 1700000002000 sunset_started)
  = Some (Hook.cancelled_from
            (Hook.new_generation "A sunset" sunset_config 1700000000000 "k3x9")
            1700000002000).
Proof. vm_compute. reflexivity. Qed.

(** *** [isGenerating] *)

(** A call sets [isGenerating]; the [finally] of any continuation clears
    it, whatever other calls are still suspended at their [await]: the
    flag tells that the last event was a call, not that a request is in
    flight. *)
Theorem isGenerating_is_cleared_by_any_continuation (s : Hook.State) (k : nat)
    (generation : Generation) (awaited : JS.Completion VideoGenerationResponse)
    (now : N) :
  nth_error (Hook.awaiting s) k = Some generation ->
  let s' := Hook.step s (Hook.ResumeGenerateVideo k awaited now) in
  Hook.isGenerating s' = false /\
  Hook.awaiting s' = Hook.remove_nth k (Hook.awaiting s).
Proof.
  intro Hk. cbn [Hook.step]. rewrite Hk.
  unfold Hook.generateVideo_continue. cbn [snd].
  destruct awaited as [response | e]; cbn [JS.bind]; [| split; reflexivity].
  unfold Hook.after_await.
  destruct (success response); [| split; reflexivity].
  destruct (status response) as [[| |] |]; try (split; reflexivity).
  destruct (videoUrl response) as [link |]; [| split; reflexivity].
  destruct (JS.truthy link); split; reflexivity.
Qed.

(** Two calls are made and the first is answered: the flag is cleared
    while the second call is still suspended. *)
Lemma isGenerating_with_a_call_in_flight :
  let s :=
    Hook.run (Hook.mounted [])
      [ sunset_call;
        Hook.CallGenerateVideo "A storm" sunset_config 1700000000500 "m2n8" ] in
  let s' :=
    Hook.step s (Hook.ResumeGenerateVideo 0 (JS.Return processing_response)
                   1700000003000) in
  Hook.isGenerating s = true /\
  (Hook.isGenerating s' = false /\
   Hook.awaiting s' = Hook.remove_nth 0 (Hook.awaiting s)) /\
  map gen_prompt (Hook.awaiting s') = ["A storm"].
Proof.
  split; [reflexivity |]. split.
  - apply (isGenerating_is_cleared_by_any_continuation _ 0%nat
             (Hook.new_generation "A sunset" sunset_config 1700000000000 "k3x9")
             (JS.Return processing_response) 1700000003000).
    reflexivity.
  - vm_compute. reflexivity.
Defined.

(** ** The route: the shape of every answer, the estimate, the prompt *)

(** Every answer of [POST] has one of three shapes, and at most one
    provider call is made.  Status 200: [success] is true and there is no
    error, with either status [completed] and a video URL, or status
    [processing], a task identifier and an estimate of at least 30
    seconds.  Status 400: [success] is false with an error message, no
    status, and no provider call.  Status 500: [success] is false with an
    error message and status [failed]. *)
Theorem POST_answers_have_three_shapes
    (Number_toString : Q -> string) (match_mp4 : string -> option string)
    (request_json : JS.Completion VideoGenerationRequest)
    (provider : Route.ProviderCall -> Route.ProviderOutcome)
    (now : N) (rnd : string) :
  let result := Route.POST Number_toString match_mp4 request_json provider now rnd in
  let body := Route.json_body (snd result) in
  (length (fst result) <= 1)%nat /\
  ((Route.http_status (snd result) = 200%N /\
    success body = true /\ error body = None /\
    ((status body = Some completed /\ (exists link, videoUrl body = Some link) /\
      taskId body = None /\ estimatedTime body = None) \/
     (status body = Some processing /\ videoUrl body = None /\
      (exists task, taskId body = Some task) /\
      (exists seconds, estimatedTime body = Some seconds /\ 30 <= seconds)))) \/
   (Route.http_status (snd result) = 400%N /\
    success body = false /\ (exists msg, error body = Some msg) /\
    status body = None /\ fst result = []) \/
   (Route.http_status (snd result) = 500%N /\
    success body = false /\ (exists msg, error body = Some msg) /\
    status body = Some failed)).
Proof.
  cbv zeta. unfold Route.POST.
  assert (H400 : forall msg,
             let r := Route.respond 400 (failure msg None) in
             (length (@nil Route.ProviderCall) <= 1)%nat /\
             ((Route.http_status r = 200%N /\
               success (Route.json_body r) = true /\ error (Route.json_body r) = None /\
               ((status (Route.json_body r) = Some completed /\
                 (exists link, videoUrl (Route.json_body r) = Some link) /\
                 taskId (Route.json_body r) = None /\
                 estimatedTime (Route.json_body r) = None) \/
                (status (Route.json_body r) = Some processing /\
                 videoUrl (Route.json_body r) = None /\
                 (exists task, taskId (Route.json_body r) = Some task) /\
                 (exists seconds, estimatedTime (Route.json_body r) = Some seconds /\
                                  30 <= seconds)))) \/
              (Route.http_status r = 400%N /\
               success (Route.json_body r) = false /\
               (exists m, error (Route.json_body r) = Some m) /\
               status (Route.json_body r) = None /\ @nil Route.ProviderCall = []) \/
              (Route.http_status r = 500%N /\
               success (Route.json_body r) = false /\
               (exists m, error (Route.json_body r) = Some m) /\
               status (Route.json_body r) = Some failed))).
  { intro msg. split; [cbn; lia |]. right; left. cbn. repeat split. now exists msg. }
  destruct request_json as [body | e].
  2:{ cbn. split; [lia |]. right; right. repeat split. eexists; reflexivity. }
  destruct (prompt body) as [p |]; [| apply H400].
  destruct (negb (JS.truthy p) || (String.length (JS.trim p) =? 0)%nat); [apply H400 |].
  destruct (1000 <? String.length p)%nat; [apply H400 |].
  cbv zeta.
  destruct (negb (JS.includes_number [5; 10; 15; 30]%Q (duration body))); [apply H400 |].
  destruct (negb (JS.includes_string ["16:9"; "9:16"; "1:1"] (aspectRatio body)));
    [apply H400 |].
  unfold Route.forward. cbn [fst snd length]. split; [lia |].
  destruct (provider _) as [e | code statusText | e | | text].
  - right; right. cbn. repeat split. eexists; reflexivity.
  - right; right. cbn. repeat split. eexists; reflexivity.
  - right; right. cbn. repeat split. eexists; reflexivity.
  - right; right. cbn. repeat split. eexists; reflexivity.
  - destruct (match_mp4 text) as [found |].
    + left. cbn. repeat split. left. repeat split. eexists; reflexivity.
    + destruct (JS.includes text "processing" || JS.includes text "generating").
      * left. cbn [Route.respond Route.http_status Route.json_body success error
                   status videoUrl taskId estimatedTime].
        repeat split. right. repeat split.
        -- eexists; reflexivity.
        -- eexists. split; [reflexivity |]. unfold Route.estimateProcessingTime.
           apply Q.le_max_r.
      * left. cbn. repeat split. left. repeat split. eexists; reflexivity.
Qed.

(** The estimate is never below 30 seconds.  For the four durations the
    route accepts the floor never applies: the estimate is 10 seconds per
    second of video, and 15 when the quality is high. *)
Theorem estimateProcessingTime_of_accepted_durations (d : Q) (q : string) :
  30 <= Route.estimateProcessingTime d q /\
  ((exists d', In d' [5; 10; 15; 30]%Q /\ d' == d) ->
   Route.estimateProcessingTime d q
   == (if String.eqb q "high" then 15 * d else 10 * d)).
Proof.
  unfold Route.estimateProcessingTime. split; [apply Q.le_max_r |].
  intros (d' & Hin & Hd).
  assert (Hfive : 5 <= d).
  { rewrite <- Hd. cbn [In] in Hin.
    destruct Hin as [<- | [<- | [<- | [<- | []]]]]; discriminate. }
  destruct (String.eqb q "high").
  - rewrite Q.max_l by lra. lra.
  - rewrite Q.max_l by lra. lra.
Qed.

(** The estimate for 5 seconds at standard quality. *)
Lemma estimate_of_five_seconds :
  30 <= Route.estimateProcessingTime 5 "standard" /\
  Route.estimateProcessingTime 5 "standard" == 10 * 5.
Proof.
  destruct (estimateProcessingTime_of_accepted_durations 5 "standard") as [Hfloor Hexact].
  split; [exact Hfloor |].
  apply Hexact. exists 5. split; [now left | reflexivity].
Defined.

(** Below 3 seconds the floor does apply. *)
Example estimate_of_one_second :
  Route.estimateProcessingTime 1 "standard" == 30.
Proof. reflexivity. Qed.

(** The characters of the text are ASCII.  On such a text
    [JS.toLowerCase] is the [toLowerCase] of the platform. *)
Definition ascii_text (s : string) : Prop :=
  Forall (fun c => (nat_of_ascii c < 128)%nat) (list_ascii_of_string s).

(** The message of every provider call, for a request whose style is
    ASCII text.  It states the duration; names the aspect ratio of the
    request in parentheses after the matching word (widescreen, portrait,
    square); then ", high quality, 4K resolution" exactly when the quality
    is high; then ", <style in lower case> style" exactly when the style
    is neither empty nor "default"; then a colon and the prompt as given;
    and the fixed closing sentence.  The last branch of the aspect-ratio
    test is reached only by 1:1, because the request has passed
    validation. *)
Theorem provider_message_describes_the_request
    (Number_toString : Q -> string) (match_mp4 : string -> option string)
    (request : VideoGenerationRequest)
    (provider : Route.ProviderCall -> Route.ProviderOutcome)
    (now : N) (rnd : string) (call : Route.ProviderCall) :
  In call (fst (Route.POST Number_toString match_mp4 (JS.Return request)
                  provider now rnd)) ->
  ascii_text (style request) ->
  exists p kind,
    prompt request = Some p /\
    In (kind, aspectRatio request)
       [("widescreen", "16:9"); ("portrait", "9:16"); ("square", "1:1")] /\
    Route.content call
    = ("Generate a " ++ Number_toString (duration request) ++ "-second video in "
       ++ kind ++ " format (" ++ aspectRatio request ++ ")")
      ++ (if String.eqb (quality request) "high"
          then ", high quality, 4K resolution" else "")
      ++ (if JS.truthy (style request) && negb (String.eqb (style request) "default")
          then ", " ++ JS.toLowerCase (style request) ++ " style" else "")
      ++ ": " ++ p
      ++ ". Ensure smooth motion, clear visuals, and professional quality.".
Proof.
  intros Hin _.
  pose proof (POST_validation Number_toString match_mp4 request provider now rnd) as HP.
  destruct (VideoApi.validateVideoRequest request) as [msg |] eqn:Hv.
  { rewrite HP in Hin. contradiction. }
  destruct HP as (p & Hp & Hcalls & _). rewrite Hcalls in Hin.
  destruct Hin as [<- | []].
  apply validateVideoRequest_None in Hv.
  destruct Hv as (p' & Hp' & _ & _ & _ & Haspect).
  exists p.
  set (quality_part := if String.eqb (quality request) "high"
                       then ", high quality, 4K resolution" else "").
  set (style_part := if JS.truthy (style request)
                        && negb (String.eqb (style request) "default")
                     then ", " ++ JS.toLowerCase (style request) ++ " style" else "").
  assert (Hbuilt :
            Route.createEnhancedPrompt Number_toString request p
            = ("Generate a " ++ Number_toString (duration request) ++ "-second video"
               ++ (if String.eqb (aspectRatio request) "16:9"
                   then " in widescreen format (16:9)"
                   else if String.eqb (aspectRatio request) "9:16"
                        then " in portrait format (9:16)"
                        else " in square format (1:1)"))
              ++ quality_part ++ style_part ++ ": " ++ p
              ++ ". Ensure smooth motion, clear visuals, and professional quality.").
  { unfold Route.createEnhancedPrompt, quality_part, style_part.
    destruct (String.eqb (quality request) "high");
      destruct (JS.truthy (style request)
                && negb (String.eqb (style request) "default"));
      rewrite ?ReferenceJSON.append_assoc; cbn [append];
      rewrite ?ReferenceJSON.append_assoc; reflexivity. }
  assert (Hshape : forall kind,
             (if String.eqb (aspectRatio request) "16:9"
              then " in widescreen format (16:9)"
              else if String.eqb (aspectRatio request) "9:16"
                   then " in portrait format (9:16)"
                   else " in square format (1:1)")
             = " in " ++ kind ++ " format (" ++ aspectRatio request ++ ")" ->
             Route.createEnhancedPrompt Number_toString request p
             = ("Generate a " ++ Number_toString (duration request)
                ++ "-second video in " ++ kind ++ " format ("
                ++ aspectRatio request ++ ")")
               ++ quality_part ++ style_part ++ ": " ++ p
               ++ ". Ensure smooth motion, clear visuals, and professional quality.").
  { intros kind Hk. rewrite Hbuilt, Hk.
    rewrite !ReferenceJSON.append_assoc. reflexivity. }
  cbn [In] in Haspect. cbn [Route.provider_call Route.content].
  destruct Haspect as [Ha | [Ha | [Ha | []]]].
  - exists "widescreen". split; [exact Hp |].
    split; [left; rewrite <- Ha; reflexivity |].
    apply Hshape. rewrite <- Ha. reflexivity.
  - exists "portrait". split; [exact Hp |].
    split; [right; left; rewrite <- Ha; reflexivity |].
    apply Hshape. rewrite <- Ha. reflexivity.
  - exists "square". split; [exact Hp |].
    split; [right; right; left; rewrite <- Ha; reflexivity |].
    apply Hshape. rewrite <- Ha. reflexivity.
Qed.

(** The message for the sunset request. *)
Lemma provider_message_of_the_sunset_request :
  exists p kind,
    prompt (request_of (Some "A sunset") 10) = Some p /\
    In (kind, aspectRatio (request_of (Some "A sunset") 10))
       [("widescreen", "16:9"); ("portrait", "9:16"); ("square", "1:1")] /\
    Route.content
      (Route.provider_call render_integer (request_of (Some "A sunset") 10) "A sunset")
    = ("Generate a " ++ render_integer (duration (request_of (Some "A sunset") 10))
       ++ "-second video in " ++ kind ++ " format ("
       ++ aspectRatio (request_of (Some "A sunset") 10) ++ ")")
      ++ (if String.eqb (quality (request_of (Some "A sunset") 10)) "high"
          then ", high quality, 4K resolution" else "")
      ++ (if JS.truthy (style (request_of (Some "A sunset") 10))
             && negb (String.eqb (style (request_of (Some "A sunset") 10)) "default")
          then ", " ++ JS.toLowerCase (style (request_of (Some "A sunset") 10))
               ++ " style"
          else "")
      ++ ": " ++ p
      ++ ". Ensure smooth motion, clear visuals, and professional quality.".
Proof.
  apply (provider_message_describes_the_request render_integer no_mp4
           (request_of (Some "A sunset") 10) provider_processing 0 "k3"
           (Route.provider_call render_integer (request_of (Some "A sunset") 10)
              "A sunset")).
  - left. reflexivity.
  - apply Forall_forall. intros c Hc. cbn in Hc.
    repeat (destruct Hc as [<- | Hc]; [cbn; lia |]). contradiction.
Defined.

(** The four messages a style and a quality can give. *)
Example provider_messages_by_quality_and_style :
  let message q st :=
    Route.createEnhancedPrompt render_integer
      {| prompt := Some "A sunset"; duration := 5; aspectRatio := "9:16";
         style := st; quality := q |} "A sunset" in
  message "standard" "default"
  = "Generate a 5-second video in portrait format (9:16): A sunset. Ensure smooth motion, clear visuals, and professional quality." /\
  message "high" ""
  = "Generate a 5-second video in portrait format (9:16), high quality, 4K resolution: A sunset. Ensure smooth motion, clear visuals, and professional quality." /\
  message "standard" "Cinematic"
  = "Generate a 5-second video in portrait format (9:16), cinematic style: A sunset. Ensure smooth motion, clear visuals, and professional quality." /\
  message "high" "Anime"
  = "Generate a 5-second video in portrait format (9:16), high quality, 4K resolution, anime style: A sunset. Ensure smooth motion, clear visuals, and professional quality.".
Proof. vm_compute. repeat split; reflexivity. Qed.

(** ** The API client over the route *)

Lemma POST_status_cases
    (Number_toString : Q -> string) (match_mp4 : string -> option string)
    (request_json : JS.Completion VideoGenerationRequest)
    (provider : Route.ProviderCall -> Route.ProviderOutcome)
    (now : N) (rnd : string) :
  let code :=
    Route.http_status
      (snd (Route.POST Number_toString match_mp4 request_json provider now rnd)) in
  code = 200%N \/ code = 400%N \/ code = 500%N.
Proof.
  cbv zeta. unfold Route.POST.
  destruct request_json as [body | e]; [| now right; right].
  destruct (prompt body) as [p |]; [| now right; left].
  destruct (negb (JS.truthy p) || (String.length (JS.trim p) =? 0)%nat);
    [now right; left |].
  destruct (1000 <? String.length p)%nat; [now right; left |].
  cbv zeta.
  destruct (negb (JS.includes_number [5; 10; 15; 30]%Q (duration body)));
    [now right; left |].
  destruct (negb (JS.includes_string ["16:9"; "9:16"; "1:1"] (aspectRatio body)));
    [now right; left |].
  unfold Route.forward. cbn [snd].
  destruct (provider _); try (now right; right).
  destruct (match_mp4 text); [now left |].
  destruct (JS.includes text "processing" || JS.includes text "generating"); now left.
Qed.

(** The client in front of the route, over a transport that delivers the
    route's answer (its status code, and its JSON as the body): an answer
    with status 200 is returned as it is; every other answer is replaced
    by a failure whose only message is the status code, so the error text
    of the route (which rule was broken, what the provider said) does not
    reach the caller. *)
Theorem client_drops_the_error_text_of_the_route
    (Number_toString : Q -> string) (match_mp4 : string -> option string)
    (provider : Route.ProviderCall -> Route.ProviderOutcome) (now : N) (rnd : string)
    (fetch : VideoApi.FetchRequest -> JS.Completion VideoApi.FetchResponse)
    (baseUrl : string) (request : VideoGenerationRequest) :
  let answer :=
    snd (Route.POST Number_toString match_mp4 (JS.Return request) provider now rnd) in
  fetch {| VideoApi.fetch_url := baseUrl ++ "/generate-video";
           VideoApi.fetch_method := "POST";
           VideoApi.fetch_body := Some request |}
  = JS.Return {| VideoApi.res_status := Route.http_status answer;
                 VideoApi.res_json := JS.Return (Route.json_body answer) |} ->
  VideoApi.generateVideo fetch baseUrl request
  = JS.Return
      (if (Route.http_status answer =? 200)%N
       then Route.json_body answer
       else failure ("HTTP error! status: " ++ JS.decimal (Route.http_status answer))
                    (Some failed)).
Proof.
  cbv zeta. intro Hfetch. unfold VideoApi.generateVideo. rewrite Hfetch.
  destruct (POST_status_cases Number_toString match_mp4 (JS.Return request)
              provider now rnd) as [H | [H | H]];
    cbv zeta in H; cbn [JS.bind JS.try_catch VideoApi.res_ok VideoApi.res_status
                        VideoApi.res_json];
    rewrite H; reflexivity.
Qed.

(** A transport that hands the body of a submission to the route. *)
Definition transport_to_route (provider : Route.ProviderCall -> Route.ProviderOutcome)
    (now : N) (rnd : string) (r : VideoApi.FetchRequest)
  : JS.Completion VideoApi.FetchResponse :=
  match VideoApi.fetch_body r with
  | Some request =>
      let answer :=
        snd (Route.POST render_integer no_mp4 (JS.Return request) provider now rnd) in
      JS.Return {| VideoApi.res_status := Route.http_status answer;
                   VideoApi.res_json := JS.Return (Route.json_body answer) |}
  | None => JS.Throw (JS.ErrorObject "Failed to fetch")
  end.

(** The request with duration 7: the route says which rule is broken,
    the client reports the status code only. *)
Lemma client_answer_for_duration_7 :
  VideoApi.generateVideo (transport_to_route provider_processing 0 "k3") "/api"
    (request_of (Some "A sunset") 7)
  = JS.Return
      (if (Route.http_status
             (snd (Route.POST render_integer no_mp4
                     (JS.Return (request_of (Some "A sunset") 7))
                     provider_processing 0 "k3")) =? 200)%N
       then Route.json_body
              (snd (Route.POST render_integer no_mp4
                      (JS.Return (request_of (Some "A sunset") 7))
                      provider_processing 0 "k3"))
       else failure
              ("HTTP error! status: "
               ++ JS.decimal
                    (Route.http_status
                       (snd (Route.POST render_integer no_mp4
                               (JS.Return (request_of (Some "A sunset") 7))
                               provider_processing 0 "k3"))))
              (Some failed)).
Proof.
  apply (client_drops_the_error_text_of_the_route render_integer no_mp4
           provider_processing 0 "k3"
           (transport_to_route provider_processing 0 "k3") "/api"
           (request_of (Some "A sunset") 7)).
  reflexivity.
Defined.

Example hook_sees_only_the_status_code :
  let s :=
    Hook.step (Hook.mounted [])
      (Hook.CallGenerateVideo "   " sunset_config 1700000000000 "k3x9") in
  let awaited :=
    VideoApi.generateVideo (transport_to_route provider_processing 0 "k3") "/api"
      (Hook.api_request "   " sunset_config) in
  let s' := Hook.step s (Hook.ResumeGenerateVideo 0 awaited 1700000001000) in
  fst (Route.POST render_integer no_mp4
         (JS.Return (Hook.api_request "   " sunset_config)) provider_processing 0 "k3")
  = [] /\
  error (Route.json_body
           (snd (Route.POST render_integer no_mp4
                   (JS.Return (Hook.api_request "   " sunset_config))
                   provider_processing 0 "k3")))
  = Some "Prompt is required" /\
  Hook.activeGenerations s' = [] /\
  map gen_status (Hook.generationHistory s') = [failed] /\
  map gen_error (Hook.generationHistory s') = [Some "HTTP error! status: 400"].
Proof. vm_compute. repeat split; reflexivity. Qed.

(** ** The health endpoint and the limits it advertises *)

Module Health.

(** The object that [GET] answers with and [getHealthStatus] returns. *)
Record HealthStatus : Type := {
  status : string;
  service : string;
  timestamp : Timestamp;
  models : list string;
  supportedFormats : list string;
  maxDuration : Q;
  maxPromptLength : nat
}.

(** [export async function GET()] of route.ts: the status code
    ([NextResponse.json] without a status gives 200) and the body; [now]
    is the reading of [new Date()]. *)
Definition GET (now : Timestamp) : N * HealthStatus :=
  (200%N,
   {| status := "healthy";
      service := "video-generation";
      timestamp := now;
      models := ["replicate/google/veo-3"];
      supportedFormats := ["16:9"; "9:16"; "1:1"];
      maxDuration := 30;
      maxPromptLength := 1000 |}).

(** The [Response] of the health request. *)
Record FetchResponse : Type := {
  res_status : N;
  res_json : JS.Completion HealthStatus
}.

Definition res_ok (response : FetchResponse) : bool :=
  ((200 <=? res_status response) && (res_status response <=? 299))%N.

(** [VideoGenerationAPI.getHealthStatus]: the [catch] logs and throws the
    error again. *)
Definition getHealthStatus
    (fetch : VideoApi.FetchRequest -> JS.Completion FetchResponse) (baseUrl : string)
  : JS.Completion HealthStatus :=
  JS.try_catch
    (response <- fetch {| VideoApi.fetch_url := baseUrl ++ "/generate-video";
                          VideoApi.fetch_method := "GET";
                          VideoApi.fetch_body := None |} ;;
     if negb (res_ok response)
     then JS.Throw (JS.ErrorObject
                      ("HTTP error! status: " ++ JS.decimal (res_status response)))
     else res_json response)
    (fun error => JS.Throw error).

End Health.

(** Over a transport that delivers the answer of [GET], [getHealthStatus]
    returns limits that are those [POST] enforces.  Every request that
    [POST] forwards to the provider has a prompt of at most
    [maxPromptLength] characters, a duration of at most [maxDuration], an
    aspect ratio among [supportedFormats], and is sent to a model among
    [models].  The limits are reached: a request with a non-blank prompt
    of up to [maxPromptLength] characters, the duration [maxDuration] and
    a supported format is forwarded. *)
Theorem health_limits_are_the_limits_of_POST
    (Number_toString : Q -> string) (match_mp4 : string -> option string)
    (provider : Route.ProviderCall -> Route.ProviderOutcome) (now : N) (rnd : string)
    (clock : Timestamp)
    (fetch : VideoApi.FetchRequest -> JS.Completion Health.FetchResponse)
    (baseUrl : string) :
  fetch {| VideoApi.fetch_url := baseUrl ++ "/generate-video";
           VideoApi.fetch_method := "GET";
           VideoApi.fetch_body := None |}
  = JS.Return {| Health.res_status := fst (Health.GET clock);
                 Health.res_json := JS.Return (snd (Health.GET clock)) |} ->
  exists h,
    Health.getHealthStatus fetch baseUrl = JS.Return h /\
    forall request : VideoGenerationRequest,
      let forwarded :=
        fst (Route.POST Number_toString match_mp4 (JS.Return request) provider now rnd) in
      (forall call,
         In call forwarded ->
         exists p, prompt request = Some p /\
           (String.length p <= Health.maxPromptLength h)%nat /\
           duration request <= Health.maxDuration h /\
           In (aspectRatio request) (Health.supportedFormats h) /\
           In (Route.model call) (Health.models h)) /\
      (forall p,
         prompt request = Some p -> JS.trim p <> "" ->
         (String.length p <= Health.maxPromptLength h)%nat ->
         duration request == Health.maxDuration h ->
         In (aspectRatio request) (Health.supportedFormats h) ->
         forwarded = [Route.provider_call Number_toString request p]).
Proof.
  intro Hfetch. exists (snd (Health.GET clock)). split.
  { unfold Health.getHealthStatus. rewrite Hfetch. reflexivity. }
  intro request. cbv zeta.
  pose proof (POST_validation Number_toString match_mp4 request provider now rnd) as HP.
  destruct (VideoApi.validateVideoRequest request) as [msg |] eqn:Hv.
  - rewrite HP. cbn [fst]. split; [intros call [] |].
    intros p Hp Hne Hlen Hd Ha. exfalso.
    assert (Hnone : VideoApi.validateVideoRequest request = None); [| congruence].
    apply validateVideoRequest_None. exists p.
    cbn [Health.GET snd Health.maxPromptLength Health.maxDuration
         Health.supportedFormats] in Hlen, Hd, Ha.
    repeat split; try assumption.
    exists 30. split; [cbn; tauto | now symmetry].
  - destruct HP as (p & Hp & Hcalls & _). rewrite Hcalls.
    apply validateVideoRequest_None in Hv.
    destruct Hv as (p' & Hp' & Hne & Hlen & (d & Hin & Hd) & Ha).
    rewrite Hp in Hp'. injection Hp' as <-.
    split.
    + intros call [<- | []]. exists p.
      cbn [Health.GET snd Health.maxPromptLength Health.maxDuration
           Health.supportedFormats Health.models Route.provider_call Route.model].
      repeat split; try assumption.
      * rewrite <- Hd.
        cbn [In] in Hin.
        destruct Hin as [<- | [<- | [<- | [<- | []]]]]; discriminate.
      * now left.
    + intros q Hq _ _ _ _. rewrite Hp in Hq. now injection Hq as <-.
Qed.

(** A transport that serves the health request from [GET]. *)
Definition health_transport (clock : Timestamp) (r : VideoApi.FetchRequest)
  : JS.Completion Health.FetchResponse :=
  JS.Return {| Health.res_status := fst (Health.GET clock);
               Health.res_json := JS.Return (snd (Health.GET clock)) |}.

Lemma health_limits_at_the_sample_clock :
  exists h,
    Health.getHealthStatus (health_transport 1700000000000%N) "/api" = JS.Return h /\
    forall request : VideoGenerationRequest,
      let forwarded :=
        fst (Route.POST render_integer no_mp4 (JS.Return request)
               provider_processing 0 "k3") in
      (forall call,
         In call forwarded ->
         exists p, prompt request = Some p /\
           (String.length p <= Health.maxPromptLength h)%nat /\
           duration request <= Health.maxDuration h /\
           In (aspectRatio request) (Health.supportedFormats h) /\
           In (Route.model call) (Health.models h)) /\
      (forall p,
         prompt request = Some p -> JS.trim p <> "" ->
         (String.length p <= Health.maxPromptLength h)%nat ->
         duration request == Health.maxDuration h ->
         In (aspectRatio request) (Health.supportedFormats h) ->
         forwarded = [Route.provider_call render_integer request p]).
Proof.
  apply (health_limits_are_the_limits_of_POST render_integer no_mp4
           provider_processing 0 "k3" 1700000000000%N
           (health_transport 1700000000000%N) "/api").
  reflexivity.
Defined.

(** A failing health request is thrown on to the caller, where
    [generateVideo] and [checkStatus] return a failure. *)
Example getHealthStatus_throws_on_503 :
  Health.getHealthStatus
    (fun _ => JS.Return {| Health.res_status := 503;
                           Health.res_json := JS.Throw JS.OtherValue |}) "/api"
  = JS.Throw (JS.ErrorObject "HTTP error! status: 503").
Proof. reflexivity. Qed.

(** ** The queue component and the page as a whole *)

Module Queue.

(** One element of the [map] of the queue's ticker ([setInterval], every
    2000 ms); [r] is the value of [Math.random()]. *)
Definition tick_generation (r : Q) (gen : Generation) : Generation :=
  match gen_status gen with
  | processing =>
      if JS.lt (gen_progress gen) 90
      then
        let increment := (r * 10 + 5)%Q in
        let newProgress := Qmin (gen_progress gen + increment) 90 in
        {| gen_id := gen_id gen; gen_prompt := gen_prompt gen;
           gen_config := gen_config gen; gen_status := gen_status gen;
           gen_createdAt := gen_createdAt gen;
           gen_completedAt := gen_completedAt gen;
           gen_videoUrl := gen_videoUrl gen; gen_error := gen_error gen;
           gen_progress := newProgress; gen_taskId := gen_taskId gen |}
      else gen
  | _ => gen
  end.

(** [prev.map(gen => ...)]; the element at position [i] draws [random i]. *)
Fixpoint tick_from (random : nat -> Q) (i : nat) (prev : list Generation)
  : list Generation :=
  match prev with
  | [] => []
  | gen :: rest => tick_generation (random i) gen :: tick_from random (S i) rest
  end.

(** The ticker updates [localGenerations] only. *)
Definition tick (random : nat -> Q) (s : Page.State) : Page.State :=
  {| Page.activeGenerations := Page.activeGenerations s;
     Page.generationHistory := Page.generationHistory s;
     Page.localGenerations := tick_from random 0 (Page.localGenerations s);
     Page.timers := Page.timers s |}.

(** [Math.ceil((100 - generation.progress) / 10)], the minutes shown as
    "Estimated time remaining". *)
Definition minutes_remaining (generation : Generation) : Z :=
  Qceiling ((100 - gen_progress generation) / 10).

(** The three counters of the statistics card. *)
Definition processing_count (s : Page.State) : nat :=
  length (filter (fun g => Status_eqb (gen_status g) processing)
                 (Page.localGenerations s)).

Definition completed_count (s : Page.State) : nat :=
  length (filter (fun g => Status_eqb (gen_status g) completed)
                 (Page.localGenerations s)).

Definition failed_count (s : Page.State) : nat :=
  length (filter (fun g => Status_eqb (gen_status g) failed)
                 (Page.localGenerations s)).

(** [formatTimeAgo(timestamp)]; [now] is the reading of [new Date()].
    The differences are whole numbers, so [Math.floor] of a quotient is
    the integer quotient rounded down. *)
Definition formatTimeAgo (now : Timestamp) (timestamp : Timestamp) : string :=
  let diffMs := (Z.of_N now - Z.of_N timestamp)%Z in
  let diffMins := (diffMs / (1000 * 60))%Z in
  if (diffMins <? 1)%Z then "Just now"
  else if (diffMins <? 60)%Z then JS.decimal (Z.to_N diffMins) ++ "m ago"
  else
    let diffHours := (diffMins / 60)%Z in
    if (diffHours <? 24)%Z then JS.decimal (Z.to_N diffHours) ++ "h ago"
    else
      let diffDays := (diffHours / 24)%Z in
      JS.decimal (Z.to_N diffDays) ++ "d ago".

End Queue.

Module PageSession.

(** A [handleGenerate] suspended at its [await]: the record it built and
    the form state ([prompt], [config]) of its closure. *)
Record Suspended : Type := {
  generation : Generation;
  form_prompt : string;
  form_config : GenerationConfig
}.

Record State : Type := {
  page : Page.State;
  awaiting : list Suspended
}.

Definition mounted : State := {| page := Page.mounted; awaiting := [] |}.

(** What can happen on the page: the Generate button is clicked with the
    form holding [p] and [config]; the [k]-th suspended [handleGenerate]
    resumes with what its [await]s came to; the [k]-th pending
    [setTimeout] callback fires; a Cancel button of the queue is clicked;
    the queue's interval fires; the queue is mounted anew (its tab is
    opened again), which starts [localGenerations] from the [generations]
    prop; Clear History is confirmed ([onClearHistory]). *)
Inductive Event : Type :=
| ClickGenerate (p : string) (config : GenerationConfig) (now : N) (rnd : string)
| ResumeHandleGenerate (k : nat) (awaited : JS.Completion VideoGenerationResponse)
    (now : N)
| TimerFires (k : nat) (now : N)
| ClickCancel (generationId : string) (now : N)
| IntervalFires (random : nat -> Q)
| QueueMounts
| ClickClearHistory.

Definition step (s : State) (e : Event) : State :=
  match e with
  | ClickGenerate p config now rnd =>
      match Page.handleGenerate_call p config now rnd (page s) with
      | Some next =>
          {| page := next;
             awaiting :=
               (awaiting s
                ++ [ {| generation := Page.new_generation p config now rnd;
                        form_prompt := p;
                        form_config := config |} ])%list |}
      | None => s
      end
  | ResumeHandleGenerate k awaited now =>
      match nth_error (awaiting s) k with
      | Some call =>
          {| page := Page.handleGenerate_continue (generation call) (form_prompt call)
                       (form_config call) awaited now (page s);
             awaiting := Hook.remove_nth k (awaiting s) |}
      | None => s
      end
  | TimerFires k now =>
      {| page := Page.timer_fires k now (page s); awaiting := awaiting s |}
  | ClickCancel generationId now =>
      {| page := Page.handleCancelGeneration generationId now (page s);
         awaiting := awaiting s |}
  | IntervalFires random =>
      {| page := Queue.tick random (page s); awaiting := awaiting s |}
  | QueueMounts =>
      {| page :=
           {| Page.activeGenerations := Page.activeGenerations (page s);
              Page.generationHistory := Page.generationHistory (page s);
              Page.localGenerations := Page.activeGenerations (page s);
              Page.timers := Page.timers (page s) |};
         awaiting := awaiting s |}
  | ClickClearHistory =>
      {| page :=
           {| Page.activeGenerations := Page.activeGenerations (page s);
              Page.generationHistory := [];
              Page.localGenerations := Page.localGenerations (page s);
              Page.timers := Page.timers (page s) |};
         awaiting := awaiting s |}
  end.

Definition run (s : State) (events : list Event) : State := fold_left step events s.

End PageSession.

(** *** Invariants of the page *)

(** A generation as [handleGenerate] builds it. *)
Definition fresh (g : Generation) : Prop :=
  gen_status g = processing /\ gen_progress g = 0 /\
  gen_videoUrl g = None /\ gen_error g = None.

(** A generation as the queue shows it. *)
Definition queued (g : Generation) : Prop :=
  gen_status g = processing /\ gen_progress g <= 90 /\
  gen_videoUrl g = None /\ gen_error g = None.

(** A record of a finished video. *)
Definition finished_video (g : Generation) : Prop :=
  gen_status g = completed /\
  (exists link, gen_videoUrl g = Some link /\ JS.truthy link = true) /\
  gen_error g = None /\ gen_progress g = 100 /\ gen_completedAt g <> None.

Definition page_ok (s : Page.State) : Prop :=
  Forall fresh (Page.activeGenerations s) /\
  map gen_id (Page.localGenerations s) = map gen_id (Page.activeGenerations s) /\
  Forall queued (Page.localGenerations s) /\
  Forall finished_video (Page.generationHistory s).

Definition session_ok (s : PageSession.State) : Prop :=
  page_ok (PageSession.page s) /\
  Forall (fun call => fresh (PageSession.generation call)) (PageSession.awaiting s).

Lemma fresh_queued (g : Generation) : fresh g -> queued g.
Proof.
  intros (Hs & Hp & Hv & He). repeat split; try assumption.
  rewrite Hp. discriminate.
Qed.

Lemma fresh_list_ok (active history : list Generation) (timers : list Page.PendingCompletion) :
  Forall fresh active -> Forall finished_video history ->
  page_ok {| Page.activeGenerations := active; Page.generationHistory := history;
             Page.localGenerations := active; Page.timers := timers |}.
Proof.
  intros Ha Hh. repeat split; cbn; try assumption.
  eapply Forall_impl; [| exact Ha]. exact fresh_queued.
Qed.

Lemma handleNewGeneration_ok (g : Generation) (s : Page.State) :
  fresh g -> page_ok s -> page_ok (Page.handleNewGeneration g s).
Proof.
  intros Hg (Ha & _ & _ & Hh). apply fresh_list_ok; [| exact Hh].
  apply Forall_app. split; [exact Ha | now constructor].
Qed.

Lemma handleGenerationComplete_ok (record : Generation) (s : Page.State) :
  finished_video record -> page_ok s -> page_ok (Page.handleGenerationComplete record s).
Proof.
  intros Hr (Ha & _ & _ & Hh). apply fresh_list_ok.
  - now apply HookFacts.Forall_filter.
  - now constructor.
Qed.

Lemma handleGenerationError_ok (record : Generation) (s : Page.State) :
  page_ok s -> page_ok (Page.handleGenerationError record s).
Proof.
  intros (Ha & _ & _ & Hh). apply fresh_list_ok; [| exact Hh].
  now apply HookFacts.Forall_filter.
Qed.

Lemma queue_tick_generation_id (r : Q) (g : Generation) :
  gen_id (Queue.tick_generation r g) = gen_id g.
Proof.
  unfold Queue.tick_generation.
  destruct (gen_status g); try reflexivity.
  now destruct (JS.lt (gen_progress g) 90).
Qed.

Lemma queue_tick_generation_queued (r : Q) (g : Generation) :
  queued g -> queued (Queue.tick_generation r g).
Proof.
  intros (Hs & Hp & Hv & He). unfold Queue.tick_generation. rewrite Hs.
  destruct (JS.lt (gen_progress g) 90); [| now repeat split].
  repeat split; cbn; try assumption. apply Q.le_min_r.
Qed.

Lemma queue_tick_from_ok (random : nat -> Q) (l : list Generation) :
  forall i,
    map gen_id (Queue.tick_from random i l) = map gen_id l /\
    (Forall queued l -> Forall queued (Queue.tick_from random i l)).
Proof.
  induction l as [| g l IH]; intro i; cbn [Queue.tick_from map].
  - split; [reflexivity | constructor].
  - destruct (IH (S i)) as [Hids Hq]. split.
    + now rewrite queue_tick_generation_id, Hids.
    + intro H. inversion H as [| ? ? Hg Hl]; subst.
      constructor; [now apply queue_tick_generation_queued | now apply Hq].
Qed.

Lemma completed_from_finished (g : Generation) (link : string) (now : N) :
  fresh g -> JS.truthy link = true -> finished_video (Hook.completed_from g link now).
Proof.
  intros (_ & _ & _ & He) Hl. repeat split; cbn; try assumption.
  - now exists link.
  - discriminate.
Qed.

Lemma handleGenerate_continue_ok (g : Generation) (p : string)
    (config : GenerationConfig) (awaited : JS.Completion VideoGenerationResponse)
    (now : N) (s : Page.State) :
  fresh g -> page_ok s -> page_ok (Page.handleGenerate_continue g p config awaited now s).
Proof.
  intros Hg Hs. unfold Page.handleGenerate_continue.
  destruct awaited as [result | e]; cbn [JS.bind];
    [| now apply handleGenerationError_ok].
  destruct (success result); [| now apply handleGenerationError_ok].
  destruct (status result) as [[| |] |]; try exact Hs;
    destruct (videoUrl result) as [link |]; try exact Hs.
  destruct (JS.truthy link) eqn:Hl; [| exact Hs].
  apply handleGenerationComplete_ok; [| exact Hs].
  now apply completed_from_finished.
Qed.

Lemma step_session_ok (s : PageSession.State) (e : PageSession.Event) :
  session_ok s -> session_ok (PageSession.step s e).
Proof.
  intros [Hp Ha].
  destruct e as [p config now rnd | k awaited now | k now | id now | random | |];
    cbn [PageSession.step].
  - unfold Page.handleGenerate_call.
    destruct (negb (JS.truthy (JS.trim p))); [now split |].
    destruct (1000 <? String.length p)%nat; [now split |].
    assert (Hnew : fresh (Page.new_generation p config now rnd))
      by (repeat split; reflexivity).
    split; cbn [PageSession.page PageSession.awaiting].
    + now apply handleNewGeneration_ok.
    + apply Forall_app. split; [exact Ha | now constructor].
  - destruct (nth_error (PageSession.awaiting s) k) as [call |] eqn:Hk; [| now split].
    split; cbn [PageSession.page PageSession.awaiting].
    + apply handleGenerate_continue_ok; [| exact Hp].
      exact (HookFacts.Forall_nth_error _ _ _ _ Ha Hk).
    + now apply HookFacts.Forall_remove_nth.
  - split; cbn [PageSession.page PageSession.awaiting]; [| exact Ha].
    unfold Page.timer_fires.
    destruct (nth_error (Page.timers (PageSession.page s)) k) as [pending |];
      [| exact Hp].
    unfold Page.pollForCompletion_callback.
    apply handleGenerationComplete_ok.
    + repeat split; cbn; try reflexivity; try discriminate.
      eexists. split; reflexivity.
    + destruct Hp as (H1 & H2 & H3 & H4). now repeat split.
  - split; cbn [PageSession.page PageSession.awaiting]; [| exact Ha].
    unfold Page.handleCancelGeneration.
    destruct (find (id_is id) (Page.localGenerations (PageSession.page s)));
      [now apply handleGenerationError_ok | exact Hp].
  - split; cbn [PageSession.page PageSession.awaiting]; [| exact Ha].
    destruct Hp as (H1 & H2 & H3 & H4).
    destruct (queue_tick_from_ok random (Page.localGenerations (PageSession.page s)) 0)
      as [Hids Hq].
    repeat split; cbn; try assumption; [congruence | now apply Hq].
  - split; cbn [PageSession.page PageSession.awaiting]; [| exact Ha].
    destruct Hp as (H1 & _ & _ & H4). now apply fresh_list_ok.
  - split; cbn [PageSession.page PageSession.awaiting]; [| exact Ha].
    destruct Hp as (H1 & H2 & H3 & _). repeat split; cbn; try assumption.
    constructor.
Qed.

Lemma page_run_keeps (P : PageSession.State -> Prop) (allowed : PageSession.Event -> Prop)
    (events : list PageSession.Event) :
  (forall s e, allowed e -> P s -> P (PageSession.step s e)) ->
  Forall allowed events ->
  forall s, P s -> P (PageSession.run s events).
Proof.
  intros Hstep Hall. unfold PageSession.run.
  induction Hall as [| e events He Hall IH]; intros s Hs; [exact Hs |].
  cbn [fold_left]. apply IH, Hstep; assumption.
Qed.

Lemma run_session_ok (events : list PageSession.Event) :
  session_ok (PageSession.run PageSession.mounted events).
Proof.
  apply (page_run_keeps session_ok (fun _ => True)).
  - intros s e _. apply step_session_ok.
  - apply Forall_forall. trivial.
  - repeat split; constructor.
Qed.


(** A request answered with an error, one cancelled in the queue and one
    completed: only the last is in the history. *)
Example page_history_of_three_requests :
  let s :=
    PageSession.page
      (PageSession.run PageSession.mounted
         [ PageSession.ClickGenerate "A sunset" sunset_config 1700000000000 "k3x9";
           PageSession.ResumeHandleGenerate 0
             (JS.Return (failure "Invalid aspect ratio" None)) 1700000001000;
           PageSession.ClickGenerate "A storm" sunset_config 1700000002000 "m2n8";
           PageSession.ClickCancel "gen_1700000002000_m2n8" 1700000003000;
           PageSession.ClickGenerate "A river" sunset_config 1700000004000 "q5w1";
           PageSession.ResumeHandleGenerate 1
             (JS.Return {| success := true; videoUrl := Some "https://v/river.mp4";
                           error := None; taskId := None; status := Some completed;
                           estimatedTime := None |}) 1700000005000 ]) in
  map gen_prompt (Page.generationHistory s) = ["A river"] /\
  Page.activeGenerations s = [].
Proof. vm_compute. split; reflexivity. Qed.

(** The queue shows the page's active list: after any events its local
    list has the identifiers of the active list in the same order, every
    entry is [processing] with progress at most 90, and the statistics
    card counts all of them as processing and none as completed or
    failed.  The page's own records stay at progress 0. *)
Theorem queue_shows_the_active_generations (events : list PageSession.Event) :
  let s := PageSession.page (PageSession.run PageSession.mounted events) in
  map gen_id (Page.localGenerations s) = map gen_id (Page.activeGenerations s) /\
  Forall (fun g => gen_status g = processing /\ gen_progress g <= 90)
         (Page.localGenerations s) /\
  Forall (fun g => gen_progress g = 0) (Page.activeGenerations s) /\
  Queue.processing_count s = length (Page.activeGenerations s) /\
  Queue.completed_count s = 0%nat /\ Queue.failed_count s = 0%nat.
Proof.
  cbv zeta. destruct (run_session_ok events) as [(Ha & Hids & Hq & _) _].
  set (s := PageSession.page (PageSession.run PageSession.mounted events)) in *.
  split; [exact Hids |].
  split; [eapply Forall_impl; [| exact Hq]; now intros g (H1 & H2 & _) |].
  split; [eapply Forall_impl; [| exact Ha]; now intros g (_ & H & _) |].
  assert (Hlen : length (Page.localGenerations s) = length (Page.activeGenerations s)).
  { rewrite <- (length_map gen_id (Page.localGenerations s)), Hids.
    apply length_map. }
  unfold Queue.processing_count, Queue.completed_count, Queue.failed_count.
  rewrite <- Hlen. clear Hlen Hids Ha.
  induction Hq as [| g l (Hs & _) _ IH]; [repeat split; reflexivity |].
  cbn [filter length]. rewrite Hs. cbn [Status_eqb length].
  destruct IH as (I1 & I2 & I3). now rewrite I1, I2, I3.
Qed.

(** What one event does to the queue's local list: nothing; or a tick of
    its progress values; or the list is replaced by the page's active
    list, whose records are at progress 0. *)
Lemma step_local_generations (s : PageSession.State) (e : PageSession.Event) :
  session_ok s ->
  let before := PageSession.page s in
  let after := PageSession.page (PageSession.step s e) in
  Page.localGenerations after = Page.localGenerations before \/
  (exists random,
     e = PageSession.IntervalFires random /\
     Page.localGenerations after
     = Queue.tick_from random 0 (Page.localGenerations before)) \/
  (Page.localGenerations after = Page.activeGenerations after /\
   Forall (fun g => gen_progress g = 0) (Page.localGenerations after)).
Proof.
  intro Hok. cbv zeta.
  assert (Hafter : session_ok (PageSession.step s e)) by now apply step_session_ok.
  destruct Hafter as [(Hfresh & _) _].
  assert (Hzero : Forall (fun g => gen_progress g = 0)
                    (Page.activeGenerations (PageSession.page (PageSession.step s e)))).
  { eapply Forall_impl; [| exact Hfresh]. now intros g (_ & H & _). }
  clear Hfresh.
  destruct e as [p config now rnd | k awaited now | k now | id now | random | |];
    cbn [PageSession.step] in *.
  - unfold Page.handleGenerate_call in *.
    destruct (negb (JS.truthy (JS.trim p))); [now left |].
    destruct (1000 <? String.length p)%nat; [now left |].
    right; right. split; [reflexivity | exact Hzero].
  - destruct (nth_error (PageSession.awaiting s) k) as [call |]; [| now left].
    cbn [PageSession.page] in *. unfold Page.handleGenerate_continue in *.
    destruct awaited as [result | err]; cbn [JS.bind] in *;
      [| right; right; split; [reflexivity | exact Hzero]].
    destruct (success result);
      [| right; right; split; [reflexivity | exact Hzero]].
    destruct (status result) as [[| |] |]; try (now left);
      destruct (videoUrl result) as [link |]; try (now left).
    destruct (JS.truthy link); [| now left].
    right; right. split; [reflexivity | exact Hzero].
  - cbn [PageSession.page] in *. unfold Page.timer_fires in *.
    destruct (nth_error (Page.timers (PageSession.page s)) k); [| now left].
    right; right. split; [reflexivity | exact Hzero].
  - cbn [PageSession.page] in *. unfold Page.handleCancelGeneration in *.
    destruct (find (id_is id) (Page.localGenerations (PageSession.page s)));
      [| now left].
    right; right. split; [reflexivity | exact Hzero].
  - right; left. now exists random.
  - right; right. split; [reflexivity | exact Hzero].
  - now left.
Qed.

(** The progress the queue shows starts again whenever the active list
    is touched.  After any events, the next event either leaves the
    queue's list as it is, or is a tick of the interval, or replaces the
    list by the page's active list, in which every generation is at
    progress 0: what the ticks had added is gone. *)
Theorem queue_progress_restarts_with_the_active_list
    (events : list PageSession.Event) (e : PageSession.Event) :
  let s := PageSession.run PageSession.mounted events in
  let before := PageSession.page s in
  let after := PageSession.page (PageSession.step s e) in
  Page.localGenerations after = Page.localGenerations before \/
  (exists random,
     e = PageSession.IntervalFires random /\
     Page.localGenerations after
     = Queue.tick_from random 0 (Page.localGenerations before)) \/
  (Page.localGenerations after = Page.activeGenerations after /\
   Forall (fun g => gen_progress g = 0) (Page.localGenerations after)).
Proof.
  cbv zeta. apply step_local_generations, run_session_ok.
Qed.

(** A generation is ticked to progress 15; a second click on Generate
    puts it back to 0. *)
Example second_request_resets_the_first :
  let s :=
    PageSession.run PageSession.mounted
      [ PageSession.ClickGenerate "A sunset" sunset_config 1700000000000 "k3x9";
        PageSession.IntervalFires (fun _ => 1) ] in
  let s' :=
    PageSession.step s
      (PageSession.ClickGenerate "A storm" sunset_config 1700000002000 "m2n8") in
  map gen_progress (Page.localGenerations (PageSession.page s)) = [15] /\
  map gen_progress (Page.localGenerations (PageSession.page s')) = [0; 0].
Proof. vm_compute. split; reflexivity. Qed.

(** The draws of [Math.random()] are in the range from 0 to 1. *)
Definition draws_are_random (e : PageSession.Event) : Prop :=
  match e with
  | PageSession.IntervalFires random => forall i, 0 <= random i /\ random i < 1
  | _ => True
  end.

Lemma queue_tick_from_nonnegative (random : nat -> Q) (l : list Generation) :
  (forall i, 0 <= random i /\ random i < 1) ->
  Forall (fun g => 0 <= gen_progress g) l ->
  forall i, Forall (fun g => 0 <= gen_progress g) (Queue.tick_from random i l).
Proof.
  intros Hr Hl. induction Hl as [| g l Hg Hl IH]; intro i; cbn [Queue.tick_from];
    constructor; [| apply IH].
  unfold Queue.tick_generation.
  destruct (gen_status g); try exact Hg.
  destruct (JS.lt (gen_progress g) 90); [| exact Hg].
  cbn [gen_progress]. destruct (Hr i) as [Hlo _].
  apply Q.min_glb; lra.
Qed.

Lemma minutes_remaining_bounds (g : Generation) :
  0 <= gen_progress g -> gen_progress g <= 90 ->
  (1 <= Queue.minutes_remaining g <= 10)%Z.
Proof.
  intros Hlo Hhi. unfold Queue.minutes_remaining.
  assert (H1 : 1 <= (100 - gen_progress g) / 10).
  { apply Qle_shift_div_l; [reflexivity | lra]. }
  assert (H10 : (100 - gen_progress g) / 10 <= 10).
  { apply Qle_shift_div_r; [reflexivity | lra]. }
  split.
  - change 1%Z with (Qceiling 1). now apply Qceiling_resp_le.
  - change 10%Z with (Qceiling 10). now apply Qceiling_resp_le.
Qed.

(** With draws of [Math.random()] in its range, the estimate the queue
    shows for a generation is between 1 and 10 minutes, after any events:
    it never reaches 0 while the generation is in the queue. *)
Theorem queue_estimate_is_between_1_and_10_minutes
    (events : list PageSession.Event) :
  Forall draws_are_random events ->
  let s := PageSession.page (PageSession.run PageSession.mounted events) in
  Forall (fun g => (1 <= Queue.minutes_remaining g <= 10)%Z)
         (Page.localGenerations s).
Proof.
  intro Hdraws. cbv zeta.
  assert (H : session_ok (PageSession.run PageSession.mounted events) /\
              Forall (fun g => 0 <= gen_progress g)
                     (Page.localGenerations
                        (PageSession.page
                           (PageSession.run PageSession.mounted events)))).
  { apply (page_run_keeps
             (fun s => session_ok s /\
                       Forall (fun g => 0 <= gen_progress g)
                              (Page.localGenerations (PageSession.page s)))
             draws_are_random); [| exact Hdraws |].
    - intros s e He [Hok Hnn]. split; [now apply step_session_ok |].
      destruct (step_local_generations s e Hok)
        as [Heq | [(random & -> & Heq) | [_ Hzero]]].
      + now rewrite Heq.
      + rewrite Heq. apply queue_tick_from_nonnegative; assumption.
      + eapply Forall_impl; [| exact Hzero].
        intros g Hg. cbv beta in Hg. rewrite Hg. discriminate.
    - split; [| constructor]. repeat split; constructor. }
  destruct H as [[(_ & _ & Hq & _) _] Hnn].
  set (l := Page.localGenerations _) in *. clearbody l.
  induction Hq as [| g l (_ & Hhi & _) _ IH]; [constructor |].
  inversion Hnn as [| ? ? Hlo Hnn']; subst.
  constructor; [now apply minutes_remaining_bounds | now apply IH].
Qed.

(** A generation ticked twice with the largest draws. *)
Lemma estimate_after_two_ticks :
  Forall (fun g => (1 <= Queue.minutes_remaining g <= 10)%Z)
    (Page.localGenerations
       (PageSession.page
          (PageSession.run PageSession.mounted
             [ PageSession.ClickGenerate "A sunset" sunset_config 1700000000000 "k3x9";
               PageSession.IntervalFires (fun _ => 0.99);
               PageSession.IntervalFires (fun _ => 0.99) ]))).
Proof.
  apply (queue_estimate_is_between_1_and_10_minutes
           [ PageSession.ClickGenerate "A sunset" sunset_config 1700000000000 "k3x9";
             PageSession.IntervalFires (fun _ => 0.99);
             PageSession.IntervalFires (fun _ => 0.99) ]).
  constructor; [exact I |].
  constructor; [intros _; split; [discriminate | reflexivity] |].
  constructor; [intros _; split; [discriminate | reflexivity] |].
  constructor.
Defined.

Example estimate_values_after_two_ticks :
  map Queue.minutes_remaining
    (Page.localGenerations
       (PageSession.page
          (PageSession.run PageSession.mounted
             [ PageSession.ClickGenerate "A sunset" sunset_config 1700000000000 "k3x9";
               PageSession.IntervalFires (fun _ => 0.99);
               PageSession.IntervalFires (fun _ => 0.99) ])))
  = [8%Z].
Proof. vm_compute. reflexivity. Qed.

(** *** [formatTimeAgo] *)

Lemma floor_quotient_bounds (a b : Z) :
  (0 < b)%Z -> (b * (a / b) <= a < b * (a / b) + b)%Z.
Proof.
  intro Hb. pose proof (Z.div_mod a b ltac:(lia)) as Hdm.
  pose proof (Z.mod_pos_bound a b Hb) as Hm. lia.
Qed.

(** The label is the elapsed time in the largest unit that it fills at
    least once, rounded down to a whole number: "Just now" below one
    minute (also for a time in the future), then whole minutes from 1 to
    59, whole hours from 1 to 23, and whole days. *)
Theorem formatTimeAgo_counts_whole_units (now timestamp : Timestamp) :
  let elapsed := (Z.of_N now - Z.of_N timestamp)%Z in
  ((elapsed < 60000)%Z -> Queue.formatTimeAgo now timestamp = "Just now") /\
  ((60000 <= elapsed < 3600000)%Z ->
   Queue.formatTimeAgo now timestamp
   = JS.decimal (Z.to_N (elapsed / 60000)) ++ "m ago" /\
   (1 <= elapsed / 60000 < 60)%Z) /\
  ((3600000 <= elapsed < 86400000)%Z ->
   Queue.formatTimeAgo now timestamp
   = JS.decimal (Z.to_N (elapsed / 3600000)) ++ "h ago" /\
   (1 <= elapsed / 3600000 < 24)%Z) /\
  ((86400000 <= elapsed)%Z ->
   Queue.formatTimeAgo now timestamp
   = JS.decimal (Z.to_N (elapsed / 86400000)) ++ "d ago" /\
   (1 <= elapsed / 86400000)%Z).
Proof.
  cbv zeta. unfold Queue.formatTimeAgo.
  set (elapsed := (Z.of_N now - Z.of_N timestamp)%Z). clearbody elapsed.
  change (1000 * 60)%Z with 60000%Z.
  assert (Hh : (elapsed / 60000 / 60 = elapsed / 3600000)%Z)
    by (rewrite Z.div_div by lia; reflexivity).
  assert (Hd : (elapsed / 60000 / 60 / 24 = elapsed / 86400000)%Z)
    by (rewrite !Z.div_div by lia; reflexivity).
  cbv zeta. rewrite Hd, Hh.
  pose proof (floor_quotient_bounds elapsed 60000 ltac:(lia)) as Bm.
  pose proof (floor_quotient_bounds elapsed 3600000 ltac:(lia)) as Bh.
  pose proof (floor_quotient_bounds elapsed 86400000 ltac:(lia)) as Bd.
  destruct (elapsed / 60000 <? 1)%Z eqn:H1;
    [apply Z.ltb_lt in H1 | apply Z.ltb_ge in H1].
  { repeat split; try reflexivity; intros; lia. }
  destruct (elapsed / 60000 <? 60)%Z eqn:H60;
    [apply Z.ltb_lt in H60 | apply Z.ltb_ge in H60].
  { repeat split; try reflexivity; intros; lia. }
  destruct (elapsed / 3600000 <? 24)%Z eqn:H24;
    [apply Z.ltb_lt in H24 | apply Z.ltb_ge in H24].
  { repeat split; try reflexivity; intros; lia. }
  repeat split; try reflexivity; intros; lia.
Qed.

Example formatTimeAgo_samples :
  Queue.formatTimeAgo 1700000059999%N 1700000000000%N = "Just now" /\
  Queue.formatTimeAgo 1700000060000%N 1700000000000%N = "1m ago" /\
  Queue.formatTimeAgo 1700003599999%N 1700000000000%N = "59m ago" /\
  Queue.formatTimeAgo 1700003600000%N 1700000000000%N = "1h ago" /\
  Queue.formatTimeAgo 1700086400000%N 1700000000000%N = "1d ago" /\
  Queue.formatTimeAgo 1700000000000%N 1700000060000%N = "Just now".
Proof. vm_compute. repeat split; reflexivity. Qed.

(** ** src/components/GenerationHistory.tsx: the list it shows *)

Module History.

(** The text of a status, as [gen.status === filterBy] compares it. *)
Definition status_text (st : Status) : string :=
  match st with
  | processing => "processing"
  | completed => "completed"
  | failed => "failed"
  end.

(** The callback of [history.filter]. *)
Definition matches (searchTerm filterBy : string) (gen : Generation) : bool :=
  let matchesSearch :=
    JS.includes (JS.toLowerCase (gen_prompt gen)) (JS.toLowerCase searchTerm) in
  let matchesFilter :=
    String.eqb filterBy "all" || String.eqb (status_text (gen_status gen)) filterBy in
  matchesSearch && matchesFilter.

(** [new Date(g.createdAt).getTime()]. *)
Definition getTime (t : Timestamp) : Q := inject_Z (Z.of_N t).

(** The comparator of [sort]. *)
Definition compare (sortBy : string) (a b : Generation) : Q :=
  if String.eqb sortBy "newest"
  then getTime (gen_createdAt b) - getTime (gen_createdAt a)
  else if String.eqb sortBy "oldest"
  then getTime (gen_createdAt a) - getTime (gen_createdAt b)
  else if String.eqb sortBy "duration"
  then cfg_duration (gen_config b) - cfg_duration (gen_config a)
  else 0.

(** [Array.prototype.sort(compareFn)] is a stable sort: [x] goes before
    [y] when [compareFn(x, y) <= 0] and [x] came first.  Insertion from
    the right is such a sort. *)
Fixpoint insert {A} (compareFn : A -> A -> Q) (x : A) (sorted : list A) : list A :=
  match sorted with
  | [] => [x]
  | y :: rest =>
      if Qle_bool (compareFn x y) 0 then x :: sorted
      else y :: insert compareFn x rest
  end.

Definition sort {A} (compareFn : A -> A -> Q) (l : list A) : list A :=
  fold_right (insert compareFn) [] l.

Definition filteredAndSortedHistory (history : list Generation)
    (searchTerm sortBy filterBy : string) : list Generation :=
  sort (compare sortBy) (filter (matches searchTerm filterBy) history).

(** The two counters beside "Showing n of m videos". *)
Definition completed_shown (history : list Generation) : nat :=
  length (filter (fun h => Status_eqb (gen_status h) completed) history).

Definition failed_shown (history : list Generation) : nat :=
  length (filter (fun h => Status_eqb (gen_status h) failed) history).

End History.

Section SortFacts.

Variable A : Type.
Variable compareFn : A -> A -> Q.
(** The comparator is a difference of weights, as each case of
    [History.compare] is. *)
Variable weight : A -> Q.
Hypothesis compareFn_weight : forall a b, compareFn a b == weight b - weight a.

Lemma compareFn_le (a b : A) : Qle_bool (compareFn a b) 0 = true <-> weight b <= weight a.
Proof.
  rewrite Qle_bool_iff, compareFn_weight. split; intro H; lra.
Qed.

Lemma insert_permutation (x : A) (l : list A) :
  Permutation (x :: l) (History.insert compareFn x l).
Proof.
  induction l as [| y l IH]; cbn [History.insert]; [reflexivity |].
  destruct (Qle_bool (compareFn x y) 0); [reflexivity |].
  rewrite perm_swap. now constructor.
Qed.

Lemma sort_permutation (l : list A) : Permutation l (History.sort compareFn l).
Proof.
  induction l as [| x l IH]; cbn; [constructor |].
  rewrite <- insert_permutation. now constructor.
Qed.

Lemma insert_sorted (x : A) (l : list A) :
  StronglySorted (fun a b => weight b <= weight a) l ->
  StronglySorted (fun a b => weight b <= weight a) (History.insert compareFn x l).
Proof.
  induction 1 as [| y l Hl IH Hy]; cbn [History.insert].
  - repeat constructor.
  - destruct (Qle_bool (compareFn x y) 0) eqn:Hc.
    + apply compareFn_le in Hc. constructor; [now constructor |].
      constructor; [exact Hc |].
      eapply Forall_impl; [| exact Hy]. cbv beta. intros b Hb. lra.
    + assert (Hlt : weight x < weight y).
      { apply Qnot_le_lt. intro H. apply compareFn_le in H. congruence. }
      constructor; [exact IH |].
      apply (Permutation_Forall (insert_permutation x l)).
      constructor; [lra | exact Hy].
Qed.

Lemma sort_sorted (l : list A) :
  StronglySorted (fun a b => weight b <= weight a) (History.sort compareFn l).
Proof.
  induction l as [| x l IH]; cbn; [constructor | now apply insert_sorted].
Qed.

Lemma insert_stable (a x : A) (l : list A) :
  filter (fun b => Qeq_bool (compareFn a b) 0) (History.insert compareFn x l)
  = filter (fun b => Qeq_bool (compareFn a b) 0) (x :: l).
Proof.
  induction l as [| y l IH]; cbn [History.insert]; [reflexivity |].
  destruct (Qle_bool (compareFn x y) 0) eqn:Hc; [reflexivity |].
  assert (Hlt : weight x < weight y).
  { apply Qnot_le_lt. intro H. apply compareFn_le in H. congruence. }
  cbn [filter] in *. rewrite IH.
  destruct (Qeq_bool (compareFn a y) 0) eqn:Hy;
    destruct (Qeq_bool (compareFn a x) 0) eqn:Hx; try reflexivity.
  exfalso. apply Qeq_bool_iff in Hx, Hy.
  rewrite compareFn_weight in Hx, Hy. lra.
Qed.

Lemma sort_stable (a : A) (l : list A) :
  filter (fun b => Qeq_bool (compareFn a b) 0) (History.sort compareFn l)
  = filter (fun b => Qeq_bool (compareFn a b) 0) l.
Proof.
  induction l as [| x l IH]; [reflexivity |].
  cbn [History.sort fold_right]. fold (History.sort compareFn l).
  rewrite insert_stable. cbn [filter]. now rewrite IH.
Qed.

End SortFacts.

(** The weight that [History.compare] compares by. *)
Definition sort_weight (sortBy : string) (g : Generation) : Q :=
  if String.eqb sortBy "newest" then History.getTime (gen_createdAt g)
  else if String.eqb sortBy "oldest" then - History.getTime (gen_createdAt g)
  else if String.eqb sortBy "duration" then cfg_duration (gen_config g)
  else 0.

Lemma compare_is_a_difference (sortBy : string) (a b : Generation) :
  History.compare sortBy a b == sort_weight sortBy b - sort_weight sortBy a.
Proof.
  unfold History.compare, sort_weight.
  destruct (String.eqb sortBy "newest"); [lra |].
  destruct (String.eqb sortBy "oldest"); [lra |].
  destruct (String.eqb sortBy "duration"); lra.
Qed.

(** The list the history shows is the stable sort of the selection.  It
    holds exactly the generations of the history that match the search
    term and the filter, each as often as the history has it; it is
    ordered by the comparator of the chosen sort; generations that the
    comparator ranks equal keep the order they have in the history; and
    it is no longer than the history ("Showing n of m"). *)
Theorem shown_history_is_the_sorted_selection (history : list Generation)
    (searchTerm sortBy filterBy : string) :
  let selected := filter (History.matches searchTerm filterBy) history in
  let shown := History.filteredAndSortedHistory history searchTerm sortBy filterBy in
  Permutation selected shown /\
  StronglySorted (fun a b => History.compare sortBy a b <= 0) shown /\
  (forall a,
     filter (fun b => Qeq_bool (History.compare sortBy a b) 0) shown
     = filter (fun b => Qeq_bool (History.compare sortBy a b) 0) selected) /\
  (length shown <= length history)%nat.
Proof.
  cbv zeta. unfold History.filteredAndSortedHistory.
  set (selected := filter (History.matches searchTerm filterBy) history).
  pose proof (compare_is_a_difference sortBy) as Hw.
  split; [apply sort_permutation |].
  split.
  { pose proof (sort_sorted _ _ _ Hw selected) as Hs.
    induction Hs as [| x l Hl IH Hx]; constructor; [exact IH |].
    eapply Forall_impl; [| exact Hx]. cbv beta. intros b Hb.
    rewrite Hw. lra. }
  split; [intro a; now apply (sort_stable _ _ _ Hw) |].
  rewrite <- (Permutation_length (sort_permutation _ (History.compare sortBy) selected)).
  apply filter_length_le.
Qed.

Definition at_time (t : N) (seconds : Q) (st : Status) (p : string) : Generation :=
  {| gen_id := "gen_" ++ JS.decimal t ++ "_x"; gen_prompt := p;
     gen_config := {| cfg_duration := seconds; cfg_aspectRatio := "16:9";
                      cfg_style := "cinematic"; cfg_quality := "standard" |};
     gen_status := st; gen_createdAt := t; gen_completedAt := Some t;
     gen_videoUrl := None; gen_error := None; gen_progress := 100;
     gen_taskId := None |}.

Example shown_history_samples :
  let history :=
    [ at_time 3 10 completed "A Sunset"; at_time 1 30 failed "a storm";
      at_time 2 10 completed "sunset at sea"; at_time 4 5 completed "a river" ] in
  map gen_prompt (History.filteredAndSortedHistory history "SUN" "oldest" "all")
  = ["sunset at sea"; "A Sunset"] /\
  map gen_prompt (History.filteredAndSortedHistory history "" "duration" "all")
  = ["a storm"; "A Sunset"; "sunset at sea"; "a river"] /\
  map gen_prompt (History.filteredAndSortedHistory history "" "newest" "failed")
  = ["a storm"] /\
  map gen_prompt (History.filteredAndSortedHistory history "" "other" "completed")
  = ["A Sunset"; "sunset at sea"; "a river"].
Proof. vm_compute. repeat split; reflexivity. Qed.

(** ** src/components/PromptInput.tsx: suggestions, keyboard, Enhance *)

Module PromptInput.

Definition suggestions : list (string * list string) :=
  [ ("Nature",
     [ "A serene mountain lake reflecting autumn colors with mist rising from the water";
       "Time-lapse of cherry blossoms blooming in a peaceful Japanese garden";
       "Dramatic ocean waves crashing against rugged coastal rocks during storm";
       "Golden hour sunlight filtering through dense forest canopy with dancing particles" ]);
    ("Urban",
     [ "Bustling city street at night with neon lights and reflections on wet pavement";
       "Modern skyline view with glass buildings reflecting sunset colors";
       "Time-lapse of traffic flowing through busy intersection with light trails";
       "Cozy coffee shop interior with warm lighting and steam rising from cups" ]);
    ("Abstract",
     [ "Flowing liquid metal with rainbow reflections morphing into geometric shapes";
       "Colorful paint drops splashing and mixing in slow motion macro view";
       "Geometric patterns expanding and contracting with vibrant gradient colors";
       "Particle systems creating complex formations with lighting effects" ]);
    ("Cinematic",
     [ "Epic space battle with starships and laser beams in deep space";
       "Medieval castle on a hill during thunderstorm with lightning flashes";
       "Futuristic laboratory with holographic displays and robotic arms";
       "Desert landscape with ancient ruins and sandstorm approaching" ]) ].

(** [suggestions.reduce((acc, cat) => [...acc, ...cat.prompts], [])]. *)
Definition allPrompts : list string :=
  fold_left (fun acc cat => (acc ++ snd cat)%list) suggestions [].

Definition enhancements : list string :=
  [ "cinematic lighting"; "high quality"; "4K resolution";
    "professional cinematography"; "smooth motion"; "vibrant colors" ].

(** [xs.join(sep)]. *)
Fixpoint join (sep : string) (xs : list string) : string :=
  match xs with
  | [] => ""
  | [x] => x
  | x :: rest => x ++ sep ++ join sep rest
  end.

(** The [value] prop, which is the state that [onChange] sets in the
    parent ([None] is [undefined]), and the two state cells of the
    component. *)
Record State : Type := {
  value : option string;
  showSuggestions : bool;
  focusedSuggestion : Z
}.

Definition initial (v : string) : State :=
  {| value := Some v; showSuggestions := false; focusedSuggestion := (-1)%Z |}.

Inductive Key : Type := ArrowDown | ArrowUp | Enter | Escape | OtherKey.

Definition onChange (v : option string) (s : State) : State :=
  {| value := v; showSuggestions := showSuggestions s;
     focusedSuggestion := focusedSuggestion s |}.

Definition close (s : State) : State :=
  {| value := value s; showSuggestions := false; focusedSuggestion := (-1)%Z |}.

Definition handleKeyDown (key : Key) (s : State) : State :=
  if negb (showSuggestions s) then s
  else
    let count := Z.of_nat (length allPrompts) in
    match key with
    | ArrowDown =>
        {| value := value s; showSuggestions := showSuggestions s;
           focusedSuggestion :=
             if (focusedSuggestion s <? count - 1)%Z
             then (focusedSuggestion s + 1)%Z else 0%Z |}
    | ArrowUp =>
        {| value := value s; showSuggestions := showSuggestions s;
           focusedSuggestion :=
             if (0 <? focusedSuggestion s)%Z
             then (focusedSuggestion s - 1)%Z else (count - 1)%Z |}
    | Enter =>
        if (0 <=? focusedSuggestion s)%Z
        then close (onChange (nth_error allPrompts (Z.to_nat (focusedSuggestion s))) s)
        else s
    | Escape => close s
    | OtherKey => s
    end.

Definition handleSuggestionClick (p : string) (s : State) : State :=
  close (onChange (Some p) s).

(** [enhancePrompt]; [shuffled] is the array [enhancements] as
    [sort(() => Math.random() - 0.5)] leaves it.  On an [undefined] value
    [value.trim()] throws before anything is set. *)
Definition enhancePrompt (shuffled : list string) (maxLength : nat) (s : State) : State :=
  match value s with
  | None => s
  | Some v =>
      if JS.truthy (JS.trim v)
      then
        let randomEnhancements := join ", " (firstn 2 shuffled) in
        let enhanced := JS.trim v ++ ", " ++ randomEnhancements in
        if (String.length enhanced <=? maxLength)%nat
        then onChange (Some enhanced) s
        else s
      else s
  end.

Definition clearPrompt (s : State) : State := onChange (Some "") s.

(** [onFocus={() => !value && setShowSuggestions(true)}]. *)
Definition onFocus (s : State) : State :=
  let empty := match value s with Some v => negb (JS.truthy v) | None => true end in
  if empty
  then {| value := value s; showSuggestions := true;
          focusedSuggestion := focusedSuggestion s |}
  else s.

(** What can happen to the component: text is typed into the textarea,
    it gets the focus, a key goes down, the [k]-th suggestion button is
    clicked, Enhance, Clear, the Show/Hide button, a click outside. *)
Inductive Event : Type :=
| TypeText (text : string)
| Focus
| KeyDown (key : Key)
| ClickSuggestion (k : nat)
| ClickEnhance (shuffled : list string)
| ClickClear
| ToggleSuggestions
| ClickOutside.

Definition step (maxLength : nat) (s : State) (e : Event) : State :=
  match e with
  | TypeText text => onChange (Some text) s
  | Focus => onFocus s
  | KeyDown key => handleKeyDown key s
  | ClickSuggestion k =>
      match nth_error allPrompts k with
      | Some p => handleSuggestionClick p s
      | None => s
      end
  | ClickEnhance shuffled => enhancePrompt shuffled maxLength s
  | ClickClear => clearPrompt s
  | ToggleSuggestions =>
      {| value := value s; showSuggestions := negb (showSuggestions s);
         focusedSuggestion := focusedSuggestion s |}
  | ClickOutside =>
      {| value := value s; showSuggestions := false;
         focusedSuggestion := focusedSuggestion s |}
  end.

Definition run (maxLength : nat) (s : State) (events : list Event) : State :=
  fold_left (step maxLength) events s.

End PromptInput.

Lemma promptinput_run_keeps (maxLength : nat) (P : PromptInput.State -> Prop)
    (allowed : PromptInput.Event -> Prop) (events : list PromptInput.Event) :
  (forall s e, allowed e -> P s -> P (PromptInput.step maxLength s e)) ->
  Forall allowed events ->
  forall s, P s -> P (PromptInput.run maxLength s events).
Proof.
  intros Hstep Hall. unfold PromptInput.run.
  induction Hall as [| e events He Hall IH]; intros s Hs; [exact Hs |].
  cbn [fold_left]. apply IH, Hstep; assumption.
Qed.

Lemma allPrompts_count : length PromptInput.allPrompts = 16%nat.
Proof. reflexivity. Qed.

(** The focused index is -1 or an index of the list, and the value is a
    string. *)
Definition focus_ok (s : PromptInput.State) : Prop :=
  (-1 <= PromptInput.focusedSuggestion s < 16)%Z /\
  exists text, PromptInput.value s = Some text.

Lemma focused_suggestion_exists (s : PromptInput.State) :
  focus_ok s -> (0 <= PromptInput.focusedSuggestion s)%Z ->
  exists p,
    nth_error PromptInput.allPrompts (Z.to_nat (PromptInput.focusedSuggestion s))
    = Some p.
Proof.
  intros [Hf _] Hpos.
  destruct (nth_error PromptInput.allPrompts
              (Z.to_nat (PromptInput.focusedSuggestion s))) as [p |] eqn:Hn;
    [now exists p |].
  apply nth_error_None in Hn. rewrite allPrompts_count in Hn. lia.
Qed.

Lemma step_keeps_focus_ok (maxLength : nat) (s : PromptInput.State)
    (e : PromptInput.Event) :
  focus_ok s -> focus_ok (PromptInput.step maxLength s e).
Proof.
  intros Hok. pose proof Hok as [Hf (text & Hv)]. unfold focus_ok.
  destruct e as [typed | | key | k | shuffled | | |]; cbn [PromptInput.step].
  - split; [exact Hf | now exists typed].
  - unfold PromptInput.onFocus. rewrite Hv.
    destruct (negb (JS.truthy text)); (split; [exact Hf | now exists text]).
  - unfold PromptInput.handleKeyDown.
    destruct (negb (PromptInput.showSuggestions s));
      [split; [exact Hf | now exists text] |].
    rewrite allPrompts_count. cbv zeta.
    destruct key; cbn [PromptInput.focusedSuggestion PromptInput.value
                       PromptInput.close PromptInput.onChange].
    + split; [| now exists text].
      destruct (PromptInput.focusedSuggestion s <? Z.of_nat 16 - 1)%Z eqn:Hc;
        [apply Z.ltb_lt in Hc |]; lia.
    + split; [| now exists text].
      destruct (0 <? PromptInput.focusedSuggestion s)%Z eqn:Hc;
        [apply Z.ltb_lt in Hc |]; lia.
    + destruct (0 <=? PromptInput.focusedSuggestion s)%Z eqn:Hc;
        [apply Z.leb_le in Hc | split; [exact Hf | now exists text]].
      cbn [PromptInput.focusedSuggestion PromptInput.value
           PromptInput.close PromptInput.onChange].
      split; [lia |].
      destruct (focused_suggestion_exists s Hok Hc) as (p & ->). now exists p.
    + split; [lia | now exists text].
    + split; [exact Hf | now exists text].
  - destruct (nth_error PromptInput.allPrompts k) as [p |];
      [| split; [exact Hf | now exists text]].
    split; [cbn; lia | now exists p].
  - unfold PromptInput.enhancePrompt. rewrite Hv.
    destruct (JS.truthy (JS.trim text)); [| split; [exact Hf | now exists text]].
    cbv zeta.
    destruct (String.length _ <=? maxLength)%nat;
      [| split; [exact Hf | now exists text]].
    split; [exact Hf | eexists; reflexivity].
  - split; [exact Hf | now exists ""].
  - split; [exact Hf | now exists text].
  - split; [exact Hf | now exists text].
Qed.

Lemma initial_focus_ok (v : string) : focus_ok (PromptInput.initial v).
Proof. split; [cbn; lia | now exists v]. Qed.

(** The keyboard focus stays on the list: after any events the focused
    index is -1 or the index of one of the 16 suggestions, so that Enter
    always hands an existing suggestion to [onChange]; the value is never
    [undefined]. *)
Theorem keyboard_focus_stays_on_the_suggestions (maxLength : nat) (v : string)
    (events : list PromptInput.Event) :
  let s := PromptInput.run maxLength (PromptInput.initial v) events in
  (-1 <= PromptInput.focusedSuggestion s < 16)%Z /\
  (exists text, PromptInput.value s = Some text) /\
  (PromptInput.showSuggestions s = true ->
   (0 <= PromptInput.focusedSuggestion s)%Z ->
   exists p,
     In p PromptInput.allPrompts /\
     PromptInput.handleKeyDown PromptInput.Enter s
     = PromptInput.close (PromptInput.onChange (Some p) s)).
Proof.
  cbv zeta.
  assert (Hok : focus_ok (PromptInput.run maxLength (PromptInput.initial v) events)).
  { apply (promptinput_run_keeps maxLength focus_ok (fun _ => True)).
    - intros s e _. apply step_keeps_focus_ok.
    - apply Forall_forall. trivial.
    - apply initial_focus_ok. }
  pose proof Hok as [Hf Hv]. split; [exact Hf |]. split; [exact Hv |].
  intros Hshow Hpos. unfold PromptInput.handleKeyDown. rewrite Hshow. cbn [negb].
  cbv zeta.
  destruct (focused_suggestion_exists _ Hok Hpos) as (p & Hn).
  apply Z.leb_le in Hpos. rewrite Hpos, Hn.
  exists p. split; [now apply nth_error_In in Hn | reflexivity].
Qed.

(** From the last suggestion ArrowDown goes to the first, from the first
    ArrowUp goes to the last; Enter takes the focused suggestion. *)
Example keyboard_wraps_around :
  let opened := PromptInput.run 1000 (PromptInput.initial "") [PromptInput.Focus] in
  let up := PromptInput.step 1000 opened (PromptInput.KeyDown PromptInput.ArrowUp) in
  let down := PromptInput.step 1000 up (PromptInput.KeyDown PromptInput.ArrowDown) in
  let chosen := PromptInput.step 1000 up (PromptInput.KeyDown PromptInput.Enter) in
  PromptInput.focusedSuggestion up = 15%Z /\
  PromptInput.focusedSuggestion down = 0%Z /\
  PromptInput.value chosen
  = Some "Desert landscape with ancient ruins and sandstorm approaching" /\
  PromptInput.showSuggestions chosen = false /\
  PromptInput.focusedSuggestion chosen = (-1)%Z.
Proof. vm_compute. repeat split; reflexivity. Qed.

(** The text typed into the textarea obeys its [maxLength] attribute. *)
Definition typed_within (maxLength : nat) (e : PromptInput.Event) : Prop :=
  match e with
  | PromptInput.TypeText text => (String.length text <= maxLength)%nat
  | _ => True
  end.

(** The value stays within [maxLength]: when the value the component
    starts with, every suggestion and every typed text have at most
    [maxLength] characters, then so has the value after any events.
    Enhance does not push it over the limit: it leaves the value alone
    when the enhanced text would be too long. *)
Theorem value_stays_within_maxLength (maxLength : nat) (v : string)
    (events : list PromptInput.Event) :
  (String.length v <= maxLength)%nat ->
  Forall (fun p => (String.length p <= maxLength)%nat) PromptInput.allPrompts ->
  Forall (typed_within maxLength) events ->
  exists text,
    PromptInput.value (PromptInput.run maxLength (PromptInput.initial v) events)
    = Some text /\
    (String.length text <= maxLength)%nat.
Proof.
  intros Hv Hall Hevents.
  assert (H : focus_ok (PromptInput.run maxLength (PromptInput.initial v) events) /\
              exists text,
                PromptInput.value
                  (PromptInput.run maxLength (PromptInput.initial v) events)
                = Some text /\
                (String.length text <= maxLength)%nat); [| exact (proj2 H)].
  apply (promptinput_run_keeps maxLength
           (fun s => focus_ok s /\
                     exists text,
                       PromptInput.value s = Some text /\
                       (String.length text <= maxLength)%nat)
           (typed_within maxLength));
    [| exact Hevents | split; [apply initial_focus_ok | now exists v]].
  intros s e He [Hok (text & Hvalue & Hlen)].
  split; [now apply step_keeps_focus_ok |].
  destruct e as [typed | | key | k | shuffled | | |]; cbn [PromptInput.step].
  - now exists typed.
  - unfold PromptInput.onFocus. rewrite Hvalue.
    destruct (negb (JS.truthy text)); now exists text.
  - unfold PromptInput.handleKeyDown.
    destruct (negb (PromptInput.showSuggestions s)); [now exists text |].
    cbv zeta. destruct key; try (now exists text).
    destruct (0 <=? PromptInput.focusedSuggestion s)%Z eqn:Hpos; [| now exists text].
    apply Z.leb_le in Hpos.
    destruct (focused_suggestion_exists s Hok Hpos) as (p & Hn). rewrite Hn.
    exists p. split; [reflexivity |].
    exact (HookFacts.Forall_nth_error _ _ _ _ Hall Hn).
  - destruct (nth_error PromptInput.allPrompts k) as [p |] eqn:Hn; [| now exists text].
    exists p. split; [reflexivity |].
    exact (HookFacts.Forall_nth_error _ _ _ _ Hall Hn).
  - unfold PromptInput.enhancePrompt. rewrite Hvalue.
    destruct (JS.truthy (JS.trim text)); [| now exists text].
    cbv zeta.
    destruct (String.length _ <=? maxLength)%nat eqn:Hfits; [| now exists text].
    eexists. split; [reflexivity |]. now apply Nat.leb_le in Hfits.
  - exists "". split; [reflexivity | cbn; lia].
  - now exists text.
  - now exists text.
Qed.

Lemma suggestions_fit_1000 :
  Forall (fun p => (String.length p <= 1000)%nat) PromptInput.allPrompts.
Proof.
  apply Forall_forall. intros p Hin.
  apply Nat.leb_le.
  revert p Hin. apply Forall_forall.
  repeat constructor.
Qed.

(** A suggestion is taken with the keyboard and enhanced twice, with the
    limit of 1000 that [VideoGenerator] passes. *)
Lemma value_after_enhancing_a_suggestion :
  exists text,
    PromptInput.value
      (PromptInput.run 1000 (PromptInput.initial "")
         [ PromptInput.Focus;
           PromptInput.KeyDown PromptInput.ArrowDown;
           PromptInput.KeyDown PromptInput.Enter;
           PromptInput.ClickEnhance ["smooth motion"; "4K resolution"; "high quality";
                                     "cinematic lighting"; "vibrant colors";
                                     "professional cinematography"];
           PromptInput.TypeText "A sunset" ])
    = Some text /\
    (String.length text <= 1000)%nat.
Proof.
  apply (value_stays_within_maxLength 1000 ""
           [ PromptInput.Focus;
             PromptInput.KeyDown PromptInput.ArrowDown;
             PromptInput.KeyDown PromptInput.Enter;
             PromptInput.ClickEnhance ["smooth motion"; "4K resolution"; "high quality";
                                       "cinematic lighting"; "vibrant colors";
                                       "professional cinematography"];
             PromptInput.TypeText "A sunset" ]).
  - cbn. lia.
  - exact suggestions_fit_1000.
  - constructor; [exact I |]. constructor; [exact I |]. constructor; [exact I |].
    constructor; [exact I |]. constructor; [cbn; lia |]. constructor.
Defined.

Example enhance_appends_two_enhancements :
  PromptInput.value
    (PromptInput.enhancePrompt ["smooth motion"; "4K resolution"; "high quality"]
       1000 (PromptInput.initial "  A sunset "))
  = Some "A sunset, smooth motion, 4K resolution" /\
  PromptInput.value
    (PromptInput.enhancePrompt ["smooth motion"; "4K resolution"; "high quality"]
       30 (PromptInput.initial "  A sunset "))
  = Some "  A sunset " /\
  PromptInput.value
    (PromptInput.enhancePrompt ["smooth motion"; "4K resolution"; "high quality"]
       1000 (PromptInput.initial "   "))
  = Some "   ".
Proof. vm_compute. repeat split; reflexivity. Qed.

(** ** src/components/VideoPreview.tsx: the time label *)

Module VideoPreview.

(** Rounding toward zero, as the quotient of [%] is rounded. *)
Definition truncate (x : Q) : Z := if Qle_bool 0 x then Qfloor x else Qceiling x.

(** [a % b] on numbers: [a] minus [b] times the truncated quotient. *)
Definition remainder (a b : Q) : Q := a - b * inject_Z (truncate (a / b)).

(** [n.toString()] and [`${n}`] of a whole number. *)
Definition integer_text (z : Z) : string :=
  match z with
  | Zneg p => "-" ++ JS.decimal (Npos p)
  | _ => JS.decimal (Z.to_N z)
  end.

(** [s.padStart(2, '0')]. *)
Definition padStart2 (s : string) : string :=
  match String.length s with
  | 0%nat => "00"
  | 1%nat => "0" ++ s
  | _ => s
  end.

(** [formatTime(seconds)].  The code computes in doubles; the quotient,
    the remainder and the two floors are exact, and the numbers are
    printed digit by digit, for a time from 0 up to 2^53 seconds.  Beyond
    that (and for [NaN] and [Infinity], which a video without metadata
    gives) the label of the code is outside this definition. *)
Definition formatTime (seconds : Q) : string :=
  let mins := Qfloor (seconds / 60) in
  let secs := Qfloor (remainder seconds 60) in
  integer_text mins ++ ":" ++ padStart2 (integer_text secs).

End VideoPreview.

Lemma Qfloor_unique (x : Q) (n : Z) :
  inject_Z n <= x -> x < inject_Z (n + 1) -> Qfloor x = n.
Proof.
  intros Hlo Hhi.
  pose proof (Qfloor_le x) as H1. pose proof (Qlt_floor x) as H2.
  assert (Ha : inject_Z (Qfloor x) < inject_Z (n + 1)) by lra.
  assert (Hb : inject_Z n < inject_Z (Qfloor x + 1)) by lra.
  rewrite <- Zlt_Qlt in Ha, Hb. lia.
Qed.

Lemma Qfloor_of_sixtieth (x : Q) : Qfloor (x / 60) = (Qfloor x / 60)%Z.
Proof.
  pose proof (Qfloor_le x) as H1. pose proof (Qlt_floor x) as H2.
  pose proof (floor_quotient_bounds (Qfloor x) 60 ltac:(lia)) as [B1 B2].
  set (q := (Qfloor x / 60)%Z) in *.
  assert (B3 : (Qfloor x + 1 <= 60 * q + 60)%Z) by lia.
  rewrite Zle_Qle in B1, B3.
  rewrite inject_Z_mult in B1.
  rewrite !inject_Z_plus, inject_Z_mult in B3.
  rewrite inject_Z_plus in H2.
  change (inject_Z 60) with 60 in *. change (inject_Z 1) with 1 in *.
  apply Qfloor_unique.
  - apply Qle_shift_div_l; [reflexivity | lra].
  - rewrite inject_Z_plus. change (inject_Z 1) with 1.
    apply Qlt_shift_div_r; [reflexivity | lra].
Qed.

Lemma Qfloor_minus_integer (x : Q) (n : Z) :
  Qfloor (x - inject_Z n) = (Qfloor x - n)%Z.
Proof.
  pose proof (Qfloor_le x) as H1. pose proof (Qlt_floor x) as H2.
  rewrite inject_Z_plus in H2. change (inject_Z 1) with 1 in H2.
  apply Qfloor_unique.
  - unfold Z.sub. rewrite inject_Z_plus, inject_Z_opp. lra.
  - replace (Qfloor x - n + 1)%Z with ((Qfloor x + 1) + - n)%Z by lia.
    rewrite !inject_Z_plus, inject_Z_opp. change (inject_Z 1) with 1. lra.
Qed.

Lemma two_digit_seconds (n : Z) :
  (0 <= n < 60)%Z ->
  String.length (VideoPreview.padStart2 (JS.decimal (Z.to_N n))) = 2%nat.
Proof.
  intro Hn.
  assert (Hall : forallb
                   (fun k => (String.length
                                (VideoPreview.padStart2 (JS.decimal (N.of_nat k)))
                              =? 2)%nat)
                   (seq 0 60) = true) by (vm_compute; reflexivity).
  rewrite forallb_forall in Hall.
  specialize (Hall (Z.to_nat n)).
  rewrite <- Z_N_nat, N2Nat.id in Hall.
  apply Nat.eqb_eq, Hall, in_seq. lia.
Qed.

(** For a time from 0 up to 2^53 seconds, the label shows the whole
    seconds of it (the fraction is dropped), split into minutes and
    seconds: the minutes in full, not wrapped into hours, a colon, and the
    seconds from 0 to 59 in exactly two digits. *)
Theorem formatTime_splits_the_whole_seconds (seconds : Q) :
  0 <= seconds -> seconds < 9007199254740992 ->
  let total := Qfloor seconds in
  VideoPreview.formatTime seconds
  = JS.decimal (Z.to_N (total / 60)) ++ ":"
    ++ VideoPreview.padStart2 (JS.decimal (Z.to_N (total mod 60))) /\
  (0 <= total mod 60 < 60)%Z /\
  String.length (VideoPreview.padStart2 (JS.decimal (Z.to_N (total mod 60)))) = 2%nat.
Proof.
  intros Hpos _. cbv zeta.
  pose proof (Z.mod_pos_bound (Qfloor seconds) 60 ltac:(lia)) as Hmod.
  split; [| split; [exact Hmod | now apply two_digit_seconds]].
  unfold VideoPreview.formatTime, VideoPreview.remainder, VideoPreview.truncate.
  assert (Hq : Qle_bool 0 (seconds / 60) = true).
  { apply Qle_bool_iff. apply Qle_shift_div_l; [reflexivity | lra]. }
  rewrite Hq. cbv zeta.
  rewrite Qfloor_of_sixtieth.
  assert (Hfloor : (0 <= Qfloor seconds)%Z).
  { change 0%Z with (Qfloor 0). now apply Qfloor_resp_le. }
  assert (Hsecs : Qfloor (seconds - 60 * inject_Z (Qfloor seconds / 60))
                  = (Qfloor seconds mod 60)%Z).
  { assert (Heq : seconds - 60 * inject_Z (Qfloor seconds / 60)
                  == seconds - inject_Z (60 * (Qfloor seconds / 60))).
    { rewrite inject_Z_mult. reflexivity. }
    rewrite (Qfloor_comp _ _ Heq), Qfloor_minus_integer.
    pose proof (Z.div_mod (Qfloor seconds) 60 ltac:(lia)). lia. }
  rewrite Hsecs.
  assert (Hmins : (0 <= Qfloor seconds / 60)%Z) by (apply Z.div_pos; lia).
  unfold VideoPreview.integer_text.
  destruct (Qfloor seconds / 60)%Z as [| m | m]; [| | lia];
    destruct (Qfloor seconds mod 60)%Z as [| r | r]; try lia; reflexivity.
Qed.

Lemma formatTime_of_75_seconds_and_a_half :
  VideoPreview.formatTime 75.5
  = JS.decimal (Z.to_N (Qfloor 75.5 / 60)) ++ ":"
    ++ VideoPreview.padStart2 (JS.decimal (Z.to_N (Qfloor 75.5 mod 60))) /\
  (0 <= Qfloor 75.5 mod 60 < 60)%Z /\
  String.length (VideoPreview.padStart2 (JS.decimal (Z.to_N (Qfloor 75.5 mod 60))))
  = 2%nat.
Proof.
  apply (formatTime_splits_the_whole_seconds 75.5); [discriminate | reflexivity].
Defined.

Example formatTime_samples :
  VideoPreview.formatTime 0 = "0:00" /\
  VideoPreview.formatTime 75.5 = "1:15" /\
  VideoPreview.formatTime 59.999 = "0:59" /\
  VideoPreview.formatTime 3600 = "60:00".
Proof. vm_compute. repeat split; reflexivity. Qed.

(** ** The form in front of the route *)

(** The body that [VideoGenerator.handleGenerate] posts:
    [{ prompt: prompt.trim(), duration, aspectRatio, style, quality }]. *)
Definition form_request (p : string) (config : GenerationConfig)
  : VideoGenerationRequest :=
  {| prompt := Some (JS.trim p);
     duration := cfg_duration config;
     aspectRatio := cfg_aspectRatio config;
     style := cfg_style config;
     quality := cfg_quality config |}.

Lemma trimStart_length (s : string) :
  (String.length (JS.trimStart s) <= String.length s)%nat.
Proof.
  induction s as [| c s IH]; cbn [JS.trimStart String.length]; [lia |].
  destruct (JS.is_whitespace c); cbn [String.length]; lia.
Qed.

Lemma trimEnd_length (s : string) :
  (String.length (JS.trimEnd s) <= String.length s)%nat.
Proof.
  induction s as [| c s IH]; [cbn; lia |].
  rewrite trimEnd_cons.
  destruct (JS.trimEnd s) as [| d t].
  - destruct (JS.is_whitespace c); cbn [String.length] in *; lia.
  - cbn [String.length] in *. lia.
Qed.

Lemma trim_length (s : string) : (String.length (JS.trim s) <= String.length s)%nat.
Proof.
  unfold JS.trim. pose proof (trimEnd_length (JS.trimStart s)).
  pose proof (trimStart_length s). lia.
Qed.

(** A submission that passes the two checks of the form passes the two
    prompt rules of the route: whatever the configuration, the validator
    does not answer "Prompt is required" or "Prompt must be less than 1000
    characters" to the body the form posts; and with a duration and an
    aspect ratio that the route allows, the route forwards it to the
    provider. *)
Theorem form_submissions_pass_the_prompt_rules (p : string)
    (config : GenerationConfig) (now : N) (rnd : string) (s s' : Page.State) :
  Page.handleGenerate_call p config now rnd s = Some s' ->
  VideoApi.validateVideoRequest (form_request p config) <> Some "Prompt is required" /\
  VideoApi.validateVideoRequest (form_request p config)
  <> Some "Prompt must be less than 1000 characters" /\
  ((exists d, In d [5; 10; 15; 30]%Q /\ d == cfg_duration config) ->
   In (cfg_aspectRatio config) ["16:9"; "9:16"; "1:1"] ->
   forall Number_toString match_mp4 provider clock suffix,
     fst (Route.POST Number_toString match_mp4 (JS.Return (form_request p config))
            provider clock suffix)
     = [Route.provider_call Number_toString (form_request p config) (JS.trim p)]).
Proof.
  unfold Page.handleGenerate_call. intro Hcall.
  destruct (negb (JS.truthy (JS.trim p))) eqn:Hblank; [discriminate |].
  destruct (1000 <? String.length p)%nat eqn:Hlong; [discriminate |].
  apply negb_false_iff in Hblank. apply Nat.ltb_ge in Hlong.
  assert (Hne : JS.trim p <> "") by (intro H; rewrite H in Hblank; discriminate).
  assert (Hne' : JS.trim (JS.trim p) <> "") by now rewrite trim_idempotent.
  pose proof (trim_length p) as Hlen.
  assert (Hprompt : negb (JS.truthy (JS.trim p))
                    || (String.length (JS.trim (JS.trim p)) =? 0)%nat = false).
  { rewrite Hblank. cbn [negb orb]. apply Nat.eqb_neq.
    destruct (JS.trim (JS.trim p)); [contradiction | discriminate]. }
  assert (Hshort : (1000 <? String.length (JS.trim p))%nat = false)
    by (apply Nat.ltb_ge; lia).
  split; [| split].
  - unfold VideoApi.validateVideoRequest, form_request. cbn [prompt duration aspectRatio].
    rewrite Hprompt, Hshort. cbv zeta.
    destruct (negb (JS.includes_number _ _)); [discriminate |].
    destruct (negb (JS.includes_string _ _)); discriminate.
  - unfold VideoApi.validateVideoRequest, form_request. cbn [prompt duration aspectRatio].
    rewrite Hprompt, Hshort. cbv zeta.
    destruct (negb (JS.includes_number _ _)); [discriminate |].
    destruct (negb (JS.includes_string _ _)); discriminate.
  - intros Hd Ha Number_toString match_mp4 provider clock suffix.
    assert (Hvalid : VideoApi.validateVideoRequest (form_request p config) = None).
    { apply validateVideoRequest_None. exists (JS.trim p).
      cbn [form_request prompt duration aspectRatio].
      repeat split; try assumption. lia. }
    pose proof (POST_validation Number_toString match_mp4 (form_request p config)
                  provider clock suffix) as HP.
    rewrite Hvalid in HP. destruct HP as (q & Hq & Hcalls & _).
    cbn [form_request prompt] in Hq. injection Hq as <-. exact Hcalls.
Qed.

(** The sunset submission of the form. *)
Lemma sunset_submission_passes_the_prompt_rules :
  VideoApi.validateVideoRequest (form_request "  A sunset " sunset_config)
  <> Some "Prompt is required" /\
  VideoApi.validateVideoRequest (form_request "  A sunset " sunset_config)
  <> Some "Prompt must be less than 1000 characters" /\
  ((exists d, In d [5; 10; 15; 30]%Q /\ d == cfg_duration sunset_config) ->
   In (cfg_aspectRatio sunset_config) ["16:9"; "9:16"; "1:1"] ->
   forall Number_toString match_mp4 provider clock suffix,
     fst (Route.POST Number_toString match_mp4
            (JS.Return (form_request "  A sunset " sunset_config))
            provider clock suffix)
     = [Route.provider_call Number_toString (form_request "  A sunset " sunset_config)
          (JS.trim "  A sunset ")]).
Proof.
  apply (form_submissions_pass_the_prompt_rules "  A sunset " sunset_config
           1700000000000 "k3x9" Page.mounted
           (Page.handleNewGeneration
              (Page.new_generation "  A sunset " sunset_config 1700000000000 "k3x9")
              Page.mounted)).
  reflexivity.
Defined.

(** The form is stricter than the route: 999 letters followed by two
    spaces are refused by the form and accepted by the validator. *)
Example form_refuses_what_the_route_accepts :
  let p := prompt_1001 in
  let padded := substring 0 999 p ++ "  " in
  Page.handleGenerate_call padded sunset_config 1700000000000 "k3x9" Page.mounted = None /\
  VideoApi.validateVideoRequest (form_request padded sunset_config) = None.
Proof. vm_compute. split; reflexivity. Qed.

(** ** A blank message of the provider, seen by the two trackers *)

(** When the provider's message is blank (and is no processing notice),
    the route answers 200 with status [completed] and an empty video URL.
    On that answer the page does nothing: the generation stays in the
    queue and nothing is pending for it.  The hook ends the generation as
    failed, with the error "Generation failed". *)
Theorem blank_provider_message_is_no_video
    (Number_toString : Q -> string) (match_mp4 : string -> option string)
    (provider : Route.ProviderCall -> Route.ProviderOutcome)
    (request : VideoGenerationRequest) (clock : N) (suffix : string) (text : string) :
  VideoApi.validateVideoRequest request = None ->
  (forall call, provider call = Route.Message text) ->
  match_mp4 text = None ->
  JS.includes text "processing" || JS.includes text "generating" = false ->
  JS.trim text = "" ->
  let answer :=
    Route.json_body
      (snd (Route.POST Number_toString match_mp4 (JS.Return request)
              provider clock suffix)) in
  (success answer = true /\ status answer = Some completed /\
   videoUrl answer = Some "") /\
  (forall generation p config now s,
     Page.handleGenerate_continue generation p config (JS.Return answer) now s = s) /\
  (forall generation now s,
     Hook.generateVideo_continue generation (JS.Return answer) now s
     = (false,
        Hook.set_isGenerating false
          (Hook.move_to_history
             (Hook.failed_from generation "Generation failed" now) s))).
Proof.
  intros Hvalid Hprovider Hmatch Hnotice Hblank. cbv zeta.
  assert (Hanswer :
            Route.json_body
              (snd (Route.POST Number_toString match_mp4 (JS.Return request)
                      provider clock suffix))
            = {| success := true; videoUrl := Some ""; error := None;
                 taskId := None; status := Some completed;
                 estimatedTime := None |}).
  { apply validateVideoRequest_None in Hvalid.
    destruct Hvalid as (p & Hp & Hne & Hlen & Hd & Ha).
    unfold Route.POST. rewrite Hp.
    assert (Hcheck : negb (JS.truthy p) || (String.length (JS.trim p) =? 0)%nat = false).
    { destruct (negb (JS.truthy p) || (String.length (JS.trim p) =? 0)%nat) eqn:Hc;
        [| reflexivity].
      apply prompt_check_spec in Hc. contradiction. }
    rewrite Hcheck.
    replace (1000 <? String.length p)%nat with false
      by (symmetry; apply Nat.ltb_ge; exact Hlen).
    cbv zeta.
    apply includes_number_spec in Hd. rewrite Hd.
    apply includes_string_spec in Ha. rewrite Ha.
    cbn [negb]. unfold Route.forward. cbn [snd].
    rewrite Hprovider, Hmatch, Hnotice, Hblank. reflexivity. }
  rewrite Hanswer. split; [repeat split |]. split.
  - intros generation p config now s. reflexivity.
  - intros generation now s. reflexivity.
Qed.

(** The provider answers the sunset request with two spaces. *)
Lemma blank_answer_to_the_sunset_request :
  let answer :=
    Route.json_body
      (snd (Route.POST render_integer no_mp4
              (JS.Return (request_of (Some "A sunset") 10))
              (fun _ => Route.Message "  ") 0 "k3")) in
  (success answer = true /\ status answer = Some completed /\
   videoUrl answer = Some "") /\
  (forall generation p config now s,
     Page.handleGenerate_continue generation p config (JS.Return answer) now s = s) /\
  (forall generation now s,
     Hook.generateVideo_continue generation (JS.Return answer) now s
     = (false,
        Hook.set_isGenerating false
          (Hook.move_to_history
             (Hook.failed_from generation "Generation failed" now) s))).
Proof.
  apply (blank_provider_message_is_no_video render_integer no_mp4
           (fun _ => Route.Message "  ") (request_of (Some "A sunset") 10) 0 "k3" "  ").
  - reflexivity.
  - reflexivity.
  - reflexivity.
  - reflexivity.
  - reflexivity.
Defined.

(** On the page the generation is still queued after the blank answer,
    with no call suspended and no callback pending. *)
Example blank_answer_leaves_the_generation_queued :
  let answer :=
    Route.json_body
      (snd (Route.POST render_integer no_mp4
              (JS.Return (form_request "A sunset" sunset_config))
              (fun _ => Route.Message "  ") 0 "k3")) in
  let s :=
    PageSession.run PageSession.mounted
      [ PageSession.ClickGenerate "A sunset" sunset_config 1700000000000 "k3x9";
        PageSession.ResumeHandleGenerate 0 (JS.Return answer) 1700000003000 ] in
  map gen_id (Page.activeGenerations (PageSession.page s))
  = ["gen_1700000000000_k3x9"] /\
  Page.generationHistory (PageSession.page s) = [] /\
  Page.timers (PageSession.page s) = [] /\
  PageSession.awaiting s = [].
Proof. vm_compute. repeat split; reflexivity. Qed.

(* ================================================================= *)
(** * Part V: the export and the import on the platform's [JSON] *)
(* ================================================================= *)

(** The round trip of the history through [exportGenerationHistory] and
    [importGenerationHistory] depends on what the platform's [JSON] does
    with the values of the history, so this part embeds
    [JSON.stringify] and [JSON.parse] as ECMA-262 defines them and runs
    the store on them.  A number is a double: a rational on the grid of
    IEEE 754 binary64, -0, or an infinity.  A string is the UTF-8 text,
    as everywhere in this file; a surrogate that an escape names alone
    is kept as the three bytes of its code unit. *)

From Stdlib Require Import Qpower Qabs DecimalFacts DecimalPos.

(** ** The built-in [JSON] object of the platform *)

Module Platform.

(** *** Numbers *)

(** A Number value that [JSON.parse] can return: a finite double other
    than -0, as the rational it is; -0; or an infinity ([NaN] has no
    numeral). *)
Inductive number : Type :=
| Finite (x : Q)
| NegativeZero
| PositiveInfinity
| NegativeInfinity.

(** [2^k] and [10^k] for an integer [k]. *)
Definition power (base : Z) (k : Z) : Q :=
  if (0 <=? k)%Z then inject_Z (base ^ k) else 1 # Z.to_pos (base ^ (- k)).

(** The [e] with [2^e <= q < 2^(e+1)], for [q > 0]. *)
Definition floor_log2 (q : Q) : Z :=
  let e := (Z.log2 (Qnum q) - Z.log2 (Zpos (Qden q)))%Z in
  if Qle_bool (power 2 e) q then e else (e - 1)%Z.

(** The integer nearest to [r >= 0], the even one at a tie. *)
Definition round_half_even (r : Q) : Z :=
  let below := (Qnum r / Zpos (Qden r))%Z in
  let rest := (Qnum r mod Zpos (Qden r))%Z in
  match (2 * rest ?= Zpos (Qden r))%Z with
  | Lt => below
  | Gt => (below + 1)%Z
  | Eq => if Z.even below then below else (below + 1)%Z
  end.

(** The double nearest to [q > 0] (IEEE 754 binary64, round to nearest,
    ties to even): 53 bits from the leading one, or the subnormal grid of
    [2^-1074]; [None] when the result is [2^1024] or more. *)
Definition round_magnitude (q : Q) : option Q :=
  let e := floor_log2 q in
  let grid := Z.max (e - 52) (-1074) in
  let r := Qred (inject_Z (round_half_even (q / power 2 grid)) * power 2 grid) in
  if Qle_bool (power 2 1024) r then None else Some r.

(** The Number value of the real number with sign [negative] and
    magnitude [q >= 0], whichever fraction denotes it. *)
Definition number_of_real (negative : bool) (q : Q) : number :=
  let q := Qred q in
  if Qeq_bool q 0 then (if negative then NegativeZero else Finite 0)
  else
    match round_magnitude q with
    | None => if negative then NegativeInfinity else PositiveInfinity
    | Some r =>
        if Qeq_bool r 0 then (if negative then NegativeZero else Finite 0)
        else Finite (if negative then Qred (- r) else r)
    end.


Definition is_digit (c : ascii) : bool :=
  let n := nat_of_ascii c in (48 <=? n)%nat && (n <=? 57)%nat.

(** The longest prefix of characters of a class, and what follows it. *)
Fixpoint span (class : ascii -> bool) (s : string) : string * string :=
  match s with
  | EmptyString => (EmptyString, EmptyString)
  | String c rest =>
      if class c
      then let (taken, r) := span class rest in (String c taken, r)
      else (EmptyString, s)
  end.

(** The value of a string of decimal digits. *)
Definition digits_value (digits : string) : Z :=
  fold_left (fun acc c => (acc * 10 + Z.of_nat (nat_of_ascii c - 48))%Z)
            (list_ascii_of_string digits) 0%Z.

(** The Number value of a numeral of the JSON grammar: an optional
    minus sign; the integer part, a single 0 or digits that do not start
    with 0; optionally a point and one or more digits; optionally e or E,
    an optional sign and one or more digits.  [None] when the text is no
    such numeral. *)
Definition read_numeral (s : string) : option number :=
  let (negative, s1) :=
    match s with
    | String c r => if Ascii.eqb c "-" then (true, r) else (false, s)
    | EmptyString => (false, s)
    end in
  let (int_digits, s2) := span is_digit s1 in
  match int_digits with
  | EmptyString => None
  | String d more =>
      if Ascii.eqb d "0" && negb (String.eqb more "") then None
      else
        let fraction : option (string * string) :=
          match s2 with
          | String c r =>
              if Ascii.eqb c "." then
                let (frac_digits, s3) := span is_digit r in
                match frac_digits with
                | EmptyString => None
                | _ => Some (frac_digits, s3)
                end
              else Some (EmptyString, s2)
          | EmptyString => Some (EmptyString, s2)
          end in
        match fraction with
        | None => None
        | Some (frac_digits, s3) =>
            let exponent : option (Z * string) :=
              match s3 with
              | String c r =>
                  if Ascii.eqb c "e" || Ascii.eqb c "E" then
                    let (sign, r1) :=
                      match r with
                      | String c' r' =>
                          if Ascii.eqb c' "+" then (1%Z, r')
                          else if Ascii.eqb c' "-" then ((-1)%Z, r')
                          else (1%Z, r)
                      | EmptyString => (1%Z, r)
                      end in
                    let (exp_digits, s4) := span is_digit r1 in
                    match exp_digits with
                    | EmptyString => None
                    | _ => Some ((sign * digits_value exp_digits)%Z, s4)
                    end
                  else Some (0%Z, s3)
              | EmptyString => Some (0%Z, s3)
              end in
            match exponent with
            | None => None
            | Some (e, s4) =>
                match s4 with
                | EmptyString =>
                    Some (number_of_real negative
                            (inject_Z (digits_value (int_digits ++ frac_digits))
                             * power 10 (e - Z.of_nat (String.length frac_digits))))
                | _ => None
                end
            end
        end
  end.

(** The [e] with [10^e <= q < 10^(e+1)], for [q > 0]: an estimate from
    the binary logarithm, corrected by comparison. *)
Definition floor_log10 (q : Q) : Z :=
  let g := (floor_log2 q * 30103 / 100000)%Z in
  let g := if Qle_bool (power 10 g) q then g else (g - 1)%Z in
  if Qle_bool (power 10 (g + 1)) q then (g + 1)%Z else g.

(** Whether the real number [c * 10^scale] has the Number value [x]. *)
Definition denotes (x : Q) (c scale : Z) : bool :=
  match number_of_real false (inject_Z c * power 10 scale) with
  | Finite y => Qeq_bool y x
  | _ => false
  end.

(** The integers [s] of [k] digits for which [s * 10^(n-k)] has the
    Number value [x], where [10^(n-1) <= x < 10^n]: only the two around
    [x / 10^(n-k)] can; of two that do, the nearer to [x]. *)
Definition candidate (x : Q) (n k : Z) : option (Z * Z) :=
  let scale := (n - k)%Z in
  let below := Qfloor (x / power 10 scale) in
  let above := (below + 1)%Z in
  match denotes x below scale, denotes x above scale with
  | true, true =>
      if Qle_bool (x - inject_Z below * power 10 scale)
                  (inject_Z above * power 10 scale - x)
      then Some (below, scale) else Some (above, scale)
  | true, false => Some (below, scale)
  | false, true => Some (above, scale)
  | false, false => None
  end.

Fixpoint fewest_digits (x : Q) (n k : Z) (tries : nat) : option (Z * Z) :=
  match tries with
  | O => None
  | S tries' =>
      match candidate x n k with
      | Some found => Some found
      | None => fewest_digits x n (k + 1) tries'
      end
  end.

Fixpoint strip_zeros_reversed (digits : list ascii) : list ascii :=
  match digits with
  | c :: rest => if Ascii.eqb c "0" then strip_zeros_reversed rest else digits
  | [] => []
  end.

Definition strip_trailing_zeros (digits : string) : string :=
  string_of_list_ascii (rev (strip_zeros_reversed (rev (list_ascii_of_string digits)))).

Fixpoint zeros (n : nat) : string :=
  match n with O => "" | S n' => String "0" (zeros n') end.

(** Steps 6 to 10 of Number::toString: the digits [digits] (there are
    [k] of them) with the decimal point after the [n]-th. *)
Definition layout_digits (digits : string) (n : Z) : string :=
  let k := Z.of_nat (String.length digits) in
  if ((k <=? n) && (n <=? 21))%Z
  then digits ++ zeros (Z.to_nat (n - k))
  else if ((0 <? n) && (n <=? 21))%Z
  then substring 0 (Z.to_nat n) digits ++ "."
       ++ substring (Z.to_nat n) (Z.to_nat (k - n)) digits
  else if ((-6 <? n) && (n <=? 0))%Z
  then "0." ++ zeros (Z.to_nat (- n)) ++ digits
  else
    let e := (n - 1)%Z in
    (if (k =? 1)%Z then digits
     else substring 0 1 digits ++ "." ++ substring 1 (Z.to_nat (k - 1)) digits)
    ++ "e" ++ (if (0 <=? e)%Z then "+" else "-") ++ JS.decimal (Z.to_N (Z.abs e)).

(** Number::toString of a finite double [x > 0]: the fewest digits that
    denote [x].  Seventeen always suffice for a double
    ([digits_of_a_double] below), so the search finds them. *)
Definition positive_toString (x : Q) : string :=
  let n := (floor_log10 x + 1)%Z in
  let (c, scale) :=
    match fewest_digits x n 1 17 with
    | Some found => found
    | None => (Qfloor (x / power 10 (n - 17)), (n - 17)%Z)
    end in
  let written := JS.decimal (Z.to_N c) in
  layout_digits (strip_trailing_zeros written)
                (Z.of_nat (String.length written) + scale).

(** Number::toString(x) of a finite double. *)
Definition Number_toString (x : Q) : string :=
  if Qeq_bool x 0 then "0"
  else if Qle_bool 0 x then positive_toString x
  else "-" ++ positive_toString (- x).


(** *** Values *)

(** A value that [JSON.parse] can return. *)
Local Unset Elimination Schemes.
Inductive value : Type :=
| Null
| Bool (b : bool)
| Number (n : number)
| Text (s : string)
| Array (items : list value)
| Object (members : list (string * value)).
Local Set Elimination Schemes.

(** [Array.isArray(v)]. *)
Definition isArray (v : value) : bool :=
  match v with Array _ => true | _ => false end.

(** Whether every number in the value is finite and not -0. *)
Fixpoint finite (v : value) : bool :=
  match v with
  | Number (Finite _) => true
  | Number _ => false
  | Array items => forallb finite items
  | Object members => forallb (fun m => finite (snd m)) members
  | _ => true
  end.

(** *** Strings *)

Definition quote : ascii := ascii_of_nat 34.
Definition backslash : ascii := ascii_of_nat 92.

Definition hex_digit (n : nat) : ascii :=
  if (n <? 10)%nat then ascii_of_nat (48 + n) else ascii_of_nat (87 + n).

(** QuoteJSONString, one character: the two-character escapes, [\u00xx]
    for the other control characters, the character itself otherwise.
    (The platform writes a lone surrogate as its escape; here its three
    bytes are written as they are.  Both texts read back as the same
    string.) *)
Definition escape_char (c : ascii) : string :=
  let n := nat_of_ascii c in
  if (n =? 8)%nat then "\b"
  else if (n =? 9)%nat then "\t"
  else if (n =? 10)%nat then "\n"
  else if (n =? 12)%nat then "\f"
  else if (n =? 13)%nat then "\r"
  else if (n =? 34)%nat then String backslash (String quote "")
  else if (n =? 92)%nat then "\\"
  else if (n <? 32)%nat
  then "\u00" ++ String (hex_digit (n / 16)) (String (hex_digit (n mod 16)) "")
  else String c "".

Fixpoint escape (s : string) : string :=
  match s with
  | EmptyString => EmptyString
  | String c s' => escape_char c ++ escape s'
  end.

Definition write_string (s : string) : string :=
  String quote (escape s ++ String quote EmptyString).

(** What a string literal holds: a character of the text, or the code
    unit that a [\uXXXX] escape names. *)
Inductive piece : Type :=
| Raw (c : ascii)
| Unit (u : N).

Definition hex_value (c : ascii) : option N :=
  let n := nat_of_ascii c in
  if ((48 <=? n) && (n <=? 57))%nat then Some (N.of_nat (n - 48))
  else if ((97 <=? n) && (n <=? 102))%nat then Some (N.of_nat (n - 87))
  else if ((65 <=? n) && (n <=? 70))%nat then Some (N.of_nat (n - 55))
  else None.

(** The character of a two-character escape. *)
Definition simple_escape (c : ascii) : option ascii :=
  if Ascii.eqb c quote then Some quote
  else if Ascii.eqb c backslash then Some backslash
  else if Ascii.eqb c "/" then Some "/"%char
  else if Ascii.eqb c "b" then Some (ascii_of_nat 8)
  else if Ascii.eqb c "f" then Some (ascii_of_nat 12)
  else if Ascii.eqb c "n" then Some (ascii_of_nat 10)
  else if Ascii.eqb c "r" then Some (ascii_of_nat 13)
  else if Ascii.eqb c "t" then Some (ascii_of_nat 9)
  else None.

(** The body of a string literal, after its opening quote, up to the
    closing one.  A control character is not allowed in it. *)
Fixpoint read_pieces (s : string) : option (list piece * string) :=
  match s with
  | EmptyString => None
  | String c rest =>
      if Ascii.eqb c quote then Some ([], rest)
      else if Ascii.eqb c backslash then
        match rest with
        | EmptyString => None
        | String e rest1 =>
            if Ascii.eqb e "u" then
              match rest1 with
              | String h1 (String h2 (String h3 (String h4 rest2))) =>
                  match hex_value h1, hex_value h2, hex_value h3, hex_value h4 with
                  | Some a, Some b, Some c', Some d =>
                      match read_pieces rest2 with
                      | Some (ps, r) =>
                          Some (Unit (((a * 16 + b) * 16 + c') * 16 + d)%N :: ps, r)
                      | None => None
                      end
                  | _, _, _, _ => None
                  end
              | _ => None
              end
            else
              match simple_escape e with
              | Some ch =>
                  match read_pieces rest1 with
                  | Some (ps, r) => Some (Raw ch :: ps, r)
                  | None => None
                  end
              | None => None
              end
        end
      else if (nat_of_ascii c <? 32)%nat then None
      else
        match read_pieces rest with
        | Some (ps, r) => Some (Raw c :: ps, r)
        | None => None
        end
  end.

Definition byte (n : N) : ascii := ascii_of_N n.

(** The UTF-8 bytes of a code point (of a lone surrogate too). *)
Definition utf8 (cp : N) : string :=
  if (cp <? 128)%N then String (byte cp) ""
  else if (cp <? 2048)%N
  then String (byte (192 + cp / 64)) (String (byte (128 + cp mod 64)) "")
  else if (cp <? 65536)%N
  then String (byte (224 + cp / 4096))
         (String (byte (128 + (cp / 64) mod 64))
            (String (byte (128 + cp mod 64)) ""))
  else String (byte (240 + cp / 262144))
         (String (byte (128 + (cp / 4096) mod 64))
            (String (byte (128 + (cp / 64) mod 64))
               (String (byte (128 + cp mod 64)) ""))).

Definition high_surrogate (u : N) : bool := ((55296 <=? u) && (u <=? 56319))%N.
Definition low_surrogate (u : N) : bool := ((56320 <=? u) && (u <=? 57343))%N.

(** The text of the pieces: a high surrogate followed by a low one is
    one code point. *)
Fixpoint assemble (ps : list piece) : string :=
  match ps with
  | [] => EmptyString
  | Raw c :: rest => String c (assemble rest)
  | Unit u :: rest =>
      match rest with
      | Unit l :: rest' =>
          if high_surrogate u && low_surrogate l
          then utf8 (65536 + (u - 55296) * 1024 + (l - 56320)) ++ assemble rest'
          else utf8 u ++ assemble rest
      | _ => utf8 u ++ assemble rest
      end
  end.

(** *** Objects *)

(** The array index that a property key is: the canonical numeral of an
    integer below [2^32 - 1]. *)
Definition array_index (k : string) : option Z :=
  match k with
  | EmptyString => None
  | String c rest =>
      if forallb is_digit (list_ascii_of_string k)
         && (negb (Ascii.eqb c "0") || String.eqb rest "")
         && (digits_value k <? 4294967295)%Z
      then Some (digits_value k)
      else None
  end.

(** Where a new property goes: an array index among the array indices,
    in ascending order, before every other key; any other key last. *)
Fixpoint insert_index (i : Z) (k : string) (v : value)
    (members : list (string * value)) : list (string * value) :=
  match members with
  | [] => [(k, v)]
  | (k', v') :: rest =>
      match array_index k' with
      | Some j => if (i <? j)%Z then (k, v) :: members
                  else (k', v') :: insert_index i k v rest
      | None => (k, v) :: members
      end
  end.

(** CreateDataProperty: a key that the object has keeps its place and
    gets the new value. *)
Definition set_member (k : string) (v : value) (members : list (string * value))
  : list (string * value) :=
  if existsb (fun m => String.eqb (fst m) k) members
  then map (fun m => if String.eqb (fst m) k then (k, v) else m) members
  else
    match array_index k with
    | Some i => insert_index i k v members
    | None => (members ++ [(k, v)])%list
    end.

(** The object that the members of an object literal define, in the
    order of the text. *)
Definition define_all (written : list (string * value)) : list (string * value) :=
  fold_left (fun members m => set_member (fst m) (snd m) members) written [].

(** *** [JSON.stringify] *)

Definition write_number (n : number) : string :=
  match n with
  | Finite x => Number_toString x
  | NegativeZero => "0"
  | PositiveInfinity | NegativeInfinity => "null"
  end.

Fixpoint write (L : ReferenceJSON.Layout) (depth : nat) (v : value) : string :=
  match v with
  | Null => "null"
  | Bool true => "true"
  | Bool false => "false"
  | Number n => write_number n
  | Text s => write_string s
  | Array items =>
      match items with
      | [] => "[]"
      | _ =>
          "[" ++ ReferenceJSON.line L (S depth)
          ++ String.concat ("," ++ ReferenceJSON.line L (S depth))
               (map (write L (S depth)) items)
          ++ ReferenceJSON.line L depth ++ "]"
      end
  | Object members =>
      match members with
      | [] => "{}"
      | _ =>
          "{" ++ ReferenceJSON.line L (S depth)
          ++ String.concat ("," ++ ReferenceJSON.line L (S depth))
               (map (fun m => write_string (fst m) ++ ":" ++ ReferenceJSON.gap L
                              ++ write L (S depth) (snd m)) members)
          ++ ReferenceJSON.line L depth ++ "}"
      end
  end.

(** [JSON.stringify(v)] and [JSON.stringify(v, null, 2)]. *)
Definition stringify (v : value) : string := write ReferenceJSON.compact 0 v.
Definition stringify_indented (v : value) : string := write ReferenceJSON.indented 0 v.

(** *** [JSON.parse] *)

(** The white space of the JSON grammar: space, tab, line feed, carriage
    return. *)
Definition is_ws (c : ascii) : bool :=
  let n := nat_of_ascii c in
  (n =? 32)%nat || (n =? 9)%nat || (n =? 10)%nat || (n =? 13)%nat.

Fixpoint skip_ws (s : string) : string :=
  match s with
  | EmptyString => EmptyString
  | String c s' => if is_ws c then skip_ws s' else s
  end.

(** The characters numerals are made of. *)
Definition numeral_char (c : ascii) : bool :=
  is_digit c || Ascii.eqb c "-" || Ascii.eqb c "+" || Ascii.eqb c "."
  || Ascii.eqb c "e" || Ascii.eqb c "E".

Fixpoint read_value (fuel : nat) (s : string) : option (value * string) :=
  match fuel with
  | O => None
  | S fuel' =>
      match skip_ws s with
      | EmptyString => None
      | String c rest =>
          if Ascii.eqb c quote then
            match read_pieces rest with
            | Some (ps, r) => Some (Text (assemble ps), r)
            | None => None
            end
          else if Ascii.eqb c "[" then
            match skip_ws rest with
            | String c' rest' =>
                if Ascii.eqb c' "]" then Some (Array [], rest')
                else
                  match read_items fuel' rest with
                  | Some (items, r) => Some (Array items, r)
                  | None => None
                  end
            | EmptyString => None
            end
          else if Ascii.eqb c "{" then
            match skip_ws rest with
            | String c' rest' =>
                if Ascii.eqb c' "}" then Some (Object [], rest')
                else
                  match read_members fuel' rest with
                  | Some (written, r) => Some (Object (define_all written), r)
                  | None => None
                  end
            | EmptyString => None
            end
          else if Ascii.eqb c "n" then
            match ReferenceJSON.strip "ull" rest with
            | Some r => Some (Null, r)
            | None => None
            end
          else if Ascii.eqb c "t" then
            match ReferenceJSON.strip "rue" rest with
            | Some r => Some (Bool true, r)
            | None => None
            end
          else if Ascii.eqb c "f" then
            match ReferenceJSON.strip "alse" rest with
            | Some r => Some (Bool false, r)
            | None => None
            end
          else
            let (numeral, r) := span numeral_char (String c rest) in
            match read_numeral numeral with
            | Some n => Some (Number n, r)
            | None => None
            end
      end
  end
with read_items (fuel : nat) (s : string) : option (list value * string) :=
  match fuel with
  | O => None
  | S fuel' =>
      match read_value fuel' s with
      | None => None
      | Some (v, rest) =>
          match skip_ws rest with
          | String c rest' =>
              if Ascii.eqb c "," then
                match read_items fuel' rest' with
                | Some (vs, r) => Some (v :: vs, r)
                | None => None
                end
              else if Ascii.eqb c "]" then Some ([v], rest')
              else None
          | EmptyString => None
          end
      end
  end
with read_members (fuel : nat) (s : string)
  : option (list (string * value) * string) :=
  match fuel with
  | O => None
  | S fuel' =>
      match skip_ws s with
      | EmptyString => None
      | String c rest =>
          if Ascii.eqb c quote then
            match read_pieces rest with
            | None => None
            | Some (key, rest1) =>
                match skip_ws rest1 with
                | EmptyString => None
                | String c1 rest2 =>
                    if Ascii.eqb c1 ":" then
                      match read_value fuel' rest2 with
                      | None => None
                      | Some (v, rest3) =>
                          match skip_ws rest3 with
                          | EmptyString => None
                          | String c3 rest4 =>
                              if Ascii.eqb c3 "," then
                                match read_members fuel' rest4 with
                                | Some (ms, r) => Some ((assemble key, v) :: ms, r)
                                | None => None
                                end
                              else if Ascii.eqb c3 "}"
                              then Some ([(assemble key, v)], rest4)
                              else None
                          end
                      end
                    else None
                end
            end
          else None
      end
  end.

(** [JSON.parse(text)]; a [SyntaxError] is a [Throw].  The fuel is the
    length of the text, which is never too little ([fuel_is_enough]
    below). *)
Definition parse (text : string) : JS.Completion value :=
  match read_value (String.length text) text with
  | Some (v, rest) =>
      match skip_ws rest with
      | EmptyString => JS.Return v
      | _ => JS.Throw (JS.ErrorObject "Unexpected non-whitespace character after JSON")
      end
  | None => JS.Throw (JS.ErrorObject "Unexpected token in JSON")
  end.

End Platform.

(** ** lib/video-api: the history store on the platform's [JSON] *)

(** The storage helpers of [lib/video-api] as in [VideoApi], with the
    values and the [JSON] of the platform in place of the interface
    [JSON]. *)

Module PlatformStore.

Import Platform.

(** [[...v.slice(0, 49)]]: an array keeps its first 49 items, a string
    its first 49 characters (spread one by one); any other parsed value
    has no [slice] method and the call throws a [TypeError]. *)
Definition spread_slice_0_49 (v : value) : JS.Completion (list value) :=
  match v with
  | Array items => JS.Return (firstn 49 items)
  | Text s =>
      JS.Return (map (fun c => Text (String c EmptyString))
                     (list_ascii_of_string (substring 0 49 s)))
  | _ => JS.Throw (JS.ErrorObject "history.slice is not a function")
  end.

Definition getGenerationHistory (st : VideoApi.Storage) : value :=
  let attempt : JS.Completion value :=
    match st with
    | Some history =>
        if JS.truthy history then parse history else JS.Return (Array [])
    | None => JS.Return (Array [])
    end in
  match attempt with
  | JS.Return v => v
  | JS.Throw _ => Array []
  end.

(** [quota_ok] tells whether [localStorage.setItem] succeeds; when it
    throws (quota exceeded) the [catch] logs and the item stays as it was. *)
Definition saveGenerationToHistory (generation : value) (st : VideoApi.Storage)
    (quota_ok : bool) : VideoApi.Storage :=
  let history := getGenerationHistory st in
  match spread_slice_0_49 history with
  | JS.Throw _ => st
  | JS.Return kept =>
      let updatedHistory := Array (generation :: kept) in
      if quota_ok then Some (stringify updatedHistory) else st
  end.

Definition exportGenerationHistory (st : VideoApi.Storage) : string :=
  let history := getGenerationHistory st in
  stringify_indented history.

(** The returned boolean and the item afterwards. *)
Definition importGenerationHistory (data : string) (st : VideoApi.Storage)
    (quota_ok : bool) : bool * VideoApi.Storage :=
  match parse data with
  | JS.Return parsed =>
      if isArray parsed
      then if quota_ok then (true, Some data) else (false, st)
      else (false, st)
  | JS.Throw _ => (false, st)
  end.

(** A record as the hook stores it: the dates are written by
    [Date.prototype.toJSON] as strings. *)
Definition sunset_record : value :=
  Object [("id", Text "gen_1700000000000_k3j9x2a1b");
          ("prompt", Text "A sunset over the sea");
          ("config", Object [("duration", Number (Finite 5));
                             ("aspectRatio", Text "16:9");
                             ("style", Text "cinematic");
                             ("quality", Text "high")]);
          ("status", Text "completed");
          ("progress", Number (Finite 100));
          ("videoUrl", Text "https://cdn.example.com/v/1.mp4");
          ("createdAt", Text "2023-11-14T22:13:20.000Z");
          ("completedAt", Text "2023-11-14T22:14:05.250Z");
          ("estimatedTime", Number (Finite (75 # 2)))].

End PlatformStore.

(** ** The round trip of the platform's JSON *)

Module PlatformFacts.

Import Platform.

Ltac each_character c :=
  destruct c as [[] [] [] [] [] [] [] []]; try discriminate; try reflexivity;
  repeat split; try reflexivity; try discriminate.

(** *** White space *)

Fixpoint blank (s : string) : bool :=
  match s with
  | EmptyString => true
  | String c r => is_ws c && blank r
  end.

Lemma skip_ws_blank (ws s : string) :
  blank ws = true -> skip_ws (ws ++ s) = skip_ws s.
Proof.
  induction ws as [| c ws IH]; cbn [blank append]; intro H; [reflexivity |].
  apply andb_true_iff in H. destruct H as [Hc Hws].
  cbn [skip_ws]. rewrite Hc. now apply IH.
Qed.

Lemma skip_ws_solid (c : ascii) (r : string) :
  is_ws c = false -> skip_ws (String c r) = String c r.
Proof. intro H. cbn [skip_ws]. now rewrite H. Qed.

Definition layout_ok (L : ReferenceJSON.Layout) : Prop :=
  (forall d, blank (ReferenceJSON.line L d) = true) /\ blank (ReferenceJSON.gap L) = true.

Lemma spaces_are_white (n : nat) : blank (ReferenceJSON.spaces n) = true.
Proof. induction n; cbn; [reflexivity | exact IHn]. Qed.

Lemma compact_layout_white : layout_ok ReferenceJSON.compact.
Proof. split; reflexivity. Qed.

Lemma indented_layout_white : layout_ok ReferenceJSON.indented.
Proof. split; [intro d; cbn; apply spaces_are_white | reflexivity]. Qed.

(** *** Strings *)

(** What the reader makes of the escape of one character. *)
Definition piece_of (c : ascii) : piece :=
  let n := nat_of_ascii c in
  if ((n <? 32) && negb ((n =? 8) || (n =? 9) || (n =? 10) || (n =? 12) || (n =? 13)))%nat
  then Unit (N.of_nat n) else Raw c.

Lemma read_escape_char (c : ascii) (tail : string) :
  read_pieces (escape_char c ++ tail)
  = match read_pieces tail with
    | Some (ps, r) => Some (piece_of c :: ps, r)
    | None => None
    end.
Proof. each_character c. Qed.

Lemma assemble_piece_of (c : ascii) (ps : list piece) :
  assemble (piece_of c :: ps) = String c (assemble ps).
Proof.
  destruct c as [[] [] [] [] [] [] [] []]; try reflexivity;
    destruct ps as [| [d | l] ps]; reflexivity.
Qed.

Lemma read_written_string (s rest : string) :
  exists ps, read_pieces (escape s ++ String quote rest) = Some (ps, rest) /\
             assemble ps = s.
Proof.
  induction s as [| c s (ps & Hread & Hs)].
  - exists []. split; reflexivity.
  - exists (piece_of c :: ps). cbn [escape].
    rewrite ReferenceJSON.append_assoc, read_escape_char, Hread.
    split; [reflexivity |]. now rewrite assemble_piece_of, Hs.
Qed.

(** *** Powers *)

Lemma power_Qpower (base k : Z) : (0 < base)%Z -> power base k == inject_Z base ^ k.
Proof.
  intro Hb. unfold power. destruct (Z.leb_spec 0 k) as [Hk | Hk].
  - now apply Zpower_Qpower.
  - replace k with (- (- k))%Z at 2 by lia.
    rewrite Qpower_opp, <- Zpower_Qpower by lia.
    assert (Hp : (0 < base ^ (- k))%Z) by (apply Z.pow_pos_nonneg; lia).
    destruct (base ^ (- k))%Z as [| p | p] eqn:E; try lia.
    reflexivity.
Qed.

Lemma power_positive (base k : Z) : (0 < base)%Z -> 0 < power base k.
Proof.
  intro Hb. rewrite power_Qpower by exact Hb. apply Qpower_0_lt.
  change 0 with (inject_Z 0). now rewrite <- Zlt_Qlt.
Qed.

Lemma power_add (base a b : Z) :
  (0 < base)%Z -> power base (a + b) == power base a * power base b.
Proof.
  intro Hb. rewrite !power_Qpower by exact Hb. apply Qpower_plus.
  intro H. unfold Qeq in H. cbn in H. lia.
Qed.


Lemma power_succ (base a : Z) :
  (0 < base)%Z -> power base (a + 1) == power base a * inject_Z base.
Proof.
  intro Hb. rewrite power_add by exact Hb.
  apply Qmult_comp; [reflexivity |].
  unfold power. change (0 <=? 1)%Z with true. cbv iota. now rewrite Z.pow_1_r.
Qed.

Lemma power_le (base a b : Z) :
  (1 < base)%Z -> (a <= b)%Z -> power base a <= power base b.
Proof.
  intros Hb Hab. rewrite !power_Qpower by lia. apply Qpower_le_compat_l; [exact Hab |].
  change 1 with (inject_Z 1). rewrite <- Zle_Qle. lia.
Qed.

Lemma power_lt (base a b : Z) :
  (1 < base)%Z -> (a < b)%Z -> power base a < power base b.
Proof.
  intros Hb Hab. rewrite !power_Qpower by lia. apply Qpower_lt_compat_l; [exact Hab |].
  change 1 with (inject_Z 1). rewrite <- Zlt_Qlt. lia.
Qed.

Lemma power_lt_inv (base a b : Z) :
  (1 < base)%Z -> power base a < power base b -> (a < b)%Z.
Proof.
  intros Hb H. rewrite !power_Qpower in H by lia.
  apply Qpower_lt_compat_l_inv in H; [exact H |].
  change 1 with (inject_Z 1). rewrite <- Zlt_Qlt. lia.
Qed.

Lemma power_nonneg (base k : Z) :
  (0 <= k)%Z -> power base k = inject_Z (base ^ k).
Proof. intro H. unfold power. now destruct (Z.leb_spec 0 k); [| lia]. Qed.

Lemma Q_as_quotient (q : Q) : q * inject_Z (Zpos (Qden q)) == inject_Z (Qnum q).
Proof.
  destruct q as [n d]. unfold Qeq, Qmult, inject_Z. cbn. lia.
Qed.

(** *** The binary logarithm *)

Lemma floor_log2_spec (q : Q) :
  0 < q -> power 2 (floor_log2 q) <= q /\ q < power 2 (floor_log2 q + 1).
Proof.
  intro Hq. unfold floor_log2.
  set (n := Qnum q). set (d := Zpos (Qden q)).
  assert (Hn : (0 < n)%Z).
  { destruct q as [qn qd]. unfold Qlt in Hq. cbn in Hq. subst n. cbn. lia. }
  assert (Hd : (0 < d)%Z) by (subst d; lia).
  pose proof (Z.log2_spec n Hn) as [Hn1 Hn2].
  pose proof (Z.log2_spec d Hd) as [Hd1 Hd2].
  pose proof (Z.log2_nonneg n) as Hln. pose proof (Z.log2_nonneg d) as Hld.
  pose proof (Q_as_quotient q) as Hquot. fold n d in Hquot.
  set (ln := Z.log2 n) in *. set (ld := Z.log2 d) in *.
  assert (Pn1 : power 2 ln <= inject_Z n).
  { rewrite power_nonneg by exact Hln. now rewrite <- Zle_Qle. }
  assert (Pn2 : inject_Z n < power 2 (ln + 1)).
  { rewrite power_nonneg by lia. rewrite <- Zlt_Qlt. now rewrite <- Z.add_1_r in Hn2. }
  assert (Pd1 : power 2 ld <= inject_Z d).
  { rewrite power_nonneg by exact Hld. now rewrite <- Zle_Qle. }
  assert (Pd2 : inject_Z d < power 2 (ld + 1)).
  { rewrite power_nonneg by lia. rewrite <- Zlt_Qlt. now rewrite <- Z.add_1_r in Hd2. }
  pose proof (power_positive 2 ld eq_refl) as Pld.
  destruct (Qle_bool (power 2 (ln - ld)) q) eqn:E.
  - apply Qle_bool_iff in E. split; [exact E |].
    assert (H : power 2 (ln - ld + 1) * power 2 ld == power 2 (ln + 1)).
    { rewrite <- power_add by reflexivity. now replace (ln - ld + 1 + ld)%Z with (ln + 1)%Z by lia. }
    apply (Qmult_lt_r _ _ (power 2 ld)); [exact Pld |]. rewrite H.
    apply Qle_lt_trans with (q * inject_Z d); [| now rewrite Hquot].
    apply Qmult_le_l; [exact Hq | exact Pd1].
  - assert (E' : q < power 2 (ln - ld)).
    { apply Qnot_le_lt. intro H. apply Qle_bool_iff in H. congruence. }
    split; [| now replace (ln - ld - 1 + 1)%Z with (ln - ld)%Z by lia].
    pose proof (power_positive 2 (ld + 1) eq_refl) as Pld1.
    assert (H : power 2 (ln - ld - 1) * power 2 (ld + 1) == power 2 ln).
    { rewrite <- power_add by reflexivity. now replace (ln - ld - 1 + (ld + 1))%Z with ln by lia. }
    apply (Qmult_le_r _ _ (power 2 (ld + 1))); [exact Pld1 |]. rewrite H.
    apply Qle_trans with (inject_Z n); [exact Pn1 |]. rewrite <- Hquot.
    apply Qlt_le_weak. apply Qmult_lt_l; [exact Hq | exact Pd2].
Qed.

Lemma floor_log2_unique (q : Q) (e : Z) :
  power 2 e <= q -> q < power 2 (e + 1) -> floor_log2 q = e.
Proof.
  intros H1 H2.
  assert (Hq : 0 < q) by (eapply Qlt_le_trans; [apply (power_positive 2 e eq_refl) | exact H1]).
  destruct (floor_log2_spec q Hq) as [H3 H4].
  assert (A : (floor_log2 q < e + 1)%Z).
  { apply (power_lt_inv 2); [lia |]. eapply Qle_lt_trans; eassumption. }
  assert (B : (e < floor_log2 q + 1)%Z).
  { apply (power_lt_inv 2); [lia |]. eapply Qle_lt_trans; eassumption. }
  lia.
Qed.

(** *** Rounding to an integer *)

Lemma round_half_even_near (r : Q) (m : Z) :
  inject_Z m - (1 # 2) < r -> r < inject_Z m + (1 # 2) -> round_half_even r = m.
Proof.
  destruct r as [n d]. unfold Qlt, Qminus, Qplus, Qopp, inject_Z. cbn.
  intros H1 H2. unfold round_half_even. cbn [Qnum Qden].
  pose proof (Z.div_mod n (Zpos d) ltac:(lia)) as Hdiv.
  pose proof (Z.mod_pos_bound n (Zpos d) ltac:(lia)) as Hmod.
  set (below := (n / Zpos d)%Z) in *. set (rest := (n mod Zpos d)%Z) in *.
  assert (A : ((2 * m - 1) * Zpos d < 2 * (Zpos d * below) + 2 * rest)%Z) by lia.
  assert (B : (2 * (Zpos d * below) + 2 * rest < (2 * m + 1) * Zpos d)%Z) by lia.
  destruct (Z.compare_spec (2 * rest) (Zpos d)) as [E | E | E].
  - exfalso.
    assert (A' : ((2 * m - 1) * Zpos d < (2 * below + 1) * Zpos d)%Z) by lia.
    assert (B' : ((2 * below + 1) * Zpos d < (2 * m + 1) * Zpos d)%Z) by lia.
    apply Z.mul_lt_mono_pos_r in A', B'; lia.
  - assert (A' : ((2 * m - 1) * Zpos d < (2 * below + 1) * Zpos d)%Z) by lia.
    assert (B' : ((2 * below) * Zpos d < (2 * m + 1) * Zpos d)%Z) by lia.
    apply Z.mul_lt_mono_pos_r in A', B'; lia.
  - assert (A' : ((2 * m - 1) * Zpos d < (2 * below + 2) * Zpos d)%Z) by lia.
    assert (B' : ((2 * below + 1) * Zpos d < (2 * m + 1) * Zpos d)%Z) by lia.
    apply Z.mul_lt_mono_pos_r in A', B'; lia.
Qed.

Lemma round_half_even_between (r : Q) (a b : Z) :
  inject_Z a <= r -> r <= inject_Z b ->
  (a <= round_half_even r <= b)%Z.
Proof.
  destruct r as [n d]. unfold Qle, inject_Z. cbn.
  intros H1 H2. unfold round_half_even. cbn [Qnum Qden].
  pose proof (Z.div_mod n (Zpos d) ltac:(lia)) as Hdiv.
  pose proof (Z.mod_pos_bound n (Zpos d) ltac:(lia)) as Hmod.
  set (below := (n / Zpos d)%Z) in *. set (rest := (n mod Zpos d)%Z) in *.
  assert (A : (a * Zpos d < (below + 1) * Zpos d)%Z) by lia.
  apply Z.mul_lt_mono_pos_r in A; [| lia].
  assert (B : (below * Zpos d <= b * Zpos d)%Z) by lia.
  apply Z.mul_le_mono_pos_r in B; [| lia].
  assert (C : (0 < rest -> below + 1 <= b)%Z).
  { intro Hr. assert (C : (below * Zpos d < b * Zpos d)%Z) by lia.
    apply Z.mul_lt_mono_pos_r in C; lia. }
  destruct (Z.compare_spec (2 * rest) (Zpos d)) as [E | E | E];
    [destruct (Z.even below) |..]; lia.
Qed.

(** *** The grid of binary64 *)

(** [x] is the double [m * 2^g]: at most 53 bits, exactly 53 above the
    lowest grid, below [2^1024]. *)
Definition on_grid (x : Q) (m g : Z) : Prop :=
  x == inject_Z m * power 2 g /\
  (0 < m < 9007199254740992)%Z /\
  (-1074 <= g <= 971)%Z /\
  (g = (-1074)%Z \/ 4503599627370496 <= m)%Z.

(** Half a unit of the seventeenth digit. *)
Definition half_digit : Q := 1 # 20000000000000000.

Lemma grid_bounds (x : Q) (m g : Z) :
  on_grid x m g ->
  let h := power 2 g in
  0 < h /\ h <= x /\ x <= 9007199254740991 * h /\
  (g <> (-1074)%Z -> 4503599627370496 * h <= x).
Proof.
  intros (Hx & Hm & Hg & Hn) h.
  assert (Hh : 0 < h) by (apply power_positive; reflexivity).
  split; [exact Hh |]. rewrite Hx. fold h.
  split; [| split].
  - setoid_replace h with (1 * h) at 1 by ring.
    apply Qmult_le_compat_r; [| lra].
    change 1 with (inject_Z 1). rewrite <- Zle_Qle. lia.
  - apply Qmult_le_compat_r; [| lra].
    change 9007199254740991 with (inject_Z 9007199254740991). rewrite <- Zle_Qle. lia.
  - intro Hne. apply Qmult_le_compat_r; [| lra].
    change 4503599627370496 with (inject_Z 4503599627370496). rewrite <- Zle_Qle. lia.
Qed.

Lemma power_2_shift (g k : Z) : power 2 (g + k) == power 2 k * power 2 g.
Proof. rewrite power_add by reflexivity. ring. Qed.

(** A real number within half a unit of the seventeenth digit of a
    double rounds to it. *)
Lemma round_magnitude_near (x q : Q) (m g : Z) :
  on_grid x m g ->
  x - half_digit * x <= q -> q <= x + half_digit * x ->
  round_magnitude q = Some (Qred x).
Proof.
  intros Hgrid Hlo Hhi.
  pose proof (grid_bounds x m g Hgrid) as (Hh & Hx1 & Hx2 & Hx3).
  destruct Hgrid as (Hx & Hm & Hg & Hn).
  set (h := power 2 g) in *.
  unfold half_digit in Hlo, Hhi.
  assert (Hq : 0 < q) by lra.
  destruct (floor_log2_spec q Hq) as [He1 He2].
  set (e := floor_log2 q) in *.
  assert (P53 : power 2 (g + 53) == 9007199254740992 * h) by (rewrite power_2_shift; reflexivity).
  assert (P52 : power 2 (g + 52) == 4503599627370496 * h) by (rewrite power_2_shift; reflexivity).
  assert (P51 : power 2 (g + 51) == 2251799813685248 * h) by (rewrite power_2_shift; reflexivity).
  assert (Hup : (e < g + 53)%Z).
  { apply (power_lt_inv 2); [lia |]. eapply Qle_lt_trans; [exact He1 |]. rewrite P53. lra. }
  assert (Hsmall : x < power 2 1024).
  { apply Qlt_le_trans with (power 2 (g + 53)); [rewrite P53; lra |].
    apply power_le; lia. }
  assert (Hdone : forall M g',
             Z.max (e - 52) (-1074) = g' ->
             inject_Z M * power 2 g' == x ->
             inject_Z M - (1 # 2) < q / power 2 g' ->
             q / power 2 g' < inject_Z M + (1 # 2) ->
             round_magnitude q = Some (Qred x)).
  { intros M g' Hgrid' Hval H1 H2. unfold round_magnitude. fold e. rewrite Hgrid'.
    rewrite (round_half_even_near _ M H1 H2).
    rewrite (Qred_complete _ x Hval).
    destruct (Qle_bool (power 2 1024) (Qred x)) eqn:E; [| reflexivity].
    apply Qle_bool_iff in E. rewrite Qred_correct in E. lra. }
  assert (Hsame : Z.max (e - 52) (-1074) = g -> round_magnitude q = Some (Qred x)).
  { intro Hgrid'. apply (Hdone m g Hgrid'); fold h.
    - now rewrite Hx.
    - apply Qlt_shift_div_l; [exact Hh |]. 
      setoid_replace ((inject_Z m - (1 # 2)) * h) with (inject_Z m * h - (1 # 2) * h) by ring.
      rewrite <- Hx. lra.
    - apply Qlt_shift_div_r; [exact Hh |].
      setoid_replace ((inject_Z m + (1 # 2)) * h) with (inject_Z m * h + (1 # 2) * h) by ring.
      rewrite <- Hx. lra. }
  destruct (Z.eq_dec g (-1074)) as [Hsub | Hnormal].
  - apply Hsame. lia.
  - specialize (Hx3 Hnormal).
    assert (Hdown : (g + 51 < e + 1)%Z).
    { apply (power_lt_inv 2); [lia |]. eapply Qlt_trans; [| exact He2]. rewrite P51. lra. }
    destruct (Z.eq_dec e (g + 52)) as [Ee | Ee]; [apply Hsame; lia |].
    assert (Ee' : e = (g + 51)%Z) by lia.
    rewrite Ee' in He2. replace (g + 51 + 1)%Z with (g + 52)%Z in He2 by lia.
    rewrite P52 in He2.
    assert (Hm52 : m = 4503599627370496%Z).
    { assert (Hlt : inject_Z m * h < 4503599627370497 * h) by (rewrite <- Hx; lra).
      apply Qmult_lt_r in Hlt; [| exact Hh].
      change 4503599627370497 with (inject_Z 4503599627370497) in Hlt.
      rewrite <- Zlt_Qlt in Hlt. lia. }
    assert (Hx' : x == 4503599627370496 * h) by (rewrite Hx, Hm52; reflexivity).
    assert (Ph : power 2 (g - 1) == (1 # 2) * h).
    { replace (g - 1)%Z with (g + -1)%Z by lia. rewrite power_2_shift. reflexivity. }
    assert (Hh' : 0 < power 2 (g - 1)) by (apply power_positive; reflexivity).
    apply (Hdone 9007199254740992%Z (g - 1)%Z); [lia | | |].
    + rewrite Ph, Hx'. 
      change (inject_Z 9007199254740992) with 9007199254740992. ring.
    + apply Qlt_shift_div_l; [exact Hh' |]. rewrite Ph.
      change (inject_Z 9007199254740992) with 9007199254740992. lra.
    + apply Qlt_shift_div_r; [exact Hh' |]. rewrite Ph.
      change (inject_Z 9007199254740992) with 9007199254740992. lra.
Qed.

Lemma Qred_idempotent (q : Q) : Qred (Qred q) = Qred q.
Proof. apply Qred_complete, Qred_correct. Qed.

Lemma on_grid_eq (x y : Q) (m g : Z) : x == y -> on_grid x m g -> on_grid y m g.
Proof. intros E (Hx & H). split; [now rewrite <- E | exact H]. Qed.

Lemma Some_inj {A} (a b : A) : Some a = Some b -> a = b.
Proof. now intros [= ->]. Qed.

(** What [round_magnitude] returns is a double, or zero. *)
Lemma round_magnitude_on_grid (q r : Q) :
  0 < q -> round_magnitude q = Some r ->
  Qred r = r /\ (r == 0 \/ exists m g, on_grid r m g).
Proof.
  intros Hq. unfold round_magnitude.
  destruct (floor_log2_spec q Hq) as [He1 He2].
  set (e := floor_log2 q) in *.
  set (g := Z.max (e - 52) (-1074)).
  set (h := power 2 g).
  set (M := round_half_even (q / h)).
  destruct (Qle_bool (power 2 1024) (Qred (inject_Z M * h))) eqn:E; [discriminate |].
  intro H. apply Some_inj in H. rewrite <- H. clear H r.
  split; [apply Qred_idempotent |].
  assert (Hr : Qred (inject_Z M * h) < power 2 1024).
  { apply Qnot_le_lt. intro H. apply Qle_bool_iff in H. congruence. }
  rewrite Qred_correct in Hr.
  assert (Hy : inject_Z M * h == 0 \/ exists m g', on_grid (inject_Z M * h) m g').
  2:{ destruct Hy as [Hy | (m & g' & Hy)]; [left; now rewrite Qred_correct |].
      right. exists m, g'. apply (on_grid_eq (inject_Z M * h)); [| exact Hy].
      symmetry. apply Qred_correct. }
  assert (Hh : 0 < h) by (apply power_positive; reflexivity).
  assert (P53 : power 2 (g + 53) == 9007199254740992 * h) by (rewrite power_2_shift; reflexivity).
  assert (P52 : power 2 (g + 52) == 4503599627370496 * h) by (rewrite power_2_shift; reflexivity).
  destruct (Z.max_spec (e - 52) (-1074)) as [[Hlt Hmax] | [Hle Hmax]]; fold g in Hmax.
  - (* the lowest grid *)
    assert (Hb : (0 <= M <= 4503599627370496)%Z).
    { apply round_half_even_between.
      - apply Qle_shift_div_l; [exact Hh |]. change (inject_Z 0) with 0. lra.
      - apply Qle_shift_div_r; [exact Hh |].
        change (inject_Z 4503599627370496) with 4503599627370496. rewrite <- P52.
        apply Qlt_le_weak. eapply Qlt_le_trans; [exact He2 |]. apply power_le; lia. }
    destruct (Z.eq_dec M 0) as [-> | Hne].
    + left. change (inject_Z 0) with 0. ring.
    + right. exists M, g. split; [reflexivity |]. repeat split; try lia.
  - (* 53 bits *)
    assert (Hg : g = (e - 52)%Z) by lia.
    assert (Hb : (4503599627370496 <= M <= 9007199254740992)%Z).
    { apply round_half_even_between.
      - apply Qle_shift_div_l; [exact Hh |].
        change (inject_Z 4503599627370496) with 4503599627370496. rewrite <- P52.
        now replace (g + 52)%Z with e by lia.
      - apply Qle_shift_div_r; [exact Hh |].
        change (inject_Z 9007199254740992) with 9007199254740992. rewrite <- P53.
        apply Qlt_le_weak. now replace (g + 53)%Z with (e + 1)%Z by lia. }
    assert (Hlow : 4503599627370496 * h <= inject_Z M * h).
    { apply Qmult_le_compat_r; [| lra].
      change 4503599627370496 with (inject_Z 4503599627370496). rewrite <- Zle_Qle. lia. }
    right. destruct (Z.eq_dec M 9007199254740992) as [EM | EM].
    + exists 4503599627370496%Z, (g + 1)%Z.
      assert (Hg971 : (g + 53 < 1024)%Z).
      { apply (power_lt_inv 2); [lia |]. rewrite P53. rewrite EM in Hr. exact Hr. }
      split; [| repeat split; try lia].
      rewrite EM. rewrite power_succ by reflexivity.
      change (inject_Z 9007199254740992) with 9007199254740992.
      change (inject_Z 4503599627370496) with 4503599627370496.
      change (inject_Z 2) with 2. fold h. lra.
    + exists M, g.
      assert (Hg971 : (g + 52 < 1024)%Z).
      { apply (power_lt_inv 2); [lia |]. rewrite P52. lra. }
      split; [reflexivity |]. repeat split; try lia.
Qed.

(** *** The Number value of a real number *)

Lemma number_of_real_eq (negative : bool) (q q' : Q) :
  q == q' -> number_of_real negative q = number_of_real negative q'.
Proof. intro E. unfold number_of_real. now rewrite (Qred_complete q q' E). Qed.

Lemma number_of_real_near (x q : Q) (m g : Z) :
  on_grid x m g ->
  x - half_digit * x <= q -> q <= x + half_digit * x ->
  number_of_real false q = Finite (Qred x) /\
  number_of_real true q = Finite (Qred (- x)).
Proof.
  intros Hgrid Hlo Hhi.
  pose proof (grid_bounds x m g Hgrid) as (Hh & Hx1 & _).
  unfold half_digit in Hlo, Hhi.
  assert (Hx : 0 < x) by lra.
  assert (Hq : 0 < q) by lra.
  unfold number_of_real. cbv zeta.
  assert (E0 : Qeq_bool (Qred q) 0 = false).
  { destruct (Qeq_bool (Qred q) 0) eqn:E; [| reflexivity].
    apply Qeq_bool_iff in E. rewrite Qred_correct in E. lra. }
  rewrite E0.
  rewrite (round_magnitude_near x (Qred q) m g Hgrid)
    by (rewrite Qred_correct; assumption).
  assert (E1 : Qeq_bool (Qred x) 0 = false).
  { destruct (Qeq_bool (Qred x) 0) eqn:E; [| reflexivity].
    apply Qeq_bool_iff in E. rewrite Qred_correct in E. lra. }
  rewrite E1. split; [reflexivity |].
  f_equal. rewrite Qred_opp, Qred_idempotent. now rewrite Qred_opp.
Qed.

(** The negative of what a positive real number gives. *)
Lemma number_of_real_negative (q y : Q) :
  number_of_real false q = Finite y -> ~ y == 0 ->
  number_of_real true q = Finite (Qred (- y)).
Proof.
  unfold number_of_real. cbv zeta.
  destruct (Qeq_bool (Qred q) 0).
  { intros H Hy. injection H as <-. now elim Hy. }
  destruct (round_magnitude (Qred q)) as [r |]; [| discriminate].
  destruct (Qeq_bool r 0).
  { intros H Hy. injection H as <-. now elim Hy. }
  intros H _. now injection H as <-.
Qed.

(** *** Doubles *)

Definition same (y x : Q) : bool :=
  (Qnum y =? Qnum x)%Z && (Qden y =? Qden x)%positive.

Lemma same_eq (y x : Q) : same y x = true -> y = x.
Proof.
  unfold same. intro H. apply andb_true_iff in H. destruct H as [Hn Hd].
  apply Z.eqb_eq in Hn. apply Pos.eqb_eq in Hd.
  destruct x, y. cbn in *. now subst.
Qed.

Lemma same_refl (x : Q) : same x x = true.
Proof. unfold same. now rewrite Z.eqb_refl, Pos.eqb_refl. Qed.

(** A finite double other than -0: a rational in lowest terms that
    rounding leaves as it is. *)
Definition is_double (x : Q) : bool :=
  match number_of_real (negb (Qle_bool 0 x)) (Qabs x) with
  | Finite y => same y x
  | _ => false
  end.

Lemma double_cases (x : Q) :
  is_double x = true ->
  x = 0 \/
  (0 < x /\ Qred x = x /\ exists m g, on_grid x m g) \/
  (x < 0 /\ Qred x = x /\ exists m g, on_grid (- x) m g).
Proof.
  unfold is_double, number_of_real. cbv zeta.
  destruct (Qle_bool 0 x) eqn:Sign; cbn [negb].
  - apply Qle_bool_iff in Sign.
    assert (Habs : Qabs x == x) by (now apply Qabs_pos).
    destruct (Qeq_bool (Qred (Qabs x)) 0) eqn:E0.
    { intro H. apply same_eq in H. now left. }
    apply Qeq_bool_neq in E0. rewrite Qred_correct, Habs in E0.
    assert (Hx : 0 < x) by (destruct (Qlt_le_dec 0 x) as [H | H]; [exact H |];
                            exfalso; apply E0; lra).
    destruct (round_magnitude (Qred (Qabs x))) as [r |] eqn:R; [| discriminate].
    destruct (Qeq_bool r 0) eqn:E1.
    { intro H. apply same_eq in H. now left. }
    intro H. apply same_eq in H. subst r. right. left.
    apply Qeq_bool_neq in E1.
    apply round_magnitude_on_grid in R; [| rewrite Qred_correct, Habs; exact Hx].
    destruct R as [Hred [Hzero | Hgrid]]; [contradiction |].
    now repeat split.
  - assert (Hx : x < 0).
    { apply Qnot_le_lt. intro H. apply Qle_bool_iff in H. congruence. }
    assert (Habs : Qabs x == - x) by (apply Qabs_neg; lra).
    destruct (Qeq_bool (Qred (Qabs x)) 0) eqn:E0; [discriminate |].
    destruct (round_magnitude (Qred (Qabs x))) as [r |] eqn:R; [| discriminate].
    destruct (Qeq_bool r 0) eqn:E1; [discriminate |].
    intro H. apply same_eq in H. right. right.
    apply Qeq_bool_neq in E1.
    apply round_magnitude_on_grid in R; [| rewrite Qred_correct, Habs; lra].
    destruct R as [Hred [Hzero | (m & g & Hgrid)]]; [contradiction |].
    split; [exact Hx |]. split; [rewrite <- H; apply Qred_idempotent |].
    exists m, g. apply (on_grid_eq r); [| exact Hgrid].
    rewrite <- H, Qred_correct. ring.
Qed.

(** *** The decimal logarithm *)

(** The estimate of [floor_log10] is at most one above and at most one
    below: checked on every binary exponent of a double. *)
Definition estimate_ok (e : Z) : bool :=
  Qle_bool (power 10 (e * 30103 / 100000 - 1)) (power 2 e)
  && Qle_bool (power 2 (e + 1)) (power 10 (e * 30103 / 100000 + 2)).

Lemma estimate_ok_all (e : Z) : (-1074 <= e <= 1023)%Z -> estimate_ok e = true.
Proof.
  intro He.
  assert (H : forallb estimate_ok (map (fun n => (Z.of_nat n - 1074)%Z) (seq 0 2098)) = true)
    by (vm_compute; reflexivity).
  rewrite forallb_forall in H. apply H.
  apply in_map_iff. exists (Z.to_nat (e + 1074)). split; [lia |].
  apply in_seq. lia.
Qed.

Lemma grid_exponent (x : Q) (m g : Z) :
  on_grid x m g -> (-1074 <= floor_log2 x <= 1023)%Z.
Proof.
  intro Hgrid. pose proof (grid_bounds x m g Hgrid) as (Hh & Hx1 & Hx2 & _).
  destruct Hgrid as (Hx & Hm & Hg & Hn).
  assert (Hpos : 0 < x) by lra.
  destruct (floor_log2_spec x Hpos) as [He1 He2].
  assert (P53 : power 2 (g + 53) == 9007199254740992 * power 2 g)
    by (rewrite power_2_shift; reflexivity).
  split.
  - assert (A : (g < floor_log2 x + 1)%Z).
    { apply (power_lt_inv 2); [lia |]. eapply Qle_lt_trans; [exact Hx1 | exact He2]. }
    lia.
  - assert (A : (floor_log2 x < g + 53)%Z).
    { apply (power_lt_inv 2); [lia |]. eapply Qle_lt_trans; [exact He1 |].
      rewrite P53. lra. }
    lia.
Qed.

(** [floor_log10] is the decimal exponent of a double. *)
Lemma floor_log10_spec (x : Q) (m g : Z) :
  on_grid x m g ->
  power 10 (floor_log10 x) <= x /\ x < power 10 (floor_log10 x + 1).
Proof.
  intro Hgrid. pose proof (grid_exponent x m g Hgrid) as He.
  pose proof (grid_bounds x m g Hgrid) as (Hh & Hx1 & _).
  assert (Hpos : 0 < x) by lra.
  destruct (floor_log2_spec x Hpos) as [He1 He2].
  pose proof (estimate_ok_all _ He) as Hest. unfold estimate_ok in Hest.
  apply andb_true_iff in Hest. destruct Hest as [Hlow Hhigh].
  apply Qle_bool_iff in Hlow. apply Qle_bool_iff in Hhigh.
  assert (Hnot : forall k, Qle_bool (power 10 k) x = false -> x < power 10 k).
  { intros k E. apply Qnot_le_lt. intro H. apply Qle_bool_iff in H. congruence. }
  unfold floor_log10.
  set (g0 := (floor_log2 x * 30103 / 100000)%Z) in *.
  destruct (Qle_bool (power 10 g0) x) eqn:E1.
  - destruct (Qle_bool (power 10 (g0 + 1)) x) eqn:E2.
    + split; [now apply Qle_bool_iff |].
      replace (g0 + 1 + 1)%Z with (g0 + 2)%Z by lia.
      eapply Qlt_le_trans; eassumption.
    + split; [now apply Qle_bool_iff | now apply Hnot].
  - replace (g0 - 1 + 1)%Z with g0 by lia. rewrite E1.
    replace (g0 - 1 + 1)%Z with g0 by lia.
    split; [eapply Qle_trans; eassumption | now apply Hnot].
Qed.

Lemma floor_log10_below (x : Q) (m g : Z) :
  on_grid x m g -> power 10 (floor_log10 x) <= x.
Proof. intro H. apply (floor_log10_spec x m g H). Qed.

(** *** The digits of a double *)

Lemma Qeq_bool_Qred (x : Q) : Qeq_bool (Qred x) x = true.
Proof. apply Qeq_bool_iff, Qred_correct. Qed.

Lemma denotes_near (x : Q) (m g c s : Z) :
  on_grid x m g ->
  x - half_digit * x <= inject_Z c * power 10 s ->
  inject_Z c * power 10 s <= x + half_digit * x ->
  denotes x c s = true.
Proof.
  intros Hgrid H1 H2. unfold denotes.
  destruct (number_of_real_near x _ m g Hgrid H1 H2) as [-> _].
  apply Qeq_bool_Qred.
Qed.

Lemma Qfloor_bounds (t : Q) : inject_Z (Qfloor t) <= t /\ t < inject_Z (Qfloor t) + 1.
Proof.
  split; [apply Qfloor_le |].
  pose proof (Qlt_floor t) as H. rewrite inject_Z_plus in H. exact H.
Qed.

(** Seventeen digits denote any double. *)
Lemma candidate_of_17_digits (x : Q) (m g : Z) :
  on_grid x m g ->
  candidate x (floor_log10 x + 1) 17 <> None.
Proof.
  intro Hgrid.
  pose proof (floor_log10_below x m g Hgrid) as Hlog.
  pose proof (grid_bounds x m g Hgrid) as (Hh & Hx1 & _).
  assert (Hpos : 0 < x) by lra.
  unfold candidate.
  set (s := (floor_log10 x + 1 - 17)%Z).
  set (u := power 10 s).
  assert (Hu : 0 < u) by (apply power_positive; reflexivity).
  assert (P16 : power 10 (floor_log10 x) == 10000000000000000 * u).
  { replace (floor_log10 x) with (s + 16)%Z by (subst s; lia).
    rewrite power_add by reflexivity. fold u. 
    change (power 10 16) with 10000000000000000. ring. }
  rewrite P16 in Hlog.
  destruct (Qfloor_bounds (x / u)) as [Hb1 Hb2].
  set (below := Qfloor (x / u)) in *.
  assert (B1 : inject_Z below * u <= x).
  { apply (Qmult_le_r _ _ u Hu) in Hb1.
    setoid_replace (x / u * u) with x in Hb1 by (field; lra). exact Hb1. }
  assert (B2 : x < (inject_Z below + 1) * u).
  { apply (Qmult_lt_r _ _ u Hu) in Hb2.
    setoid_replace (x / u * u) with x in Hb2 by (field; lra). exact Hb2. }
  destruct (Qlt_le_dec (x - inject_Z below * u) ((1 # 2) * u)) as [Hnear | Hfar].
  - assert (D : denotes x below s = true).
    { apply (denotes_near x m g); [exact Hgrid | |]; fold u; unfold half_digit; lra. }
    rewrite D. destruct (denotes x (below + 1) s); [destruct (Qle_bool _ _) |]; discriminate.
  - assert (D : denotes x (below + 1) s = true).
    { apply (denotes_near x m g); [exact Hgrid | |]; fold u; rewrite inject_Z_plus;
        change (inject_Z 1) with 1; unfold half_digit; lra. }
    rewrite D. destruct (denotes x below s); [destruct (Qle_bool _ _) |]; discriminate.
Qed.

Lemma denotes_positive (x : Q) (c s : Z) :
  0 < x -> (0 <= c)%Z -> denotes x c s = true -> (0 < c)%Z.
Proof.
  intros Hx Hc H. destruct (Z.eq_dec c 0) as [-> | Hne]; [| lia].
  exfalso. unfold denotes in H.
  rewrite (number_of_real_eq false _ 0) in H by (change (inject_Z 0) with 0; ring).
  change (number_of_real false 0) with (Finite 0) in H.
  apply Qeq_bool_iff in H. lra.
Qed.

Lemma candidate_sound (x : Q) (n k c s : Z) :
  0 < x -> candidate x n k = Some (c, s) -> denotes x c s = true /\ (0 < c)%Z.
Proof.
  intros Hx. unfold candidate.
  set (u := power 10 (n - k)).
  assert (Hu : 0 < u) by (apply power_positive; reflexivity).
  assert (Hb : (0 <= Qfloor (x / u))%Z).
  { rewrite <- (Qfloor_Z 0). apply Qfloor_resp_le. change (inject_Z 0) with 0.
    apply Qle_shift_div_l; [exact Hu | lra]. }
  set (below := Qfloor (x / u)) in *.
  destruct (denotes x below (n - k)) eqn:D1; destruct (denotes x (below + 1) (n - k)) eqn:D2;
    [destruct (Qle_bool _ _) | | |]; intro H; try discriminate;
    apply Some_inj in H; injection H as <- <-;
    (split; [assumption | eapply denotes_positive; [exact Hx | lia | eassumption]]).
Qed.

Lemma fewest_digits_sound (x : Q) (n : Z) (tries : nat) :
  0 < x -> forall k c s,
  fewest_digits x n k tries = Some (c, s) -> denotes x c s = true /\ (0 < c)%Z.
Proof.
  intro Hx. induction tries as [| tries IH]; intros k c s; cbn [fewest_digits];
    [discriminate |].
  destruct (candidate x n k) as [[c' s'] |] eqn:E.
  - intro H. apply Some_inj in H. injection H as <- <-. now apply (candidate_sound x n k).
  - apply IH.
Qed.

Lemma fewest_digits_finds (x : Q) (n : Z) (tries : nat) :
  forall k, candidate x n (k + Z.of_nat tries) <> None ->
  fewest_digits x n k (S tries) <> None.
Proof.
  induction tries as [| tries IH]; intros k H; cbn [fewest_digits].
  - replace (k + Z.of_nat 0)%Z with k in H by lia.
    destruct (candidate x n k); [discriminate | contradiction].
  - destruct (candidate x n k); [discriminate |].
    apply IH. now replace (k + 1 + Z.of_nat tries)%Z with (k + Z.of_nat (S tries))%Z by lia.
Qed.

(** The digits that [Number::toString] writes for a double. *)
Lemma digits_of_a_double (x : Q) (m g : Z) :
  on_grid x m g ->
  exists c s, fewest_digits x (floor_log10 x + 1) 1 17 = Some (c, s) /\
              denotes x c s = true /\ (0 < c)%Z.
Proof.
  intro Hgrid.
  pose proof (grid_bounds x m g Hgrid) as (Hh & Hx1 & _).
  assert (Hpos : 0 < x) by lra.
  pose proof (fewest_digits_finds x (floor_log10 x + 1) 16 1
                (candidate_of_17_digits x m g Hgrid)) as H.
  destruct (fewest_digits x (floor_log10 x + 1) 1 17) as [[c s] |] eqn:E; [| contradiction].
  exists c, s. split; [reflexivity |]. exact (fewest_digits_sound x _ 17 Hpos 1%Z c s E).
Qed.

(** *** Strings of digits *)

Definition all_digits (s : string) : Prop :=
  forallb is_digit (list_ascii_of_string s) = true.

Lemma list_of_append (a b : string) :
  list_ascii_of_string (a ++ b) = (list_ascii_of_string a ++ list_ascii_of_string b)%list.
Proof. induction a as [| c a IH]; cbn; [reflexivity | now rewrite IH]. Qed.

Lemma all_digits_append (a b : string) :
  all_digits (a ++ b) <-> all_digits a /\ all_digits b.
Proof.
  unfold all_digits. rewrite list_of_append, forallb_app. apply andb_true_iff.
Qed.

Lemma all_digits_cons (c : ascii) (s : string) :
  all_digits (String c s) <-> is_digit c = true /\ all_digits s.
Proof. unfold all_digits. cbn. apply andb_true_iff. Qed.

Lemma all_digits_zeros (n : nat) : all_digits (zeros n).
Proof. induction n; [reflexivity | now apply all_digits_cons]. Qed.

Lemma length_zeros (n : nat) : String.length (zeros n) = n.
Proof. induction n; cbn; [reflexivity | now rewrite IHn]. Qed.

Definition digit_of (c : ascii) : Z := Z.of_nat (nat_of_ascii c - 48).

Definition digits_from (acc : Z) (s : string) : Z :=
  fold_left (fun acc c => (acc * 10 + Z.of_nat (nat_of_ascii c - 48))%Z)
            (list_ascii_of_string s) acc.

Lemma digits_from_cons (acc : Z) (c : ascii) (s : string) :
  digits_from acc (String c s) = digits_from (acc * 10 + digit_of c) s.
Proof. reflexivity. Qed.

Lemma digits_from_shift (s : string) (acc : Z) :
  digits_from acc s
  = (acc * 10 ^ Z.of_nat (String.length s) + digits_from 0 s)%Z.
Proof.
  revert acc. induction s as [| c s IH]; intro acc.
  - cbn. lia.
  - rewrite !digits_from_cons. rewrite IH. rewrite (IH (0 * 10 + digit_of c)%Z).
    cbn [String.length]. rewrite Nat2Z.inj_succ, Z.pow_succ_r by lia. ring.
Qed.

Lemma digits_value_append (a b : string) :
  digits_value (a ++ b)
  = (digits_value a * 10 ^ Z.of_nat (String.length b) + digits_value b)%Z.
Proof.
  unfold digits_value. rewrite list_of_append, fold_left_app.
  apply (digits_from_shift b).
Qed.

Lemma digits_value_zeros (n : nat) : digits_value (zeros n) = 0%Z.
Proof.
  induction n as [| n IH]; [reflexivity |].
  change (zeros (S n)) with ("0" ++ zeros n). rewrite digits_value_append, IH.
  reflexivity.
Qed.

Lemma digits_value_nonneg (s : string) : (0 <= digits_value s)%Z.
Proof.
  unfold digits_value. 
  assert (H : forall l acc, (0 <= acc)%Z ->
            (0 <= fold_left (fun acc c => (acc * 10 + Z.of_nat (nat_of_ascii c - 48))%Z) l acc)%Z).
  { induction l as [| c l IH]; intros acc Hacc; cbn; [exact Hacc |]. apply IH. lia. }
  apply H. lia.
Qed.

(** *** The decimal digits of a natural number *)

Lemma digits_from_uint (d : Decimal.uint) (p : positive) :
  digits_from (Zpos p) (NilEmpty.string_of_uint d) = Zpos (Pos.of_uint_acc d p).
Proof.
  revert p. induction d; intro p; cbn [NilEmpty.string_of_uint Pos.of_uint_acc];
    try reflexivity; rewrite digits_from_cons, <- IHd; f_equal;
    unfold digit_of;
    match goal with
    | |- context [Z.of_nat ?n] =>
        let v := eval vm_compute in (Z.of_nat n) in change (Z.of_nat n) with v
    end; lia.
Qed.

Lemma digits_value_uint (d : Decimal.uint) :
  digits_value (NilEmpty.string_of_uint d) = Z.of_N (Pos.of_uint d).
Proof.
  change (digits_value (NilEmpty.string_of_uint d))
    with (digits_from 0 (NilEmpty.string_of_uint d)).
  induction d; cbn [NilEmpty.string_of_uint Pos.of_uint]; try reflexivity;
    rewrite digits_from_cons; try exact IHd;
    unfold digit_of; cbn [nat_of_ascii]; 
    match goal with
    | |- digits_from ?a _ = _ =>
        let a' := eval vm_compute in a in change a with a'
    end;
    rewrite digits_from_uint; reflexivity.
Qed.

Lemma digits_value_decimal (n : N) : digits_value (JS.decimal n) = Z.of_N n.
Proof.
  unfold JS.decimal. rewrite digits_value_uint.
  change (Pos.of_uint (N.to_uint n)) with (N.of_uint (N.to_uint n)).
  now rewrite DecimalN.Unsigned.of_to.
Qed.

Lemma all_digits_uint (d : Decimal.uint) : all_digits (NilEmpty.string_of_uint d).
Proof.
  induction d; cbn [NilEmpty.string_of_uint]; try reflexivity;
    apply all_digits_cons; (split; [reflexivity | exact IHd]).
Qed.

Lemma all_digits_decimal (n : N) : all_digits (JS.decimal n).
Proof. apply all_digits_uint. Qed.

(** The first digit of a positive number is not 0. *)
Lemma decimal_leading (p : positive) :
  exists c r, JS.decimal (Npos p) = String c r /\ Ascii.eqb c "0" = false.
Proof.
  unfold JS.decimal. cbn [N.to_uint].
  pose proof (Unsigned.to_of (Pos.to_uint p)) as H.
  rewrite Unsigned.of_to in H. cbn [N.to_uint] in H.
  pose proof (Unsigned.to_uint_nonzero p) as Hnz.
  pose proof (Unsigned.to_uint_nonnil p) as Hnn.
  destruct (Pos.to_uint p) as [| d | d | d | d | d | d | d | d | d | d] eqn:E;
    try contradiction;
    try (eexists; eexists; split; [reflexivity | reflexivity]).
  exfalso.
  assert (Hhead : Decimal.nzhead (Decimal.D0 d) <> Decimal.Nil).
  { intro Hn. apply unorm_0 in Hn. rewrite <- H in Hn. contradiction. }
  rewrite (unorm_nzhead _ Hhead) in H. cbn [Decimal.nzhead] in H.
  pose proof (nb_digits_nzhead d) as Hlen. rewrite <- H in Hlen. cbn in Hlen. lia.
Qed.

(** *** Trailing zeros *)

Lemma strip_zeros_reversed_spec (l : list ascii) :
  exists t, l = (repeat "0"%char t ++ strip_zeros_reversed l)%list.
Proof.
  induction l as [| c l (t & IH)]; [now exists 0%nat |].
  cbn [strip_zeros_reversed]. destruct (Ascii.eqb_spec c "0") as [-> | Hc].
  - exists (S t). cbn. now rewrite <- IH.
  - now exists 0%nat.
Qed.

Lemma string_of_list_app (a b : list ascii) :
  string_of_list_ascii (a ++ b) = string_of_list_ascii a ++ string_of_list_ascii b.
Proof. induction a as [| c a IH]; cbn; [reflexivity | now rewrite IH]. Qed.

Lemma zeros_repeat (t : nat) : string_of_list_ascii (repeat "0"%char t) = zeros t.
Proof. induction t; cbn; [reflexivity | now rewrite IHt]. Qed.

Lemma rev_repeat_same {A} (a : A) (t : nat) : rev (repeat a t) = repeat a t.
Proof.
  induction t as [| t IH]; [reflexivity |]. cbn. rewrite IH.
  clear IH. induction t; cbn; [reflexivity | now rewrite IHt].
Qed.

Lemma strip_trailing_zeros_spec (w : string) :
  exists t, w = strip_trailing_zeros w ++ zeros t.
Proof.
  unfold strip_trailing_zeros.
  destruct (strip_zeros_reversed_spec (rev (list_ascii_of_string w))) as (t & H).
  exists t. rewrite <- zeros_repeat, <- string_of_list_app.
  rewrite <- (rev_repeat_same "0"%char t), <- rev_app_distr, <- H, rev_involutive.
  now rewrite string_of_list_ascii_of_string.
Qed.

(** *** Parts of a string *)

Lemma substring_split (s : string) (n : nat) :
  (n <= String.length s)%nat ->
  exists a b, s = a ++ b /\ String.length a = n /\
              substring 0 n s = a /\ substring n (String.length s - n) s = b.
Proof.
  revert n. induction s as [| c s IH]; intros n Hn.
  - cbn in Hn. replace n with 0%nat by lia. exists "", "". now repeat split.
  - destruct n as [| n].
    + exists "", (String c s). repeat split. cbn [String.length Nat.sub].
      cbn [substring]. f_equal. clear. induction s as [| d s IH]; [reflexivity |].
      cbn. now rewrite IH.
    + cbn [String.length] in Hn. destruct (IH n ltac:(lia)) as (a & b & Hs & Hl & Ha & Hb).
      exists (String c a), b. cbn [substring String.length Nat.sub append].
      repeat split; [now rewrite <- Hs | now rewrite Hl | now rewrite Ha | exact Hb].
Qed.

(** *** Numerals *)

(** The exponent part that [Number::toString] writes. *)
Definition exponent_text (e : Z) : string :=
  "e" ++ (if (0 <=? e)%Z then "+" else "-") ++ JS.decimal (Z.to_N (Z.abs e)).

Lemma digit_is_no_sign (c : ascii) :
  is_digit c = true ->
  Ascii.eqb c "-" = false /\ Ascii.eqb c "." = false /\ Ascii.eqb c "e" = false /\
  Ascii.eqb c "E" = false /\ Ascii.eqb c "+" = false /\ numeral_char c = true.
Proof.
  destruct c as [[] [] [] [] [] [] [] []]; try discriminate; repeat split; reflexivity.
Qed.

Lemma span_digits (taken rest : string) :
  all_digits taken ->
  match rest with EmptyString => True | String c _ => is_digit c = false end ->
  span is_digit (taken ++ rest) = (taken, rest).
Proof.
  induction taken as [| c taken IH]; cbn [append span]; intros Htaken Hrest.
  - destruct rest as [| c r]; [reflexivity |]. cbn [span]. now rewrite Hrest.
  - apply all_digits_cons in Htaken. destruct Htaken as [Hc Htaken].
    rewrite Hc, IH by assumption. reflexivity.
Qed.

Lemma decimal_not_empty (n : N) : JS.decimal n <> "".
Proof.
  destruct n as [| p]; [discriminate |].
  destruct (decimal_leading p) as (c & r & -> & _). discriminate.
Qed.

(** The exponent of a numeral, as [read_numeral] reads it. *)
Definition read_exponent (s3 : string) : option (Z * string) :=
  match s3 with
  | String c r =>
      if Ascii.eqb c "e" || Ascii.eqb c "E" then
        let (sign, r1) :=
          match r with
          | String c' r' =>
              if Ascii.eqb c' "+" then (1%Z, r')
              else if Ascii.eqb c' "-" then ((-1)%Z, r')
              else (1%Z, r)
          | EmptyString => (1%Z, r)
          end in
        let (exp_digits, s4) := span is_digit r1 in
        match exp_digits with
        | EmptyString => None
        | _ => Some ((sign * digits_value exp_digits)%Z, s4)
        end
      else Some (0%Z, s3)
  | EmptyString => Some (0%Z, s3)
  end.

Lemma read_exponent_text (e : Z) : read_exponent (exponent_text e) = Some (e, "").
Proof.
  unfold exponent_text, read_exponent. cbn [append].
  change (Ascii.eqb "e" "e" || Ascii.eqb "e" "E") with true. cbv iota.
  pose proof (decimal_not_empty (Z.to_N (Z.abs e))) as Hne.
  pose proof (all_digits_decimal (Z.to_N (Z.abs e))) as Hd.
  pose proof (digits_value_decimal (Z.to_N (Z.abs e))) as Hv.
  pose proof (span_digits (JS.decimal (Z.to_N (Z.abs e))) "" Hd I) as Hs.
  rewrite ReferenceJSON.append_empty_r in Hs.
  destruct (Z.leb_spec 0 e) as [He | He]; cbn [append];
    [change (Ascii.eqb "+" "+") with true
    | change (Ascii.eqb "-" "+") with false; change (Ascii.eqb "-" "-") with true];
    cbv iota; rewrite Hs;
    destruct (JS.decimal (Z.to_N (Z.abs e))) as [| c r] eqn:E; try contradiction;
    rewrite Hv; do 2 f_equal; lia.
Qed.

(** A numeral made of the integer digits [i], the fraction digits [f]
    and an exponent. *)
Lemma read_numeral_parts (negative : bool) (i f : string) (tail : string) (e : Z) :
  all_digits i -> all_digits f ->
  (exists d more, i = String d more /\ (Ascii.eqb d "0" = false \/ more = "")) ->
  (tail = "" /\ e = 0%Z \/ tail = exponent_text e) ->
  read_numeral ((if negative then "-" else "") ++ i
                ++ (match f with EmptyString => "" | _ => "." ++ f end) ++ tail)
  = Some (number_of_real negative
            (inject_Z (digits_value (i ++ f))
             * power 10 (e - Z.of_nat (String.length f)))).
Proof.
  intros Hi Hf (d & more & Ei & Hlead) Htail.
  assert (Hd : is_digit d = true).
  { rewrite Ei in Hi. now apply all_digits_cons in Hi. }
  remember (digits_value (i ++ f)) as value eqn:Evalue.
  destruct (digit_is_no_sign d Hd) as (Hminus & _).
  assert (Hexp : read_exponent tail = Some (e, "")).
  { destruct Htail as [[-> ->] | ->]; [reflexivity | apply read_exponent_text]. }
  assert (Htail_head : match tail with EmptyString => True
                                  | String c _ => is_digit c = false /\ Ascii.eqb c "." = false end).
  { destruct Htail as [[-> _] | ->]; [exact I | split; reflexivity]. }
  set (rest := (match f with EmptyString => "" | _ => "." ++ f end) ++ tail).
  assert (Hrest : match rest with EmptyString => True | String c _ => is_digit c = false end).
  { subst rest. destruct f as [| c f]; cbn [append]; [| reflexivity].
    destruct tail; [exact I | apply Htail_head]. }
  unfold read_numeral.
  assert (Hfirst :
            (match (if negative then "-" else "") ++ i ++ rest with
             | String c r => if Ascii.eqb c "-" then (true, r)
                             else (false, (if negative then "-" else "") ++ i ++ rest)
             | EmptyString => (false, (if negative then "-" else "") ++ i ++ rest)
             end) = (negative, i ++ rest)).
  { destruct negative; cbn [append]; [reflexivity |].
    rewrite Ei. cbn [append]. now rewrite Hminus. }
  rewrite Hfirst. rewrite (span_digits i rest Hi Hrest).
  assert (Hzero : Ascii.eqb d "0" && negb (String.eqb more "") = false).
  { destruct Hlead as [-> | ->]; [reflexivity |]. cbn. apply andb_false_r. }
  rewrite Ei. rewrite Hzero.
  assert (Hfraction :
            (match rest with
             | String c r =>
                 if Ascii.eqb c "." then
                   let (frac_digits, s3) := span is_digit r in
                   match frac_digits with
                   | EmptyString => None
                   | _ => Some (frac_digits, s3)
                   end
                 else Some (EmptyString, rest)
             | EmptyString => Some (EmptyString, rest)
             end) = Some (f, tail)).
  { subst rest. destruct f as [| c f].
    - cbn [append]. destruct tail as [| c t]; [reflexivity |].
      destruct Htail_head as [_ ->]. reflexivity.
    - cbn [append]. change (Ascii.eqb "." ".") with true. cbv iota.
      change (String c (f ++ tail)) with (String c f ++ tail).
      rewrite (span_digits (String c f) tail Hf).
      + reflexivity.
      + destruct tail; [exact I | apply Htail_head]. }
  rewrite Hfraction.
  change (match tail with
          | String c r =>
              if Ascii.eqb c "e" || Ascii.eqb c "E" then
                let (sign, r1) :=
                  match r with
                  | String c' r' =>
                      if Ascii.eqb c' "+" then (1%Z, r')
                      else if Ascii.eqb c' "-" then ((-1)%Z, r')
                      else (1%Z, r)
                  | EmptyString => (1%Z, r)
                  end in
                let (exp_digits, s4) := span is_digit r1 in
                match exp_digits with
                | EmptyString => None
                | _ => Some ((sign * digits_value exp_digits)%Z, s4)
                end
              else Some (0%Z, tail)
          | EmptyString => Some (0%Z, tail)
          end) with (read_exponent tail).
  rewrite Hexp. subst value i. reflexivity.
Qed.

Definition numeral_text (s : string) : Prop :=
  forallb numeral_char (list_ascii_of_string s) = true.

Lemma numeral_text_append (a b : string) :
  numeral_text (a ++ b) <-> numeral_text a /\ numeral_text b.
Proof.
  unfold numeral_text. rewrite list_of_append, forallb_app. apply andb_true_iff.
Qed.

Lemma numeral_text_digits (s : string) : all_digits s -> numeral_text s.
Proof.
  unfold all_digits, numeral_text. rewrite !forallb_forall. intros H c Hc.
  now apply digit_is_no_sign, H.
Qed.

Lemma numeral_text_exponent (e : Z) : numeral_text (exponent_text e).
Proof.
  unfold exponent_text. apply numeral_text_append. split; [reflexivity |].
  apply numeral_text_append. split; [now destruct (0 <=? e)%Z |].
  apply numeral_text_digits, all_digits_decimal.
Qed.

Lemma power_10_nat (j : nat) : power 10 (Z.of_nat j) = inject_Z (10 ^ Z.of_nat j).
Proof. apply power_nonneg. lia. Qed.

(** The numeral that the layout of [Number::toString] makes of the
    digits [digits], with the decimal point after the [n]-th, has the
    value of the digits times [10^(n - k)]. *)
Lemma layout_reads_back (negative : bool) (digits : string) (n : Z) :
  all_digits digits ->
  (exists d more, digits = String d more /\ Ascii.eqb d "0" = false) ->
  numeral_text (layout_digits digits n) /\
  exists v,
    read_numeral ((if negative then "-" else "") ++ layout_digits digits n)
    = Some (number_of_real negative v) /\
    v == inject_Z (digits_value digits)
         * power 10 (n - Z.of_nat (String.length digits)).
Proof.
  intros Hdigits (d & more & Ed & Hlead).
  assert (Hlen : (1 <= String.length digits)%nat) by (rewrite Ed; cbn; lia).
  unfold layout_digits.
  set (k := Z.of_nat (String.length digits)).
  destruct ((k <=? n)%Z && (n <=? 21)%Z) eqn:C1; [| destruct ((0 <? n)%Z && (n <=? 21)%Z) eqn:C2;
    [| destruct ((-6 <? n)%Z && (n <=? 0)%Z) eqn:C3]].
  - (* the digits, then zeros *)
    apply andb_true_iff in C1. destruct C1 as [C1 _]. apply Z.leb_le in C1.
    set (j := Z.to_nat (n - k)).
    assert (Hi : all_digits (digits ++ zeros j)).
    { apply all_digits_append. split; [exact Hdigits | apply all_digits_zeros]. }
    split; [now apply numeral_text_digits |].
    eexists. split.
    + pose proof (read_numeral_parts negative (digits ++ zeros j) "" "" 0 Hi eq_refl) as H.
      cbn [append] in H. rewrite !ReferenceJSON.append_empty_r in H. apply H.
      * exists d, (more ++ zeros j). rewrite Ed. split; [reflexivity | now left].
      * now left.
    + rewrite digits_value_append, digits_value_zeros, length_zeros.
      replace (n - k)%Z with (Z.of_nat j) by (subst j; lia).
      rewrite power_10_nat. cbn [String.length]. change (power 10 (0 - Z.of_nat 0)) with 1.
      rewrite Z.add_0_r, inject_Z_mult. ring.
  - (* the point inside the digits *)
    apply andb_true_iff in C2. destruct C2 as [C2 C2'].
    apply Z.ltb_lt in C2. apply Z.leb_le in C2'.
    assert (Hnk : (n < k)%Z).
    { apply andb_false_iff in C1. destruct C1 as [C1 | C1]; apply Z.leb_gt in C1; lia. }
    destruct (substring_split digits (Z.to_nat n) ltac:(lia)) as (a & b & Hs & Hla & Ha & Hb).
    replace (Z.to_nat (k - n)) with (String.length digits - Z.to_nat n)%nat by lia.
    rewrite Ha, Hb.
    assert (Hsum : String.length digits = (String.length a + String.length b)%nat).
    { rewrite Hs at 1. apply ReferenceJSON.length_append. }
    assert (Hlb : (1 <= String.length b)%nat) by (subst k; lia).
    rewrite Hs in Hdigits. apply all_digits_append in Hdigits. destruct Hdigits as [Hda Hdb].
    split.
    { apply numeral_text_append. split; [now apply numeral_text_digits |].
      apply numeral_text_append. split; [reflexivity | now apply numeral_text_digits]. }
    eexists. split.
    + pose proof (read_numeral_parts negative a b "" 0 Hda Hdb) as H.
      destruct b as [| cb b]; [cbn in Hlb; lia |].
      rewrite !ReferenceJSON.append_empty_r in H. apply H.
      * destruct a as [| ca a]; [cbn in Hla; lia |].
        exists ca, a. split; [reflexivity | left].
        rewrite Ed in Hs. cbn [append] in Hs. now injection Hs as <- _.
      * now left.
    + rewrite <- Hs. subst k. rewrite Hsum.
      replace (0 - Z.of_nat (String.length b))%Z
        with (n - Z.of_nat (String.length a + String.length b))%Z by lia.
      reflexivity.
  - (* zeros after the point, then the digits *)
    apply andb_true_iff in C3. destruct C3 as [C3a C3b].
    apply Z.ltb_lt in C3a. apply Z.leb_le in C3b.
    set (j := Z.to_nat (- n)).
    assert (Hf : all_digits (zeros j ++ digits)).
    { apply all_digits_append. split; [apply all_digits_zeros | exact Hdigits]. }
    split.
    { change ("0." ++ zeros j ++ digits) with ("0" ++ "." ++ (zeros j ++ digits)).
      apply numeral_text_append. split; [reflexivity |].
      apply numeral_text_append. split; [reflexivity | now apply numeral_text_digits]. }
    exists (inject_Z (digits_value ("0" ++ zeros j ++ digits))
            * power 10 (0 - Z.of_nat (String.length (zeros j ++ digits)))).
    split.
    + pose proof (read_numeral_parts negative "0" (zeros j ++ digits) "" 0 eq_refl Hf) as H.
      assert (Hne : zeros j ++ digits <> "").
      { intro E. apply (f_equal String.length) in E.
        rewrite ReferenceJSON.length_append in E. cbn in E. lia. }
      remember (zeros j ++ digits) as f eqn:Ef. clear Ef.
      destruct f as [| cf f]; [contradiction |].
      rewrite !ReferenceJSON.append_empty_r in H. apply H.
      * exists "0"%char, "". split; [reflexivity | now right].
      * now left.
    + rewrite digits_value_append. change (digits_value "0") with 0%Z.
      rewrite Z.mul_0_l, Z.add_0_l.
      rewrite digits_value_append, digits_value_zeros, Z.mul_0_l, Z.add_0_l.
      rewrite ReferenceJSON.length_append, length_zeros.
      replace (0 - Z.of_nat (j + String.length digits))%Z with (n - k)%Z by (subst j k; lia).
      reflexivity.
  - (* with an exponent *)
    fold (exponent_text (n - 1)).
    destruct (Z.eqb_spec k 1) as [Ek | Ek].
    + split.
      { apply numeral_text_append. split;
          [now apply numeral_text_digits | apply numeral_text_exponent]. }
      eexists. split.
      * pose proof (read_numeral_parts negative digits "" (exponent_text (n - 1)) (n - 1)
                      Hdigits eq_refl) as H.
        cbn [append] in H. apply H.
        -- exists d, more. split; [exact Ed | now left].
        -- now right.
      * rewrite ReferenceJSON.append_empty_r. cbn [String.length].
        now replace (n - 1 - Z.of_nat 0)%Z with (n - k)%Z by lia.
    + destruct (substring_split digits 1 Hlen) as (a & b & Hs & Hla & Ha & Hb).
      replace (Z.to_nat (k - 1)) with (String.length digits - 1)%nat by lia.
      rewrite Ha, Hb.
      assert (Hsum : String.length digits = (String.length a + String.length b)%nat).
      { rewrite Hs at 1. apply ReferenceJSON.length_append. }
      assert (Hlb : (1 <= String.length b)%nat) by (subst k; lia).
      rewrite Hs in Hdigits. apply all_digits_append in Hdigits.
      destruct Hdigits as [Hda Hdb].
      split.
      { rewrite !ReferenceJSON.append_assoc. apply numeral_text_append.
        split; [now apply numeral_text_digits |].
        apply numeral_text_append. split; [reflexivity |].
        apply numeral_text_append. split;
          [now apply numeral_text_digits | apply numeral_text_exponent]. }
      eexists. split.
      * pose proof (read_numeral_parts negative a b (exponent_text (n - 1)) (n - 1)
                      Hda Hdb) as H.
        destruct b as [| cb b]; [cbn in Hlb; lia |].
        rewrite !ReferenceJSON.append_assoc. apply H.
        -- destruct a as [| ca a]; [cbn in Hla; lia |].
           exists ca, a. split; [reflexivity | left].
           rewrite Ed in Hs. cbn [append] in Hs. now injection Hs as <- _.
        -- now right.
      * rewrite <- Hs. subst k. rewrite Hsum.
        replace (n - 1 - Z.of_nat (String.length b))%Z
          with (n - Z.of_nat (String.length a + String.length b))%Z by lia.
        reflexivity.
Qed.

Lemma round_magnitude_reduced (q r : Q) : round_magnitude q = Some r -> Qred r = r.
Proof.
  unfold round_magnitude. destruct (Qle_bool _ _); [discriminate |].
  intro H. apply Some_inj in H. rewrite <- H. apply Qred_idempotent.
Qed.

Lemma number_of_real_reduced (negative : bool) (q y : Q) :
  number_of_real negative q = Finite y -> Qred y = y.
Proof.
  unfold number_of_real. cbv zeta.
  destruct (Qeq_bool (Qred q) 0).
  { destruct negative; [discriminate |]. now intros [= <-]. }
  destruct (round_magnitude (Qred q)) as [r |] eqn:R; [| destruct negative; discriminate].
  apply round_magnitude_reduced in R.
  destruct (Qeq_bool r 0).
  { destruct negative; [discriminate |]. now intros [= <-]. }
  destruct negative; intro H.
  - assert (E : y = Qred (- r)) by congruence. rewrite E. apply Qred_idempotent.
  - assert (E : y = r) by congruence. now rewrite E.
Qed.

(** What [Number::toString] writes for a double is a numeral that reads
    back as the double, with either sign. *)
Lemma positive_toString_reads_back (x : Q) (m g : Z) :
  on_grid x m g ->
  numeral_text (positive_toString x) /\
  positive_toString x <> "" /\
  read_numeral (positive_toString x) = Some (Finite (Qred x)) /\
  read_numeral ("-" ++ positive_toString x) = Some (Finite (Qred (- x))).
Proof.
  intro Hgrid.
  destruct (digits_of_a_double x m g Hgrid) as (c & s & Efew & Hden & Hc).
  unfold positive_toString. rewrite Efew.
  destruct c as [| p | p]; try lia. cbn [Z.to_N].
  set (written := JS.decimal (N.pos p)).
  destruct (decimal_leading p) as (d & r & Ew & Hlead). fold written in Ew.
  destruct (strip_trailing_zeros_spec written) as (t & Hstrip).
  set (digits := strip_trailing_zeros written) in *.
  pose proof (all_digits_decimal (N.pos p)) as Hall. fold written in Hall.
  rewrite Hstrip in Hall. apply all_digits_append in Hall. destruct Hall as [Hall _].
  assert (Hhead : exists d' more, digits = String d' more /\ Ascii.eqb d' "0" = false).
  { destruct digits as [| d' more].
    - exfalso. cbn [append] in Hstrip. rewrite Ew in Hstrip.
      destruct t as [| t]; [discriminate |]. cbn in Hstrip.
      injection Hstrip as -> _. discriminate.
    - exists d', more. split; [reflexivity |].
      rewrite Ew in Hstrip. cbn [append] in Hstrip. now injection Hstrip as <- _. }
  assert (Hvalue : inject_Z (digits_value digits)
                   * power 10 (Z.of_nat (String.length written) + s
                               - Z.of_nat (String.length digits))
                   == inject_Z (Zpos p) * power 10 s).
  { pose proof (digits_value_decimal (N.pos p)) as Hv. fold written in Hv.
    rewrite Hstrip in Hv. rewrite digits_value_append, digits_value_zeros, length_zeros in Hv.
    cbn [Z.of_N] in Hv. rewrite <- Hv.
    rewrite Hstrip at 1. rewrite ReferenceJSON.length_append, length_zeros.
    replace (Z.of_nat (String.length digits + t) + s - Z.of_nat (String.length digits))%Z
      with (Z.of_nat t + s)%Z by lia.
    rewrite power_add, power_10_nat by reflexivity.
    rewrite Z.add_0_r, inject_Z_mult. ring. }
  unfold denotes in Hden.
  destruct (number_of_real false (inject_Z (Zpos p) * power 10 s)) as [y | | |] eqn:Ey;
    try discriminate.
  apply Qeq_bool_iff in Hden.
  pose proof (number_of_real_reduced false _ y Ey) as Hy.
  pose proof (grid_bounds x m g Hgrid) as (Hh & Hx1 & _).
  assert (Hpos : 0 < x) by lra.
  assert (Ey' : number_of_real true (inject_Z (Zpos p) * power 10 s) = Finite (Qred (- y))).
  { apply number_of_real_negative; [exact Ey | lra]. }
  destruct (layout_reads_back false digits (Z.of_nat (String.length written) + s) Hall Hhead)
    as (Htext & v & Hread & Hv).
  destruct (layout_reads_back true digits (Z.of_nat (String.length written) + s) Hall Hhead)
    as (_ & v' & Hread' & Hv').
  split; [exact Htext |]. split.
  { intro E. cbn [append] in Hread. rewrite E in Hread. discriminate. }
  split.
  - cbn [append] in Hread. rewrite Hread. f_equal.
    rewrite (number_of_real_eq false v _ (Qeq_trans _ _ _ Hv Hvalue)), Ey.
    f_equal. rewrite <- Hy. now apply Qred_complete.
  - rewrite Hread'. f_equal.
    rewrite (number_of_real_eq true v' _ (Qeq_trans _ _ _ Hv' Hvalue)), Ey'.
    f_equal. apply Qred_complete. now rewrite Hden.
Qed.

(** [Number::toString] and the numeral grammar agree on every finite
    double other than -0. *)
Theorem number_reads_back (x : Q) :
  is_double x = true ->
  numeral_text (Number_toString x) /\
  Number_toString x <> "" /\
  read_numeral (Number_toString x) = Some (Finite x).
Proof.
  intro H. destruct (double_cases x H) as [-> | [(Hx & Hred & m & g & Hgrid)
                                              | (Hx & Hred & m & g & Hgrid)]].
  - repeat split. discriminate.
  - unfold Number_toString.
    assert (E0 : Qeq_bool x 0 = false).
    { destruct (Qeq_bool x 0) eqn:E; [| reflexivity]. apply Qeq_bool_iff in E. lra. }
    assert (E1 : Qle_bool 0 x = true) by (apply Qle_bool_iff; lra).
    rewrite E0, E1.
    destruct (positive_toString_reads_back x m g Hgrid) as (Ht & Hne & Hread & _).
    now rewrite Hred in Hread.
  - unfold Number_toString.
    assert (E0 : Qeq_bool x 0 = false).
    { destruct (Qeq_bool x 0) eqn:E; [| reflexivity]. apply Qeq_bool_iff in E. lra. }
    assert (E1 : Qle_bool 0 x = false).
    { destruct (Qle_bool 0 x) eqn:E; [| reflexivity]. apply Qle_bool_iff in E. lra. }
    rewrite E0, E1.
    destruct (positive_toString_reads_back (- x) m g Hgrid) as (Ht & Hne & _ & Hread).
    split; [| split].
    + apply numeral_text_append. split; [reflexivity | exact Ht].
    + discriminate.
    + rewrite Hread. f_equal. rewrite <- Hred at 2. apply f_equal.
      apply Qred_complete. ring.
Qed.

(** *** The numbers that [JSON.parse] returns *)

Lemma is_double_on_grid (x : Q) (m g : Z) :
  on_grid x m g -> is_double (Qred x) = true /\ is_double (Qred (- x)) = true.
Proof.
  intro Hgrid.
  pose proof (grid_bounds x m g Hgrid) as (Hh & Hx1 & _).
  assert (Hpos : 0 < x) by lra.
  assert (Hnear : x - half_digit * x <= x /\ x <= x + half_digit * x)
    by (unfold half_digit; lra).
  destruct (number_of_real_near x x m g Hgrid (proj1 Hnear) (proj2 Hnear)) as [Hp Hn].
  unfold is_double. split.
  - assert (E : Qle_bool 0 (Qred x) = true) by (apply Qle_bool_iff; rewrite Qred_correct; lra).
    rewrite E. cbn [negb].
    rewrite (number_of_real_eq false _ x), Hp; [apply same_refl |].
    rewrite Qabs_pos; [apply Qred_correct | rewrite Qred_correct; lra].
  - assert (E : Qle_bool 0 (Qred (- x)) = false).
    { destruct (Qle_bool 0 (Qred (- x))) eqn:E; [| reflexivity].
      apply Qle_bool_iff in E. rewrite Qred_correct in E. lra. }
    rewrite E. cbn [negb].
    rewrite (number_of_real_eq true _ x), Hn; [apply same_refl |].
    rewrite Qabs_neg; [rewrite Qred_correct; ring | rewrite Qred_correct; lra].
Qed.

Lemma number_of_real_is_double (negative : bool) (q y : Q) :
  0 <= q -> number_of_real negative q = Finite y -> is_double y = true.
Proof.
  intro Hq. unfold number_of_real. cbv zeta.
  destruct (Qeq_bool (Qred q) 0) eqn:E0.
  { destruct negative; [discriminate |]. now intros [= <-]. }
  apply Qeq_bool_neq in E0.
  assert (Hpos : 0 < Qred q).
  { rewrite Qred_correct in E0 |- *. destruct (Qlt_le_dec 0 q) as [H | H]; [exact H |].
    exfalso. apply E0. lra. }
  destruct (round_magnitude (Qred q)) as [r |] eqn:R; [| destruct negative; discriminate].
  destruct (Qeq_bool r 0) eqn:E1.
  { destruct negative; [discriminate |]. now intros [= <-]. }
  apply Qeq_bool_neq in E1.
  destruct (round_magnitude_on_grid _ r Hpos R) as [Hred [Hzero | (m & g & Hgrid)]];
    [contradiction |].
  destruct (is_double_on_grid r m g Hgrid) as [Hp Hn].
  destruct negative; intro H.
  - assert (E : y = Qred (- r)) by congruence. now rewrite E.
  - assert (E : y = r) by congruence. rewrite E, <- Hred. exact Hp.
Qed.

Lemma read_numeral_is_double (s : string) (y : Q) :
  read_numeral s = Some (Finite y) -> is_double y = true.
Proof.
  unfold read_numeral.
  destruct (match s with
            | String c r => if Ascii.eqb c "-" then (true, r) else (false, s)
            | EmptyString => (false, s)
            end) as [negative s1].
  destruct (span is_digit s1) as [int_digits s2].
  destruct int_digits as [| d more]; [discriminate |].
  destruct (Ascii.eqb d "0" && negb (String.eqb more "")); [discriminate |].
  match goal with
  | |- match ?fraction with _ => _ end = _ -> _ =>
      destruct fraction as [[frac_digits s3] |]; [| discriminate]
  end.
  match goal with
  | |- match ?exponent with _ => _ end = _ -> _ =>
      destruct exponent as [[e s4] |]; [| discriminate]
  end.
  destruct s4; [| discriminate].
  intro H. apply Some_inj in H. revert H. apply number_of_real_is_double.
  apply Qmult_le_0_compat.
  - change 0 with (inject_Z 0). rewrite <- Zle_Qle. apply digits_value_nonneg.
  - apply Qlt_le_weak, power_positive. reflexivity.
Qed.

Definition delimited (rest : string) : Prop :=
  match rest with
  | EmptyString => True
  | String c _ => numeral_char c = false
  end.

Lemma span_class (class : ascii -> bool) (taken rest : string) :
  forallb class (list_ascii_of_string taken) = true ->
  match rest with EmptyString => True | String c _ => class c = false end ->
  span class (taken ++ rest) = (taken, rest).
Proof.
  induction taken as [| c taken IH]; cbn [list_ascii_of_string forallb append span];
    intros Htaken Hrest.
  - destruct rest as [| c r]; [reflexivity |]. cbn [span]. now rewrite Hrest.
  - apply andb_true_iff in Htaken. destruct Htaken as [Hc Htaken].
    rewrite Hc, IH by assumption. reflexivity.
Qed.

Lemma numeral_class (c : ascii) :
  numeral_char c = true ->
  is_ws c = false /\ Ascii.eqb c quote = false /\ Ascii.eqb c "[" = false /\
  Ascii.eqb c "{" = false /\ Ascii.eqb c "n" = false /\ Ascii.eqb c "t" = false /\
  Ascii.eqb c "f" = false /\ Ascii.eqb c "]" = false.
Proof. each_character c. Qed.

Lemma ws_class (c : ascii) : is_ws c = true -> numeral_char c = false.
Proof. each_character c. Qed.

Lemma delimited_by_white (ws : string) (c : ascii) (r : string) :
  blank ws = true -> numeral_char c = false -> delimited (ws ++ String c r).
Proof.
  destruct ws as [| w ws]; cbn; intros Hws Hc; [exact Hc |].
  apply andb_true_iff in Hws. destruct Hws as [Hw _]. now apply ws_class.
Qed.

Lemma double_text (x : Q) :
  is_double x = true ->
  forallb numeral_char (list_ascii_of_string (Number_toString x)) = true /\
  read_numeral (Number_toString x) = Some (Finite x) /\
  exists c r, Number_toString x = String c r /\ numeral_char c = true.
Proof.
  intro H. destruct (number_reads_back x H) as (Htext & Hne & Hread).
  split; [exact Htext |]. split; [exact Hread |].
  destruct (Number_toString x) as [| c r]; [contradiction |].
  exists c, r. split; [reflexivity |].
  unfold numeral_text in Htext. cbn [list_ascii_of_string forallb] in Htext.
  now apply andb_true_iff in Htext.
Qed.


(** *** The order of the members of an object *)

Section Members.

Local Open Scope list_scope.

(** Array indices come first, in ascending order; the other keys follow. *)
Definition key_le (a b : string) : Prop :=
  match array_index a, array_index b with
  | Some i, Some j => (i <= j)%Z
  | Some _, None => True
  | None, None => True
  | None, Some _ => False
  end.

Definition keys (members : list (string * value)) : list string := map fst members.

(** The members as an object lists them: no key twice, in the order of
    the keys. *)
Definition ordered (members : list (string * value)) : Prop :=
  NoDup (keys members) /\ StronglySorted key_le (keys members).

Lemma key_le_trans (a b c : string) : key_le a b -> key_le b c -> key_le a c.
Proof.
  unfold key_le. destruct (array_index a), (array_index b), (array_index c);
    try tauto; lia.
Qed.

Lemma has_key (k : string) (members : list (string * value)) :
  existsb (fun m => String.eqb (fst m) k) members = true <-> In k (keys members).
Proof.
  unfold keys. rewrite existsb_exists, in_map_iff. split.
  - intros (m & Hm & E). apply String.eqb_eq in E. now exists m.
  - intros (m & E & Hm). exists m. split; [exact Hm | now apply String.eqb_eq].
Qed.

Lemma keys_of_replaced (k : string) (v : value) (members : list (string * value)) :
  keys (map (fun m => if String.eqb (fst m) k then (k, v) else m) members) = keys members.
Proof.
  unfold keys. rewrite map_map. apply map_ext. intros [k' v']. cbn [fst].
  destruct (String.eqb_spec k' k) as [-> | _]; reflexivity.
Qed.

Lemma keys_of_inserted (i : Z) (k : string) (v : value) (members : list (string * value)) :
  forall x, In x (keys (insert_index i k v members)) <-> x = k \/ In x (keys members).
Proof.
  induction members as [| [k' v'] members IH]; intro x; cbn [insert_index keys map fst In].
  - intuition.
  - destruct (array_index k') as [j |]; [destruct (i <? j)%Z |];
      cbn [keys map fst In]; fold (keys members);
      fold (keys (insert_index i k v members)); try rewrite IH; intuition.
Qed.

Lemma insert_index_ordered (i : Z) (k : string) (v : value)
    (members : list (string * value)) :
  array_index k = Some i -> ~ In k (keys members) -> ordered members ->
  ordered (insert_index i k v members).
Proof.
  intros Hk. induction members as [| [k' v'] members IH]; intros Hnew [Hnodup Hsorted].
  - cbn. split; repeat constructor. intros [].
  - cbn [keys map fst] in Hnew, Hnodup, Hsorted. fold (keys members) in *.
    inversion Hnodup as [| ? ? Hk' Hnodup']; subst.
    inversion Hsorted as [| ? ? Hsorted' Hall]; subst.
    assert (Hfront : Forall (key_le k) (k' :: keys members) ->
                     ordered ((k, v) :: (k', v') :: members)).
    { intro Hle. split; cbn [keys map fst]; fold (keys members).
      - constructor; [exact Hnew | exact Hnodup].
      - constructor; [exact Hsorted | exact Hle]. }
    cbn [insert_index]. destruct (array_index k') as [j |] eqn:Ek'.
    + destruct (Z.ltb_spec i j) as [Hij | Hij].
      * apply Hfront.
        assert (Hkk' : key_le k k') by (unfold key_le; rewrite Hk, Ek'; lia).
        constructor; [exact Hkk' |].
        eapply Forall_impl; [| exact Hall]. intros x Hx. now apply (key_le_trans k k').
      * destruct (IH ltac:(cbn in Hnew; tauto) (conj Hnodup' Hsorted')) as [Hn Hs].
        split; cbn [keys map fst]; fold (keys (insert_index i k v members)).
        -- constructor; [| exact Hn]. rewrite keys_of_inserted.
           intros [-> | H]; [apply Hnew; now left | contradiction].
        -- constructor; [exact Hs |]. apply Forall_forall. intros x Hx.
           apply keys_of_inserted in Hx. destruct Hx as [-> | Hx].
           ++ unfold key_le. rewrite Ek', Hk. lia.
           ++ exact (proj1 (Forall_forall _ _) Hall x Hx).
    + apply Hfront.
      assert (Hkk' : key_le k k') by (unfold key_le; now rewrite Hk, Ek').
      constructor; [exact Hkk' |].
      eapply Forall_impl; [| exact Hall]. intros x Hx. now apply (key_le_trans k k').
Qed.

Lemma ordered_snoc (k : string) (v : value) (members : list (string * value)) :
  array_index k = None -> ~ In k (keys members) -> ordered members ->
  ordered (members ++ [(k, v)]).
Proof.
  intros Hk Hnew [Hnodup Hsorted]. unfold ordered, keys in *. rewrite map_app. cbn [map fst].
  split.
  - apply NoDup_app; [exact Hnodup | repeat constructor; intros [] |].
    intros x Hx [<- | []]. contradiction.
  - clear Hnodup Hnew. induction Hsorted as [| a l Hs IH Hall]; cbn.
    + repeat constructor.
    + constructor; [exact IH |]. apply Forall_app. split; [exact Hall |].
      constructor; [| constructor]. unfold key_le. rewrite Hk.
      now destruct (array_index a).
Qed.

Lemma set_member_ordered (k : string) (v : value) (members : list (string * value)) :
  ordered members -> ordered (set_member k v members).
Proof.
  intro H. unfold set_member.
  destruct (existsb (fun m => String.eqb (fst m) k) members) eqn:E.
  - unfold ordered. now rewrite keys_of_replaced.
  - assert (Hnew : ~ In k (keys members)).
    { intro Hin. apply has_key in Hin. congruence. }
    destruct (array_index k) as [i |] eqn:Ek.
    + now apply insert_index_ordered.
    + now apply ordered_snoc.
Qed.

Lemma fold_set_member_ordered (written acc : list (string * value)) :
  ordered acc ->
  ordered (fold_left (fun members m => set_member (fst m) (snd m) members) written acc).
Proof.
  revert acc. induction written as [| m written IH]; intros acc H; cbn [fold_left];
    [exact H |]. apply IH. now apply set_member_ordered.
Qed.

Lemma define_all_ordered (written : list (string * value)) : ordered (define_all written).
Proof. apply fold_set_member_ordered. split; constructor. Qed.

Lemma ordered_prefix (a b : list (string * value)) : ordered (a ++ b) -> ordered a.
Proof.
  unfold ordered, keys. rewrite map_app. intros [Hn Hs]. split.
  - now apply NoDup_app_remove_r in Hn.
  - clear Hn. induction (map fst a) as [| x l IH]; [constructor |].
    cbn in Hs. inversion Hs as [| ? ? Hs' Hall]; subst.
    constructor; [now apply IH |]. apply Forall_app in Hall. tauto.
Qed.

Lemma insert_index_last (i : Z) (k : string) (v : value)
    (members : list (string * value)) :
  array_index k = Some i -> Forall (fun x => key_le x k) (keys members) ->
  insert_index i k v members = members ++ [(k, v)].
Proof.
  intros Hk. induction members as [| [k' v'] members IH]; intro H; [reflexivity |].
  cbn [keys map fst] in H. inversion H as [| ? ? Hle Hrest]; subst.
  cbn [insert_index app]. unfold key_le in Hle. rewrite Hk in Hle.
  destruct (array_index k') as [j |]; [| contradiction].
  destruct (Z.ltb_spec i j); [lia |]. now rewrite (IH Hrest).
Qed.

Lemma sorted_last (l : list string) (k : string) :
  StronglySorted key_le (l ++ [k]) -> Forall (fun x => key_le x k) l.
Proof.
  induction l as [| a l IH]; cbn; intro H; [constructor |].
  inversion H as [| ? ? Hs Hall]; subst. constructor; [| now apply IH].
  apply Forall_app in Hall. destruct Hall as [_ Hk]. now inversion Hk.
Qed.

Lemma set_member_last (k : string) (v : value) (members : list (string * value)) :
  ordered (members ++ [(k, v)]) -> set_member k v members = members ++ [(k, v)].
Proof.
  unfold ordered, keys. rewrite map_app. cbn [map fst]. intros [Hn Hs].
  assert (Hnew : ~ In k (map fst members)).
  { intro Hin. apply NoDup_remove_2 in Hn. rewrite List.app_nil_r in Hn. contradiction. }
  unfold set_member.
  destruct (existsb (fun m => String.eqb (fst m) k) members) eqn:E.
  { apply has_key in E. contradiction. }
  destruct (array_index k) as [i |] eqn:Ek; [| reflexivity].
  apply insert_index_last; [exact Ek | now apply sorted_last].
Qed.

Lemma fold_set_member_ordered_list (rest acc : list (string * value)) :
  ordered (acc ++ rest) ->
  fold_left (fun members m => set_member (fst m) (snd m) members) rest acc = acc ++ rest.
Proof.
  revert acc. induction rest as [| [k v] rest IH]; intros acc H; cbn [fold_left fst snd].
  - now rewrite List.app_nil_r.
  - assert (H' : ordered ((acc ++ [(k, v)]) ++ rest)) by now rewrite <- List.app_assoc.
    rewrite (set_member_last k v acc (ordered_prefix _ _ H')).
    rewrite (IH _ H'). now rewrite <- List.app_assoc.
Qed.

(** An object in the order of its keys is what its own members define. *)
Lemma ordered_define_all (members : list (string * value)) :
  ordered members -> define_all members = members.
Proof. intro H. apply (fold_set_member_ordered_list members []). exact H. Qed.

Lemma define_all_idempotent (written : list (string * value)) :
  define_all (define_all written) = define_all written.
Proof. apply ordered_define_all, define_all_ordered. Qed.

(** The members of the object are among the members written. *)
Lemma insert_index_members (i : Z) (k : string) (v : value)
    (members : list (string * value)) (m : string * value) :
  In m (insert_index i k v members) -> m = (k, v) \/ In m members.
Proof.
  induction members as [| [k' v'] members IH]; cbn [insert_index In].
  - intuition.
  - destruct (array_index k') as [j |]; [destruct (i <? j)%Z |]; cbn [In]; intuition.
Qed.

Lemma set_member_members (k : string) (v : value) (members : list (string * value))
    (m : string * value) :
  In m (set_member k v members) -> m = (k, v) \/ In m members.
Proof.
  unfold set_member. destruct (existsb _ members).
  - rewrite in_map_iff. intros ([k' v'] & E & Hin). cbn [fst] in E.
    destruct (String.eqb k' k); [left; now symmetry | right; now rewrite <- E].
  - destruct (array_index k) as [i |].
    + apply insert_index_members.
    + rewrite in_app_iff. cbn [In]. intuition.
Qed.

Lemma define_all_members (written : list (string * value)) (m : string * value) :
  In m (define_all written) -> In m written.
Proof.
  unfold define_all.
  assert (H : forall acc, In m (fold_left (fun members m0 => set_member (fst m0) (snd m0) members)
                                          written acc) -> In m acc \/ In m written).
  { induction written as [| [k v] written IH]; intros acc; cbn [fold_left fst snd];
      [now left |].
    intro Hin. apply IH in Hin. destruct Hin as [Hin | Hin]; [| right; now right].
    apply set_member_members in Hin. destruct Hin as [-> | Hin]; [right; now left | now left]. }
  intro Hin. apply H in Hin. destruct Hin as [[] | Hin]. exact Hin.
Qed.

End Members.

(** *** Values *)

Section Induction.

Variable P : value -> Prop.
Hypothesis P_null : P Null.
Hypothesis P_bool : forall b, P (Bool b).
Hypothesis P_number : forall n, P (Number n).
Hypothesis P_text : forall s, P (Text s).
Hypothesis P_array : forall items, Forall P items -> P (Array items).
Hypothesis P_object :
  forall members, Forall (fun m => P (snd m)) members -> P (Object members).

Fixpoint value_induction (v : value) : P v :=
  match v with
  | Null => P_null
  | Bool b => P_bool b
  | Number n => P_number n
  | Text s => P_text s
  | Array items =>
      P_array items
        ((fix all (l : list value) : Forall P l :=
            match l with
            | [] => Forall_nil P
            | x :: l' => Forall_cons x (value_induction x) (all l')
            end) items)
  | Object members =>
      P_object members
        ((fix all (l : list (string * value)) : Forall (fun m => P (snd m)) l :=
            match l with
            | [] => Forall_nil _
            | m :: l' =>
                Forall_cons m
                  (match m as m0 return P (snd m0) with
                   | (k, x) => value_induction x
                   end)
                  (all l')
            end) members)
  end.

End Induction.

(** A value that [JSON.stringify] writes in full and [JSON.parse] reads
    back: its numbers are finite doubles other than -0, and the members
    of its objects are in the order the object lists them (array indices
    first, in ascending order, no key twice), as [JSON.parse] builds
    them. *)
Fixpoint exact (v : value) : Prop :=
  match v with
  | Null | Bool _ | Text _ => True
  | Number (Finite x) => is_double x = true
  | Number _ => False
  | Array items =>
      (fix all (l : list value) : Prop :=
         match l with
         | [] => True
         | x :: l' => exact x /\ all l'
         end) items
  | Object members =>
      define_all members = members /\
      (fix all (l : list (string * value)) : Prop :=
         match l with
         | [] => True
         | m :: l' => exact (snd m) /\ all l'
         end) members
  end.

Lemma exact_array (items : list value) : exact (Array items) <-> Forall exact items.
Proof.
  cbn [exact]. induction items as [| x items IH]; split; intro H.
  - constructor.
  - exact I.
  - destruct H as [Hx Hitems]. constructor; [exact Hx | now apply IH].
  - inversion H as [| ? ? Hx Hitems]; subst. split; [exact Hx | now apply IH].
Qed.

Lemma exact_object (members : list (string * value)) :
  exact (Object members) <->
  define_all members = members /\ Forall (fun m => exact (snd m)) members.
Proof.
  cbn [exact].
  assert (H : (fix all (l : list (string * value)) : Prop :=
                 match l with
                 | [] => True
                 | m :: l' => exact (snd m) /\ all l'
                 end) members
              <-> Forall (fun m => exact (snd m)) members).
  { induction members as [| m members IH]; split; intro H.
    - constructor.
    - exact I.
    - destruct H as [Hm Hmembers]. constructor; [exact Hm | now apply IH].
    - inversion H as [| ? ? Hm Hmembers]; subst. split; [exact Hm | now apply IH]. }
  now rewrite H.
Qed.

(** The fuel [read_value] needs for a value. *)
Fixpoint cost (v : value) : nat :=
  match v with
  | Array items => S (list_sum (map (fun x => S (cost x)) items))
  | Object members => S (list_sum (map (fun m => S (cost (snd m))) members))
  | _ => 1
  end.

(** The first character of a written value. *)
Definition opens_value (c : ascii) : Prop :=
  is_ws c = false /\ Ascii.eqb c "]" = false.

Lemma written_value_head (L : ReferenceJSON.Layout) (d : nat) (v : value) :
  exact v -> exists c r, write L d v = String c r /\ opens_value c.
Proof.
  destruct v as [| [|] | [x | | |] | s | [| x items] | [| m members]]; intro Hv;
    try (eexists; eexists; split; [reflexivity | split; reflexivity]);
    try contradiction.
  cbn [exact] in Hv. destruct (double_text x Hv) as (_ & _ & c & r & Hc & Hclass).
  exists c, r. split; [exact Hc |].
  destruct (numeral_class c Hclass) as (Hw & _ & _ & _ & _ & _ & _ & Hb).
  now split.
Qed.

Lemma skip_ws_before_value (L : ReferenceJSON.Layout) (d : nat) (v : value)
    (ws rest : string) :
  exact v -> blank ws = true ->
  exists c r, skip_ws (ws ++ write L d v ++ rest) = String c r /\
              write L d v ++ rest = String c r /\ opens_value c.
Proof.
  intros Hv Hws. destruct (written_value_head L d v Hv) as (c & r & Hc & Hopen).
  exists c, (r ++ rest). rewrite skip_ws_blank by exact Hws.
  rewrite Hc. cbn [append]. split; [| split; [reflexivity | exact Hopen]].
  apply skip_ws_solid. apply Hopen.
Qed.

(** What the round trip says of one value. *)
Definition reads_back (v : value) : Prop :=
  exact v ->
  forall (L : ReferenceJSON.Layout) (d : nat) (ws rest : string) (fuel : nat),
    layout_ok L -> blank ws = true -> delimited rest -> (cost v <= fuel)%nat ->
    read_value fuel (ws ++ write L d v ++ rest) = Some (v, rest).

Lemma read_items_of_written (L : ReferenceJSON.Layout) (d : nat) (rest : string) :
  layout_ok L ->
  forall items, Forall reads_back items -> Forall exact items ->
  forall x fuel,
    reads_back x -> exact x ->
    (list_sum (map (fun y => S (cost y)) (x :: items)) <= fuel)%nat ->
    read_items fuel
      (ReferenceJSON.line L (S d)
       ++ String.concat ("," ++ ReferenceJSON.line L (S d))
            (map (write L (S d)) (x :: items))
       ++ ReferenceJSON.line L d ++ "]" ++ rest)
    = Some (x :: items, rest).
Proof.
  intros HL items Hitems.
  induction Hitems as [| y items Hy Hitems IH]; intros Hexact x fuel Hx Ex Hfuel.
  - cbn in Hfuel. destruct fuel as [| fuel]; [lia |].
    cbn [map String.concat read_items].
    rewrite Hx; [| exact Ex | exact HL | apply HL | | lia].
    2:{ apply delimited_by_white; [apply HL | reflexivity]. }
    rewrite skip_ws_blank by apply HL. reflexivity.
  - inversion Hexact as [| ? ? Ey Eitems]; subst.
    cbn [map list_sum fold_right] in Hfuel. destruct fuel as [| fuel]; [lia |].
    change (String.concat ("," ++ ReferenceJSON.line L (S d))
              (map (write L (S d)) (x :: y :: items)))
      with (write L (S d) x ++ ("," ++ ReferenceJSON.line L (S d))
            ++ String.concat ("," ++ ReferenceJSON.line L (S d))
                 (map (write L (S d)) (y :: items))).
    rewrite !ReferenceJSON.append_assoc. cbn [read_items].
    rewrite Hx; [| exact Ex | exact HL | apply HL | | lia].
    2:{ cbn. reflexivity. }
    cbn [append skip_ws]. cbv iota.
    change (is_ws ",") with false. cbv iota.
    change (Ascii.eqb "," ",") with true. cbv iota.
    rewrite <- !ReferenceJSON.append_assoc.
    rewrite (ReferenceJSON.append_assoc _ (ReferenceJSON.line L d)).
    rewrite !ReferenceJSON.append_assoc.
    assert (Hrec := IH Eitems y fuel Hy Ey).
    cbn [append] in Hrec. rewrite Hrec; [reflexivity |].
    cbn [map list_sum fold_right]. lia.
Qed.

Lemma read_members_of_written (L : ReferenceJSON.Layout) (d : nat) (rest : string) :
  layout_ok L ->
  forall members, Forall (fun m => reads_back (snd m)) members ->
  Forall (fun m => exact (snd m)) members ->
  forall m fuel,
    reads_back (snd m) -> exact (snd m) ->
    (list_sum (map (fun m' => S (cost (snd m'))) (m :: members)) <= fuel)%nat ->
    read_members fuel
      (ReferenceJSON.line L (S d)
       ++ String.concat ("," ++ ReferenceJSON.line L (S d))
            (map (fun m' => write_string (fst m') ++ ":" ++ ReferenceJSON.gap L
                            ++ write L (S d) (snd m')) (m :: members))
       ++ ReferenceJSON.line L d ++ "}" ++ rest)
    = Some (m :: members, rest).
Proof.
  intros HL members Hmembers.
  assert (Hkey : forall k tail,
             skip_ws (ReferenceJSON.line L (S d) ++ write_string k ++ tail)
             = String quote (escape k ++ String quote tail)).
  { intros k tail. rewrite skip_ws_blank by apply HL.
    unfold write_string. cbn [append]. rewrite ReferenceJSON.append_assoc.
    reflexivity. }
  induction Hmembers as [| m' members Hm' Hmembers IH];
    intros Hexact [k v] fuel Hv Ev Hfuel; cbn [fst snd] in *.
  - cbn in Hfuel. destruct fuel as [| fuel]; [lia |].
    cbn [map String.concat fst snd read_members].
    rewrite !ReferenceJSON.append_assoc, Hkey. rewrite Ascii.eqb_refl.
    destruct (read_written_string k
                (":" ++ ReferenceJSON.gap L ++ write L (S d) v
                 ++ ReferenceJSON.line L d ++ "}" ++ rest)) as (ps & Hread & Hps).
    cbn [append] in Hread |- *. rewrite Hread.
    cbn [skip_ws]. change (is_ws ":") with false. cbv iota.
    rewrite Ascii.eqb_refl.
    rewrite Hv; [| exact Ev | exact HL | apply HL | | lia].
    2:{ apply delimited_by_white; [apply HL | reflexivity]. }
    rewrite skip_ws_blank by apply HL. cbn [skip_ws append].
    change (is_ws "}") with false. cbv iota.
    change (Ascii.eqb "}" ",") with false. cbv iota.
    rewrite Ascii.eqb_refl, Hps. reflexivity.
  - inversion Hexact as [| ? ? Em' Emembers]; subst.
    cbn [map list_sum fold_right fst snd] in Hfuel.
    destruct fuel as [| fuel]; [lia |].
    cbn [map]. cbn [fst snd].
    set (sep := "," ++ ReferenceJSON.line L (S d)) in *.
    set (others := map (fun m0 => write_string (fst m0) ++ ":" ++ ReferenceJSON.gap L
                                  ++ write L (S d) (snd m0)) members) in *.
    change (String.concat sep
              ((write_string k ++ ":" ++ ReferenceJSON.gap L ++ write L (S d) v)
               :: (write_string (fst m') ++ ":" ++ ReferenceJSON.gap L
                   ++ write L (S d) (snd m'))
               :: others))
      with ((write_string k ++ ":" ++ ReferenceJSON.gap L ++ write L (S d) v) ++ sep
            ++ String.concat sep
                 ((write_string (fst m') ++ ":" ++ ReferenceJSON.gap L
                   ++ write L (S d) (snd m'))
                  :: others)).
    rewrite !ReferenceJSON.append_assoc. cbn [read_members]. rewrite Hkey.
    rewrite Ascii.eqb_refl.
    match goal with
    | |- context [read_pieces (escape k ++ String quote ?tail)] =>
        destruct (read_written_string k tail) as (ps & Hread & Hps)
    end.
    rewrite Hread.
    cbn [append skip_ws]. change (is_ws ":") with false. cbv iota.
    rewrite Ascii.eqb_refl.
    rewrite Hv; [| exact Ev | exact HL | apply HL | | lia].
    2:{ subst sep. cbn. reflexivity. }
    subst sep. cbn [append skip_ws].
    change (is_ws ",") with false. cbv iota.
    rewrite Ascii.eqb_refl.
    subst others.
    match goal with
    | |- match ?X with _ => _ end = _ =>
        replace X with (Some (m' :: members, rest)); [now rewrite Hps |]
    end.
    symmetry. apply (IH Emembers m' fuel Hm' Em'). cbn [map list_sum fold_right]. lia.
Qed.

Lemma written_items_head (sep tail : string) (w : value -> string) (x : value)
    (items : list value) :
  exists t, String.concat sep (map w (x :: items)) ++ tail = w x ++ t.
Proof.
  destruct items as [| y items]; cbn [map String.concat].
  - now exists tail.
  - rewrite ReferenceJSON.append_assoc. eexists. reflexivity.
Qed.

Theorem read_value_of_written (v : value) : reads_back v.
Proof.
  induction v as [| b | n | s | items IH | members IH] using value_induction;
    intros Hexact L d ws rest fuel HL Hws Hrest Hfuel;
    (destruct fuel as [| fuel]; [cbn in Hfuel; lia |]).
  - cbn [read_value]. rewrite skip_ws_blank by exact Hws. reflexivity.
  - cbn [read_value]. rewrite skip_ws_blank by exact Hws. now destruct b.
  - destruct n as [x | | |]; try contradiction. cbn [exact] in Hexact.
    destruct (double_text x Hexact) as (Hchars & Hread & c & r & Hc & Hclass).
    destruct (numeral_class c Hclass) as (Hw & H1 & H2 & H3 & H4 & H5 & H6 & _).
    cbn [read_value write write_number]. rewrite skip_ws_blank by exact Hws.
    rewrite Hc. cbn [append]. rewrite skip_ws_solid by exact Hw.
    rewrite H1, H2, H3, H4, H5, H6.
    change (String c (r ++ rest)) with (String c r ++ rest). rewrite <- Hc.
    rewrite span_class; [| exact Hchars | exact Hrest].
    now rewrite Hread.
  - cbn [read_value]. rewrite skip_ws_blank by exact Hws.
    cbn [write]. unfold write_string. cbn [append].
    rewrite skip_ws_solid by reflexivity.
    rewrite Ascii.eqb_refl, ReferenceJSON.append_assoc. cbn [append].
    destruct (read_written_string s rest) as (ps & Hread & Hps).
    now rewrite Hread, Hps.
  - destruct items as [| x items].
    { cbn [read_value]. rewrite skip_ws_blank by exact Hws. reflexivity. }
    apply exact_array in Hexact.
    cbn [write]. rewrite !ReferenceJSON.append_assoc. cbn [append].
    cbn [read_value]. rewrite skip_ws_blank by exact Hws.
    rewrite skip_ws_solid by reflexivity.
    change (Ascii.eqb "[" quote) with false. cbv iota. rewrite Ascii.eqb_refl.
    set (tail := ReferenceJSON.line L d ++ String "]" rest).
    inversion Hexact as [| ? ? Ex Eitems]; subst.
    destruct (written_items_head (String "," (ReferenceJSON.line L (S d))) tail
                (write L (S d)) x items) as (t & Ht).
    destruct (skip_ws_before_value L (S d) x (ReferenceJSON.line L (S d)) t Ex
                (proj1 HL (S d))) as (c & r & Htrim & _ & _ & Hclose).
    rewrite <- Ht in Htrim. rewrite Htrim, Hclose.
    inversion IH as [| ? ? Hx Hitems]; subst.
    cbn [cost map list_sum fold_right] in Hfuel.
    assert (Hread := read_items_of_written L d rest HL items Hitems Eitems x fuel Hx Ex).
    cbn [append] in Hread. subst tail. rewrite Hread; [reflexivity |].
    cbn [map list_sum fold_right]. lia.
  - destruct members as [| [k x] members].
    { cbn [read_value]. rewrite skip_ws_blank by exact Hws. reflexivity. }
    apply exact_object in Hexact. destruct Hexact as [Horder Hexact].
    cbn [write]. rewrite !ReferenceJSON.append_assoc. cbn [append].
    cbn [read_value]. rewrite skip_ws_blank by exact Hws.
    rewrite skip_ws_solid by reflexivity.
    change (Ascii.eqb "{" quote) with false. cbv iota.
    change (Ascii.eqb "{" "[") with false. cbv iota. rewrite Ascii.eqb_refl.
    inversion IH as [| ? ? Hx Hmembers]; subst.
    inversion Hexact as [| ? ? Ex Emembers]; subst.
    cbn [cost map list_sum fold_right snd] in Hfuel.
    assert (Hread := read_members_of_written L d rest HL members Hmembers Emembers
                       (k, x) fuel Hx Ex).
    cbn [append] in Hread.
    match goal with
    | |- match skip_ws ?X with _ => _ end = _ =>
        assert (Hpeek : exists r, skip_ws X = String quote r)
    end.
    { rewrite skip_ws_blank by apply HL.
      destruct members; cbn [map String.concat fst snd]; unfold write_string;
        cbn [append]; rewrite skip_ws_solid by reflexivity; eexists; reflexivity. }
    destruct Hpeek as (r & Hpeek). rewrite Hpeek.
    change (Ascii.eqb quote "}") with false. cbv iota.
    rewrite Hread; [now rewrite Horder |].
    cbn [map list_sum fold_right snd]. lia.
Qed.


(** *** The fuel that [parse] gives is enough *)

Lemma fuel_of_written_text (v : value) :
  exact v ->
  forall (L : ReferenceJSON.Layout) (d : nat), (cost v <= String.length (write L d v))%nat.
Proof.
  induction v as [| b | n | s | items IH | members IH] using value_induction;
    intros Hexact L d.
  - cbn. lia.
  - destruct b; cbn; lia.
  - destruct n as [x | | |]; try contradiction. cbn [exact] in Hexact.
    destruct (double_text x Hexact) as (_ & _ & c & r & Hc & _).
    cbn [cost write write_number]. rewrite Hc. cbn. lia.
  - cbn. lia.
  - destruct items as [| x items]; [cbn; lia |].
    apply exact_array in Hexact.
    cbn [cost write]. rewrite !ReferenceJSON.length_append.
    pose proof (ReferenceJSON.concat_length_bound cost (write L (S d))
                  ("," ++ ReferenceJSON.line L (S d)) (x :: items)) as Hb.
    cbn [append String.length] in Hb |- *.
    assert (Hall : Forall (fun a => (cost a <= String.length (write L (S d) a))%nat)
                          (x :: items)).
    { apply Forall_forall. intros a Ha.
      apply (proj1 (Forall_forall _ _) IH a Ha).
      exact (proj1 (Forall_forall _ _) Hexact a Ha). }
    specialize (Hb ltac:(lia) Hall). lia.
  - destruct members as [| m members]; [cbn; lia |].
    apply exact_object in Hexact. destruct Hexact as [_ Hexact].
    cbn [cost write]. rewrite !ReferenceJSON.length_append.
    pose proof (ReferenceJSON.concat_length_bound (fun m' => cost (snd m'))
                  (fun m' => write_string (fst m') ++ ":" ++ ReferenceJSON.gap L
                             ++ write L (S d) (snd m'))
                  ("," ++ ReferenceJSON.line L (S d)) (m :: members)) as Hb.
    cbn [append String.length] in Hb |- *.
    assert (Hall : Forall (fun a => (cost (snd a) <=
                                     String.length
                                       (write_string (fst a)
                                        ++ String ":" (ReferenceJSON.gap L
                                        ++ write L (S d) (snd a))))%nat)
                          (m :: members)).
    { apply Forall_forall. intros a Ha.
      pose proof (proj1 (Forall_forall _ _) IH a Ha
                    (proj1 (Forall_forall _ _) Hexact a Ha) L (S d)) as Hc.
      rewrite ReferenceJSON.length_append. cbn [String.length].
      rewrite ReferenceJSON.length_append. lia. }
    specialize (Hb ltac:(lia) Hall). lia.
Qed.

(** [JSON.parse] reads what [JSON.stringify] wrote, in either layout. *)
Theorem parse_write (L : ReferenceJSON.Layout) (v : value) :
  layout_ok L -> exact v -> parse (write L 0 v) = JS.Return v.
Proof.
  intros HL Hexact. unfold parse.
  pose proof (read_value_of_written v Hexact L 0%nat "" "" (String.length (write L 0 v))
                HL eq_refl I (fuel_of_written_text v Hexact L 0%nat)) as H.
  cbn [append] in H. rewrite ReferenceJSON.append_empty_r in H. now rewrite H.
Qed.

(** *** What [JSON.parse] returns *)

(** A value that [JSON.parse] returned is written in full as soon as
    it holds no infinity and no -0. *)
Definition exact_when_finite (v : value) : Prop := finite v = true -> exact v.

Lemma exact_when_finite_array (items : list value) :
  Forall exact_when_finite items -> exact_when_finite (Array items).
Proof.
  intros H Hfinite. apply exact_array. cbn [finite] in Hfinite.
  rewrite forallb_forall in Hfinite. apply Forall_forall. intros x Hx.
  exact (proj1 (Forall_forall _ _) H x Hx (Hfinite x Hx)).
Qed.

Lemma exact_when_finite_object (written : list (string * value)) :
  Forall (fun m => exact_when_finite (snd m)) written ->
  exact_when_finite (Object (define_all written)).
Proof.
  intros H Hfinite. apply exact_object. split; [apply define_all_idempotent |].
  cbn [finite] in Hfinite. rewrite forallb_forall in Hfinite.
  apply Forall_forall. intros m Hm.
  exact (proj1 (Forall_forall _ _) H m (define_all_members _ _ Hm) (Hfinite m Hm)).
Qed.

Lemma read_exact_when_finite (fuel : nat) :
  (forall s v rest, read_value fuel s = Some (v, rest) -> exact_when_finite v) /\
  (forall s vs rest, read_items fuel s = Some (vs, rest) -> Forall exact_when_finite vs) /\
  (forall s ms rest, read_members fuel s = Some (ms, rest) ->
                     Forall (fun m => exact_when_finite (snd m)) ms).
Proof.
  induction fuel as [| fuel (IHv & IHi & IHm)].
  { repeat split; intros; discriminate. }
  split; [| split].
  - intros s v rest. cbn [read_value].
    destruct (skip_ws s) as [| c r]; [discriminate |].
    destruct (Ascii.eqb c quote).
    { destruct (read_pieces r) as [[ps r'] |]; [| discriminate].
      intros [= <- _] _. exact I. }
    destruct (Ascii.eqb c "[").
    { destruct (skip_ws r) as [| c' r']; [discriminate |].
      destruct (Ascii.eqb c' "]"); [intros [= <- _] _; exact I |].
      destruct (read_items fuel r) as [[items r''] |] eqn:E; [| discriminate].
      intros [= <- _]. apply exact_when_finite_array. exact (IHi _ _ _ E). }
    destruct (Ascii.eqb c "{").
    { destruct (skip_ws r) as [| c' r']; [discriminate |].
      destruct (Ascii.eqb c' "}"); [intros [= <- _] _; now split |].
      destruct (read_members fuel r) as [[written r''] |] eqn:E; [| discriminate].
      intros [= <- _]. apply exact_when_finite_object. exact (IHm _ _ _ E). }
    destruct (Ascii.eqb c "n").
    { destruct (ReferenceJSON.strip "ull" r); [| discriminate]. intros [= <- _] _. exact I. }
    destruct (Ascii.eqb c "t").
    { destruct (ReferenceJSON.strip "rue" r); [| discriminate]. intros [= <- _] _. exact I. }
    destruct (Ascii.eqb c "f").
    { destruct (ReferenceJSON.strip "alse" r); [| discriminate]. intros [= <- _] _. exact I. }
    destruct (span numeral_char (String c r)) as [numeral r'].
    destruct (read_numeral numeral) as [n |] eqn:E; [| discriminate].
    intros [= <- _] Hfinite. destruct n as [y | | |]; try discriminate.
    cbn [exact]. now apply (read_numeral_is_double numeral).
  - intros s vs rest. cbn [read_items].
    destruct (read_value fuel s) as [[v r] |] eqn:Ev; [| discriminate].
    destruct (skip_ws r) as [| c r']; [discriminate |].
    destruct (Ascii.eqb c ",").
    { destruct (read_items fuel r') as [[vs' r''] |] eqn:Ei; [| discriminate].
      intros [= <- _]. constructor; [exact (IHv _ _ _ Ev) | exact (IHi _ _ _ Ei)]. }
    destruct (Ascii.eqb c "]"); [| discriminate].
    intros [= <- _]. constructor; [exact (IHv _ _ _ Ev) | constructor].
  - intros s ms rest. cbn [read_members].
    destruct (skip_ws s) as [| c r]; [discriminate |].
    destruct (Ascii.eqb c quote); [| discriminate].
    destruct (read_pieces r) as [[key r1] |]; [| discriminate].
    destruct (skip_ws r1) as [| c1 r2]; [discriminate |].
    destruct (Ascii.eqb c1 ":"); [| discriminate].
    destruct (read_value fuel r2) as [[v r3] |] eqn:Ev; [| discriminate].
    destruct (skip_ws r3) as [| c3 r4]; [discriminate |].
    destruct (Ascii.eqb c3 ",").
    { destruct (read_members fuel r4) as [[ms' r5] |] eqn:Em; [| discriminate].
      intros [= <- _]. constructor; [exact (IHv _ _ _ Ev) | exact (IHm _ _ _ Em)]. }
    destruct (Ascii.eqb c3 "}"); [| discriminate].
    intros [= <- _]. constructor; [exact (IHv _ _ _ Ev) | constructor].
Qed.

(** A value that [JSON.parse] returned and that holds no infinity and
    no -0 is written in full. *)
Theorem parsed_exact (text : string) (v : value) :
  parse text = JS.Return v -> finite v = true -> exact v.
Proof.
  unfold parse.
  destruct (read_value (String.length text) text) as [[v' rest] |] eqn:E; [| discriminate].
  destruct (skip_ws rest); [| discriminate].
  intros [= <-]. exact (proj1 (read_exact_when_finite _) _ _ _ E).
Qed.

(** *** The fuel of [parse] *)

Lemma skip_ws_length (s : string) : (String.length (skip_ws s) <= String.length s)%nat.
Proof.
  induction s as [| c s IH]; cbn [skip_ws]; [lia |].
  destruct (is_ws c); cbn [String.length]; lia.
Qed.

Lemma read_pieces_length (s : string) :
  forall ps r, read_pieces s = Some (ps, r) -> (String.length r < String.length s)%nat.
Proof.
  induction s as [s IH] using (well_founded_induction
                                 (Wf_nat.well_founded_ltof _ String.length)).
  unfold Wf_nat.ltof in IH.
  intros ps r. destruct s as [| c rest]; cbn [read_pieces]; [discriminate |].
  destruct (Ascii.eqb c quote); [intros [= _ <-]; cbn; lia |].
  destruct (Ascii.eqb c backslash).
  - destruct rest as [| e rest1]; [discriminate |].
    destruct (Ascii.eqb e "u").
    + destruct rest1 as [| h1 [| h2 [| h3 [| h4 rest2]]]]; try discriminate.
      destruct (hex_value h1), (hex_value h2), (hex_value h3), (hex_value h4);
        try discriminate.
      destruct (read_pieces rest2) as [[ps' r'] |] eqn:E; [| discriminate].
      intros [= _ <-]. apply IH in E; cbn [String.length] in *; lia.
    + destruct (simple_escape e); [| discriminate].
      destruct (read_pieces rest1) as [[ps' r'] |] eqn:E; [| discriminate].
      intros [= _ <-]. apply IH in E; cbn [String.length] in *; lia.
  - destruct (nat_of_ascii c <? 32)%nat; [discriminate |].
    destruct (read_pieces rest) as [[ps' r'] |] eqn:E; [| discriminate].
    intros [= _ <-]. apply IH in E; cbn [String.length] in *; lia.
Qed.

Lemma strip_length (p s r : string) :
  ReferenceJSON.strip p s = Some r -> (String.length r <= String.length s)%nat.
Proof.
  revert s. induction p as [| a p IH]; intros s; cbn [ReferenceJSON.strip].
  - intros [= <-]. lia.
  - destruct s as [| b s]; [discriminate |].
    destruct (Ascii.eqb a b); [| discriminate].
    intro H. apply IH in H. cbn [String.length]. lia.
Qed.

Lemma span_length (class : ascii -> bool) (s : string) :
  String.length s
  = (String.length (fst (span class s)) + String.length (snd (span class s)))%nat.
Proof.
  induction s as [| c s IH]; cbn [span]; [reflexivity |].
  destruct (class c); [| reflexivity].
  destruct (span class s) as [taken r]. cbn [fst snd String.length] in *. lia.
Qed.

(** As many units of fuel as the value has characters are enough. *)
Lemma fuel_of_characters (fuel : nat) :
  (forall s v rest, read_value fuel s = Some (v, rest) ->
     (String.length rest < String.length s)%nat /\
     forall more, (String.length s - String.length rest <= more)%nat ->
                  read_value more s = Some (v, rest)) /\
  (forall s vs rest, read_items fuel s = Some (vs, rest) ->
     (String.length rest < String.length s)%nat /\
     forall more, (String.length s - String.length rest <= more)%nat ->
                  read_items more s = Some (vs, rest)) /\
  (forall s ms rest, read_members fuel s = Some (ms, rest) ->
     (String.length rest < String.length s)%nat /\
     forall more, (String.length s - String.length rest <= more)%nat ->
                  read_members more s = Some (ms, rest)).
Proof.
  induction fuel as [| fuel (IHv & IHi & IHm)].
  { repeat split; intros; discriminate. }
  split; [| split].
  - intros s v rest. cbn [read_value].
    pose proof (skip_ws_length s) as Hws.
    destruct (skip_ws s) as [| c r] eqn:Es; [discriminate |].
    cbn [String.length] in Hws.
    destruct (Ascii.eqb c quote) eqn:C1.
    { destruct (read_pieces r) as [[ps r'] |] eqn:E; [| discriminate].
      intros [= <- <-]. pose proof (read_pieces_length _ _ _ E) as Hl.
      split; [lia |]. intros [| more] Hmore; [lia |].
      cbn [read_value]. now rewrite Es, C1, E. }
    destruct (Ascii.eqb c "[") eqn:C2.
    { pose proof (skip_ws_length r) as Hws'.
      destruct (skip_ws r) as [| c' r'] eqn:Er; [discriminate |].
      cbn [String.length] in Hws'.
      destruct (Ascii.eqb c' "]") eqn:C3.
      { intros [= <- <-]. split; [lia |]. intros [| more] Hmore; [lia |].
        cbn [read_value]. now rewrite Es, C1, C2, Er, C3. }
      destruct (read_items fuel r) as [[items r''] |] eqn:E; [| discriminate].
      intros [= <- <-]. destruct (IHi _ _ _ E) as [Hl Hmore].
      split; [lia |]. intros [| more] Hm; [lia |].
      cbn [read_value]. rewrite Es, C1, C2, Er, C3.
      rewrite (Hmore more) by lia. reflexivity. }
    destruct (Ascii.eqb c "{") eqn:C3.
    { pose proof (skip_ws_length r) as Hws'.
      destruct (skip_ws r) as [| c' r'] eqn:Er; [discriminate |].
      cbn [String.length] in Hws'.
      destruct (Ascii.eqb c' "}") eqn:C4.
      { intros [= <- <-]. split; [lia |]. intros [| more] Hmore; [lia |].
        cbn [read_value]. now rewrite Es, C1, C2, C3, Er, C4. }
      destruct (read_members fuel r) as [[written r''] |] eqn:E; [| discriminate].
      intros [= <- <-]. destruct (IHm _ _ _ E) as [Hl Hmore].
      split; [lia |]. intros [| more] Hm; [lia |].
      cbn [read_value]. rewrite Es, C1, C2, C3, Er, C4.
      rewrite (Hmore more) by lia. reflexivity. }
    destruct (Ascii.eqb c "n") eqn:C4.
    { destruct (ReferenceJSON.strip "ull" r) as [r' |] eqn:E; [| discriminate].
      intros [= <- <-]. pose proof (strip_length _ _ _ E) as Hl.
      split; [lia |]. intros [| more] Hm; [lia |].
      cbn [read_value]. now rewrite Es, C1, C2, C3, C4, E. }
    destruct (Ascii.eqb c "t") eqn:C5.
    { destruct (ReferenceJSON.strip "rue" r) as [r' |] eqn:E; [| discriminate].
      intros [= <- <-]. pose proof (strip_length _ _ _ E) as Hl.
      split; [lia |]. intros [| more] Hm; [lia |].
      cbn [read_value]. now rewrite Es, C1, C2, C3, C4, C5, E. }
    destruct (Ascii.eqb c "f") eqn:C6.
    { destruct (ReferenceJSON.strip "alse" r) as [r' |] eqn:E; [| discriminate].
      intros [= <- <-]. pose proof (strip_length _ _ _ E) as Hl.
      split; [lia |]. intros [| more] Hm; [lia |].
      cbn [read_value]. now rewrite Es, C1, C2, C3, C4, C5, C6, E. }
    pose proof (span_length numeral_char (String c r)) as Hspan.
    destruct (span numeral_char (String c r)) as [numeral r'] eqn:E.
    cbn [fst snd String.length] in Hspan.
    destruct (read_numeral numeral) as [n |] eqn:En; [| discriminate].
    intros [= <- <-].
    assert (Hne : (1 <= String.length numeral)%nat).
    { destruct numeral; [discriminate En | cbn; lia]. }
    split; [lia |]. intros [| more] Hm; [lia |].
    cbn [read_value]. now rewrite Es, C1, C2, C3, C4, C5, C6, E, En.
  - intros s vs rest. cbn [read_items].
    destruct (read_value fuel s) as [[v r] |] eqn:Ev; [| discriminate].
    destruct (IHv _ _ _ Ev) as [Hlv Hmv].
    pose proof (skip_ws_length r) as Hws.
    destruct (skip_ws r) as [| c r'] eqn:Er; [discriminate |].
    cbn [String.length] in Hws.
    destruct (Ascii.eqb c ",") eqn:C1.
    { destruct (read_items fuel r') as [[vs' r''] |] eqn:Ei; [| discriminate].
      intros [= <- <-]. destruct (IHi _ _ _ Ei) as [Hli Hmi].
      split; [lia |]. intros [| more] Hm; [lia |].
      cbn [read_items]. rewrite (Hmv more) by lia. rewrite Er, C1.
      rewrite (Hmi more) by lia. reflexivity. }
    destruct (Ascii.eqb c "]") eqn:C2; [| discriminate].
    intros [= <- <-]. split; [lia |]. intros [| more] Hm; [lia |].
    cbn [read_items]. rewrite (Hmv more) by lia. now rewrite Er, C1, C2.
  - intros s ms rest. cbn [read_members].
    pose proof (skip_ws_length s) as Hws.
    destruct (skip_ws s) as [| c r] eqn:Es; [discriminate |].
    cbn [String.length] in Hws.
    destruct (Ascii.eqb c quote) eqn:C1; [| discriminate].
    destruct (read_pieces r) as [[key r1] |] eqn:Ek; [| discriminate].
    pose proof (read_pieces_length _ _ _ Ek) as Hlk.
    pose proof (skip_ws_length r1) as Hws1.
    destruct (skip_ws r1) as [| c1 r2] eqn:E1; [discriminate |].
    cbn [String.length] in Hws1.
    destruct (Ascii.eqb c1 ":") eqn:C2; [| discriminate].
    destruct (read_value fuel r2) as [[v r3] |] eqn:Ev; [| discriminate].
    destruct (IHv _ _ _ Ev) as [Hlv Hmv].
    pose proof (skip_ws_length r3) as Hws3.
    destruct (skip_ws r3) as [| c3 r4] eqn:E3; [discriminate |].
    cbn [String.length] in Hws3.
    destruct (Ascii.eqb c3 ",") eqn:C3.
    { destruct (read_members fuel r4) as [[ms' r5] |] eqn:Em; [| discriminate].
      intros [= <- <-]. destruct (IHm _ _ _ Em) as [Hlm Hmm].
      split; [lia |]. intros [| more] Hm; [lia |].
      cbn [read_members]. rewrite Es, C1, Ek, E1, C2.
      rewrite (Hmv more) by lia. rewrite E3, C3.
      rewrite (Hmm more) by lia. reflexivity. }
    destruct (Ascii.eqb c3 "}") eqn:C4; [| discriminate].
    intros [= <- <-]. split; [lia |]. intros [| more] Hm; [lia |].
    cbn [read_members]. rewrite Es, C1, Ek, E1, C2.
    rewrite (Hmv more) by lia. now rewrite E3, C3, C4.
Qed.

(** [parse] never fails for lack of fuel: what any amount of fuel reads
    from a text, the length of the text reads. *)
Theorem fuel_is_enough (text : string) (fuel : nat) (v : value) (rest : string) :
  read_value fuel text = Some (v, rest) ->
  read_value (String.length text) text = Some (v, rest).
Proof.
  intro H. destruct (proj1 (fuel_of_characters fuel) _ _ _ H) as [_ Hmore].
  apply Hmore. lia.
Qed.

End PlatformFacts.

(** The platform on some texts: numerals as they are read and written
    again. *)
Example numerals_read_and_written :
  map (fun text => option_map Platform.write_number (Platform.read_numeral text))
      ["0.1"; "1e21"; "1E-7"; "0.000001"; "123456789012345680000"; "5e-324";
       "9007199254740993"; "0.30000000000000004"; "1e400"; "-0"; "01"; "1."; "+1"]
  = [Some "0.1"; Some "1e+21"; Some "1e-7"; Some "0.000001";
     Some "123456789012345680000"; Some "5e-324"; Some "9007199254740992";
     Some "0.30000000000000004"; Some "null"; Some "0"; None; None; None].
Proof. vm_compute. reflexivity. Qed.

(** The members of an object come back in the order of their keys: the
    array indices first, ascending, and a key written twice once, with
    its last value. *)
Example members_in_key_order :
  Platform.parse
    ("{" ++ Platform.write_string "b" ++ ":1," ++ Platform.write_string "10" ++ ":2, "
     ++ Platform.write_string "9" ++ ":[true, null]," ++ Platform.write_string "b"
     ++ ": 4}")
  = JS.Return
      (Platform.Object
         [("9", Platform.Array [Platform.Bool true; Platform.Null]);
          ("10", Platform.Number (Platform.Finite 2));
          ("b", Platform.Number (Platform.Finite 4))]).
Proof. vm_compute. reflexivity. Qed.

Example parse_rejects :
  map (fun text => match Platform.parse text with JS.Return _ => true | JS.Throw _ => false end)
      [""; "[1,]"; "[1 2]"; "nul"; "{}x"; "[-]"; " [ ] "; "-0"]
  = [false; false; false; false; false; false; true; true].
Proof. vm_compute. reflexivity. Qed.

(** ** The round trip of the history *)

(** C7, as amended.  Take a store whose history is a list in which
    every number is finite and not -0.  The text that
    [exportGenerationHistory] returns is accepted by
    [importGenerationHistory] on a store in any state, which then holds
    that text, and the history loaded from it is the list that was
    exported.  When the write fails the import answers false and leaves
    the store as it was. *)
Theorem import_of_export_restores_history (st target : VideoApi.Storage)
    (items : list Platform.value) :
  PlatformStore.getGenerationHistory st = Platform.Array items ->
  forallb Platform.finite items = true ->
  let data := PlatformStore.exportGenerationHistory st in
  PlatformStore.importGenerationHistory data target true = (true, Some data) /\
  PlatformStore.getGenerationHistory
    (snd (PlatformStore.importGenerationHistory data target true))
  = Platform.Array items /\
  PlatformStore.importGenerationHistory data target false = (false, target).
Proof.
  intros Hload Hfinite data.
  assert (Hexact : PlatformFacts.exact (Platform.Array items)).
  { unfold PlatformStore.getGenerationHistory in Hload.
    destruct st as [history |]; [destruct (JS.truthy history) |].
    - destruct (Platform.parse history) as [v | e] eqn:E.
      + subst v. now apply (PlatformFacts.parsed_exact history).
      + injection Hload as <-. exact I.
    - injection Hload as <-. exact I.
    - injection Hload as <-. exact I. }
  assert (Hparse : Platform.parse data = JS.Return (Platform.Array items)).
  { subst data. unfold PlatformStore.exportGenerationHistory, Platform.stringify_indented.
    rewrite Hload. apply PlatformFacts.parse_write.
    - exact PlatformFacts.indented_layout_white.
    - exact Hexact. }
  assert (Hdata : JS.truthy data = true).
  { destruct data; [discriminate Hparse | reflexivity]. }
  unfold PlatformStore.importGenerationHistory. rewrite Hparse.
  cbn [Platform.isArray snd]. repeat split.
  unfold PlatformStore.getGenerationHistory. now rewrite Hdata, Hparse.
Qed.

(** The record that a save stored, exported and imported into an empty
    store. *)
Lemma import_of_export_on_a_saved_record :
  let st := PlatformStore.saveGenerationToHistory PlatformStore.sunset_record None true in
  let data := PlatformStore.exportGenerationHistory st in
  PlatformStore.getGenerationHistory st = Platform.Array [PlatformStore.sunset_record] /\
  PlatformStore.importGenerationHistory data None true = (true, Some data) /\
  PlatformStore.getGenerationHistory
    (snd (PlatformStore.importGenerationHistory data None true))
  = Platform.Array [PlatformStore.sunset_record] /\
  PlatformStore.importGenerationHistory data None false = (false, None).
Proof.
  assert (Hload : PlatformStore.getGenerationHistory
                    (PlatformStore.saveGenerationToHistory
                       PlatformStore.sunset_record None true)
                  = Platform.Array [PlatformStore.sunset_record])
    by (vm_compute; reflexivity).
  split; [exact Hload |].
  apply (import_of_export_restores_history _ None [PlatformStore.sunset_record] Hload).
  reflexivity.
Defined.

(** C7, as stated, fails.  The import accepts the text [[1e400]], whose
    numeral is beyond the doubles: the history loaded from it is the list
    of the number Infinity.  [JSON.stringify] writes Infinity as null, so
    the export is the text of the list of null; the import of that text
    succeeds, and the history loaded afterwards holds null where the
    exported one held Infinity. *)
Lemma import_of_export_loses_an_overflowing_number :
  let st := snd (PlatformStore.importGenerationHistory "[1e400]" None true) in
  let data := PlatformStore.exportGenerationHistory st in
  st = Some "[1e400]" /\
  PlatformStore.getGenerationHistory st
  = Platform.Array [Platform.Number Platform.PositiveInfinity] /\
  data = "[" ++ String ReferenceJSON.newline "  null"
             ++ String ReferenceJSON.newline "]" /\
  PlatformStore.importGenerationHistory data st true = (true, Some data) /\
  PlatformStore.getGenerationHistory
    (snd (PlatformStore.importGenerationHistory data st true))
  = Platform.Array [Platform.Null] /\
  PlatformStore.getGenerationHistory
    (snd (PlatformStore.importGenerationHistory data st true))
  <> PlatformStore.getGenerationHistory st.
Proof. vm_compute. repeat split. discriminate. Qed.

(** The same loss for -0, which [JSON.stringify] writes as 0. *)
Example import_of_export_loses_the_sign_of_zero :
  let st := Some "[-0]" in
  let data := PlatformStore.exportGenerationHistory st in
  PlatformStore.getGenerationHistory st
  = Platform.Array [Platform.Number Platform.NegativeZero] /\
  PlatformStore.getGenerationHistory
    (snd (PlatformStore.importGenerationHistory data st true))
  = Platform.Array [Platform.Number (Platform.Finite 0)].
Proof. vm_compute. split; reflexivity. Qed.
